(** * Bible timeline pipeline: event extraction, quota selection,
      chronology validation, parallel matching and normalization

    A shallow embedding of the algorithmic core of
    [scripts/build_research_dataset.py], [scripts/enrich_gospel_parallels.py]
    and [scripts/build_web_data.py], with the properties of the
    specification stated and proved over it.

    Conventions of the embedding:
    - a Python [str] is the list of its Unicode code points ([pystr]);
    - a Python [int] is a [Z];
    - a [dict] used as a map is a [gmap], a [set] is a [gset]; a [dict]
      whose iteration order matters is an association list;
    - a function that can raise returns a [result]; a loop whose
      termination is not structural takes fuel and returns [None] when it
      runs out, and is proved to return within the fuel it is given. *)

From Stdlib Require Import ZArith NArith QArith Lia String Ascii.
From stdpp Require Import gmap list sorting.

Local Open Scope Z_scope.

(** ** Python strings *)

Abbreviation pystr := (list N).

(** The code points of a UTF-8 byte sequence. *)
Fixpoint utf8_decode (bs : list N) : pystr :=
  match bs with
  | [] => []
  | b0 :: r0 =>
      if (b0 <? 128)%N then b0 :: utf8_decode r0
      else
        match r0 with
        | b1 :: r1 =>
            if (b0 <? 224)%N then ((b0 - 192) * 64 + (b1 - 128))%N :: utf8_decode r1
            else
              match r1 with
              | b2 :: r2 =>
                  if (b0 <? 240)%N then
                    ((b0 - 224) * 4096 + (b1 - 128) * 64 + (b2 - 128))%N
                    :: utf8_decode r2
                  else
                    match r2 with
                    | b3 :: r3 =>
                        ((b0 - 240) * 262144 + (b1 - 128) * 4096
                         + (b2 - 128) * 64 + (b3 - 128))%N
                        :: utf8_decode r3
                    | [] => []
                    end
              | [] => []
              end
        | [] => []
        end
  end.

(** A string literal of this file (UTF-8) as a Python string. *)
Definition py (s : string) : pystr :=
  utf8_decode ((λ a, N_of_ascii a) <$> list_ascii_of_string s).

(** [str.isspace] on one code point; the class [\s] of [re] on [str]
    patterns is the same set. *)
Definition is_space (c : N) : bool :=
  (((9 <=? c) && (c <=? 13)) || ((28 <=? c) && (c <=? 32))
   || (c =? 133) || (c =? 160) || (c =? 5760)
   || ((8192 <=? c) && (c <=? 8202))
   || (c =? 8232) || (c =? 8233) || (c =? 8239) || (c =? 8287)
   || (c =? 12288))%N.

Fixpoint lstrip (s : pystr) : pystr :=
  match s with
  | c :: r => if is_space c then lstrip r else s
  | [] => []
  end.

Definition rstrip (s : pystr) : pystr := reverse (lstrip (reverse s)).

(** [str.strip()] *)
Definition strip (s : pystr) : pystr := rstrip (lstrip s).

(** [str.lower()] on the ASCII letters. Python also maps non-ASCII cased
    letters; the only code point outside ASCII whose lowercase is an ASCII
    letter is U+212A (to [k]), so comparing a lowered string with a word
    that has no [k] in it, as [normalize_evidence] does, gives the same
    answer here as in Python. *)
Definition lower_cp (c : N) : N :=
  if ((65 <=? c) && (c <=? 90))%N then (c + 32)%N else c.

Definition lower (s : pystr) : pystr := lower_cp <$> s.

(** ** Decimal numerals *)

Definition digit_val (c : N) : option Z :=
  if ((48 <=? c) && (c <=? 57))%N then Some (Z.of_N (c - 48)) else None.

(** Digits, with single underscores allowed between two digits. *)
Fixpoint parse_digits (acc : Z) (after_digit : bool) (s : pystr) : option Z :=
  match s with
  | [] => if after_digit then Some acc else None
  | c :: r =>
      if (c =? 95)%N then
        if after_digit then parse_digits acc false r else None
      else
        match digit_val c with
        | Some d => parse_digits (10 * acc + d) true r
        | None => None
        end
  end.

(** [int(s)] for a string: surrounding whitespace, an optional sign and an
    ASCII decimal numeral. [None] stands for [ValueError]. (Numerals written
    with non-ASCII decimal digits are outside the model.) *)
Definition py_int (s : pystr) : option Z :=
  match strip s with
  | 43%N :: r => parse_digits 0 false r
  | 45%N :: r => Z.opp <$> parse_digits 0 false r
  | r => parse_digits 0 false r
  end.

(** The decimal digits of a non-negative integer, most significant first. *)
Fixpoint to_digits (fuel : nat) (n : Z) (acc : pystr) : pystr :=
  match fuel with
  | O => acc
  | S f =>
      let acc' := (48 + Z.to_N (n mod 10))%N :: acc in
      if n / 10 =? 0 then acc' else to_digits f (n / 10) acc'
  end.

Definition decimal (n : Z) : pystr := to_digits (S (Z.to_nat n)) n [].

(** [f"{n:0wd}"] for [0 <= n]. *)
Definition zero_padded (w : nat) (n : Z) : pystr :=
  let ds := decimal n in
  replicate (w - length ds) 48%N ++ ds.

(** [str(n)], as an f-string renders an integer. *)
Definition str_of_int (n : Z) : pystr :=
  if n <? 0 then 45%N :: decimal (- n) else decimal n.

(** ** Results of functions that can raise *)

Inductive result (E A : Type) : Type :=
| Ok (a : A)
| Err (e : E).
Arguments Ok {E A} a.
Arguments Err {E A} e.

Definition is_ok {E A} (r : result E A) : Prop := ∃ a, r = Ok a.
Definition is_err {E A} (r : result E A) : Prop := ∃ e, r = Err e.

(** ** Stable sorting

    [list.sort(key=...)] and [sorted(...)] are stable: elements with equal
    keys keep their order. [stable_sort lt] is insertion sort, where
    [lt a b] says that the key of [a] is strictly before the key of [b]
    (for [reverse=True], strictly greater). *)

Section stable_sort.
Context {A : Type} (lt : A → A → bool).

Fixpoint insert_sorted (x : A) (l : list A) : list A :=
  match l with
  | [] => [x]
  | y :: r => if lt y x then y :: insert_sorted x r else x :: y :: r
  end.

Definition stable_sort (l : list A) : list A := foldr insert_sorted [] l.
End stable_sort.

(** * Timeline normalizer ([scripts/build_web_data.py], research mode) *)

(** ** Rows of the curated snapshot, as [csv.DictReader] yields them *)

Module EventRow.
Record t := mk {
  event_id : pystr;
  testament : pystr;
  book : pystr;
  event_title : pystr;
  event_summary : pystr;
  lane_tag : pystr;
  sequence_index : pystr;
  track_id : pystr;
  certainty_level : pystr;
}.
End EventRow.

Module EvidenceRow.
Record t := mk {
  evidence_id : pystr;
  event_id : pystr;
  evidence_tier : pystr;
  reference : pystr;
  verse_text_kr : pystr;
  translation : pystr;
  is_parallel : pystr;
  note : pystr;
}.
End EvidenceRow.

Module EdgeRow.
Record t := mk {
  edge_id : pystr;
  from_event_id : pystr;
  to_event_id : pystr;
  relation_type : pystr;
  basis_reference : pystr;
  track_id : pystr;
}.
End EdgeRow.

(** ** Entries of the output payload *)

Module Event.
Record t := mk {
  event_id : pystr;
  lane_tag : pystr;
  sequence_index : Z;
  book : pystr;
  event_title : pystr;
  event_summary : pystr;
  certainty_level : pystr;
}.
End Event.

(** The dict [base] of [normalize_evidence]; the key ["note"] is present on
    parallel entries only. *)
Module Evidence.
Record t := mk {
  reference : pystr;
  verse_text_kr : pystr;
  note : option pystr;
}.
End Evidence.

(** [{"direct": [...], "parallel": [...]}] *)
Module Bucket.
Record t := mk {
  direct : list Evidence.t;
  parallel : list Evidence.t;
}.
End Bucket.

Module Edge.
Record t := mk {
  from_event_id : pystr;
  to_event_id : pystr;
  relation_type : pystr;
}.
End Edge.

(** The [ValueError]s of the normalizer. *)
Inductive web_error : Type :=
| DuplicateEventId (event_id : pystr)
| InvalidInt (text : pystr)
| UnknownEventReference (event_id : pystr)
| TranslationNotSingle (translations : list pystr)
| MissingDirect (event_id : pystr)
| UnknownEdgeEvent (frm to : pystr).

Definition CERTAINTY_SET : gset pystr :=
  {[ py "high"; py "medium"; py "low"; py "disputed" ]}.

(** ** [normalize_events] *)

Definition normalize_certainty (raw : pystr) : pystr :=
  let certainty := strip raw in
  if decide (certainty ∉ CERTAINTY_SET) then py "medium" else certainty.

Fixpoint normalize_events_loop (rows : list EventRow.t) (seen_ids : gset pystr)
    (events : list Event.t) : result web_error (list Event.t) :=
  match rows with
  | [] => Ok events
  | row :: rest =>
      let event_id := strip (EventRow.event_id row) in
      if decide (event_id ∈ seen_ids) then Err (DuplicateEventId event_id)
      else
        let seen_ids := {[ event_id ]} ∪ seen_ids in
        let certainty := normalize_certainty (EventRow.certainty_level row) in
        match py_int (EventRow.sequence_index row) with
        | None => Err (InvalidInt (EventRow.sequence_index row))
        | Some seq =>
            normalize_events_loop rest seen_ids
              (events ++ [ {| Event.event_id := event_id;
                              Event.lane_tag := strip (EventRow.lane_tag row);
                              Event.sequence_index := seq;
                              Event.book := strip (EventRow.book row);
                              Event.event_title := strip (EventRow.event_title row);
                              Event.event_summary := strip (EventRow.event_summary row);
                              Event.certainty_level := certainty |} ])
        end
  end.

Definition normalize_events (rows : list EventRow.t)
    : result web_error (list Event.t) :=
  match normalize_events_loop rows ∅ [] with
  | Ok events =>
      Ok (stable_sort
            (λ a b, Event.sequence_index a <? Event.sequence_index b) events)
  | Err e => Err e
  end.

(** ** [normalize_evidence] *)

Definition empty_bucket : Bucket.t := {| Bucket.direct := []; Bucket.parallel := [] |}.

Definition evidence_base (row : EvidenceRow.t) : Evidence.t :=
  {| Evidence.reference := strip (EvidenceRow.reference row);
     Evidence.verse_text_kr := strip (EvidenceRow.verse_text_kr row);
     Evidence.note := None |}.

Definition evidence_with_note (row : EvidenceRow.t) : Evidence.t :=
  {| Evidence.reference := strip (EvidenceRow.reference row);
     Evidence.verse_text_kr := strip (EvidenceRow.verse_text_kr row);
     Evidence.note := Some (strip (EvidenceRow.note row)) |}.

(** The tier as the normalizer reads it. *)
Definition row_tier (row : EvidenceRow.t) : pystr :=
  lower (strip (EvidenceRow.evidence_tier row)).

Fixpoint normalize_evidence_loop (rows : list EvidenceRow.t)
    (evidence_by_event : gmap pystr Bucket.t) (translation_set : gset pystr)
    : result web_error (gmap pystr Bucket.t * gset pystr) :=
  match rows with
  | [] => Ok (evidence_by_event, translation_set)
  | row :: rest =>
      let event_id := strip (EvidenceRow.event_id row) in
      match evidence_by_event !! event_id with
      | None => Err (UnknownEventReference event_id)
      | Some bucket =>
          let tier := row_tier row in
          let translation := strip (EvidenceRow.translation row) in
          let translation_set := {[ translation ]} ∪ translation_set in
          let bucket :=
            if decide (tier = py "parallel") then
              {| Bucket.direct := Bucket.direct bucket;
                 Bucket.parallel := Bucket.parallel bucket ++ [evidence_with_note row] |}
            else
              {| Bucket.direct := Bucket.direct bucket ++ [evidence_base row];
                 Bucket.parallel := Bucket.parallel bucket |} in
          normalize_evidence_loop rest (<[event_id := bucket]> evidence_by_event)
            translation_set
      end
  end.

Definition bucket_size (b : Bucket.t) : Z :=
  Z.of_nat (length (Bucket.direct b)) + Z.of_nat (length (Bucket.parallel b)).

(** The events whose direct bucket is empty, in the iteration order of the
    dict (which is the iteration order of the set [event_ids]; the model
    fixes one order, and no statement below depends on it). *)
Definition missing_direct (evidence_by_event : gmap pystr Bucket.t) : list pystr :=
  fst <$> filter (λ kv, Bucket.direct (snd kv) = []) (map_to_list evidence_by_event).

Definition normalize_evidence (rows : list EvidenceRow.t) (event_ids : gset pystr)
    : result web_error (gmap pystr Bucket.t * pystr * Z) :=
  match normalize_evidence_loop rows (gset_to_gmap empty_bucket event_ids) ∅ with
  | Err e => Err e
  | Ok (evidence_by_event, translation_set) =>
      match elements translation_set with
      | [translation] =>
          let total_evidence :=
            foldr Z.add 0 (bucket_size ∘ snd <$> map_to_list evidence_by_event) in
          match missing_direct evidence_by_event with
          | event_id :: _ => Err (MissingDirect event_id)
          | [] => Ok (evidence_by_event, translation, total_evidence)
          end
      | translations => Err (TranslationNotSingle translations)
      end
  end.

(** ** [normalize_edges] *)

Fixpoint normalize_edges_loop (rows : list EdgeRow.t) (event_ids : gset pystr)
    (by_track : gmap pystr (list Edge.t)) : result web_error (gmap pystr (list Edge.t)) :=
  match rows with
  | [] => Ok by_track
  | row :: rest =>
      let frm := strip (EdgeRow.from_event_id row) in
      let to := strip (EdgeRow.to_event_id row) in
      if decide (frm ∉ event_ids ∨ to ∉ event_ids) then Err (UnknownEdgeEvent frm to)
      else
        let relation := strip (EdgeRow.relation_type row) in
        let relation :=
          if decide (relation ≠ py "before") then py "before" else relation in
        let track := strip (EdgeRow.track_id row) in
        normalize_edges_loop rest event_ids
          (<[track := by_track !!! track
                      ++ [ {| Edge.from_event_id := frm;
                              Edge.to_event_id := to;
                              Edge.relation_type := relation |} ]]> by_track)
  end.

Definition normalize_edges (rows : list EdgeRow.t) (event_ids : gset pystr)
    : result web_error (gmap pystr (list Edge.t)) :=
  normalize_edges_loop rows event_ids ∅.

(** * Quota allocator ([scripts/build_research_dataset.py]) *)

Definition TARGET_EVENTS : Z := 320.

(** ** [proportional_quotas]

    [group_counts] is a [dict] iterated in insertion order: an association
    list with distinct keys. [quotas] and [fractions] are only read and
    written by key: finite maps.

    [target * cnt / total] is a true division, and [int] truncates it. The
    model computes both exactly: the quotient is a rational, its integer
    part is [Z.quot]. A double holds the quotient exactly enough for [int]
    to agree with this as long as [target * cnt + total < 2^53]. *)

Definition Qltb (a b : Q) : bool := negb (Qle_bool b a).

#[global] Instance Q_inhabited : Inhabited Q := populate 0%Q.

Definition true_div (a b : Z) : Q := Qmake a (Z.to_pos b).

Definition int_part (a b : Z) : Z := Z.quot a b.

(** [sum(...)] of integers. *)
Definition sumZ (l : list Z) : Z := foldr Z.add 0 l.

(** [sum(d.values())] *)
Definition sum_values (m : gmap pystr Z) : Z := sumZ (snd <$> map_to_list m).

Definition sum_counts (group_counts : list (pystr * Z)) : Z :=
  sumZ (snd <$> group_counts).

(** The loop that hands the remainder out, one unit per visit, going round
    [expandable]. [fuel] bounds the number of iterations. *)
Fixpoint expand_loop (fuel : nat) (group_counts : gmap pystr Z)
    (expandable : list pystr) (target : Z)
    (quotas : gmap pystr Z) (current idx : Z) : option (gmap pystr Z * Z) :=
  match fuel with
  | O => None
  | S fuel =>
      if decide (current < target ∧ expandable ≠ []) then
        let book := expandable !!! Z.to_nat (idx mod Z.of_nat (length expandable)) in
        let '(quotas, current) :=
          if decide (quotas !!! book < group_counts !!! book)
          then (<[book := quotas !!! book + 1]> quotas, current + 1)
          else (quotas, current) in
        let idx := idx + 1 in
        if decide (idx > Z.of_nat (length expandable) * (target + 2))
        then Some (quotas, current)
        else expand_loop fuel group_counts expandable target quotas current idx
      else Some (quotas, current)
  end.

(** The loop that takes the surplus back, going round [reducible]. *)
Fixpoint reduce_loop (fuel : nat) (reducible : list pystr) (target : Z)
    (quotas : gmap pystr Z) (current idx : Z) : option (gmap pystr Z * Z) :=
  match fuel with
  | O => None
  | S fuel =>
      if decide (current > target ∧ reducible ≠ []) then
        let book := reducible !!! Z.to_nat (idx mod Z.of_nat (length reducible)) in
        let '(quotas, current) :=
          if decide (quotas !!! book > 1)
          then (<[book := quotas !!! book - 1]> quotas, current - 1)
          else (quotas, current) in
        let idx := idx + 1 in
        if decide (idx > Z.of_nat (length reducible) * (target + 2))
        then Some (quotas, current)
        else reduce_loop fuel reducible target quotas current idx
      else Some (quotas, current)
  end.

(** Iterations either loop can make before its [idx] guard breaks it. *)
Definition loop_fuel (books : list pystr) (target : Z) : nat :=
  S (S (Z.to_nat (Z.of_nat (length books) * (target + 2)))).

Definition proportional_quotas (group_counts : list (pystr * Z)) (target : Z)
    : option (gmap pystr Z) :=
  let total := sum_counts group_counts in
  if decide (total = 0) then Some (list_to_map ((λ kv, (fst kv, 0)) <$> group_counts))
  else
    let counts : gmap pystr Z := list_to_map group_counts in
    let quotas : gmap pystr Z :=
      list_to_map
        ((λ kv, (fst kv, Z.max 1 (int_part (target * snd kv) total))) <$> group_counts) in
    let quotas : gmap pystr Z :=
      list_to_map ((λ kv, (fst kv, Z.min (quotas !!! fst kv) (snd kv))) <$> group_counts) in
    let current := sum_values quotas in
    let fractions : gmap pystr Q :=
      list_to_map
        ((λ kv, (fst kv,
                 (true_div (target * snd kv) total
                  - inject_Z (int_part (target * snd kv) total))%Q)) <$> group_counts) in
    '(quotas, current) ←
      (if decide (current < target) then
         let expandable :=
           filter (λ b, quotas !!! b < counts !!! b) (fst <$> group_counts) in
         let expandable :=
           stable_sort (λ a b, Qltb (fractions !!! b) (fractions !!! a)) expandable in
         expand_loop (loop_fuel expandable target) counts expandable target quotas current 0
       else Some (quotas, current));
    '(quotas, current) ←
      (if decide (current > target) then
         let reducible := filter (λ b, quotas !!! b > 1) (fst <$> group_counts) in
         let reducible :=
           stable_sort (λ a b, Qltb (fractions !!! a) (fractions !!! b)) reducible in
         reduce_loop (loop_fuel reducible target) reducible target quotas current 0
       else Some (quotas, current));
    Some quotas.

(** * Candidate event extractor ([scripts/build_research_dataset.py]) *)

Module Verse.
Record t := mk {
  testament : pystr;
  canonical_order : Z;
  book_name : pystr;
  book_abbr : pystr;
  chapter : Z;
  verse : Z;
  text : pystr;
}.
End Verse.

Module CandidateEvent.
Record t := mk {
  testament : pystr;
  canonical_order : Z;
  book_name : pystr;
  title : pystr;
  first_text : pystr;
  start_ref : pystr;
  start_chapter : Z;
  start_verse : Z;
  end_ref : pystr;
  verse_slice : list Verse.t;
}.
End CandidateEvent.

#[global] Instance Verse_eq_dec : EqDecision (Verse.t).
Proof. solve_decision. Defined.

#[global] Instance CandidateEvent_eq_dec : EqDecision (CandidateEvent.t).
Proof. solve_decision. Defined.

Definition NARRATIVE_BOOKS : gset pystr :=
  list_to_set
    [ py "창세기"; py "출애굽기"; py "민수기"; py "신명기"; py "여호수아";
      py "사사기"; py "룻기"; py "사무엘상"; py "사무엘하"; py "열왕기상";
      py "열왕기하"; py "역대상"; py "역대하"; py "에스라"; py "느헤미야";
      py "에스더"; py "다니엘"; py "요나"; py "마태복음"; py "마가복음";
      py "누가복음"; py "요한복음"; py "사도행전" ].

Definition GOSPEL_BOOKS : gset pystr :=
  list_to_set [ py "마태복음"; py "마가복음"; py "누가복음"; py "요한복음" ].

Definition TRANSLATION : pystr := py "개역개정".

(** ** [HEADING_RE], the pattern "^\s*<([^>]+)>\s*(.*)$"

    [span_until c s] splits [s] before the first [c]. *)
Fixpoint span_until (c : N) (s : pystr) : pystr * pystr :=
  match s with
  | [] => ([], [])
  | x :: r =>
      if decide (x = c) then ([], s)
      else let '(a, b) := span_until c r in (x :: a, b)
  end.

(** [HEADING_RE.match(text)]: the two groups, or [None]. After the leading
    whitespace comes [<], then the title, every character up to the first
    [>], which must be there and must not come at once; then whitespace,
    and the body, which runs to the end of the text: [.] does not match a
    line feed, and [$] lets one line feed follow. *)
Definition heading_match (text : pystr) : option (pystr * pystr) :=
  match lstrip text with
  | 60%N :: r =>
      match span_until 62%N r with
      | ((_ :: _) as title, _ :: rest) =>
          match span_until 10%N (lstrip rest) with
          | (body, []) | (body, [_]) => Some (title, body)
          | _ => None
          end
      | _ => None
      end
  | _ => None
  end.

(** [clean_heading_prefix]: the [while True] loop; every round leaves a
    shorter text. *)
Fixpoint clean_heading_loop (fuel : nat) (text : pystr) : option pystr :=
  match fuel with
  | O => None
  | S fuel =>
      match heading_match text with
      | None => Some text
      | Some (_, body) => clean_heading_loop fuel (strip body)
      end
  end.

Definition clean_heading_prefix (text : pystr) : option pystr :=
  clean_heading_loop (S (length text)) (strip text).

(** [f"{book_name} {chapter}:{verse}"] *)
Definition reference (book_name : pystr) (chapter verse : Z) : pystr :=
  book_name ++ py " " ++ str_of_int chapter ++ py ":" ++ str_of_int verse.

(** The sort key [(canonical_order, start_chapter, start_verse)], compared
    as tuples are. *)
Definition candidate_before (a b : CandidateEvent.t) : bool :=
  (CandidateEvent.canonical_order a <? CandidateEvent.canonical_order b)
  || ((CandidateEvent.canonical_order a =? CandidateEvent.canonical_order b)
      && ((CandidateEvent.start_chapter a <? CandidateEvent.start_chapter b)
          || ((CandidateEvent.start_chapter a =? CandidateEvent.start_chapter b)
              && (CandidateEvent.start_verse a <? CandidateEvent.start_verse b)))).

(** [l[start:stop]] for [0 <= start] and [0 <= stop]. *)
Definition slice {A} (l : list A) (start : nat) (stop : Z) : list A :=
  take (Z.to_nat stop - start) (drop start l).

Section extract.
(** [unicodedata.normalize("NFC", _)], which the embedding leaves open. *)
Context (nfc : pystr → pystr).

Definition normalize_text (value : pystr) : pystr := nfc (strip value).

(** The first loop over a book: [(idx, title, body)] for every verse whose
    text matches [HEADING_RE], [idx] counting from the given start. *)
Fixpoint heading_positions (idx : nat) (verses : list Verse.t)
    : list (nat * pystr * pystr) :=
  match verses with
  | [] => []
  | verse :: rest =>
      match heading_match (Verse.text verse) with
      | None => heading_positions (S idx) rest
      | Some (title, body) =>
          (idx, normalize_text title, normalize_text body)
          :: heading_positions (S idx) rest
      end
  end.

(** The second loop over a book, on what is left of [heading_positions]. *)
Fixpoint book_candidates (book_name : pystr) (verses : list Verse.t)
    (positions : list (nat * pystr * pystr)) : option (list CandidateEvent.t) :=
  match positions with
  | [] => Some []
  | (start_idx, title, first_text) :: later =>
      let end_idx :=
        match later with
        | (next_idx, _, _) :: _ => Z.of_nat next_idx - 1
        | [] => Z.of_nat (length verses) - 1
        end in
      let verse_slice := slice verses start_idx (end_idx + 1) in
      match verse_slice, last verse_slice with
      | start_verse :: _, Some end_verse =>
          first_text ←
            (if decide (first_text = []) then clean_heading_prefix (Verse.text start_verse)
             else Some first_text);
          rest ← book_candidates book_name verses later;
          Some ({| CandidateEvent.testament := Verse.testament start_verse;
                   CandidateEvent.canonical_order := Verse.canonical_order start_verse;
                   CandidateEvent.book_name := book_name;
                   CandidateEvent.title := title;
                   CandidateEvent.first_text := first_text;
                   CandidateEvent.start_ref :=
                     reference book_name (Verse.chapter start_verse)
                       (Verse.verse start_verse);
                   CandidateEvent.start_chapter := Verse.chapter start_verse;
                   CandidateEvent.start_verse := Verse.verse start_verse;
                   CandidateEvent.end_ref :=
                     reference book_name (Verse.chapter end_verse)
                       (Verse.verse end_verse);
                   CandidateEvent.verse_slice := verse_slice |} :: rest)
      | _, _ => book_candidates book_name verses later
      end
  end.

(** The candidates of every narrative book, in the order of [by_book]. *)
Fixpoint all_book_candidates (by_book : list (pystr * list Verse.t))
    : option (list CandidateEvent.t) :=
  match by_book with
  | [] => Some []
  | (book_name, verses) :: rest =>
      if decide (book_name ∉ NARRATIVE_BOOKS) then all_book_candidates rest
      else
        here ← book_candidates book_name verses (heading_positions 0 verses);
        there ← all_book_candidates rest;
        Some (here ++ there)
  end.

(** [build_candidate_events]; [None] only if [clean_heading_prefix] ran
    out of fuel, which it does not. *)
Definition build_candidate_events (by_book : list (pystr * list Verse.t))
    : option (list CandidateEvent.t) :=
  candidates ← all_book_candidates by_book;
  Some (stable_sort candidate_before candidates).
End extract.

(** ** [pick_evenly] *)

Definition event_key (item : CandidateEvent.t) : pystr * pystr :=
  (CandidateEvent.book_name item, CandidateEvent.start_ref item).

#[global] Instance CandidateEvent_inhabited : Inhabited CandidateEvent.t :=
  populate (CandidateEvent.mk [] 0 [] [] [] [] 0 0 [] []).

(** The index picked in range [i] of [quota] ranges over [n] items. *)
Definition pick_index (n quota i : Z) : Z :=
  let start := i * n / quota in
  let end_ := (i + 1) * n / quota in
  (start + Z.max start (end_ - 1)) / 2.

(** [selected]: [items[idx]] for every range. The index is within the list
    whenever [0 < quota < len(items)], so the lookup never falls back on
    its default. *)
Definition pick_selected (items : list CandidateEvent.t) (quota : Z)
    : list CandidateEvent.t :=
  (λ i, items !!! Z.to_nat (pick_index (Z.of_nat (length items)) quota i))
    <$> seqZ 0 quota.

(** The loop that drops picks whose key is already seen. *)
Fixpoint dedup_loop (selected : list CandidateEvent.t)
    (seen : gset (pystr * pystr)) (unique : list CandidateEvent.t)
    : gset (pystr * pystr) * list CandidateEvent.t :=
  match selected with
  | [] => (seen, unique)
  | item :: rest =>
      let key := event_key item in
      if decide (key ∉ seen) then dedup_loop rest ({[ key ]} ∪ seen) (unique ++ [item])
      else dedup_loop rest seen unique
  end.

(** One round of the [for item in items] loop inside the [while]. *)
Fixpoint fill_pass (items : list CandidateEvent.t) (quota : Z)
    (seen : gset (pystr * pystr)) (unique : list CandidateEvent.t)
    : gset (pystr * pystr) * list CandidateEvent.t :=
  match items with
  | [] => (seen, unique)
  | item :: rest =>
      let key := event_key item in
      if decide (key ∈ seen) then fill_pass rest quota seen unique
      else
        let seen := {[ key ]} ∪ seen in
        let unique := unique ++ [item] in
        if decide (Z.of_nat (length unique) = quota) then (seen, unique)
        else fill_pass rest quota seen unique
  end.

(** [while len(unique) < quota]; [fuel] bounds the number of tests of the
    condition, and [None] says the loop was still running. *)
Fixpoint fill_loop (fuel : nat) (items : list CandidateEvent.t) (quota : Z)
    (seen : gset (pystr * pystr)) (unique : list CandidateEvent.t)
    : option (list CandidateEvent.t) :=
  match fuel with
  | O => None
  | S fuel =>
      if decide (Z.of_nat (length unique) < quota) then
        let '(seen, unique) := fill_pass items quota seen unique in
        fill_loop fuel items quota seen unique
      else Some unique
  end.

Definition pick_evenly (fuel : nat) (items : list CandidateEvent.t) (quota : Z)
    : option (list CandidateEvent.t) :=
  if decide (quota >= Z.of_nat (length items)) then Some items
  else if decide (quota <= 0) then Some []
  else if decide (quota = 1) then Some [items !!! Z.to_nat (Z.of_nat (length items) / 2)]
  else
    let selected := pick_selected items quota in
    let '(seen, unique) := dedup_loop selected ∅ [] in
    unique ← fill_loop fuel items quota seen unique;
    Some (stable_sort candidate_before unique).

(** * Chronology graph validation ([scripts/build_research_dataset.py]) *)

(** [l.pop()]: the last element and the list without it. *)
Definition list_pop {A} (l : list A) : option (list A * A) :=
  match reverse l with
  | [] => None
  | x :: r => Some (reverse r, x)
  end.

(** One round of [for src, dst in edges]. *)
Definition add_edge (node_set : gset pystr)
    (state : gmap pystr Z * gmap pystr (list pystr)) (edge : pystr * pystr)
    : gmap pystr Z * gmap pystr (list pystr) :=
  let '(indeg, outgoing) := state in
  let '(src, dst) := edge in
  if decide (src ∉ node_set ∨ dst ∉ node_set) then (indeg, outgoing)
  else
    let outgoing := <[src := outgoing !!! src ++ [dst]]> outgoing in
    let indeg := <[dst := indeg !!! dst + 1]> indeg in
    (indeg, outgoing).

(** [for nxt in outgoing[cur]] *)
Fixpoint relax (nexts : list pystr) (indeg : gmap pystr Z) (queue : list pystr)
    : gmap pystr Z * list pystr :=
  match nexts with
  | [] => (indeg, queue)
  | nxt :: rest =>
      let indeg := <[nxt := indeg !!! nxt - 1]> indeg in
      let queue := if decide (indeg !!! nxt = 0) then queue ++ [nxt] else queue in
      relax rest indeg queue
  end.

(** [while queue]; [fuel] bounds the number of tests of the condition. *)
Fixpoint kahn_loop (fuel : nat) (outgoing : gmap pystr (list pystr))
    (indeg : gmap pystr Z) (queue : list pystr) (visited : Z) : option Z :=
  match fuel with
  | O => None
  | S fuel =>
      match list_pop queue with
      | None => Some visited
      | Some (queue, cur) =>
          let visited := visited + 1 in
          let '(indeg, queue) := relax (outgoing !!! cur) indeg queue in
          kahn_loop fuel outgoing indeg queue visited
      end
  end.

(** [topological_ok]. The set [node_set] is iterated in the order of
    [elements]; the result does not depend on that order. The loop pops at
    most one node per element of [node_set], so the fuel is enough. *)
Definition topological_ok (nodes : list pystr) (edges : list (pystr * pystr))
    : option bool :=
  let node_set : gset pystr := list_to_set nodes in
  let indeg : gmap pystr Z := gset_to_gmap 0 node_set in
  let outgoing : gmap pystr (list pystr) := gset_to_gmap [] node_set in
  let '(indeg, outgoing) := foldl (add_edge node_set) (indeg, outgoing) edges in
  let queue := filter (λ n, indeg !!! n = 0) (elements node_set) in
  visited ← kahn_loop (S (size node_set)) outgoing indeg queue 0;
  Some (bool_decide (visited = Z.of_nat (size node_set))).

(** * The extraction build ([main] of [scripts/build_research_dataset.py])

    From the parsed verses on: candidates, quotas, selection, event,
    evidence and chronology rows, and the validation that precedes writing. *)

(** ** Lanes, certainty and summaries *)

Definition lane_tag (book_name : pystr) (chapter : Z) : pystr :=
  if decide (book_name = py "창세기") then
    if decide (chapter <= 11) then py "primeval_history" else py "patriarchal_era"
  else if decide (book_name ∈ [py "출애굽기"; py "민수기"; py "신명기"]) then
    py "exodus_wilderness"
  else if decide (book_name = py "여호수아") then py "conquest_settlement"
  else if decide (book_name ∈ [py "사사기"; py "룻기"]) then py "judges_period"
  else if decide (book_name ∈ [py "사무엘상"; py "사무엘하"]) then py "united_monarchy"
  else if decide (book_name ∈ [py "열왕기상"; py "열왕기하"; py "역대상"; py "역대하"])
  then py "monarchy_exile"
  else if decide (book_name ∈ [py "에스라"; py "느헤미야"; py "에스더"; py "다니엘"])
  then py "exile_return"
  else if decide (book_name = py "요나") then py "prophetic_mission"
  else if decide (book_name ∈ GOSPEL_BOOKS) then py "life_of_jesus"
  else if decide (book_name = py "사도행전") then py "early_church"
  else py "other".

(** The dict [AMBIGUOUS_KEYWORDS], in its order. *)
Definition AMBIGUOUS_KEYWORDS : list (pystr * pystr) :=
  [ (py "출애굽", py "disputed"); (py "성전", py "medium"); (py "재위", py "medium");
    (py "통치", py "medium"); (py "탄생", py "medium"); (py "족보", py "low");
    (py "계보", py "low"); (py "인구", py "medium"); (py "연대", py "medium") ].

Fixpoint starts_with (prefix s : pystr) : bool :=
  match prefix, s with
  | [], _ => true
  | p :: prefix, c :: s => bool_decide (p = c) && starts_with prefix s
  | _ :: _, [] => false
  end.

(** [needle in s] for strings. *)
Fixpoint contains (needle s : pystr) : bool :=
  starts_with needle s
  || match s with
     | [] => false
     | _ :: r => contains needle r
     end.

Definition certainty_level (title : pystr) : pystr :=
  match list_find (λ kv, contains kv.1 title = true) AMBIGUOUS_KEYWORDS with
  | Some (_, (_, level)) => level
  | None => py "high"
  end.

(** ** Grouping by key, in order of first appearance ([defaultdict(list)]) *)

Fixpoint group_append {V} (grouped : list (pystr * list V)) (key : pystr) (v : V)
    : list (pystr * list V) :=
  match grouped with
  | [] => [(key, [v])]
  | (k, vs) :: rest =>
      if decide (k = key) then (k, vs ++ [v]) :: rest
      else (k, vs) :: group_append rest key v
  end.

Definition group_by_book (candidates : list CandidateEvent.t)
    : list (pystr * list CandidateEvent.t) :=
  foldl (λ grouped cand, group_append grouped (CandidateEvent.book_name cand) cand)
    [] candidates.

(** ** Selection *)

(** [for book in sorted(...): selected_candidates.extend(pick_evenly(...))] *)
Fixpoint select_books (fuel : nat) (grouped : list (pystr * list CandidateEvent.t))
    (quotas : gmap pystr Z) (books : list pystr) : option (list CandidateEvent.t) :=
  match books with
  | [] => Some []
  | book :: rest =>
      picked ← pick_evenly fuel (default [] (list_to_map (M:=gmap pystr _) grouped !! book))
                 (default 0 (quotas !! book));
      more ← select_books fuel grouped quotas rest;
      Some (picked ++ more)
  end.

(** [canonical_map] holds every book of [by_book]: [load_verses] fills both
    from the same files; the lookup has no other use. *)
Definition select_candidates (fuel : nat) (canonical_map : gmap pystr Z)
    (candidates : list CandidateEvent.t) : option (list CandidateEvent.t) :=
  let grouped := group_by_book candidates in
  let group_counts := (λ kv, (kv.1, Z.of_nat (length kv.2))) <$> grouped in
  quotas ← proportional_quotas group_counts TARGET_EVENTS;
  let books :=
    stable_sort (λ a b, canonical_map !!! a <? canonical_map !!! b) (fst <$> grouped) in
  selected ← select_books fuel grouped quotas books;
  Some (stable_sort candidate_before selected).

(** ** Event and evidence rows *)

Module TrackRow.
Record t := mk {
  track_id : pystr;
  topic : pystr;
  description : pystr;
  default_for_render : pystr;
  included_event_ids : pystr;
}.
End TrackRow.

(** [verse_text] of the verse at position [idx] of a slice. *)
Definition evidence_text (idx : nat) (verse : Verse.t) : option pystr :=
  if decide (idx = O) then clean_heading_prefix (Verse.text verse)
  else Some (Verse.text verse).

(** The rows of one verse slice for one event, numbered from [evidence_id];
    [idx] is the position of the first verse of [verses] in its slice. *)
Fixpoint slice_rows (event_id tier is_parallel note : pystr) (idx : nat)
    (verses : list Verse.t) (evidence_id : Z) : option (list EvidenceRow.t) :=
  match verses with
  | [] => Some []
  | verse :: rest =>
      verse_text ← evidence_text idx verse;
      more ← slice_rows event_id tier is_parallel note (S idx) rest (evidence_id + 1);
      Some ({| EvidenceRow.evidence_id := py "EVD" ++ zero_padded 7 evidence_id;
               EvidenceRow.event_id := event_id;
               EvidenceRow.evidence_tier := tier;
               EvidenceRow.reference :=
                 reference (Verse.book_name verse) (Verse.chapter verse)
                   (Verse.verse verse);
               EvidenceRow.verse_text_kr := verse_text;
               EvidenceRow.translation := TRANSLATION;
               EvidenceRow.is_parallel := is_parallel;
               EvidenceRow.note := note |} :: more)
  end.

(** The direct rows of every event, in order. *)
Fixpoint direct_rows (event_objects : list (pystr * CandidateEvent.t * pystr))
    (evidence_id : Z) : option (list EvidenceRow.t) :=
  match event_objects with
  | [] => Some []
  | (event_id, cand, _) :: rest =>
      here ← slice_rows event_id (py "direct") (py "false") (py "") 0
                (CandidateEvent.verse_slice cand) evidence_id;
      there ← direct_rows rest (evidence_id + Z.of_nat (length here));
      Some (here ++ there)
  end.

(** [normalize_heading_key]: the characters that are Hangul syllables,
    ASCII letters or digits. *)
Definition is_key_char (c : N) : bool :=
  (((44032 <=? c) && (c <=? 55203)) || ((65 <=? c) && (c <=? 90))
   || ((97 <=? c) && (c <=? 122)) || ((48 <=? c) && (c <=? 57)))%N.

Section build.
Context (nfc : pystr → pystr).

Definition summarize (text : pystr) : pystr :=
  let text := normalize_text nfc text in
  if decide (Z.of_nat (length text) <= 88) then text
  else take 87 text ++ py "…".

Definition normalize_heading_key (title : pystr) : pystr :=
  normalize_text nfc (filter (λ c, is_key_char c = true) title).

(** [events_rows] and [event_objects], [seq] counting from the given
    number. *)
Fixpoint event_rows (seq : Z) (selected : list CandidateEvent.t)
    : list EventRow.t * list (pystr * CandidateEvent.t * pystr) :=
  match selected with
  | [] => ([], [])
  | cand :: rest =>
      let event_id := py "EVT" ++ zero_padded 4 seq in
      let lane :=
        lane_tag (CandidateEvent.book_name cand) (CandidateEvent.start_chapter cand) in
      let level := certainty_level (CandidateEvent.title cand) in
      let summary :=
        summarize (if decide (CandidateEvent.first_text cand = [])
                   then CandidateEvent.title cand
                   else CandidateEvent.first_text cand) in
      let '(rows, objects) := event_rows (seq + 1) rest in
      ({| EventRow.event_id := event_id;
          EventRow.testament := CandidateEvent.testament cand;
          EventRow.book := CandidateEvent.book_name cand;
          EventRow.event_title := CandidateEvent.title cand;
          EventRow.event_summary := summary;
          EventRow.lane_tag := lane;
          EventRow.sequence_index := str_of_int seq;
          EventRow.track_id := py "track_main";
          EventRow.certainty_level := level |} :: rows,
       (event_id, cand, lane) :: objects)
  end.

(** [gospel_groups]: the gospel events by heading key. *)
Definition gospel_groups (event_objects : list (pystr * CandidateEvent.t * pystr))
    : list (pystr * list (pystr * CandidateEvent.t)) :=
  foldl
    (λ groups obj,
       let '(event_id, cand, _) := obj in
       if decide (CandidateEvent.book_name cand ∈ GOSPEL_BOOKS) then
         let key := normalize_heading_key (CandidateEvent.title cand) in
         if decide (key ≠ []) then group_append groups key (event_id, cand)
         else groups
       else groups)
    [] event_objects.
End build.

(** The parallel rows that one target takes from the members of its group. *)
Fixpoint target_rows (target_event_id : pystr)
    (sources : list (pystr * CandidateEvent.t)) (evidence_id : Z)
    : option (list EvidenceRow.t) :=
  match sources with
  | [] => Some []
  | (source_event_id, source_cand) :: rest =>
      if decide (source_event_id = target_event_id)
      then target_rows target_event_id rest evidence_id
      else
        here ← slice_rows target_event_id (py "parallel") (py "true")
                  (py "parallel_from:" ++ source_event_id) 0
                  (CandidateEvent.verse_slice source_cand) evidence_id;
        there ← target_rows target_event_id rest (evidence_id + Z.of_nat (length here));
        Some (here ++ there)
  end.

Fixpoint members_rows (targets members : list (pystr * CandidateEvent.t))
    (evidence_id : Z) : option (list EvidenceRow.t) :=
  match targets with
  | [] => Some []
  | (target_event_id, _) :: rest =>
      here ← target_rows target_event_id members evidence_id;
      there ← members_rows rest members (evidence_id + Z.of_nat (length here));
      Some (here ++ there)
  end.

(** The parallel pass over all groups. *)
Fixpoint parallel_rows_of (groups : list (pystr * list (pystr * CandidateEvent.t)))
    (evidence_id : Z) : option (list EvidenceRow.t) :=
  match groups with
  | [] => Some []
  | (_, members) :: rest =>
      let books_in_group : gset pystr :=
        list_to_set ((λ m, CandidateEvent.book_name m.2) <$> members) in
      if decide (size books_in_group < 2)%nat then parallel_rows_of rest evidence_id
      else
        here ← members_rows members members evidence_id;
        there ← parallel_rows_of rest (evidence_id + Z.of_nat (length here));
        Some (here ++ there)
  end.

(** ** Chronology rows and tracks *)

(** A linear chain over [nodes], each node with the basis of the edge that
    leaves it; edges are numbered from [edge_id]. *)
Fixpoint chain_rows (track_id : pystr) (nodes : list (pystr * pystr)) (edge_id : Z)
    : list EdgeRow.t :=
  match nodes with
  | (frm, basis) :: rest =>
      match rest with
      | (to, _) :: _ =>
          {| EdgeRow.edge_id := py "EDG" ++ zero_padded 6 edge_id;
             EdgeRow.from_event_id := frm;
             EdgeRow.to_event_id := to;
             EdgeRow.relation_type := py "before";
             EdgeRow.basis_reference := basis;
             EdgeRow.track_id := track_id |}
          :: chain_rows track_id rest (edge_id + 1)
      | [] => []
      end
  | [] => []
  end.

(** [add_track_edges] *)
Definition add_track_edges (track_id : pystr) (ids : list pystr) (edge_id : Z)
    : list EdgeRow.t :=
  chain_rows track_id ((λ id, (id, py "성경 본문 흐름")) <$> ids) edge_id.

(** ["|".join(ids)] *)
Fixpoint join_bar (ids : list pystr) : pystr :=
  match ids with
  | [] => []
  | [id] => id
  | id :: rest => id ++ py "|" ++ join_bar rest
  end.

Definition lanes_related (lanes : list pystr)
    (event_objects : list (pystr * CandidateEvent.t * pystr)) : list pystr :=
  (λ obj, obj.1.1) <$> filter (λ obj, obj.2 ∈ lanes) event_objects.

Definition chronology_rows_of (event_objects : list (pystr * CandidateEvent.t * pystr))
    : list EdgeRow.t :=
  let main_rows :=
    chain_rows (py "track_main")
      ((λ obj, (obj.1.1, CandidateEvent.start_ref obj.1.2)) <$> event_objects) 1 in
  let exodus_related :=
    lanes_related [py "exodus_wilderness"; py "conquest_settlement"; py "judges_period"]
      event_objects in
  let gospel_related := lanes_related [py "life_of_jesus"; py "early_church"] event_objects in
  let early := add_track_edges (py "track_exodus_early") exodus_related
                 (1 + Z.of_nat (length main_rows)) in
  let late := add_track_edges (py "track_exodus_late") exodus_related
                (1 + Z.of_nat (length main_rows + length early)) in
  let harmony := add_track_edges (py "track_gospel_harmony") gospel_related
                   (1 + Z.of_nat (length main_rows + length early + length late)) in
  main_rows ++ early ++ late ++ harmony.

Definition track_rows_of (event_objects : list (pystr * CandidateEvent.t * pystr))
    : list TrackRow.t :=
  let event_ids := (λ obj, obj.1.1) <$> event_objects in
  let exodus_related :=
    lanes_related [py "exodus_wilderness"; py "conquest_settlement"; py "judges_period"]
      event_objects in
  let gospel_related := lanes_related [py "life_of_jesus"; py "early_church"] event_objects in
  [ TrackRow.mk (py "track_main") (py "기본 상대연대 축")
      (py "정경 순서+본문 사건 흐름을 기준으로 한 기본 렌더링 트랙")
      (py "true") (join_bar event_ids);
    TrackRow.mk (py "track_exodus_early") (py "출애굽-정복 해석 A")
      (py "출애굽-정복 구간을 상대연대 중심으로 빠르게 연결하는 보조 트랙")
      (py "false") (join_bar exodus_related);
    TrackRow.mk (py "track_exodus_late") (py "출애굽-정복 해석 B")
      (py "출애굽-정복 구간의 대안 해석 표기를 위한 병행 트랙")
      (py "false") (join_bar exodus_related);
    TrackRow.mk (py "track_gospel_harmony") (py "복음서 병행 정렬")
      (py "마태·마가·누가·요한 사건 제목 유사성을 이용한 병행 근거 트랙")
      (py "false") (join_bar gospel_related) ].

(** ** Validation *)

(** The [RuntimeError]s of the validation. *)
Inductive build_error : Type :=
| UnknownEvidenceEvent (event_id : pystr)
| MissingVerseText (evidence_id : pystr)
| TranslationViolation (evidence_id : pystr)
| MissingEvidence (event_ids : list pystr)
| MissingEventField (event_id : pystr)
| DagViolation (track_id : pystr).

(** The loop over [evidence_rows]; [evidence_by_event] counts the rows of
    every event. *)
Fixpoint check_evidence (events_by_id : gset pystr) (rows : list EvidenceRow.t)
    (evidence_by_event : gmap pystr Z) : result build_error (gmap pystr Z) :=
  match rows with
  | [] => Ok evidence_by_event
  | row :: rest =>
      let eid := EvidenceRow.event_id row in
      if decide (eid ∉ events_by_id) then Err (UnknownEvidenceEvent eid)
      else if decide (EvidenceRow.verse_text_kr row = []) then
        Err (MissingVerseText (EvidenceRow.evidence_id row))
      else if decide (EvidenceRow.translation row ≠ TRANSLATION) then
        Err (TranslationViolation (EvidenceRow.evidence_id row))
      else
        check_evidence events_by_id rest
          (<[eid := evidence_by_event !!! eid + 1]> evidence_by_event)
  end.

Fixpoint check_event_fields (rows : list EventRow.t) : result build_error unit :=
  match rows with
  | [] => Ok ()
  | row :: rest =>
      if decide (EventRow.lane_tag row = [] ∨ EventRow.sequence_index row = [])
      then Err (MissingEventField (EventRow.event_id row))
      else check_event_fields rest
  end.

(** [edges_by_track], in the order in which the tracks first appear; the
    nodes of a track are the ends of its edges. *)
Definition edges_by_track (chronology_rows : list EdgeRow.t)
    : list (pystr * list (pystr * pystr)) :=
  foldl
    (λ tracks row,
       group_append tracks (EdgeRow.track_id row)
         (EdgeRow.from_event_id row, EdgeRow.to_event_id row))
    [] chronology_rows.

Definition track_nodes (edges : list (pystr * pystr)) : list pystr :=
  edges ≫= λ e, [e.1; e.2].

(** [for track_id, nodes in nodes_by_track.items()] *)
Fixpoint check_tracks (tracks : list (pystr * list (pystr * pystr)))
    : option (result build_error unit) :=
  match tracks with
  | [] => Some (Ok ())
  | (track_id, edges) :: rest =>
      ok ← topological_ok (track_nodes edges) edges;
      if negb ok then Some (Err (DagViolation track_id)) else check_tracks rest
  end.

(** The keys of a dict filled from [l]: every key once, in the order of
    first appearance. *)
Definition dict_keys (l : list pystr) : list pystr :=
  reverse (remove_dups (reverse l)).

(** The whole of the validation, in the order of [main]. *)
Definition validate (events_rows : list EventRow.t) (evidence_rows : list EvidenceRow.t)
    (chronology_rows : list EdgeRow.t) : option (result build_error unit) :=
  let events_by_id : gset pystr := list_to_set (EventRow.event_id <$> events_rows) in
  match check_evidence events_by_id evidence_rows ∅ with
  | Err e => Some (Err e)
  | Ok evidence_by_event =>
      let missing_evidence :=
        filter (λ eid, evidence_by_event !!! eid = 0)
          (dict_keys (EventRow.event_id <$> events_rows)) in
      if decide (missing_evidence ≠ []) then Some (Err (MissingEvidence (take 5 missing_evidence)))
      else
        match check_event_fields events_rows with
        | Err e => Some (Err e)
        | Ok _ => check_tracks (edges_by_track chronology_rows)
        end
  end.

(** ** [main], from the parsed verses to the rows it writes *)

Module Build.
Record t := mk {
  events_rows : list EventRow.t;
  evidence_rows : list EvidenceRow.t;
  chronology_rows : list EdgeRow.t;
  track_rows : list TrackRow.t;
}.
End Build.

Section main.
Context (nfc : pystr → pystr).

(** [None]: [main] did not return (the fill loop of [pick_evenly] was
    still running when the fuel ran out). *)
Definition main (fuel : nat) (canonical_map : gmap pystr Z)
    (by_book : list (pystr * list Verse.t)) : option (result build_error Build.t) :=
  candidates ← build_candidate_events nfc by_book;
  selected_candidates ← select_candidates fuel canonical_map candidates;
  let '(events_rows, event_objects) := event_rows nfc 1 selected_candidates in
  direct ← direct_rows event_objects 1;
  parallel ← parallel_rows_of (gospel_groups nfc event_objects)
                (1 + Z.of_nat (length direct));
  let evidence_rows := direct ++ parallel in
  let chronology_rows := chronology_rows_of event_objects in
  let track_rows := track_rows_of event_objects in
  checked ← validate events_rows evidence_rows chronology_rows;
  match checked with
  | Err e => Some (Err e)
  | Ok _ =>
      Some (Ok {| Build.events_rows := events_rows;
                  Build.evidence_rows := evidence_rows;
                  Build.chronology_rows := chronology_rows;
                  Build.track_rows := track_rows |})
  end.
End main.

(** * scripts/enrich_gospel_parallels.py

    The matcher reads [events.csv] and [evidence_verses.csv] as lists of
    rows, and writes the evidence table back when it has rows to add. A run
    is modelled as a function from the two tables to the evidence table
    left on disk and the rows added; an evidence id that [int] refuses
    raises.

    Scores are Python floats, quotients of two set sizes. They are modelled
    as exact fractions, reduced: for titles of fewer than [2^26] tokens two
    such quotients compare as their floats do, with each other and with
    [0.35]. How ["{s:.2f}"] prints a float is left open ([fmt_score]). *)

Module Enrich.

Definition GOSPELS : gset pystr :=
  {[ py "마태복음"; py "마가복음"; py "누가복음"; py "요한복음" ]}.

Definition STOPWORDS : gset pystr :=
  {[ py "예수"; py "예수께서"; py "예수님"; py "그가"; py "그의"; py "하나님";
     py "말씀"; py "제자들" ]}.

(** The class of the pattern: Hangul syllables U+AC00 to U+D7A3, ASCII
    letters and digits, the space. *)
Definition kept_char (c : N) : bool :=
  ((44032 <=? c) && (c <=? 55203)
   || (65 <=? c) && (c <=? 90)
   || (97 <=? c) && (c <=? 122)
   || (48 <=? c) && (c <=? 57)
   || (c =? 32))%N.

(** [re.sub(pattern, ' ', title)], the pattern being one or more characters
    outside the class: every maximal run of them becomes one space. *)
Fixpoint sub_runs (in_run : bool) (title : pystr) : pystr :=
  match title with
  | [] => []
  | c :: rest =>
      if kept_char c then c :: sub_runs false rest
      else if in_run then sub_runs true rest
      else 32%N :: sub_runs true rest
  end.

(** [s.split()]: the maximal runs of non-space characters. *)
Fixpoint split_loop (word : pystr) (s : pystr) : list pystr :=
  match s with
  | [] => match word with [] => [] | _ => [word] end
  | c :: rest =>
      if is_space c then
        match word with
        | [] => split_loop [] rest
        | _ => word :: split_loop [] rest
        end
      else split_loop (word ++ [c]) rest
  end.

Definition split (s : pystr) : list pystr := split_loop [] s.

Definition tokens (title : pystr) : gset pystr :=
  let cleaned := sub_runs false title in
  list_to_set
    (filter (λ t, (2 ≤ length t)%nat ∧ t ∉ STOPWORDS) (split cleaned)).

Definition score (a b : pystr) : Q :=
  let ta := tokens a in
  let tb := tokens b in
  if decide (ta = ∅ ∨ tb = ∅) then 0%Q
  else
    let inter := Z.of_nat (size (ta ∩ tb)) in
    let union := Z.of_nat (size (ta ∪ tb)) in
    if decide (union = 0) then 0%Q else Qred (true_div inter union).

Definition THRESHOLD : Q := (35 # 100)%Q.

(** [[e for e in events if e['book'] in GOSPELS]] *)
Definition gospel_events_of (events : list EventRow.t) : list EventRow.t :=
  filter (λ e, EventRow.book e ∈ GOSPELS) events.

Inductive enrich_error :=
| InvalidEvidenceId (evidence_id : pystr).

(** [int(row['evidence_id'][3:])] *)
Definition evidence_number (row : EvidenceRow.t) : option Z :=
  py_int (drop 3 (EvidenceRow.evidence_id row)).

(** The first loop of [main]: the largest evidence number, and the direct
    rows of every event, in the order of the table. *)
Fixpoint scan_evidence (evidence : list EvidenceRow.t) (max_id : Z)
    (evidence_by_event : gmap pystr (list EvidenceRow.t))
  : result enrich_error (Z * gmap pystr (list EvidenceRow.t)) :=
  match evidence with
  | [] => Ok (max_id, evidence_by_event)
  | row :: rest =>
      match evidence_number row with
      | None => Err (InvalidEvidenceId (EvidenceRow.evidence_id row))
      | Some n =>
          let max_id := Z.max max_id n in
          let evidence_by_event :=
            if decide (EvidenceRow.evidence_tier row = py "direct") then
              let event_id := EvidenceRow.event_id row in
              <[ event_id := default [] (evidence_by_event !! event_id) ++ [row] ]>
                evidence_by_event
            else evidence_by_event in
          scan_evidence rest max_id evidence_by_event
      end
  end.

Definition existing_parallel_keys (evidence : list EvidenceRow.t)
  : gset (pystr * pystr) :=
  list_to_set
    ((λ row, (EvidenceRow.event_id row, EvidenceRow.note row))
       <$> filter (λ row, EvidenceRow.evidence_tier row = py "parallel"
                          ∧ EvidenceRow.note row ≠ [])
             evidence).

(** [best_by_book] is a dict from a book to a score and an event; its
    values are later listed in the order in which the books were first
    put in, so it is kept as an association list. *)
Fixpoint best_get {V} (book : pystr) (best : list (pystr * V)) : option V :=
  match best with
  | [] => None
  | (b, v) :: rest => if decide (b = book) then Some v else best_get book rest
  end.

Fixpoint best_set {V} (book : pystr) (v : V) (best : list (pystr * V))
  : list (pystr * V) :=
  match best with
  | [] => [(book, v)]
  | (b, w) :: rest =>
      if decide (b = book) then (b, v) :: rest else (b, w) :: best_set book v rest
  end.

(** One round of the inner loop over the sources. *)
Definition consider (target : EventRow.t)
    (best_by_book : list (pystr * (Q * EventRow.t))) (source : EventRow.t)
  : list (pystr * (Q * EventRow.t)) :=
  if decide (EventRow.event_id source = EventRow.event_id target) then best_by_book
  else if decide (EventRow.book source = EventRow.book target) then best_by_book
  else
    let s := score (EventRow.event_title target) (EventRow.event_title source) in
    if Qltb s THRESHOLD then best_by_book
    else
      match best_get (EventRow.book source) best_by_book with
      | None => best_set (EventRow.book source) (s, source) best_by_book
      | Some prev =>
          if Qltb (fst prev) s
          then best_set (EventRow.book source) (s, source) best_by_book
          else best_by_book
      end.

Definition best_of (gospel_events : list EventRow.t) (target : EventRow.t)
  : list (pystr * (Q * EventRow.t)) :=
  foldl (consider target) [] gospel_events.

(** [sorted(best_by_book.values(), key=lambda x: x[0], reverse=True)[:3]] *)
Definition kept_matches (gospel_events : list EventRow.t) (target : EventRow.t)
  : list (Q * EventRow.t) :=
  take 3 (stable_sort (λ x y, Qltb (fst y) (fst x))
            (snd <$> best_of gospel_events target)).

Section notes.
Variable fmt_score : Q → pystr.

Definition note_of (source : EventRow.t) (s : Q) : pystr :=
  py "parallel_from:" ++ EventRow.event_id source ++ py ";score=" ++ fmt_score s.

Definition parallel_row (max_id : Z) (target : EventRow.t) (src : EvidenceRow.t)
    (note : pystr) : EvidenceRow.t :=
  EvidenceRow.mk (py "EVD" ++ zero_padded 7 max_id) (EventRow.event_id target)
    (py "parallel") (EvidenceRow.reference src) (EvidenceRow.verse_text_kr src)
    (EvidenceRow.translation src) (py "true") note.

(** The rows copied for one match; the state is [max_id] and [additions]. *)
Definition copy_rows (target : EventRow.t) (note : pystr)
    (st : Z * list EvidenceRow.t) (src_rows : list EvidenceRow.t)
  : Z * list EvidenceRow.t :=
  foldl (λ st src,
           let max_id := fst st + 1 in
           (max_id, snd st ++ [parallel_row max_id target src note]))
        st src_rows.

Definition add_match (existing : gset (pystr * pystr))
    (evidence_by_event : gmap pystr (list EvidenceRow.t)) (target : EventRow.t)
    (st : Z * list EvidenceRow.t) (m : Q * EventRow.t)
  : Z * list EvidenceRow.t :=
  let '(s, source) := m in
  let note := note_of source s in
  let key := (EventRow.event_id target, note) in
  if decide (key ∈ existing) then st
  else
    let src_rows :=
      take 8 (default [] (evidence_by_event !! EventRow.event_id source)) in
    copy_rows target note st src_rows.

Definition add_target (existing : gset (pystr * pystr))
    (evidence_by_event : gmap pystr (list EvidenceRow.t))
    (gospel_events : list EventRow.t)
    (st : Z * list EvidenceRow.t) (target : EventRow.t)
  : Z * list EvidenceRow.t :=
  foldl (add_match existing evidence_by_event target) st
    (kept_matches gospel_events target).

(** [evidence.sort(key=lambda r: int(r['evidence_id'][3:]))]: the keys are
    computed first, one per row. *)
Fixpoint keyed_rows (rows : list EvidenceRow.t)
  : result enrich_error (list (Z * EvidenceRow.t)) :=
  match rows with
  | [] => Ok []
  | row :: rest =>
      match evidence_number row with
      | None => Err (InvalidEvidenceId (EvidenceRow.evidence_id row))
      | Some n =>
          match keyed_rows rest with
          | Ok keyed => Ok ((n, row) :: keyed)
          | Err e => Err e
          end
      end
  end.

Definition sort_evidence (rows : list EvidenceRow.t)
  : result enrich_error (list EvidenceRow.t) :=
  match keyed_rows rows with
  | Ok keyed => Ok (snd <$> stable_sort (λ a b, fst a <? fst b) keyed)
  | Err e => Err e
  end.

(** What a run leaves: the evidence table, and the rows it added (it
    prints how many). *)
Record run := mk_run {
  evidence_rows : list EvidenceRow.t;
  additions : list EvidenceRow.t;
}.

Definition main (events : list EventRow.t) (evidence : list EvidenceRow.t)
  : result enrich_error run :=
  let gospel_events := gospel_events_of events in
  match scan_evidence evidence 0 ∅ with
  | Err e => Err e
  | Ok (max_id, evidence_by_event) =>
      let existing := existing_parallel_keys evidence in
      let additions :=
        snd (foldl (add_target existing evidence_by_event gospel_events)
               (max_id, []) gospel_events) in
      match additions with
      | [] => Ok (mk_run evidence [])
      | _ :: _ =>
          match sort_evidence (evidence ++ additions) with
          | Ok sorted => Ok (mk_run sorted additions)
          | Err e => Err e
          end
      end
  end.
End notes.

(** ["{s:.2f}"] for a score that two decimals write exactly, or that is not
    half-way between two of them: the nearest hundredth. The closed
    examples below print their scores with it. *)
Definition two_decimals (s : Q) : pystr :=
  let hundredths := ((200 * Qnum s + Zpos (Qden s)) / (2 * Zpos (Qden s)))%Z in
  decimal (hundredths / 100) ++ py "." ++ zero_padded 2 (hundredths mod 100).

End Enrich.

(** * More of [scripts/build_web_data.py]: lanes, the research payload and
      the chapter timeline *)

(** [text[:k]] *)
Definition prefix_to {A} (k : Z) (l : list A) : list A :=
  if decide (0 <= k) then take (Z.to_nat k) l
  else take (Z.to_nat (Z.of_nat (length l) + k)) l.

Definition truncate (text : pystr) (max_len : Z) : pystr :=
  if decide (Z.of_nat (length text) <= max_len) then text
  else prefix_to (max_len - 1) text ++ py "…".

Definition EXODUS_BOOKS : gset pystr :=
  list_to_set [ py "출애굽기"; py "레위기"; py "민수기"; py "신명기" ].
Definition JUDGES_BOOKS : gset pystr := list_to_set [ py "사사기"; py "룻기" ].
Definition UNITED_MONARCHY_BOOKS : gset pystr :=
  list_to_set [ py "사무엘상"; py "사무엘하" ].
Definition MONARCHY_EXILE_BOOKS : gset pystr :=
  list_to_set [ py "열왕기상"; py "열왕기하"; py "역대상"; py "역대하" ].
Definition WISDOM_BOOKS : gset pystr :=
  list_to_set [ py "욥기"; py "시편"; py "잠언"; py "전도서"; py "아가" ].
Definition PROPHET_BOOKS : gset pystr :=
  list_to_set
    [ py "이사야"; py "예레미야"; py "예레미야애가"; py "에스겔"; py "다니엘";
      py "호세아"; py "요엘"; py "아모스"; py "오바댜"; py "요나"; py "미가";
      py "나훔"; py "하박국"; py "스바냐"; py "학개"; py "스가랴"; py "말라기" ].
Definition EXILE_RETURN_BOOKS : gset pystr :=
  list_to_set [ py "에스라"; py "느헤미야"; py "에스더" ].

Definition lane_for (book_name : pystr) (chapter : Z) : pystr :=
  if decide (book_name = py "창세기") then
    if decide (chapter <= 11) then py "primeval_history" else py "patriarchal_era"
  else if decide (book_name ∈ EXODUS_BOOKS) then py "exodus_wilderness"
  else if decide (book_name = py "여호수아") then py "conquest_settlement"
  else if decide (book_name ∈ JUDGES_BOOKS) then py "judges_period"
  else if decide (book_name ∈ UNITED_MONARCHY_BOOKS) then py "united_monarchy"
  else if decide (book_name ∈ MONARCHY_EXILE_BOOKS) then py "monarchy_exile"
  else if decide (book_name ∈ WISDOM_BOOKS) then py "wisdom_poetry"
  else if decide (book_name ∈ PROPHET_BOOKS) then py "prophetic_books"
  else if decide (book_name ∈ EXILE_RETURN_BOOKS) then py "exile_return"
  else if decide (book_name ∈ GOSPEL_BOOKS) then py "life_of_jesus"
  else py "early_church".

Module Lane.
Record t := mk {
  id : pystr;
  label : pystr;
  order : Z;
}.
End Lane.

Definition LANE_DEFS : list Lane.t :=
  [ Lane.mk (py "primeval_history") (py "원역사") 1;
    Lane.mk (py "patriarchal_era") (py "족장시대") 2;
    Lane.mk (py "exodus_wilderness") (py "출애굽·광야") 3;
    Lane.mk (py "conquest_settlement") (py "정복·정착") 4;
    Lane.mk (py "judges_period") (py "사사시대") 5;
    Lane.mk (py "united_monarchy") (py "통일왕국") 6;
    Lane.mk (py "monarchy_exile") (py "분열왕국·포로") 7;
    Lane.mk (py "wisdom_poetry") (py "시가·지혜") 8;
    Lane.mk (py "prophetic_books") (py "예언서") 9;
    Lane.mk (py "exile_return") (py "포로·귀환") 10;
    Lane.mk (py "life_of_jesus") (py "예수 사역") 11;
    Lane.mk (py "early_church") (py "초대교회") 12 ].

(** [normalize_lanes]; [lane_tag] reads the lane of an event or of a
    chapter. *)
Definition normalize_lanes {A} (lane_tag : A → pystr) (events : list A) : list Lane.t :=
  let used_lanes : gset pystr := list_to_set (lane_tag <$> events) in
  filter (λ lane, Lane.id lane ∈ used_lanes) LANE_DEFS.

(** ** [build_from_research], from the rows of the three CSV files *)

Module Payload.
Record t := mk {
  translation : pystr;
  totalEvents : Z;
  totalEvidence : Z;
  mode : pystr;
  lanes : list Lane.t;
  events : list Event.t;
  evidenceByEvent : gmap pystr Bucket.t;
  edgesByTrack : gmap pystr (list Edge.t);
}.
End Payload.

Definition build_from_research (events_rows : list EventRow.t)
    (evidence_rows : list EvidenceRow.t) (edges_rows : list EdgeRow.t)
  : result web_error Payload.t :=
  match normalize_events events_rows with
  | Err e => Err e
  | Ok events =>
      let event_ids : gset pystr := list_to_set (Event.event_id <$> events) in
      match normalize_evidence evidence_rows event_ids with
      | Err e => Err e
      | Ok (evidence_by_event, translation, total_evidence) =>
          match normalize_edges edges_rows event_ids with
          | Err e => Err e
          | Ok edges_by_track =>
              let lanes := normalize_lanes Event.lane_tag events in
              Ok {| Payload.translation := translation;
                    Payload.totalEvents := Z.of_nat (length events);
                    Payload.totalEvidence := total_evidence;
                    Payload.mode := py "research";
                    Payload.lanes := lanes;
                    Payload.events := events;
                    Payload.evidenceByEvent := evidence_by_event;
                    Payload.edgesByTrack := edges_by_track |}
          end
      end
  end.

(** ** [build_from_all_verses], from the lines that [VERSE_RE] matches

    A file is its testament mark, its order and its book name, as
    [FILENAME_RE] gives them, and the matched lines in order: chapter, verse
    and the normalized text of each. *)

Module VerseEntry.
Record t := mk {
  verse_no : Z;
  reference : pystr;
  verse_text_kr : pystr;
}.
End VerseEntry.

Module Chapter.
Record t := mk {
  chapter_id : pystr;
  lane_tag : pystr;
  sequence_index : Z;
  book : pystr;
  chapter : Z;
  event_title : pystr;
  event_summary : pystr;
  verse_count : Z;
  certainty_level : pystr;
}.
End Chapter.

Module ChapterEdge.
Record t := mk {
  from_chapter_id : pystr;
  to_chapter_id : pystr;
  relation_type : pystr;
}.
End ChapterEdge.

Module Timeline.
(** What [flush_chapter] reads and writes. *)
Record t := mk {
  seq : Z;
  prev_chapter_id : option pystr;
  chapters : list Chapter.t;
  verses_by_chapter : gmap pystr (list VerseEntry.t);
  edges : list ChapterEdge.t;
}.
End Timeline.

Definition flush_chapter (st : Timeline.t) (book_name : pystr) (chapter : Z)
    (verses : list VerseEntry.t) : Timeline.t :=
  match verses with
  | [] => st
  | first :: _ =>
      let seq := Timeline.seq st + 1 in
      let chapter_id := py "CHP" ++ zero_padded 4 seq in
      let event_title := book_name ++ py " " ++ str_of_int chapter ++ py "장" in
      let event_summary := truncate (VerseEntry.verse_text_kr first) 120 in
      {| Timeline.seq := seq;
         Timeline.prev_chapter_id := Some chapter_id;
         Timeline.chapters :=
           Timeline.chapters st
           ++ [ {| Chapter.chapter_id := chapter_id;
                   Chapter.lane_tag := lane_for book_name chapter;
                   Chapter.sequence_index := seq;
                   Chapter.book := book_name;
                   Chapter.chapter := chapter;
                   Chapter.event_title := event_title;
                   Chapter.event_summary := event_summary;
                   Chapter.verse_count := Z.of_nat (length verses);
                   Chapter.certainty_level := py "high" |} ];
         Timeline.verses_by_chapter :=
           <[ chapter_id := verses ]> (Timeline.verses_by_chapter st);
         Timeline.edges :=
           match Timeline.prev_chapter_id st with
           | Some prev =>
               Timeline.edges st
               ++ [ {| ChapterEdge.from_chapter_id := prev;
                       ChapterEdge.to_chapter_id := chapter_id;
                       ChapterEdge.relation_type := py "before" |} ]
           | None => Timeline.edges st
           end |}
  end.

(** The loop over the lines of one file; the state is the timeline, the
    current chapter with its verses, and the count of verses. *)
Fixpoint file_lines (book_name : pystr) (lines : list (Z * Z * pystr))
    (st : Timeline.t) (current_chapter : option Z)
    (current_verses : list VerseEntry.t) (total_verses : Z)
  : option (Timeline.t * option Z * list VerseEntry.t * Z) :=
  match lines with
  | [] => Some (st, current_chapter, current_verses, total_verses)
  | (chapter, verse, text) :: rest =>
      cleaned ← clean_heading_prefix text;
      let verse_text := if decide (cleaned = []) then text else cleaned in
      let entry :=
        {| VerseEntry.verse_no := verse;
           VerseEntry.reference := reference book_name chapter verse;
           VerseEntry.verse_text_kr := verse_text |} in
      let '(st, current_verses) :=
        match current_chapter with
        | None => (st, current_verses)
        | Some current =>
            if decide (chapter ≠ current)
            then (flush_chapter st book_name current current_verses, [])
            else (st, current_verses)
        end in
      file_lines book_name rest st (Some chapter) (current_verses ++ [entry])
        (total_verses + 1)
  end.

Fixpoint all_files (files : list (Z * Z * pystr * list (Z * Z * pystr)))
    (st : Timeline.t) (total_verses : Z) : option (Timeline.t * Z) :=
  match files with
  | [] => Some (st, total_verses)
  | (_, _, book_name, lines) :: rest =>
      '(st, current_chapter, current_verses, total_verses) ←
        file_lines book_name lines st None [] total_verses;
      let st :=
        match current_chapter with
        | Some current => flush_chapter st book_name current current_verses
        | None => st
        end in
      all_files rest st total_verses
  end.

Module ChapterPayload.
Record t := mk {
  translation : pystr;
  mode : pystr;
  granularity : pystr;
  totalChapters : Z;
  totalVerses : Z;
  lanes : list Lane.t;
  chapters : list Chapter.t;
  versesByChapter : gmap pystr (list VerseEntry.t);
  edgesByTrack : list (pystr * list ChapterEdge.t);
}.
End ChapterPayload.

Inductive chapters_error :=
| TooFewBooks (n : nat).

(** [None] only if [clean_heading_prefix] ran out of fuel, which it does
    not. *)
Definition build_from_all_verses (files : list (Z * Z * pystr * list (Z * Z * pystr)))
  : option (result chapters_error ChapterPayload.t) :=
  let files :=
    stable_sort
      (λ a b, (a.1.1.1 <? b.1.1.1) || ((a.1.1.1 =? b.1.1.1) && (a.1.1.2 <? b.1.1.2)))
      files in
  if decide (length files < 66)%nat then Some (Err (TooFewBooks (length files)))
  else
    '(st, total_verses) ←
      all_files files (Timeline.mk 0 None [] ∅ []) 0;
    let chapters := Timeline.chapters st in
    Some (Ok {| ChapterPayload.translation := TRANSLATION;
                ChapterPayload.mode := py "all_verses";
                ChapterPayload.granularity := py "chapter";
                ChapterPayload.totalChapters := Z.of_nat (length chapters);
                ChapterPayload.totalVerses := total_verses;
                ChapterPayload.lanes := normalize_lanes Chapter.lane_tag chapters;
                ChapterPayload.chapters := chapters;
                ChapterPayload.versesByChapter := Timeline.verses_by_chapter st;
                ChapterPayload.edgesByTrack := [(py "track_main", Timeline.edges st)] |}).

(** * [load_verses] of [scripts/build_research_dataset.py]

    From the files that [FILENAME_RE] matches, in the sorted order of the
    directory, and from the lines of each that [VERSE_RE] matches: a file
    is the two groups of digits and the book name of its file name, a line
    is its four groups, the texts in normal form and the numbers read. *)

Module ParsedLine.
Record t := mk {
  book_abbr : pystr;
  chapter : Z;
  verse : Z;
  text : pystr;
}.
End ParsedLine.

Module ParsedFile.
Record t := mk {
  testament_marker : pystr;
  order_in_testament : Z;
  book_name : pystr;
  lines : list ParsedLine.t;
}.
End ParsedFile.

Inductive load_error : Type :=
| BooksMissing (read : nat).

Definition file_testament (file : ParsedFile.t) : pystr :=
  if decide (ParsedFile.testament_marker file = py "1") then py "OT" else py "NT".

Definition file_canonical_order (file : ParsedFile.t) : Z :=
  if decide (file_testament file = py "OT") then ParsedFile.order_in_testament file
  else 39 + ParsedFile.order_in_testament file.

(** The verses that the lines of one file append to [by_book]. *)
Definition file_verses (file : ParsedFile.t) : list Verse.t :=
  (λ line,
     {| Verse.testament := file_testament file;
        Verse.canonical_order := file_canonical_order file;
        Verse.book_name := ParsedFile.book_name file;
        Verse.book_abbr := ParsedLine.book_abbr line;
        Verse.chapter := ParsedLine.chapter line;
        Verse.verse := ParsedLine.verse line;
        Verse.text := ParsedLine.text line |})
    <$> ParsedFile.lines file.

(** One round of the loop over the files; [by_book] is a
    [defaultdict(list)], in the order in which its keys first appear. *)
Definition load_file
    (st : list (pystr * list Verse.t) * gmap pystr Z * gmap pystr pystr)
    (file : ParsedFile.t)
  : list (pystr * list Verse.t) * gmap pystr Z * gmap pystr pystr :=
  let '(by_book, canonical_order_map, testament_map) := st in
  let book_name := ParsedFile.book_name file in
  (foldl (λ by_book verse, group_append by_book book_name verse) by_book
     (file_verses file),
   <[ book_name := file_canonical_order file ]> canonical_order_map,
   <[ book_name := file_testament file ]> testament_map).

(** The sort key [(v.chapter, v.verse)]. *)
Definition verse_before (a b : Verse.t) : bool :=
  (Verse.chapter a <? Verse.chapter b)
  || ((Verse.chapter a =? Verse.chapter b) && (Verse.verse a <? Verse.verse b)).

Definition load_verses (files : list ParsedFile.t)
  : result load_error
      (list (pystr * list Verse.t) * gmap pystr Z * gmap pystr pystr) :=
  let '(by_book, canonical_order_map, testament_map) :=
    foldl load_file ([], ∅, ∅) files in
  if decide (length by_book < 66)%nat then Err (BooksMissing (length by_book))
  else
    Ok ((λ kv, (kv.1, stable_sort verse_before kv.2)) <$> by_book,
        canonical_order_map, testament_map).
(** * Properties *)

(** ** Stable sorting *)

Section stable_sort_facts.
Context {A : Type} (lt : A → A → bool).

Lemma insert_sorted_perm x l : insert_sorted lt x l ≡ₚ x :: l.
Proof.
  induction l as [|y r IH]; simpl; [done|].
  destruct (lt y x); [|done].
  rewrite IH. apply Permutation_swap.
Qed.

Lemma stable_sort_perm l : stable_sort lt l ≡ₚ l.
Proof.
  induction l as [|x l IH]; simpl; [done|].
  by rewrite insert_sorted_perm, IH.
Qed.

Lemma stable_sort_length l : length (stable_sort lt l) = length l.
Proof. by rewrite stable_sort_perm. Qed.

Lemma elem_of_stable_sort x l : x ∈ stable_sort lt l ↔ x ∈ l.
Proof. by rewrite stable_sort_perm. Qed.
End stable_sort_facts.

(** ** Timeline normalizer *)

(** *** [normalize_events] *)

Definition event_of_row (row : EventRow.t) (ev : Event.t) : Prop :=
  Event.event_id ev = strip (EventRow.event_id row)
  ∧ Event.certainty_level ev = normalize_certainty (EventRow.certainty_level row)
  ∧ py_int (EventRow.sequence_index row) = Some (Event.sequence_index ev).

Lemma normalize_events_loop_ok rows :
  ∀ seen events,
    NoDup (strip ∘ EventRow.event_id <$> rows) →
    (∀ row, row ∈ rows → strip (EventRow.event_id row) ∉ seen) →
    Forall (λ row, is_Some (py_int (EventRow.sequence_index row))) rows →
    ∃ evs, normalize_events_loop rows seen events = Ok (events ++ evs)
           ∧ Forall2 event_of_row rows evs.
Proof.
  induction rows as [|row rest IH]; intros seen events Hnd Hfresh Hint; simpl.
  - exists []. by rewrite app_nil_r.
  - rewrite fmap_cons in Hnd. apply NoDup_cons in Hnd as [Hhd Hnd].
    apply Forall_cons in Hint as [[seq Hseq] Hint].
    rewrite decide_False by (apply Hfresh; left).
    rewrite Hseq.
    edestruct (IH ({[strip (EventRow.event_id row)]} ∪ seen)) as (evs & -> & Hevs);
      [done| |done|].
    + intros row' Hin [Heq%elem_of_singleton|Hseen]%elem_of_union.
      * apply Hhd, list_elem_of_fmap. exists row'. by split.
      * apply (Hfresh row'); [by right|done].
    + eexists (_ :: evs). rewrite <- app_assoc. split; [done|].
      constructor; [|done]. by repeat split.
Qed.




(** *** [normalize_evidence] *)

(** The rows of one event, and those of them the normalizer files under
    ["parallel"] and under ["direct"]. *)
Definition rows_of_event (event_id : pystr) (rows : list EvidenceRow.t) : list EvidenceRow.t :=
  filter (λ row, strip (EvidenceRow.event_id row) = event_id) rows.

Definition parallel_rows (event_id : pystr) (rows : list EvidenceRow.t) : list EvidenceRow.t :=
  filter (λ row, row_tier row = py "parallel") (rows_of_event event_id rows).

Definition other_rows (event_id : pystr) (rows : list EvidenceRow.t) : list EvidenceRow.t :=
  filter (λ row, row_tier row ≠ py "parallel") (rows_of_event event_id rows).

Definition translations (rows : list EvidenceRow.t) : gset pystr :=
  list_to_set (strip ∘ EvidenceRow.translation <$> rows).

Lemma normalize_evidence_loop_spec rows :
  ∀ (m : gmap pystr Bucket.t) (ts : gset pystr),
    match normalize_evidence_loop rows m ts with
    | Ok (m', ts') =>
        dom m' = dom m
        ∧ ts' = translations rows ∪ ts
        ∧ Forall (λ row, strip (EvidenceRow.event_id row) ∈ dom m) rows
        ∧ ∀ eid b, m !! eid = Some b →
            m' !! eid =
              Some {| Bucket.direct :=
                        Bucket.direct b ++ (evidence_base <$> other_rows eid rows);
                      Bucket.parallel :=
                        Bucket.parallel b ++ (evidence_with_note <$> parallel_rows eid rows) |}
    | Err e =>
        ∃ row, row ∈ rows ∧ strip (EvidenceRow.event_id row) ∉ dom m
               ∧ e = UnknownEventReference (strip (EvidenceRow.event_id row))
    end.
Proof.
  induction rows as [|row rest IH]; intros m ts; simpl.
  - repeat split; [set_solver|done|].
    intros eid [d p] ->. simpl. by rewrite !app_nil_r.
  - destruct (m !! strip (EvidenceRow.event_id row)) as [bucket|] eqn:Hm.
    2:{ exists row. split; [left|]. split; [|done]. by apply not_elem_of_dom. }
    match goal with |- context [normalize_evidence_loop rest ?m1 ?ts1] =>
      specialize (IH m1 ts1); destruct (normalize_evidence_loop rest m1 ts1) as [[m' ts']|e]
    end.
    + destruct IH as (Hdom & Hts & Hall & Hb).
      assert (Hin : strip (EvidenceRow.event_id row) ∈ dom m) by (apply elem_of_dom; eauto).
      rewrite dom_insert_L in Hdom, Hall.
      repeat split.
      * set_solver.
      * rewrite Hts. unfold translations. rewrite fmap_cons. simpl. set_solver.
      * constructor; [done|]. eapply Forall_impl; [exact Hall|].
        intros r Hr. simpl in Hr.
        by apply elem_of_union in Hr as [->%elem_of_singleton|?].
      * intros eid b Hb0.
        unfold other_rows, parallel_rows, rows_of_event. rewrite !filter_cons.
        destruct (decide (strip (EvidenceRow.event_id row) = eid)) as [<-|Hne].
        -- rewrite Hm in Hb0. injection Hb0 as <-.
           erewrite Hb by apply lookup_insert_eq.
           rewrite !filter_cons.
           destruct (decide (row_tier row = py "parallel")) as [Ht|Ht]; simpl.
           ++ rewrite decide_False by (by intros []).
              by rewrite <- app_assoc.
           ++ rewrite decide_True by done.
              rewrite fmap_cons. by rewrite <- app_assoc.
        -- erewrite Hb; [done|]. by rewrite lookup_insert_ne.
    + destruct IH as (r & Hr & Hnot & ->).
      exists r. split; [by right|]. split; [|done].
      rewrite dom_insert_L in Hnot. set_solver.
Qed.

Lemma lookup_gset_to_gmap_elem {B} (x : B) (X : gset pystr) i :
  i ∈ X → gset_to_gmap x X !! i = Some x.
Proof. intros. by apply lookup_gset_to_gmap_Some. Qed.

(** What the normalizer has in its buckets once the rows are read. *)
Definition bucket_of (eid : pystr) (rows : list EvidenceRow.t) : Bucket.t :=
  {| Bucket.direct := evidence_base <$> other_rows eid rows;
     Bucket.parallel := evidence_with_note <$> parallel_rows eid rows |}.

Lemma normalize_evidence_loop_init rows ids m ts :
  normalize_evidence_loop rows (gset_to_gmap empty_bucket ids) ∅ = Ok (m, ts) →
  ts = translations rows
  ∧ Forall (λ row, strip (EvidenceRow.event_id row) ∈ ids) rows
  ∧ ∀ eid, m !! eid = if decide (eid ∈ ids) then Some (bucket_of eid rows) else None.
Proof.
  intros Hloop.
  pose proof (normalize_evidence_loop_spec rows (gset_to_gmap empty_bucket ids) ∅) as H.
  rewrite Hloop in H. destruct H as (Hdom & -> & Hall & Hb).
  rewrite dom_gset_to_gmap in Hdom, Hall.
  split; [set_solver|]. split; [done|].
  intros eid. case_decide as Hin.
  - by rewrite (Hb eid empty_bucket) by by apply lookup_gset_to_gmap_elem.
  - apply not_elem_of_dom. by rewrite Hdom.
Qed.

Lemma normalize_evidence_loop_total rows ids :
  Forall (λ row, strip (EvidenceRow.event_id row) ∈ ids) rows →
  is_ok (normalize_evidence_loop rows (gset_to_gmap empty_bucket ids) ∅).
Proof.
  intros Hall.
  pose proof (normalize_evidence_loop_spec rows (gset_to_gmap empty_bucket ids) ∅) as H.
  destruct (normalize_evidence_loop _ _ _) as [r|e]; [by exists r|].
  destruct H as (row & Hin & Hnot & _).
  rewrite dom_gset_to_gmap in Hnot.
  rewrite Forall_forall in Hall. by apply Hall in Hin.
Qed.

Lemma missing_direct_nil (m : gmap pystr Bucket.t) :
  (∀ eid b, m !! eid = Some b → Bucket.direct b ≠ []) → missing_direct m = [].
Proof.
  intros H. unfold missing_direct.
  destruct (filter _ (map_to_list m)) as [|[eid b] l] eqn:Hf; [done|].
  assert (Hin : (eid, b) ∈ filter (λ kv : pystr * Bucket.t, Bucket.direct kv.2 = [])
                   (map_to_list m)) by (rewrite Hf; left).
  apply list_elem_of_filter in Hin as [Hd Hin]. apply elem_of_map_to_list in Hin.
  by apply H in Hin.
Qed.

Lemma missing_direct_cons (m : gmap pystr Bucket.t) eid b :
  m !! eid = Some b → Bucket.direct b = [] → missing_direct m ≠ [].
Proof.
  intros Hm Hd Hnil. unfold missing_direct in Hnil. apply fmap_nil_inv in Hnil.
  eapply (filter_nil_not_elem_of _ _ (eid, b)); [exact Hnil|done|].
  by apply elem_of_map_to_list.
Qed.

Lemma missing_direct_elem (m : gmap pystr Bucket.t) eid l :
  missing_direct m = eid :: l → ∃ b, m !! eid = Some b ∧ Bucket.direct b = [].
Proof.
  unfold missing_direct. intros H.
  assert (Hin : eid ∈ (fst <$> filter (λ kv : pystr * Bucket.t, Bucket.direct kv.2 = [])
                   (map_to_list m))) by (rewrite H; left).
  apply list_elem_of_fmap in Hin as ([e b] & -> & Hin).
  apply list_elem_of_filter in Hin as [Hd Hin]. apply elem_of_map_to_list in Hin.
  by exists b.
Qed.

Lemma normalize_evidence_ok_inv rows ids m tr tot :
  normalize_evidence rows ids = Ok (m, tr, tot) →
  Forall (λ row, strip (EvidenceRow.event_id row) ∈ ids) rows
  ∧ translations rows = {[ tr ]}
  ∧ (∀ eid, m !! eid = if decide (eid ∈ ids) then Some (bucket_of eid rows) else None)
  ∧ (∀ eid, eid ∈ ids → other_rows eid rows ≠ []).
Proof.
  unfold normalize_evidence.
  destruct (normalize_evidence_loop _ _ _) as [[m' ts]|e] eqn:Hloop; [|done].
  apply normalize_evidence_loop_init in Hloop as (-> & Hall & Hm).
  destruct (elements (translations rows)) as [|t [|t' l]] eqn:Hel; [done| |done].
  destruct (missing_direct m') as [|eid l] eqn:Hmiss; [|done].
  intros [= -> -> <-]. split; [done|]. split; [|split; [done|]].
  - apply set_eq. intros x. rewrite <- elem_of_elements, Hel. set_solver.
  - intros eid Hin Hnil.
    apply (missing_direct_cons m eid (bucket_of eid rows)); [|by simpl; rewrite Hnil|done].
    by rewrite Hm, decide_True.
Qed.

Lemma normalize_evidence_total rows ids :
  Forall (λ row, strip (EvidenceRow.event_id row) ∈ ids) rows →
  size (translations rows) = 1%nat →
  (∀ eid, eid ∈ ids → other_rows eid rows ≠ []) →
  is_ok (normalize_evidence rows ids).
Proof.
  intros Hall Hsize Hdirect. unfold normalize_evidence.
  destruct (normalize_evidence_loop_total rows ids Hall) as [[m ts] Hloop].
  rewrite Hloop. apply normalize_evidence_loop_init in Hloop as (-> & _ & Hm).
  apply size_1_elem_of in Hsize as [t Ht].
  assert (elements (translations rows) = [t]) as ->.
  { apply leibniz_equiv in Ht. rewrite Ht. apply elements_singleton. }
  rewrite missing_direct_nil; [by eexists|].
  intros eid b. rewrite Hm. case_decide; [|done].
  intros [= <-]. simpl. intros Hnil%fmap_nil_inv. by eapply Hdirect.
Qed.

Lemma normalize_evidence_missing_direct rows ids eid :
  eid ∈ ids → other_rows eid rows = [] → is_err (normalize_evidence rows ids).
Proof.
  intros Hin Hnone.
  destruct (normalize_evidence rows ids) as [[[m tr] tot]|e] eqn:Hn; [|by exists e].
  apply normalize_evidence_ok_inv in Hn as (_ & _ & _ & Hd).
  by destruct (Hd eid Hin).
Qed.

(** *** [normalize_edges] *)

Definition edge_of_row (row : EdgeRow.t) : Edge.t :=
  {| Edge.from_event_id := strip (EdgeRow.from_event_id row);
     Edge.to_event_id := strip (EdgeRow.to_event_id row);
     Edge.relation_type := py "before" |}.

Definition rows_of_track (track : pystr) (rows : list EdgeRow.t) : list EdgeRow.t :=
  filter (λ row, strip (EdgeRow.track_id row) = track) rows.

Definition known_endpoints (event_ids : gset pystr) (row : EdgeRow.t) : Prop :=
  strip (EdgeRow.from_event_id row) ∈ event_ids
  ∧ strip (EdgeRow.to_event_id row) ∈ event_ids.

Lemma normalize_edges_loop_spec rows event_ids :
  ∀ by_track : gmap pystr (list Edge.t),
    match normalize_edges_loop rows event_ids by_track with
    | Ok out =>
        Forall (known_endpoints event_ids) rows
        ∧ ∀ track, out !!! track
                   = by_track !!! track ++ (edge_of_row <$> rows_of_track track rows)
    | Err e =>
        ∃ row, row ∈ rows ∧ ¬ known_endpoints event_ids row
               ∧ e = UnknownEdgeEvent (strip (EdgeRow.from_event_id row))
                       (strip (EdgeRow.to_event_id row))
    end.
Proof.
  induction rows as [|row rest IH]; intros by_track; simpl.
  - split; [done|]. intros. by rewrite app_nil_r.
  - case_decide as Hbad.
    { exists row. split; [left|]. split; [|done]. unfold known_endpoints. tauto. }
    match goal with |- context [normalize_edges_loop rest _ ?bt] =>
      specialize (IH bt); destruct (normalize_edges_loop rest event_ids bt) as [out|e]
    end.
    + destruct IH as [Hall Hout]. split.
      * constructor; [|done]. unfold known_endpoints.
        split; apply dec_stable; tauto.
      * intros track. rewrite Hout. unfold rows_of_track. rewrite filter_cons.
        destruct (decide (strip (EdgeRow.track_id row) = track)) as [<-|Hne].
        -- rewrite lookup_total_insert_eq, fmap_cons, <- app_assoc. simpl.
           do 3 f_equal. unfold edge_of_row. f_equal. by case_decide.
        -- by rewrite lookup_total_insert_ne.
    + destruct IH as (r & Hr & Hbad' & ->). exists r. split; [by right|done].
Qed.

(** *** The claims about the normalizer *)

Definition sample_event_rows : list EventRow.t :=
  [ EventRow.mk (py "EVT0002") (py "OT") (py "Genesis") (py "Flood") (py "rain")
      (py "primeval_history") (py "2") (py "track_main") (py "certain");
    EventRow.mk (py "EVT0001") (py "OT") (py "Genesis") (py "Creation") (py "light")
      (py "primeval_history") (py "1") (py "track_main") (py "low") ].





Definition sample_edge_rows : list EdgeRow.t :=
  [ EdgeRow.mk (py "EDG000001") (py "EVT0001") (py "EVT0002") (py "after")
      (py "Genesis 1:1") (py "track_main");
    EdgeRow.mk (py "EDG000002") (py "EVT0002") (py "EVT0003") (py "before")
      (py "Genesis 2:4") (py " track_main") ].

Definition sample_event_ids : gset pystr :=
  {[ py "EVT0001"; py "EVT0002"; py "EVT0003" ]}.

(** C9. Every edge that [normalize_edges] puts in the payload has
    relation_type ["before"], whatever the CSV said, and every row of the CSV
    is in the payload under its track; the only error of [normalize_edges]
    is an endpoint that is not a known event, so it succeeds exactly when
    every endpoint is known. *)
Theorem normalize_edges_always_before (rows : list EdgeRow.t) (event_ids : gset pystr) :
  (∀ out, normalize_edges rows event_ids = Ok out →
     (∀ track es e, out !! track = Some es → e ∈ es →
        Edge.relation_type e = py "before")
     ∧ (∀ row, row ∈ rows →
          ∃ es, out !! strip (EdgeRow.track_id row) = Some es
                ∧ {| Edge.from_event_id := strip (EdgeRow.from_event_id row);
                     Edge.to_event_id := strip (EdgeRow.to_event_id row);
                     Edge.relation_type := py "before" |} ∈ es))
  ∧ (is_ok (normalize_edges rows event_ids) ↔ Forall (known_endpoints event_ids) rows)
  ∧ (∀ e, normalize_edges rows event_ids = Err e →
       ∃ frm to, e = UnknownEdgeEvent frm to ∧ (frm ∉ event_ids ∨ to ∉ event_ids)).
Proof.
  pose proof (normalize_edges_loop_spec rows event_ids ∅) as Hspec.
  unfold normalize_edges.
  destruct (normalize_edges_loop rows event_ids ∅) as [out|e].
  - destruct Hspec as [Hall Hout]. split; [|split; [|done]].
    + intros ? [= <-]. split.
      * intros track es e Hes He.
        apply lookup_total_correct in Hes. rewrite Hout, lookup_total_empty in Hes.
        subst es. simpl in He. by apply list_elem_of_fmap in He as (row & -> & _).
      * intros row Hrow.
        assert (Hin : edge_of_row row ∈ out !!! strip (EdgeRow.track_id row)).
        { rewrite Hout, lookup_total_empty. simpl. apply list_elem_of_fmap_2.
          by apply list_elem_of_filter. }
        rewrite lookup_total_alt in Hin.
        destruct (out !! strip (EdgeRow.track_id row)) as [es|]; simpl in Hin.
        -- by exists es.
        -- by apply elem_of_nil in Hin.
    + split; [done|]. intros _. by exists out.
  - destruct Hspec as (row & Hrow & Hbad & ->). split; [done|]. split.
    + split; [by intros [? ?]|].
      intros Hall. rewrite Forall_forall in Hall. by destruct Hbad; apply Hall.
    + intros ? [= <-]. do 2 eexists. split; [done|].
      unfold known_endpoints in Hbad.
      destruct (decide (strip (EdgeRow.from_event_id row) ∈ event_ids)); [|by left].
      right. tauto.
Qed.

Lemma normalize_edges_always_before_witness :
  ∃ out, normalize_edges sample_edge_rows sample_event_ids = Ok out
         ∧ ∀ track es e, out !! track = Some es → e ∈ es →
             Edge.relation_type e = py "before".
Proof.
  pose proof (normalize_edges_always_before sample_edge_rows sample_event_ids)
    as (Hout & Hok & _).
  destruct (proj2 Hok) as [out Hn].
  - repeat constructor; apply (bool_decide_unpack _); vm_compute; exact I.
  - exists out. split; [done|]. by apply Hout.
Defined.

Definition misspelled_tier_rows : list EvidenceRow.t :=
  [ EvidenceRow.mk (py "EVD0000001") (py "EVT0001") (py "dirct") (py "Genesis 1:1")
      (py "In the beginning") (py "KRV") (py "false") (py "") ].

(** C10. [normalize_evidence] files a row under ["parallel"] exactly when
    its evidence_tier, stripped and lowercased, is ["parallel"], and under
    ["direct"] in every other case; so it succeeds whenever the rows
    reference known events, carry one translation, and every event has a row
    whose tier is anything but ["parallel"], recognized or not. *)
Theorem normalize_evidence_tier_default_direct
    (rows : list EvidenceRow.t) (event_ids : gset pystr) :
  (∀ out tr tot, normalize_evidence rows event_ids = Ok (out, tr, tot) →
     ∀ eid, eid ∈ event_ids →
       out !! eid =
         Some {| Bucket.direct :=
                   evidence_base <$>
                     filter (λ row, lower (strip (EvidenceRow.evidence_tier row)) ≠ py "parallel")
                       (rows_of_event eid rows);
                 Bucket.parallel :=
                   evidence_with_note <$>
                     filter (λ row, lower (strip (EvidenceRow.evidence_tier row)) = py "parallel")
                       (rows_of_event eid rows) |})
  ∧ (Forall (λ row, strip (EvidenceRow.event_id row) ∈ event_ids) rows →
     size (translations rows) = 1%nat →
     (∀ eid, eid ∈ event_ids →
        ∃ row, row ∈ rows ∧ strip (EvidenceRow.event_id row) = eid
               ∧ lower (strip (EvidenceRow.evidence_tier row)) ≠ py "parallel") →
     is_ok (normalize_evidence rows event_ids)).
Proof.
  split.
  - intros out tr tot (_ & _ & Hm & _)%normalize_evidence_ok_inv eid Hin.
    by rewrite Hm, decide_True.
  - intros Hall Hsize Hdirect. apply normalize_evidence_total; [done..|].
    intros eid (row & Hrow & Hid & Htier)%Hdirect Hnil.
    eapply (filter_nil_not_elem_of _ _ row); [exact Hnil|exact Htier|].
    by apply list_elem_of_filter.
Qed.

Lemma normalize_evidence_tier_default_direct_witness :
  is_ok (normalize_evidence misspelled_tier_rows {[ py "EVT0001" ]}).
Proof.
  apply (proj2 (normalize_evidence_tier_default_direct misspelled_tier_rows
                  {[ py "EVT0001" ]})).
  - constructor; [|constructor]. apply elem_of_singleton. reflexivity.
  - reflexivity.
  - intros eid ->%elem_of_singleton. eexists. split; [left|].
    split; [reflexivity|]. intros H. discriminate H.
Defined.

(** C7, as stated, fails: the only row of event EVT0001 has tier ["dirct"],
    so the event has no row of the direct tier, and [normalize_evidence]
    succeeds, with that row in the event's direct bucket. *)
Lemma misspelled_tier_counterexample :
  py "EVT0001" ∈ ({[ py "EVT0001" ]} : gset pystr)
  ∧ filter (λ row, lower (strip (EvidenceRow.evidence_tier row)) = py "direct")
      (rows_of_event (py "EVT0001") misspelled_tier_rows) = []
  ∧ normalize_evidence misspelled_tier_rows {[ py "EVT0001" ]}
    = Ok ({[ py "EVT0001" :=
               {| Bucket.direct :=
                    [ {| Evidence.reference := py "Genesis 1:1";
                         Evidence.verse_text_kr := py "In the beginning";
                         Evidence.note := None |} ];
                  Bucket.parallel := [] |} ]},
          py "KRV", 1).
Proof.
  split; [by apply elem_of_singleton|]. split; [reflexivity|].
  vm_compute. reflexivity.
Qed.

(** ** Quota allocator: [proportional_quotas] *)

Lemma sumZ_perm l1 l2 : l1 ≡ₚ l2 → sumZ l1 = sumZ l2.
Proof. induction 1; simpl in *; lia. Qed.

Lemma sumZ_app l1 l2 : sumZ (l1 ++ l2) = sumZ l1 + sumZ l2.
Proof. induction l1; simpl in *; lia. Qed.

(** The quotas of the books [ks], summed in the order of [ks]. *)
Definition sum_over (ks : list pystr) (q : gmap pystr Z) : Z :=
  sumZ ((λ k, q !!! k) <$> ks).

Lemma sum_over_cons (x : pystr) (ks : list pystr) (q : gmap pystr Z) :
  sum_over (x :: ks) q = q !!! x + sum_over ks q.
Proof. reflexivity. Qed.




Lemma sum_over_le (ks : list pystr) (q1 q2 : gmap pystr Z) :
  (∀ k, k ∈ ks → q1 !!! k ≤ q2 !!! k) → sum_over ks q1 ≤ sum_over ks q2.
Proof.
  induction ks as [|x ks IH]; intros H; [done|].
  rewrite !sum_over_cons.
  pose proof (H x (list_elem_of_here _ _)) as Hx.
  assert (sum_over ks q1 ≤ sum_over ks q2).
  { apply IH. intros k Hk. apply H. by right. }
  lia.
Qed.

Lemma sum_values_sum_over (ks : list pystr) (q : gmap pystr Z) :
  NoDup ks → dom q = list_to_set ks → sum_values q = sum_over ks q.
Proof.
  intros Hnd Hdom. unfold sum_values, sum_over.
  assert (Hperm : map_to_list q ≡ₚ (λ k, (k, q !!! k)) <$> ks).
  { apply NoDup_Permutation.
    - apply NoDup_map_to_list.
    - apply NoDup_fmap_2; [|done]. by intros k1 k2 [= ->].
    - intros [k v]. rewrite elem_of_map_to_list, list_elem_of_fmap. split.
      + intros Hk. exists k. split.
        * by rewrite (lookup_total_correct _ _ _ Hk).
        * assert (k ∈ dom q) as Hin by (apply elem_of_dom; eauto).
          rewrite Hdom in Hin. by apply elem_of_list_to_set in Hin.
      + intros (k' & [= -> ->] & Hin).
        assert (k' ∈ dom q) as [v Hv]%elem_of_dom
          by (rewrite Hdom; by apply elem_of_list_to_set).
        by rewrite (lookup_total_correct _ _ _ Hv). }
  rewrite (sumZ_perm _ _ (fmap_Permutation snd _ _ Hperm)).
  by rewrite <- list_fmap_compose.
Qed.

(** *** The expansion loop *)

Section expand.
Context (counts : gmap pystr Z) (expandable keys : list pystr) (target c0 : Z).
Context (Hkeys : NoDup keys) (Hsub : ∀ b, b ∈ expandable → b ∈ keys).
Context (Htotal : target ≤ sum_over keys counts) (Hc0 : 0 ≤ c0).




End expand.

(** *** The reduction loop *)


Section reduce.
Context (counts : gmap pystr Z) (reducible keys : list pystr) (target c0 : Z).
Context (Hkeys : NoDup keys) (Hsub : ∀ b, b ∈ reducible → b ∈ keys).
Context (Hbooks : Z.of_nat (length keys) ≤ target) (Hc0 : c0 ≤ 2 * target + 1).




End reduce.

(** *** Both loops return, and keep every quota within its bounds *)







(** *** The initial quotas *)

Lemma lookup_total_list_to_map_fmap {B} `{!Inhabited B} (f : pystr * Z → B)
    (gc : list (pystr * Z)) b c :
  NoDup gc.*1 → (b, c) ∈ gc →
  (list_to_map ((λ kv, (kv.1, f kv)) <$> gc) : gmap pystr B) !!! b = f (b, c).
Proof.
  intros Hnd Hin. apply lookup_total_correct, elem_of_list_to_map_1.
  - rewrite <- list_fmap_compose.
    by rewrite (list_fmap_ext _ fst gc) by done.
  - apply list_elem_of_fmap. by exists (b, c).
Qed.


Lemma lookup_total_list_to_map (gc : list (pystr * Z)) b c :
  NoDup gc.*1 → (b, c) ∈ gc → (list_to_map gc : gmap pystr Z) !!! b = c.
Proof. intros Hnd Hin. by apply lookup_total_correct, elem_of_list_to_map_1. Qed.


Lemma sum_over_list_to_map (gc : list (pystr * Z)) :
  NoDup gc.*1 → sum_over gc.*1 (list_to_map gc) = sum_counts gc.
Proof.
  intros Hnd. unfold sum_over, sum_counts. rewrite <- list_fmap_compose.
  f_equal. apply list_fmap_ext. intros i [b c] Hi. simpl.
  apply lookup_total_list_to_map; [done|]. by eapply list_elem_of_lookup_2.
Qed.

Lemma sum_counts_ge_length (gc : list (pystr * Z)) :
  (∀ b c, (b, c) ∈ gc → 1 ≤ c) → Z.of_nat (length gc) ≤ sum_counts gc.
Proof.
  induction gc as [|[b c] gc IH]; intros H; [done|].
  unfold sum_counts in *. rewrite fmap_cons. simpl.
  pose proof (H b c (list_elem_of_here _ _)).
  assert (Z.of_nat (length gc) ≤ sumZ gc.*2); [|lia].
  apply IH. intros b' c' Hin. apply (H b'). by right.
Qed.





(** *** The claim about [proportional_quotas] *)





(** The scenario of the specification: candidate counts A:100, B:10, C:2
    and a target of 20. *)
Definition scenario_counts : list (pystr * Z) :=
  [ (py "A", 100); (py "B", 10); (py "C", 2) ].

Example scenario_quotas :
  proportional_quotas scenario_counts 20
  = Some {[ py "A" := 18; py "B" := 1; py "C" := 1 ]}.
Proof. vm_compute. reflexivity. Qed.




(** ** Quota allocator: [pick_evenly] *)

(** The first occurrence of every key of [l] that is not in [seen]. *)
Fixpoint dedup_by_key (seen : gset (pystr * pystr)) (l : list CandidateEvent.t)
    : list CandidateEvent.t :=
  match l with
  | [] => []
  | x :: r =>
      if decide (event_key x ∈ seen) then dedup_by_key seen r
      else x :: dedup_by_key ({[ event_key x ]} ∪ seen) r
  end.

Definition keys_of (l : list CandidateEvent.t) : gset (pystr * pystr) :=
  list_to_set (event_key <$> l).

Lemma keys_of_cons x l : keys_of (x :: l) = {[ event_key x ]} ∪ keys_of l.
Proof. reflexivity. Qed.


Lemma dedup_loop_spec selected :
  ∀ seen unique,
    dedup_loop selected seen unique
    = (keys_of selected ∪ seen, unique ++ dedup_by_key seen selected).
Proof.
  induction selected as [|x r IH]; intros seen unique; simpl.
  - f_equal; [set_solver|by rewrite app_nil_r].
  - rewrite keys_of_cons. destruct (decide (event_key x ∈ seen)) as [Hin|Hout].
    + rewrite decide_False by (by intros ?). rewrite IH. f_equal. set_solver.
    + rewrite decide_True by done. rewrite IH, <- app_assoc. f_equal. set_solver.
Qed.


Lemma length_dedup_by_key l :
  ∀ seen, length (dedup_by_key seen l) = size (keys_of l ∖ seen).
Proof.
  induction l as [|x r IH]; intros seen; simpl.
  - assert (keys_of [] ∖ seen = ∅) as -> by (unfold keys_of; set_solver).
    by rewrite size_empty.
  - rewrite keys_of_cons. destruct (decide (event_key x ∈ seen)) as [Hin|Hout].
    + rewrite IH. f_equal. set_solver.
    + simpl. rewrite IH.
      replace (({[event_key x]} ∪ keys_of r) ∖ seen)
        with ({[event_key x]} ∪ keys_of r ∖ ({[event_key x]} ∪ seen)).
      * rewrite (size_union {[event_key x]} (keys_of r ∖ ({[event_key x]} ∪ seen)))
          by set_solver.
        by rewrite size_singleton.
      * apply set_eq. intros k. destruct (decide (k = event_key x)); set_solver.
Qed.

Lemma elem_of_dedup_by_key l :
  ∀ seen x, x ∈ dedup_by_key seen l → x ∈ l ∧ event_key x ∉ seen.
Proof.
  induction l as [|y r IH]; intros seen x; simpl; [by intros ?%elem_of_nil|].
  destruct (decide (event_key y ∈ seen)) as [Hin|Hout].
  - intros [? ?]%IH. split; [by right|done].
  - intros [->|[? ?]%IH]%elem_of_cons; [split; [left|done]|].
    split; [by right|set_solver].
Qed.



Lemma fill_loop_stuck fuel items quota seen unique :
  Z.of_nat (length unique) < quota →
  fill_pass items quota seen unique = (seen, unique) →
  fill_loop fuel items quota seen unique = None.
Proof.
  intros Hlt Hpass. induction fuel as [|fuel IH]; simpl; [done|].
  rewrite decide_True by done. by rewrite Hpass.
Qed.

(** The middle of the index range from [lo] up to [hi], [hi] excluded. *)
Definition is_midpoint (lo hi m : Z) : Prop :=
  lo ≤ m < hi ∧ -1 ≤ lo + hi - 1 - 2 * m ≤ 1.

Lemma pick_index_midpoint n quota i :
  0 < quota < n → 0 ≤ i < quota →
  is_midpoint (i * n / quota) ((i + 1) * n / quota) (pick_index n quota i).
Proof.
  intros Hq Hi. unfold pick_index, is_midpoint.
  set (lo := i * n / quota). set (hi := (i + 1) * n / quota).
  assert (lo + 1 ≤ hi).
  { unfold lo, hi. rewrite <- (Z.div_add (i * n) 1 quota) by lia.
    apply Z.div_le_mono; lia. }
  rewrite Z.max_r by lia.
  pose proof (Z.div_mod (lo + (hi - 1)) 2 ltac:(lia)).
  pose proof (Z.mod_pos_bound (lo + (hi - 1)) 2 ltac:(lia)).
  lia.
Qed.

Lemma pick_index_range n quota i :
  0 < quota < n → 0 ≤ i < quota → 0 ≤ pick_index n quota i < n.
Proof.
  intros Hq Hi. destruct (pick_index_midpoint n quota i Hq Hi) as [[H1 H2] _].
  assert (0 ≤ i * n / quota) by (apply Z.div_pos; nia).
  assert ((i + 1) * n / quota ≤ n); [|lia].
  apply Z.div_le_upper_bound; nia.
Qed.








(** A candidate of the book ["G"] that starts at verse [n] of chapter 1. *)
Definition sample_candidate (n : Z) : CandidateEvent.t :=
  {| CandidateEvent.testament := py "OT";
     CandidateEvent.canonical_order := 1;
     CandidateEvent.book_name := py "G";
     CandidateEvent.title := py "title";
     CandidateEvent.first_text := py "text";
     CandidateEvent.start_ref := reference (py "G") 1 n;
     CandidateEvent.start_chapter := 1;
     CandidateEvent.start_verse := n;
     CandidateEvent.end_ref := reference (py "G") 1 n;
     CandidateEvent.verse_slice := [] |}.

Definition ten_candidates : list CandidateEvent.t := sample_candidate <$> seqZ 1 10.

Example pick_evenly_ten_three :
  CandidateEvent.start_verse <$> default [] (pick_evenly 2 ten_candidates 3) = [2; 5; 8].
Proof. vm_compute. reflexivity. Qed.


(** Three candidates with one and the same key. *)
Definition same_key_candidates : list CandidateEvent.t :=
  [ sample_candidate 1; sample_candidate 1; sample_candidate 1 ].


(** *** When the keys run out *)

Lemma fill_pass_all_seen items quota : ∀ seen unique,
  keys_of items ⊆ seen → fill_pass items quota seen unique = (seen, unique).
Proof.
  induction items as [|x r IH]; intros seen unique Hsub; [done|].
  rewrite keys_of_cons in Hsub. simpl.
  rewrite decide_True by set_solver. apply IH. set_solver.
Qed.

Lemma fill_pass_short items quota : ∀ seen unique,
  Z.of_nat (length unique) + Z.of_nat (size (keys_of items ∖ seen)) < quota →
  fill_pass items quota seen unique
  = (keys_of items ∪ seen, unique ++ dedup_by_key seen items).
Proof.
  induction items as [|x r IH]; intros seen unique Hlt.
  - simpl. rewrite app_nil_r. f_equal. unfold keys_of. set_solver.
  - rewrite keys_of_cons in *. simpl.
    destruct (decide (event_key x ∈ seen)) as [Hin|Hout].
    + rewrite IH.
      * f_equal. set_solver.
      * replace (keys_of r ∖ seen) with (({[event_key x]} ∪ keys_of r) ∖ seen); [done|].
        set_solver.
    + assert (({[event_key x]} ∪ keys_of r) ∖ seen
              = {[event_key x]} ∪ keys_of r ∖ ({[event_key x]} ∪ seen)) as Hsplit.
      { apply set_eq. intros k. destruct (decide (k = event_key x)); set_solver. }
      rewrite Hsplit in Hlt.
      rewrite (size_union {[event_key x]}) in Hlt by set_solver.
      rewrite size_singleton in Hlt.
      rewrite decide_False by (rewrite length_app; simpl; lia).
      rewrite IH by (rewrite length_app; simpl; lia).
      rewrite <- app_assoc. f_equal. set_solver.
Qed.

(** X16. [pick_evenly] returns only if the items have as many different keys
    as the quota asks for: with fewer, and a quota of two or more below
    the number of items, every round of the fill leaves [unique] short,
    and the [while] loop never ends. *)
Theorem pick_evenly_loops_without_enough_keys
    (items : list CandidateEvent.t) (quota : Z) (fuel : nat) :
  1 < quota < Z.of_nat (length items) →
  Z.of_nat (size (keys_of items)) < quota →
  pick_evenly fuel items quota = None.
Proof.
  intros Hq Hkeys. unfold pick_evenly.
  rewrite decide_False by lia. rewrite decide_False by lia.
  rewrite decide_False by lia. rewrite dedup_loop_spec, app_nil_l.
  set (selected := pick_selected items quota).
  assert (keys_of selected ⊆ keys_of items) as Hsub.
  { intros k Hk. unfold keys_of in Hk.
    apply elem_of_list_to_set, list_elem_of_fmap in Hk as (c & -> & Hc).
    unfold selected, pick_selected in Hc.
    apply list_elem_of_fmap in Hc as (i & -> & Hi).
    apply elem_of_list_to_set, list_elem_of_fmap. eexists. split; [reflexivity|].
    apply list_elem_of_lookup_total_2.
    apply elem_of_seqZ in Hi.
    pose proof (pick_index_range (Z.of_nat (length items)) quota i ltac:(lia) ltac:(lia)).
    lia. }
  assert (length (dedup_by_key ∅ selected) = size (keys_of selected)) as Hlen.
  { rewrite length_dedup_by_key. f_equal. set_solver. }
  assert (fill_loop fuel items quota (keys_of selected ∪ ∅) (dedup_by_key ∅ selected)
          = None) as ->; [|done].
  destruct fuel as [|fuel]; [done|]. cbn [fill_loop].
  assert (size (keys_of selected) + size (keys_of items ∖ (keys_of selected ∪ ∅))
          = size (keys_of items))%nat as Hsize.
  { rewrite <- size_union by set_solver. f_equal.
    apply set_eq. intros k. rewrite elem_of_union, elem_of_difference. split.
    - intros [Hk|[Hk _]]; [by apply Hsub|exact Hk].
    - intros Hk. destruct (decide (k ∈ keys_of selected)) as [Hin|Hout]; [by left|].
      right. split; [exact Hk|]. rewrite elem_of_union.
      intros [Hx|Hx]; [done|by apply elem_of_empty in Hx]. }
  pose proof (subseteq_size _ _ Hsub) as Hle.
  rewrite decide_True by (rewrite Hlen; lia).
  rewrite fill_pass_short by (rewrite Hlen; lia).
  apply fill_loop_stuck.
  - rewrite length_app, Hlen, length_dedup_by_key. lia.
  - apply fill_pass_all_seen. set_solver.
Qed.

Lemma pick_evenly_loops_without_enough_keys_witness :
  pick_evenly 5 same_key_candidates 2 = None.
Proof.
  apply (pick_evenly_loops_without_enough_keys same_key_candidates 2 5).
  - vm_compute. split; reflexivity.
  - vm_compute. reflexivity.
Defined.

(** ** Candidate event extractor *)

Lemma length_lstrip s : (length (lstrip s) ≤ length s)%nat.
Proof. induction s as [|c r IH]; simpl; [done|]. destruct (is_space c); simpl; lia. Qed.

Lemma length_strip s : (length (strip s) ≤ length s)%nat.
Proof.
  unfold strip, rstrip. rewrite length_reverse.
  etransitivity; [apply length_lstrip|]. rewrite length_reverse. apply length_lstrip.
Qed.

Lemma span_until_app c s a b : span_until c s = (a, b) → s = a ++ b.
Proof.
  revert a b. induction s as [|x r IH]; intros a b; simpl; [by intros [= <- <-]|].
  case_decide; [by intros [= <- <-]|].
  destruct (span_until c r) as [a' b']. intros [= <- <-].
  simpl. f_equal. by apply IH.
Qed.

Lemma heading_match_shorter text title body :
  heading_match text = Some (title, body) → (length body < length text)%nat.
Proof.
  unfold heading_match. pose proof (length_lstrip text) as Hl.
  destruct (lstrip text) as [|c r]; [done|].
  destruct c as [|p]; [done|].
  repeat (destruct p as [p|p|]; try done).
  destruct (span_until 62%N r) as [t rest] eqn:Hspan.
  apply span_until_app in Hspan as ->.
  destruct t as [|t0 t]; [done|]. destruct rest as [|gt rest]; [done|].
  pose proof (length_lstrip rest) as Hr.
  destruct (span_until 10%N (lstrip rest)) as [b tail] eqn:Hbody.
  apply span_until_app in Hbody. rewrite Hbody in Hr.
  simpl in Hl. rewrite !length_app in *. simpl in Hl.
  destruct tail as [|? [|? ?]]; intros [= <- <-] || done; lia.
Qed.

Lemma clean_heading_loop_total fuel :
  ∀ text, (length text < fuel)%nat → is_Some (clean_heading_loop fuel text).
Proof.
  induction fuel as [|fuel IH]; intros text Hlen; [lia|]. simpl.
  destruct (heading_match text) as [[title body]|] eqn:Hm; [|done].
  apply IH. apply heading_match_shorter in Hm.
  pose proof (length_strip body). lia.
Qed.

Lemma clean_heading_prefix_total text : is_Some (clean_heading_prefix text).
Proof.
  apply clean_heading_loop_total. pose proof (length_strip text). lia.
Qed.

(** A verse whose text begins with a bracketed heading marker. *)
Definition is_heading (verse : Verse.t) : Prop :=
  is_Some (heading_match (Verse.text verse)).

#[global] Instance is_heading_dec verse : Decision (is_heading verse).
Proof. unfold is_heading. apply _. Defined.

(** The verses from index [i] up to [stop], [stop] excluded, are the span of
    a heading: verse [i] carries a heading, no verse after it and before
    [stop] does, and [stop] is the next heading or the end of the book. *)
Definition heading_span (verses : list Verse.t) (i stop : nat) : Prop :=
  (i < stop ≤ length verses)%nat
  ∧ (∃ v, verses !! i = Some v ∧ is_heading v)
  ∧ (stop = length verses ∨ ∃ v, verses !! stop = Some v ∧ is_heading v)
  ∧ ∀ k v, (i < k < stop)%nat → verses !! k = Some v → ¬ is_heading v.

Section extract_facts.
Context (nfc : pystr → pystr).

Lemma heading_positions_nil k verses :
  heading_positions nfc k verses = [] → Forall (λ v, ¬ is_heading v) verses.
Proof.
  revert k. induction verses as [|v r IH]; intros k; simpl; [constructor|].
  destruct (heading_match (Verse.text v)) as [[t b]|] eqn:Hm; [done|].
  intros H. constructor; [|by eapply IH].
  unfold is_heading. rewrite Hm. by intros [? ?].
Qed.

Lemma heading_positions_cons k verses idx title body later :
  heading_positions nfc k verses = (idx, title, body) :: later →
  ∃ pre v post,
    verses = pre ++ v :: post
    ∧ idx = (k + length pre)%nat
    ∧ Forall (λ v, ¬ is_heading v) pre
    ∧ is_heading v
    ∧ later = heading_positions nfc (S idx) post.
Proof.
  revert k. induction verses as [|v r IH]; intros k; simpl; [done|].
  destruct (heading_match (Verse.text v)) as [[t b]|] eqn:Hm.
  - intros [= <- <- <- <-]. exists [], v, r. simpl.
    split; [done|]. split; [lia|]. split; [constructor|]. split; [|done].
    unfold is_heading. by rewrite Hm.
  - intros (pre & v' & post & -> & -> & Hpre & Hv & ->)%IH.
    exists (v :: pre), v', post. simpl.
    split; [done|]. split; [lia|]. split; [|split; [done|f_equal; lia]].
    constructor; [|done]. unfold is_heading. rewrite Hm. by intros [? ?].
Qed.

Lemma length_heading_positions k verses :
  length (heading_positions nfc k verses) = length (filter is_heading verses).
Proof.
  revert k. induction verses as [|v r IH]; intros k; simpl; [done|].
  rewrite filter_cons. destruct (decide (is_heading v)) as [[[t b] Hm]|Hn].
  - rewrite Hm. simpl. by rewrite IH.
  - destruct (heading_match (Verse.text v)) as [[t b]|] eqn:Hm; [|apply IH].
    destruct Hn. unfold is_heading. rewrite Hm. eauto.
Qed.
End extract_facts.

(** The candidate that [build_candidate_events] makes of the verses of
    [book_name] from index [i] up to [stop]. *)
Definition candidate_of_span (book_name : pystr) (verses : list Verse.t)
    (i stop : nat) (c : CandidateEvent.t) : Prop :=
  CandidateEvent.book_name c = book_name
  ∧ CandidateEvent.verse_slice c = take (stop - i) (drop i verses)
  ∧ ∃ first last_,
      verses !! i = Some first ∧ verses !! (stop - 1)%nat = Some last_
      ∧ CandidateEvent.start_chapter c = Verse.chapter first
      ∧ CandidateEvent.start_verse c = Verse.verse first
      ∧ CandidateEvent.canonical_order c = Verse.canonical_order first
      ∧ CandidateEvent.start_ref c
        = reference book_name (Verse.chapter first) (Verse.verse first)
      ∧ CandidateEvent.end_ref c
        = reference book_name (Verse.chapter last_) (Verse.verse last_).

Section build_candidate_events_facts.
Context (nfc : pystr → pystr).

Lemma first_heading_spec k post :
  let stop :=
    match heading_positions nfc k post with
    | (next, _, _) :: _ => next
    | [] => (k + length post)%nat
    end in
  (k ≤ stop ≤ k + length post)%nat
  ∧ (∀ j v, (j < stop - k)%nat → post !! j = Some v → ¬ is_heading v)
  ∧ (stop = (k + length post)%nat
     ∨ ∃ v, post !! (stop - k)%nat = Some v ∧ is_heading v).
Proof.
  destruct (heading_positions nfc k post) as [|[[next t] b] later] eqn:Hp; simpl.
  - apply heading_positions_nil in Hp. split; [lia|]. split; [|by left].
    intros j v _ Hj. rewrite Forall_forall in Hp.
    apply Hp. by eapply list_elem_of_lookup_2.
  - apply heading_positions_cons in Hp as (pre & v & post' & -> & -> & Hpre & Hv & _).
    rewrite length_app. simpl. split; [lia|]. split.
    + intros j v' Hj Hlook. rewrite lookup_app_l in Hlook by lia.
      rewrite Forall_forall in Hpre. apply Hpre. by eapply list_elem_of_lookup_2.
    + right. exists v. split; [|done].
      replace (k + length pre - k)%nat with (length pre) by lia.
      by rewrite list_lookup_middle.
Qed.

Lemma last_cons_is_Some {A} (x : A) l : is_Some (last (x :: l)).
Proof. apply last_is_Some. done. Qed.

Lemma last_take_drop {A} (l : list A) i stop x :
  (i < stop ≤ length l)%nat →
  last (take (stop - i) (drop i l)) = Some x → l !! (stop - 1)%nat = Some x.
Proof.
  intros Hi. rewrite last_lookup, length_take, length_drop.
  rewrite lookup_take_lt by lia. rewrite lookup_drop.
  intros <-. f_equal. lia.
Qed.

Lemma book_candidates_spec book_name all positions :
  ∀ k post,
    drop k all = post →
    positions = heading_positions nfc k post →
    ∃ cands,
      book_candidates book_name all positions = Some cands
      ∧ length cands = length positions
      ∧ (∀ c, c ∈ cands →
           CandidateEvent.book_name c = book_name
           ∧ CandidateEvent.verse_slice c ≠ [])
      ∧ ∀ i v, (k ≤ i)%nat → all !! i = Some v → is_heading v →
          ∃ c stop, c ∈ cands ∧ heading_span all i stop
                    ∧ candidate_of_span book_name all i stop c.
Proof.
  induction positions as [|[[idx title] first_text] later IH]; intros k post Hdrop Hpos.
  - exists []. split; [done|]. split; [done|]. split; [by intros ? ?%elem_of_nil|].
    intros i v Hi Hlook Hv. exfalso.
    symmetry in Hpos. apply heading_positions_nil in Hpos.
    rewrite Forall_forall in Hpos. apply (Hpos v); [|done].
    rewrite <- Hdrop. apply (list_elem_of_lookup_2 _ (i - k)).
    rewrite lookup_drop. rewrite <- Hlook. f_equal. lia.
  - symmetry in Hpos.
    apply heading_positions_cons in Hpos as (pre & v & post' & -> & -> & Hpre & Hv & ->).
    assert (Hdrop1 : drop (k + length pre) all = v :: post').
    { rewrite <- drop_drop, Hdrop. rewrite drop_app_length. done. }
    assert (Hdrop2 : drop (S (k + length pre)) all = post').
    { replace (S (k + length pre)) with (k + length pre + 1)%nat by lia.
      by rewrite <- drop_drop, Hdrop1. }
    assert (Hlen : length all = (S (k + length pre) + length post')%nat).
    { assert (length (drop (k + length pre) all) = S (length post')) as Hl
        by (by rewrite Hdrop1).
      rewrite length_drop in Hl. lia. }
    set (idx := (k + length pre)%nat) in *.
    pose proof (first_heading_spec (S idx) post') as Hfirst.
    destruct (IH (S idx) post' Hdrop2 eq_refl) as (rest & Hrest & Hrlen & Hrbook & Hrspan).
    simpl.
    set (stop :=
           match heading_positions nfc (S idx) post' with
           | (next, _, _) :: _ => next
           | [] => (S idx + length post')%nat
           end) in *.
    simpl in Hfirst. destruct Hfirst as (Hstop & Hbetween & Hnext).
    assert (Hend : Z.to_nat
              (match heading_positions nfc (S idx) post' with
               | (next_idx, _, _) :: _ => Z.of_nat next_idx - 1
               | [] => Z.of_nat (length all) - 1
               end + 1) = stop).
    { unfold stop. destruct (heading_positions nfc (S idx) post') as [|[[? ?] ?] ?]; lia. }
    unfold slice. rewrite Hend.
    assert (Hslice : take (stop - idx) (drop idx all)
                     = v :: take (stop - idx - 1) post').
    { rewrite Hdrop1. destruct (stop - idx)%nat as [|m] eqn:Hm; [lia|].
      simpl. f_equal. f_equal. lia. }
    rewrite Hslice.
    destruct (last_cons_is_Some v (take (stop - idx - 1) post')) as [end_verse Hlast].
    rewrite Hlast.
    assert (∃ ft, (if decide (first_text = [])
                   then clean_heading_prefix (Verse.text v)
                   else Some first_text) = Some ft) as [ft ->].
    { case_decide; [apply clean_heading_prefix_total|eauto]. }
    rewrite Hrest. simpl.
    eexists. split; [done|]. split; [simpl; by rewrite Hrlen|]. split.
    + intros c [->|Hc]%elem_of_cons; [done|by apply Hrbook].
    + assert (Hv_at : all !! idx = Some v).
      { rewrite <- (Nat.add_0_r idx), <- lookup_drop, Hdrop1. done. }
      intros i v' Hi Hlook Hv'.
      destruct (decide (i < idx)%nat) as [Hlt|Hge].
      { exfalso. rewrite Forall_forall in Hpre. apply (Hpre v'); [|done].
        apply (list_elem_of_lookup_2 _ (i - k)).
        assert (drop k all !! (i - k)%nat = Some v') as Hd.
        { rewrite lookup_drop. rewrite <- Hlook. f_equal. lia. }
        rewrite Hdrop in Hd. rewrite lookup_app_l in Hd; [done|]. unfold idx in Hlt. lia. }
      destruct (decide (i = idx)) as [->|Hne].
      * eexists _, stop. split; [left|]. split.
        -- split; [lia|]. split; [eauto|]. split.
           ++ destruct Hnext as [->|(v'' & Hv'' & Hh)]; [left; lia|right].
              exists v''. split; [|done].
              rewrite <- Hdrop2, lookup_drop in Hv''. rewrite <- Hv''. f_equal. lia.
           ++ intros j v'' Hj Hlook'. apply (Hbetween (j - S idx)%nat); [lia|].
              rewrite <- Hdrop2, lookup_drop. rewrite <- Hlook'. f_equal. lia.
        -- split; [done|]. split; [simpl; by rewrite <- Hslice|].
           exists v, end_verse. split; [done|]. split; [|done].
           apply (last_take_drop all idx stop); [lia|]. by rewrite Hslice.
      * destruct (Hrspan i v' ltac:(lia) Hlook Hv') as (c & stop' & Hc & Hspan & Hcand).
        exists c, stop'. split; [by right|done].
Qed.
End build_candidate_events_facts.

(** What [build_candidate_events] owes to one book of [by_book]: as many
    candidates as the book has heading verses, and for every heading verse a
    candidate whose span starts there and ends before the next heading or
    with the book. *)
Definition book_spans (candidates : list CandidateEvent.t)
    (book_name : pystr) (verses : list Verse.t) : Prop :=
  length (filter (λ c, CandidateEvent.book_name c = book_name) candidates)
  = length (filter is_heading verses)
  ∧ ∀ i v, verses !! i = Some v → is_heading v →
      ∃ c stop, c ∈ candidates ∧ heading_span verses i stop
                ∧ candidate_of_span book_name verses i stop c.

Section all_book_candidates_facts.
Context (nfc : pystr → pystr).

Lemma filter_book_all (l : list CandidateEvent.t) book :
  (∀ c, c ∈ l → CandidateEvent.book_name c = book) →
  filter (λ c, CandidateEvent.book_name c = book) l = l.
Proof.
  induction l as [|x l IH]; intros H; [done|].
  rewrite filter_cons_True by (apply H; left).
  f_equal. apply IH. intros c Hc. apply H. by right.
Qed.

Lemma filter_book_none (l : list CandidateEvent.t) book :
  (∀ c, c ∈ l → CandidateEvent.book_name c ≠ book) →
  filter (λ c, CandidateEvent.book_name c = book) l = [].
Proof.
  induction l as [|x l IH]; intros H; [done|].
  rewrite filter_cons_False by (apply H; left).
  apply IH. intros c Hc. apply H. by right.
Qed.

Lemma all_book_candidates_spec by_book :
  NoDup by_book.*1 →
  ∃ cands,
    all_book_candidates nfc by_book = Some cands
    ∧ (∀ c, c ∈ cands →
         CandidateEvent.book_name c ∈ by_book.*1
         ∧ CandidateEvent.book_name c ∈ NARRATIVE_BOOKS
         ∧ CandidateEvent.verse_slice c ≠ [])
    ∧ ∀ book_name verses,
        (book_name, verses) ∈ by_book → book_name ∈ NARRATIVE_BOOKS →
        book_spans cands book_name verses.
Proof.
  induction by_book as [|[book0 verses0] rest IH]; intros Hnd.
  - exists []. split; [done|]. split; [by intros ? ?%elem_of_nil|].
    intros ?? []%elem_of_nil.
  - rewrite fmap_cons in Hnd. apply NoDup_cons in Hnd as [Hfresh Hnd].
    destruct (IH Hnd) as (there & Hthere & Htprops & Htspans). simpl.
    destruct (decide (book0 ∉ NARRATIVE_BOOKS)) as [Hskip|Hnarr].
    + exists there. split; [done|]. split.
      * intros c Hc. destruct (Htprops c Hc) as (? & ? & ?).
        split; [right; assumption|split; assumption].
      * intros book verses [[= -> ->]|Hin]%elem_of_cons Hb;
          [exfalso; exact (Hskip Hb)|exact (Htspans _ _ Hin Hb)].
    + apply dec_stable in Hnarr.
      destruct (book_candidates_spec nfc book0 verses0 _ 0 verses0 eq_refl eq_refl)
        as (here & Hhere & Hhlen & Hhbook & Hhspan).
      rewrite Hhere, Hthere. simpl. exists (here ++ there). split; [done|]. split.
      * intros c [Hc|Hc]%elem_of_app.
        -- destruct (Hhbook c Hc) as [-> ?]. split; [left|split; assumption].
        -- destruct (Htprops c Hc) as (? & ? & ?).
           split; [right; assumption|split; assumption].
      * intros book verses [[= -> ->]|Hin]%elem_of_cons Hb.
        -- split.
           ++ rewrite filter_app, filter_book_all, filter_book_none, app_nil_r.
              ** by rewrite Hhlen, length_heading_positions.
              ** intros c Hc <-. destruct (Htprops c Hc) as (Hx & _).
                 exact (Hfresh Hx).
              ** intros c Hc. by destruct (Hhbook c Hc).
           ++ intros i v Hi Hv.
              destruct (Hhspan i v ltac:(lia) Hi Hv) as (c & stop & Hc & ?).
              exists c, stop. split; [|done]. apply elem_of_app. by left.
        -- destruct (Htspans book verses Hin Hb) as [Hcount Hspans]. split.
           ++ rewrite filter_app, filter_book_none; [done|].
              intros c Hc Heq. destruct (Hhbook c Hc) as [Hbk _].
              apply Hfresh. rewrite <- Hbk, Heq.
              apply list_elem_of_fmap. exists (book, verses).
              split; [reflexivity|assumption].
           ++ intros i v Hi Hv.
              destruct (Hspans i v Hi Hv) as (c & stop & Hc & ?).
              exists c, stop. split; [|done]. apply elem_of_app. by right.
Qed.
End all_book_candidates_facts.

(** The scenario of the specification: a narrative book of ten verses with
    heading markers on verses 1 and 6. *)
Definition scenario_verse (n : Z) (text : pystr) : Verse.t :=
  {| Verse.testament := py "OT"; Verse.canonical_order := 1;
     Verse.book_name := py "창세기"; Verse.book_abbr := py "창";
     Verse.chapter := 1; Verse.verse := n; Verse.text := text |}.

Definition scenario_book : list (pystr * list Verse.t) :=
  [ (py "창세기",
     [ scenario_verse 1 (py "<Creation> In the beginning");
       scenario_verse 2 (py "two"); scenario_verse 3 (py "three");
       scenario_verse 4 (py "four"); scenario_verse 5 (py "five");
       scenario_verse 6 (py "<Rest> Thus the heavens");
       scenario_verse 7 (py "seven"); scenario_verse 8 (py "eight");
       scenario_verse 9 (py "nine"); scenario_verse 10 (py "ten") ]) ].

(** C5. For every narrative book of [by_book], [build_candidate_events]
    yields one candidate per verse whose text begins with a heading marker,
    and the span of the candidate runs from that verse up to the verse
    before the next heading marker, or to the end of the book; it yields no
    candidate of any other book. A book of ten verses with markers on
    verses 1 and 6 yields exactly two candidates, of verses 1 to 5 and 6 to
    10 (the text being in normal form already). *)
Theorem build_candidate_events_spans :
  (∀ (nfc : pystr → pystr) (by_book : list (pystr * list Verse.t)),
     NoDup by_book.*1 →
     ∃ candidates,
       build_candidate_events nfc by_book = Some candidates
       ∧ (∀ c, c ∈ candidates →
            CandidateEvent.book_name c ∈ NARRATIVE_BOOKS
            ∧ CandidateEvent.verse_slice c ≠ [])
       ∧ ∀ book_name verses,
           (book_name, verses) ∈ by_book → book_name ∈ NARRATIVE_BOOKS →
           book_spans candidates book_name verses)
  ∧ ∃ first second,
      build_candidate_events (λ s, s) scenario_book = Some [first; second]
      ∧ Verse.verse <$> CandidateEvent.verse_slice first = [1; 2; 3; 4; 5]
      ∧ Verse.verse <$> CandidateEvent.verse_slice second = [6; 7; 8; 9; 10]
      ∧ CandidateEvent.start_ref first = py "창세기 1:1"
      ∧ CandidateEvent.end_ref first = py "창세기 1:5"
      ∧ CandidateEvent.start_ref second = py "창세기 1:6"
      ∧ CandidateEvent.end_ref second = py "창세기 1:10".
Proof.
  split.
  - intros nfc by_book Hnd. unfold build_candidate_events.
    destruct (all_book_candidates_spec nfc by_book Hnd) as (cands & -> & Hprops & Hspans).
    simpl. eexists. split; [done|]. split.
    + intros c Hc%elem_of_stable_sort. destruct (Hprops c Hc) as (_ & ? & ?).
      split; assumption.
    + intros book verses Hin Hb. destruct (Hspans book verses Hin Hb) as [Hcount Hsp].
      split.
      * by rewrite (stable_sort_perm candidate_before cands).
      * intros i v Hi Hv. destruct (Hsp i v Hi Hv) as (c & stop & Hc & ?).
        exists c, stop. split; [by apply elem_of_stable_sort|done].
  - do 2 eexists. split; [vm_compute; reflexivity|]. repeat split; vm_compute; reflexivity.
Qed.

Lemma build_candidate_events_spans_witness :
  ∃ candidates,
    build_candidate_events (λ s, s) scenario_book = Some candidates
    ∧ ∀ book_name verses,
        (book_name, verses) ∈ scenario_book → book_name ∈ NARRATIVE_BOOKS →
        book_spans candidates book_name verses.
Proof.
  destruct (proj1 build_candidate_events_spans (λ s, s) scenario_book)
    as (candidates & Hb & _ & Hspans).
  - apply (bool_decide_unpack _). vm_compute. exact I.
  - exists candidates. split; [exact Hb|exact Hspans].
Defined.

(** ** [clean_heading_prefix] *)

(** The text does not begin with whitespace. *)
Definition no_leading_space (s : pystr) : Prop :=
  match s with
  | c :: _ => is_space c = false
  | [] => True
  end.

Lemma lstrip_no_leading_space s : no_leading_space (lstrip s).
Proof.
  induction s as [|c r IH]; [done|]. simpl.
  destruct (is_space c) eqn:Hc; [exact IH|exact Hc].
Qed.

Lemma lstrip_id s : no_leading_space s → lstrip s = s.
Proof. destruct s as [|c r]; [done|]. simpl. by intros ->. Qed.

Lemma lstrip_suffix s : ∃ spaces, s = spaces ++ lstrip s.
Proof.
  induction s as [|c r [spaces IH]]; [by exists []|]. simpl.
  destruct (is_space c); [|by exists []].
  exists (c :: spaces). simpl. by rewrite <- IH.
Qed.

Lemma strip_strip s : strip (strip s) = strip s.
Proof.
  unfold strip at 1. unfold rstrip at 1.
  assert (no_leading_space (strip s)) as Hlead.
  { unfold strip, rstrip.
    pose proof (lstrip_no_leading_space s) as Ht.
    destruct (lstrip_suffix (reverse (lstrip s))) as [spaces Hs].
    apply (f_equal reverse) in Hs. rewrite reverse_involutive, reverse_app in Hs.
    destruct (reverse (lstrip (reverse (lstrip s)))) as [|c u]; [done|].
    rewrite Hs in Ht. exact Ht. }
  rewrite (lstrip_id _ Hlead).
  assert (reverse (strip s) = lstrip (reverse (lstrip s))) as Hrev.
  { unfold strip, rstrip. by rewrite reverse_involutive. }
  rewrite Hrev.
  rewrite (lstrip_id (lstrip _)) by apply lstrip_no_leading_space.
  by rewrite <- Hrev, reverse_involutive.
Qed.

(** What the loop returns has no heading marker left, and is no longer
    than what it was given. *)
Lemma clean_heading_loop_spec fuel : ∀ text out,
  clean_heading_loop fuel text = Some out →
  heading_match out = None
  ∧ (length out ≤ length text)%nat
  ∧ (heading_match text = None → out = text)
  ∧ (strip text = text → strip out = out).
Proof.
  induction fuel as [|fuel IH]; intros text out; [done|]. simpl.
  destruct (heading_match text) as [[title body]|] eqn:Hm.
  - intros Hloop. destruct (IH _ _ Hloop) as (Hnone & Hlen & _ & Hstrip).
    split; [exact Hnone|]. split; [|split; [done|]].
    + apply heading_match_shorter in Hm. pose proof (length_strip body). lia.
    + intros _. apply Hstrip, strip_strip.
  - intros [= <-]. done.
Qed.

(** X15. [clean_heading_prefix] always returns. What it returns does not begin
    with a heading marker, is no longer than the text, and is left as it
    is when cleaned again; a text that begins with no marker is only
    stripped of the whitespace around it. *)
Theorem clean_heading_prefix_removes_markers (text : pystr) :
  ∃ out,
    clean_heading_prefix text = Some out
    ∧ heading_match out = None
    ∧ (length out ≤ length text)%nat
    ∧ strip out = out
    ∧ clean_heading_prefix out = Some out
    ∧ (heading_match (strip text) = None → out = strip text).
Proof.
  destruct (clean_heading_prefix_total text) as [out Hout].
  exists out. split; [exact Hout|].
  unfold clean_heading_prefix in Hout.
  destruct (clean_heading_loop_spec _ _ _ Hout) as (Hnone & Hlen & Hsame & Hstrip).
  specialize (Hstrip (strip_strip text)).
  split; [exact Hnone|]. split; [pose proof (length_strip text); lia|].
  split; [exact Hstrip|]. split; [|exact Hsame].
  unfold clean_heading_prefix. rewrite Hstrip. simpl. by rewrite Hnone.
Qed.

Example clean_heading_prefix_twice :
  clean_heading_prefix (py " <Creation> <Day one>  In the beginning ")
  = Some (py "In the beginning").
Proof. vm_compute. reflexivity. Qed.

Lemma clean_heading_prefix_removes_markers_witness :
  ∃ out, clean_heading_prefix (py " plain text ") = Some out
         ∧ out = strip (py " plain text ").
Proof.
  destruct (clean_heading_prefix_removes_markers (py " plain text "))
    as (out & Hout & _ & _ & _ & _ & Hplain).
  exists out. split; [exact Hout|]. apply Hplain. vm_compute. reflexivity.
Defined.

(** ** Chronology graph validation: [topological_ok] *)

(** A graph, given by its list of edges, has no cycle. *)
Definition acyclic (E : list (pystr * pystr)) : Prop :=
  ∀ x, ¬ tc (λ a b, (a, b) ∈ E) x x.

(** The edges with both ends in the node set. *)
Definition induced_edges (node_set : gset pystr) (edges : list (pystr * pystr))
    : list (pystr * pystr) :=
  filter (λ e, e.1 ∈ node_set ∧ e.2 ∈ node_set) edges.

Lemma list_pop_None {A} (l : list A) : list_pop l = None → l = [].
Proof.
  unfold list_pop. destruct (reverse l) as [|x r] eqn:Hr; [|done].
  intros _. by rewrite <- (reverse_involutive l), Hr.
Qed.

Lemma list_pop_Some {A} (l l' : list A) x : list_pop l = Some (l', x) → l = l' ++ [x].
Proof.
  unfold list_pop. destruct (reverse l) as [|y r] eqn:Hr; [done|].
  intros [= <- <-]. by rewrite <- (reverse_involutive l), Hr, reverse_cons.
Qed.

(** The number of times [x] is in [l]. *)
Definition occurrences (x : pystr) (l : list pystr) : nat :=
  length (filter (λ y, y = x) l).

(** The edges of [l] into [x] whose source is not in [V]. *)
Definition open_in (l : list (pystr * pystr)) (V : list pystr) (x : pystr) : nat :=
  length (filter (λ e, e.2 = x ∧ e.1 ∉ V) l).

Lemma open_in_visit l V cur x :
  cur ∉ V →
  open_in l V x
  = (open_in l (cur :: V) x + occurrences x (snd <$> filter (λ e, e.1 = cur) l))%nat.
Proof.
  intros Hcur. unfold open_in, occurrences.
  induction l as [|[s d] l IH]; [done|].
  rewrite !filter_cons. simpl.
  destruct (decide (s = cur)) as [->|Hs].
  - rewrite fmap_cons, filter_cons. simpl.
    destruct (decide (d = x)) as [->|Hd].
    + rewrite decide_True by done.
      rewrite decide_False by (intros [_ H]; apply H; left).
      simpl. lia.
    + rewrite decide_False by (by intros [? _]).
      rewrite decide_False by (by intros [? _]). done.
  - destruct (decide (d = x ∧ s ∉ V)) as [[-> HsV]|Hno].
    + rewrite decide_True; [simpl; lia|].
      split; [done|]. by intros [?|?]%elem_of_cons.
    + rewrite decide_False; [done|].
      intros [-> H]. apply Hno. split; [done|]. intros ?. apply H. by right.
Qed.

Lemma open_in_zero l V x s :
  open_in l V x = O → (s, x) ∈ l → s ∈ V.
Proof.
  unfold open_in. intros Hz%nil_length_inv Hin.
  destruct (decide (s ∈ V)) as [|Hout]; [done|].
  exfalso. eapply (filter_nil_not_elem_of _ _ (s, x)); [exact Hz| |done]. by split.
Qed.

Lemma open_in_pos l V x :
  open_in l V x ≠ O → ∃ s, (s, x) ∈ l ∧ s ∉ V.
Proof.
  unfold open_in. destruct (filter _ l) as [|[s d] r] eqn:Hf; [done|]. intros _.
  assert ((s, d) ∈ filter (λ e : pystr * pystr, e.2 = x ∧ e.1 ∉ V) l) as Hin
    by (rewrite Hf; left).
  apply list_elem_of_filter in Hin as [[Hd Hs] Hin]. simpl in *. subst d. eauto.
Qed.

Lemma occurrences_cons_eq x l : occurrences x (x :: l) = S (occurrences x l).
Proof. unfold occurrences. by rewrite filter_cons_True. Qed.

Lemma occurrences_cons_ne x y l : y ≠ x → occurrences x (y :: l) = occurrences x l.
Proof. intros H. unfold occurrences. by rewrite filter_cons_False. Qed.

Lemma NoDup_length_le_size (l : list pystr) (X : gset pystr) :
  NoDup l → (∀ x, x ∈ l → x ∈ X) → (length l ≤ size X)%nat.
Proof.
  intros Hnd Hsub. rewrite <- (size_list_to_set (C:=gset pystr) l Hnd).
  apply subseteq_size. intros x Hx%elem_of_list_to_set. by apply Hsub.
Qed.

Lemma NoDup_full (l : list pystr) (X : gset pystr) :
  NoDup l → (∀ x, x ∈ l → x ∈ X) → length l = size X → ∀ x, x ∈ X → x ∈ l.
Proof.
  intros Hnd Hsub Hlen x Hx.
  assert (list_to_set l = X) as <-; [|by apply elem_of_list_to_set in Hx].
  apply set_subseteq_size_eq.
  - intros y Hy%elem_of_list_to_set. by apply Hsub.
  - rewrite size_list_to_set by done. lia.
Qed.

(** In a finite set where every element has a predecessor in the set, a
    transitive relation has a reflexive point. *)
Lemma no_minimal_element (R : relation pystr) (l : list pystr) :
  Transitive R → (∀ x, ¬ R x x) →
  (∀ x, x ∈ l → ∃ y, y ∈ l ∧ R y x) → l = [].
Proof.
  intros Htrans Hirr. induction l as [|a l IH]; intros Hpred; [done|]. exfalso.
  assert (l = []) as ->.
  { apply IH. intros x Hx.
    destruct (Hpred x ltac:(by right)) as (y & [->|Hy]%elem_of_cons & Hyx); [|eauto].
    destruct (Hpred a ltac:(left)) as (z & [->|Hz]%elem_of_cons & Hza);
      [by apply Hirr in Hza|].
    exists z. split; [done|]. by transitivity a. }
  destruct (Hpred a ltac:(left)) as (y & ->%list_elem_of_singleton & Hya).
  by apply Hirr in Hya.
Qed.

Section kahn.
Context (node_set : gset pystr) (E : list (pystr * pystr)).
Context (HE : ∀ s d, (s, d) ∈ E → s ∈ node_set ∧ d ∈ node_set).
Context (outgoing : gmap pystr (list pystr)).
Context (Hout : ∀ x, x ∈ node_set → outgoing !!! x = snd <$> filter (λ e, e.1 = x) E).

(** [V] lists nodes newest first, each after all its predecessors. *)
Fixpoint visit_order (V : list pystr) : Prop :=
  match V with
  | [] => True
  | x :: older => (∀ s, (s, x) ∈ E → s ∈ older) ∧ visit_order older
  end.

(** The state of the traversal: [V] are the nodes popped so far, [pending]
    is what is left of [outgoing[cur]] in the inner loop. *)
Record kahn_inv (V pending : list pystr) (indeg : gmap pystr Z)
    (queue : list pystr) : Prop := {
  inv_nodup_V : NoDup V;
  inv_nodup_q : NoDup queue;
  inv_disjoint : ∀ x, x ∈ V → x ∉ queue;
  inv_V_nodes : ∀ x, x ∈ V → x ∈ node_set;
  inv_q_nodes : ∀ x, x ∈ queue → x ∈ node_set;
  inv_p_nodes : ∀ x, x ∈ pending → x ∈ node_set;
  inv_p_fresh : ∀ x, x ∈ pending → x ∉ V;
  inv_indeg : ∀ x, x ∈ node_set →
                indeg !!! x = Z.of_nat (open_in E V x + occurrences x pending);
  inv_queue : ∀ x, x ∈ node_set → x ∉ V → (x ∈ queue ↔ indeg !!! x = 0);
  inv_order : visit_order V;
}.

Lemma visit_order_closed V :
  visit_order V → ∀ s d, d ∈ V → (s, d) ∈ E → s ∈ V.
Proof.
  induction V as [|x older IH]; intros Hord s d Hd Hsd; [by apply elem_of_nil in Hd|].
  destruct Hord as [Hx Hold].
  apply elem_of_cons in Hd as [->|Hd]; right; [by apply Hx|by eapply IH].
Qed.

Lemma tc_last_step s d :
  tc (λ a b, (a, b) ∈ E) s d → ∃ z, rtc (λ a b, (a, b) ∈ E) s z ∧ (z, d) ∈ E.
Proof.
  induction 1 as [x y Hxy|x y z Hxy _ (w & Hyw & Hwz)].
  - exists x. split; [constructor|done].
  - exists w. split; [|done]. by econstructor.
Qed.

Lemma visit_order_closed_rtc V :
  visit_order V → ∀ s d, rtc (λ a b, (a, b) ∈ E) s d → d ∈ V → s ∈ V.
Proof.
  intros Hord s d Hrtc. induction Hrtc as [|x y z Hxy _ IH]; [done|].
  intros Hz. eapply visit_order_closed; [done|by apply IH|done].
Qed.

Lemma visit_order_acyclic V :
  visit_order V → NoDup V → ∀ x, x ∈ V → ¬ tc (λ a b, (a, b) ∈ E) x x.
Proof.
  induction V as [|y older IH]; intros Hord Hnd x Hx Hcyc; [by apply elem_of_nil in Hx|].
  destruct Hord as [Hy Hold]. apply NoDup_cons in Hnd as [Hfresh Hnd].
  apply elem_of_cons in Hx as [->|Hx]; [|by eapply IH].
  apply tc_last_step in Hcyc as (z & Hyz & Hzy).
  apply Hfresh. eapply visit_order_closed_rtc; [done|exact Hyz|by apply Hy].
Qed.

Lemma relax_inv V pending :
  ∀ indeg queue,
    kahn_inv V pending indeg queue →
    ∃ indeg' queue',
      relax pending indeg queue = (indeg', queue') ∧ kahn_inv V [] indeg' queue'.
Proof.
  induction pending as [|nxt rest IH]; intros indeg queue Hinv; [by eauto|].
  simpl. apply IH. destruct Hinv.
  assert (Hn : nxt ∈ node_set) by (apply inv_p_nodes0; left).
  assert (HnV : nxt ∉ V) by (apply inv_p_fresh0; left).
  assert (Hdeg : indeg !!! nxt
                 = Z.of_nat (open_in E V nxt + S (occurrences nxt rest))).
  { by rewrite inv_indeg0, occurrences_cons_eq. }
  assert (Hnq : nxt ∉ queue).
  { intros Hq. apply inv_queue0 in Hq; [lia|done..]. }
  rewrite lookup_total_insert_eq.
  split.
  - done.
  - case_decide; [|done]. apply NoDup_app. split; [done|]. split; [|apply NoDup_singleton].
    by intros x Hx ->%list_elem_of_singleton.
  - intros x Hx. case_decide; [|by apply inv_disjoint0].
    intros [Hq| ->%list_elem_of_singleton]%elem_of_app; [by eapply inv_disjoint0|done].
  - done.
  - intros x. case_decide; [|by apply inv_q_nodes0].
    intros [Hq| ->%list_elem_of_singleton]%elem_of_app; [by apply inv_q_nodes0|done].
  - intros x Hx. apply inv_p_nodes0. by right.
  - intros x Hx. apply inv_p_fresh0. by right.
  - intros x Hx. destruct (decide (x = nxt)) as [->|Hne].
    + rewrite lookup_total_insert_eq, Hdeg. lia.
    + rewrite lookup_total_insert_ne by done.
      by rewrite inv_indeg0, occurrences_cons_ne.
  - intros x Hx HxV. destruct (decide (x = nxt)) as [->|Hne].
    + rewrite lookup_total_insert_eq. case_decide as Hz.
      * split; [done|]. intros _. apply elem_of_app. right. left.
      * split; [by intros ?%Hnq|done].
    + rewrite lookup_total_insert_ne by done.
      rewrite <- (inv_queue0 x Hx HxV). case_decide; [|done].
      rewrite elem_of_app, list_elem_of_singleton. naive_solver.
  - done.
Qed.

Lemma pop_inv V indeg queue cur :
  kahn_inv V [] indeg (queue ++ [cur]) →
  kahn_inv (cur :: V) (outgoing !!! cur) indeg queue.
Proof.
  intros [].
  assert (Hc : cur ∈ node_set) by (apply inv_q_nodes0, elem_of_app; right; left).
  assert (HcV : cur ∉ V).
  { intros HV. eapply inv_disjoint0; [exact HV|]. apply elem_of_app. right. left. }
  assert (Hzero : open_in E V cur = O).
  { assert (indeg !!! cur = 0) as Hz
      by (apply inv_queue0; [done..|apply elem_of_app; right; left]).
    rewrite inv_indeg0 in Hz by done. lia. }
  apply NoDup_app in inv_nodup_q0 as (Hndq & Hqc & _).
  rewrite Hout by done.
  split.
  - by constructor.
  - done.
  - intros x [->|Hx]%elem_of_cons Hq.
    + apply (Hqc cur Hq). left.
    + eapply inv_disjoint0; [exact Hx|]. apply elem_of_app. by left.
  - intros x [->|Hx]%elem_of_cons; [done|by apply inv_V_nodes0].
  - intros x Hx. apply inv_q_nodes0, elem_of_app. by left.
  - intros x ([s d] & -> & [Hs Hin]%list_elem_of_filter)%list_elem_of_fmap.
    by apply HE in Hin as [_ ?].
  - intros x ([s d] & -> & [Hs Hin]%list_elem_of_filter)%list_elem_of_fmap.
    simpl in *. subst s. intros [->|HdV]%elem_of_cons.
    + apply HcV. by eapply open_in_zero.
    + apply HcV. by eapply visit_order_closed.
  - intros x Hx. rewrite inv_indeg0 by done.
    rewrite (open_in_visit E V cur x HcV). change (occurrences x []) with O. lia.
  - intros x Hx HxV.
    assert (x ≠ cur) by (intros ->; apply HxV; left).
    rewrite <- inv_queue0; [|done|by intros ?; apply HxV; right].
    rewrite elem_of_app, list_elem_of_singleton. naive_solver.
  - split; [|done]. intros s Hs. by eapply open_in_zero.
Qed.

Lemma kahn_loop_spec fuel :
  ∀ V indeg queue,
    kahn_inv V [] indeg queue →
    (size node_set - length V < fuel)%nat →
    ∃ V' indeg',
      kahn_loop fuel outgoing indeg queue (Z.of_nat (length V))
      = Some (Z.of_nat (length V'))
      ∧ kahn_inv V' [] indeg' [].
Proof.
  induction fuel as [|fuel IH]; intros V indeg queue Hinv Hfuel; [lia|].
  simpl. destruct (list_pop queue) as [[queue' cur]|] eqn:Hpop.
  - apply list_pop_Some in Hpop as ->.
    apply pop_inv in Hinv.
    pose proof (NoDup_length_le_size (cur :: V) node_set
                  (inv_nodup_V _ _ _ _ Hinv) (inv_V_nodes _ _ _ _ Hinv)) as Hsize.
    simpl in Hsize.
    destruct (relax_inv _ _ _ _ Hinv) as (indeg' & queue'' & -> & Hinv').
    destruct (IH (cur :: V) indeg' queue'' Hinv') as (V' & indeg'' & Hloop & Hfinal).
    { simpl. lia. }
    exists V', indeg''. split; [|done]. rewrite <- Hloop. f_equal. simpl length. lia.
  - apply list_pop_None in Hpop as ->. by exists V, indeg.
Qed.

(** When the queue has run dry, every node was visited exactly if the
    graph has no cycle. *)
Lemma kahn_final V indeg :
  kahn_inv V [] indeg [] →
  Z.of_nat (length V) = Z.of_nat (size node_set) ↔ acyclic E.
Proof.
  intros []. split.
  - intros Hlen x Hcyc.
    assert (x ∈ node_set) as Hx.
    { apply tc_last_step in Hcyc as (z & _ & Hzx). by apply HE in Hzx as [_ ?]. }
    eapply (visit_order_acyclic V); [done..| |exact Hcyc].
    apply (NoDup_full V node_set); [done..|lia|done].
  - intros Hac.
    set (U := filter (λ x, x ∉ V) (elements node_set)).
    assert (U = []) as HU.
    { apply (no_minimal_element (tc (λ a b, (a, b) ∈ E))); [apply _|exact Hac|].
      intros x [HxV Hx%elem_of_elements]%list_elem_of_filter.
      assert (indeg !!! x ≠ 0) as Hnz.
      { intros Hz. apply inv_queue0 in Hz; [by apply elem_of_nil in Hz|done..]. }
      rewrite inv_indeg0 in Hnz by done.
      destruct (open_in_pos E V x) as (s & Hsx & HsV).
      { unfold occurrences in Hnz. simpl in Hnz. lia. }
      exists s. split; [|by constructor].
      apply list_elem_of_filter. split; [done|].
      apply elem_of_elements. by apply HE in Hsx as [? _]. }
    f_equal. apply Nat.le_antisymm; [by apply NoDup_length_le_size|].
    transitivity (size (list_to_set V : gset pystr)).
    + apply subseteq_size. intros x Hx. apply elem_of_list_to_set.
      destruct (decide (x ∈ V)) as [|HxV]; [done|]. exfalso.
      assert (x ∈ U) as HxU
        by (apply list_elem_of_filter; split; [done|by apply elem_of_elements]).
      rewrite HU in HxU. by apply elem_of_nil in HxU.
    + by rewrite size_list_to_set.
Qed.
End kahn.

(** *** The edge loop *)

Definition edges_state (node_set : gset pystr) (read : list (pystr * pystr))
    (indeg : gmap pystr Z) (outgoing : gmap pystr (list pystr)) : Prop :=
  ∀ x, x ∈ node_set →
    indeg !!! x = Z.of_nat (length (filter (λ e, e.2 = x) (induced_edges node_set read)))
    ∧ outgoing !!! x = snd <$> filter (λ e, e.1 = x) (induced_edges node_set read).

Lemma add_edge_state node_set read indeg outgoing edge :
  edges_state node_set read indeg outgoing →
  ∃ indeg' outgoing',
    add_edge node_set (indeg, outgoing) edge = (indeg', outgoing')
    ∧ edges_state node_set (read ++ [edge]) indeg' outgoing'.
Proof.
  intros Hst. destruct edge as [src dst]. unfold add_edge.
  destruct (decide (src ∉ node_set ∨ dst ∉ node_set)) as [Hout|Hin].
  - exists indeg, outgoing. split; [done|]. intros x Hx.
    unfold induced_edges. rewrite filter_app, filter_cons_False, filter_nil, app_nil_r.
    + by apply Hst.
    + simpl. tauto.
  - eexists _, _. split; [done|]. intros x Hx.
    assert (src ∈ node_set ∧ dst ∈ node_set) as [Hs Hd].
    { split; apply dec_stable; tauto. }
    unfold induced_edges. rewrite filter_app, (filter_cons_True _ (src, dst)) by done.
    rewrite filter_nil, !filter_app, !filter_cons, !filter_nil. simpl.
    destruct (Hst x Hx) as [Hi Ho]. split.
    + destruct (decide (dst = x)) as [->|Hne].
      * rewrite lookup_total_insert_eq, Hi, length_app. simpl. unfold induced_edges. lia.
      * rewrite lookup_total_insert_ne by done. by rewrite Hi, app_nil_r.
    + destruct (decide (src = x)) as [->|Hne].
      * rewrite lookup_total_insert_eq, Ho, fmap_app. done.
      * rewrite lookup_total_insert_ne by done. by rewrite Ho, app_nil_r.
Qed.

Lemma add_edges_state node_set edges :
  ∀ read indeg outgoing,
    edges_state node_set read indeg outgoing →
    ∃ indeg' outgoing',
      foldl (add_edge node_set) (indeg, outgoing) edges = (indeg', outgoing')
      ∧ edges_state node_set (read ++ edges) indeg' outgoing'.
Proof.
  induction edges as [|edge rest IH]; intros read indeg outgoing Hst.
  - exists indeg, outgoing. by rewrite app_nil_r.
  - cbn [foldl]. destruct (add_edge_state _ _ _ _ edge Hst) as (indeg1 & out1 & -> & Hst1).
    destruct (IH _ _ _ Hst1) as (indeg2 & out2 & -> & Hst2).
    exists indeg2, out2. split; [done|]. by rewrite <- app_assoc in Hst2.
Qed.

Lemma edges_state_init node_set :
  edges_state node_set [] (gset_to_gmap 0 node_set) (gset_to_gmap [] node_set).
Proof.
  intros x Hx. split; apply lookup_total_correct; by apply lookup_gset_to_gmap_elem.
Qed.

Lemma kahn_inv_init node_set edges indeg outgoing :
  edges_state node_set edges indeg outgoing →
  kahn_inv node_set (induced_edges node_set edges) [] [] indeg
    (filter (λ n, indeg !!! n = 0) (elements node_set)).
Proof.
  intros Hst. split.
  - constructor.
  - apply NoDup_filter, NoDup_elements.
  - by intros x ?%elem_of_nil.
  - by intros x ?%elem_of_nil.
  - intros x [_ Hx]%list_elem_of_filter. by apply elem_of_elements.
  - by intros x ?%elem_of_nil.
  - by intros x ?%elem_of_nil.
  - intros x Hx. destruct (Hst x Hx) as [-> _]. unfold open_in, occurrences.
    simpl. rewrite Nat.add_0_r. do 2 f_equal. apply list_filter_iff.
    intros e. split; [|by intros [? _]]. intros ?. split; [done|]. apply not_elem_of_nil.
  - intros x Hx _. rewrite list_elem_of_filter, elem_of_elements. tauto.
  - done.
Qed.

Lemma induced_edges_nodes node_set edges s d :
  (s, d) ∈ induced_edges node_set edges → s ∈ node_set ∧ d ∈ node_set.
Proof. by intros [? _]%list_elem_of_filter. Qed.

Lemma induced_edges_idemp node_set edges :
  induced_edges node_set (induced_edges node_set edges) = induced_edges node_set edges.
Proof.
  unfold induced_edges. rewrite list_filter_filter. apply list_filter_iff. tauto.
Qed.

Lemma topological_ok_spec nodes edges :
  ∃ visited : Z,
    topological_ok nodes edges
    = Some (bool_decide (visited = Z.of_nat (size (list_to_set nodes : gset pystr))))
    ∧ (visited = Z.of_nat (size (list_to_set nodes : gset pystr))
       ↔ acyclic (induced_edges (list_to_set nodes) edges)).
Proof.
  unfold topological_ok. set (node_set := list_to_set nodes : gset pystr).
  destruct (add_edges_state node_set edges [] _ _ (edges_state_init node_set))
    as (indeg & outgoing & -> & Hst).
  rewrite app_nil_l in Hst.
  pose proof (kahn_inv_init node_set edges indeg outgoing Hst) as Hinv.
  destruct (kahn_loop_spec node_set (induced_edges node_set edges)
              (induced_edges_nodes node_set edges) outgoing
              (λ x Hx, proj2 (Hst x Hx)) (S (size node_set)) [] indeg _ Hinv)
    as (V & indeg' & Hloop & Hfinal); [simpl; lia|].
  simpl length in Hloop. change (Z.of_nat 0) with 0 in Hloop. rewrite Hloop. simpl.
  exists (Z.of_nat (length V)). split; [done|].
  eapply kahn_final; [apply induced_edges_nodes|exact Hfinal].
Qed.

(** [topological_ok] always returns; it returns true exactly when the edges
    with both ends in the node set form a graph without a cycle, so the
    edges with an end outside the node set do not count. *)
Lemma topological_ok_iff_acyclic (nodes : list pystr) (edges : list (pystr * pystr)) :
  (∃ ok, topological_ok nodes edges = Some ok
         ∧ (ok = true ↔ acyclic (induced_edges (list_to_set nodes) edges)))
  ∧ topological_ok nodes edges
    = topological_ok nodes (induced_edges (list_to_set nodes) edges).
Proof.
  assert (Hmain : ∀ edges', ∃ ok, topological_ok nodes edges' = Some ok
             ∧ (ok = true ↔ acyclic (induced_edges (list_to_set nodes) edges'))).
  { intros edges'. destruct (topological_ok_spec nodes edges') as (visited & -> & Hiff).
    eexists. split; [done|]. by rewrite bool_decide_eq_true. }
  split; [apply Hmain|].
  destruct (Hmain edges) as (ok1 & -> & H1).
  destruct (Hmain (induced_edges (list_to_set nodes) edges)) as (ok2 & -> & H2).
  rewrite induced_edges_idemp in H2. f_equal.
  destruct ok1, ok2; try done; [symmetry|]; tauto.
Qed.

(** ** The extraction build *)

(** *** Selection keeps to the candidates *)

Lemma fill_pass_elem items quota :
  ∀ seen unique c,
    c ∈ (fill_pass items quota seen unique).2 → c ∈ unique ∨ c ∈ items.
Proof.
  induction items as [|x r IH]; intros seen unique c; simpl; [by left|].
  case_decide.
  - intros [?|?]%IH; [by left|right; by right].
  - case_decide.
    + simpl. intros [?| ->%list_elem_of_singleton]%elem_of_app; [by left|right; left].
    + intros [[?| ->%list_elem_of_singleton]%elem_of_app|?]%IH;
        [by left|right; left|right; by right].
Qed.

Lemma fill_loop_elem fuel items quota :
  ∀ seen unique r,
    fill_loop fuel items quota seen unique = Some r →
    ∀ c, c ∈ r → c ∈ unique ∨ c ∈ items.
Proof.
  induction fuel as [|fuel IH]; intros seen unique r; simpl; [done|].
  case_decide; [|by intros [= <-]; left].
  destruct (fill_pass items quota seen unique) as [seen' unique'] eqn:Hpass.
  intros Hloop c Hc. destruct (IH _ _ _ Hloop c Hc) as [Hu|?]; [|by right].
  apply (fill_pass_elem items quota seen unique c). by rewrite Hpass.
Qed.

Lemma pick_evenly_subset fuel items quota r :
  pick_evenly fuel items quota = Some r → ∀ c, c ∈ r → c ∈ items.
Proof.
  unfold pick_evenly. case_decide as Hall; [by intros [= <-]|].
  case_decide as Hpos; [by intros [= <-] c ?%elem_of_nil|].
  case_decide as Hone.
  - intros [= <-] c ->%list_elem_of_singleton.
    apply list_elem_of_lookup_total_2.
    assert (Z.of_nat (length items) / 2 < Z.of_nat (length items)); [|lia].
    apply Z.div_lt_upper_bound; lia.
  - rewrite dedup_loop_spec, app_nil_l.
    destruct (fill_loop fuel items quota _ _) as [unique|] eqn:Hfill; [|done].
    simpl. intros [= <-] c Hc%elem_of_stable_sort.
    destruct (fill_loop_elem _ _ _ _ _ _ Hfill c Hc) as [Hu|?]; [|done].
    apply elem_of_dedup_by_key in Hu as [Hsel _].
    unfold pick_selected in Hsel.
    apply list_elem_of_fmap in Hsel as (i & -> & Hi).
    apply list_elem_of_lookup_total_2.
    apply list_elem_of_lookup in Hi as [j Hj].
    apply lookup_seqZ in Hj as [-> Hj].
    pose proof (pick_index_range (Z.of_nat (length items)) quota (0 + Z.of_nat j)
                  ltac:(lia) ltac:(lia)).
    lia.
Qed.

Lemma group_append_elem {V} (grouped : list (pystr * list V)) key (v : V) k vs x :
  (k, vs) ∈ group_append grouped key v → x ∈ vs →
  x = v ∨ ∃ vs', (k, vs') ∈ grouped ∧ x ∈ vs'.
Proof.
  induction grouped as [|[k0 vs0] rest IH]; simpl.
  - intros [= -> ->]%list_elem_of_singleton ->%list_elem_of_singleton. by left.
  - case_decide as Hk.
    + intros [[= -> ->]|Hin]%elem_of_cons Hx.
      * apply elem_of_app in Hx as [Hx| ->%list_elem_of_singleton]; [|by left].
        right. exists vs0. split; [left|done].
      * right. exists vs. split; [by right|done].
    + intros [[= -> ->]|Hin]%elem_of_cons Hx.
      * right. exists vs0. split; [left|done].
      * destruct (IH Hin Hx) as [?|(vs' & ? & ?)]; [by left|].
        right. exists vs'. split; [by right|done].
Qed.

Lemma group_by_book_elem candidates :
  ∀ book items c,
    (book, items) ∈ group_by_book candidates → c ∈ items → c ∈ candidates.
Proof.
  unfold group_by_book.
  induction candidates as [|x l IH] using rev_ind; intros book items c; simpl.
  - by intros ?%elem_of_nil.
  - rewrite foldl_app. simpl. intros Hin Hc.
    destruct (group_append_elem _ _ _ _ _ _ Hin Hc) as [->|(vs' & Hin' & Hc')].
    + apply elem_of_app. right. left.
    + apply elem_of_app. left. by eapply IH.
Qed.

Lemma select_books_subset fuel grouped quotas books selected :
  select_books fuel grouped quotas books = Some selected →
  ∀ c, c ∈ selected → ∃ book items, (book, items) ∈ grouped ∧ c ∈ items.
Proof.
  revert selected. induction books as [|book rest IH]; intros selected; simpl.
  - by intros [= <-] c ?%elem_of_nil.
  - destruct (pick_evenly fuel _ _) as [picked|] eqn:Hpick; [|done]. simpl.
    destruct (select_books fuel grouped quotas rest) as [more|]; [|done]. simpl.
    intros [= <-] c [Hc|Hc]%elem_of_app; [|by eapply IH].
    apply (pick_evenly_subset _ _ _ _ Hpick) in Hc.
    destruct (list_to_map grouped !! book) as [items|] eqn:Hlook; simpl in Hc.
    + exists book, items. split; [|done]. by apply elem_of_list_to_map_2.
    + by apply elem_of_nil in Hc.
Qed.

Lemma select_candidates_subset fuel canonical_map candidates selected :
  select_candidates fuel canonical_map candidates = Some selected →
  ∀ c, c ∈ selected → c ∈ candidates.
Proof.
  unfold select_candidates.
  destruct (proportional_quotas _ _) as [quotas|]; [|done]. simpl.
  destruct (select_books fuel _ quotas _) as [sel|] eqn:Hsel; [|done]. simpl.
  intros [= <-] c Hc%elem_of_stable_sort.
  destruct (select_books_subset _ _ _ _ _ Hsel c Hc) as (book & items & Hin & Hci).
  by eapply group_by_book_elem.
Qed.

(** *** Every event gets its direct rows *)

Lemma slice_rows_spec event_id tier is_parallel note verses :
  ∀ idx evidence_id rows,
    slice_rows event_id tier is_parallel note idx verses evidence_id = Some rows →
    length rows = length verses
    ∧ Forall (λ row, EvidenceRow.event_id row = event_id
                     ∧ EvidenceRow.evidence_tier row = tier
                     ∧ EvidenceRow.is_parallel row = is_parallel
                     ∧ EvidenceRow.note row = note) rows.
Proof.
  induction verses as [|verse rest IH]; intros idx evidence_id rows; simpl.
  - by intros [= <-].
  - destruct (evidence_text idx verse) as [text|]; [|done]. simpl.
    destruct (slice_rows _ _ _ _ _ rest _) as [more|] eqn:Hmore; [|done]. simpl.
    intros [= <-]. destruct (IH _ _ _ Hmore) as [Hlen Hall].
    split; [simpl; by rewrite Hlen|]. by constructor.
Qed.

Lemma direct_rows_spec event_objects :
  ∀ evidence_id rows,
    direct_rows event_objects evidence_id = Some rows →
    ∀ event_id cand lane,
      (event_id, cand, lane) ∈ event_objects →
      CandidateEvent.verse_slice cand ≠ [] →
      ∃ row, row ∈ rows ∧ EvidenceRow.event_id row = event_id
             ∧ EvidenceRow.evidence_tier row = py "direct".
Proof.
  induction event_objects as [|[[eid0 cand0] lane0] rest IH]; intros evidence_id rows; simpl.
  - by intros _ ??? ?%elem_of_nil.
  - destruct (slice_rows eid0 _ _ _ _ _ _) as [here|] eqn:Hhere; [|done]. simpl.
    destruct (direct_rows rest _) as [there|] eqn:Hthere; [|done]. simpl.
    intros [= <-] event_id cand lane [[= -> -> ->]|Hin]%elem_of_cons Hslice.
    + apply slice_rows_spec in Hhere as [Hlen Hall].
      destruct here as [|row here]; [by destruct (CandidateEvent.verse_slice cand0)|].
      apply Forall_cons in Hall as [(Hid & Htier & _) _].
      exists row. split; [left|done].
    + destruct (IH _ _ Hthere _ _ _ Hin Hslice) as (row & Hrow & ?).
      exists row. split; [|done]. apply elem_of_app. by right.
Qed.

Lemma event_rows_spec nfc selected :
  ∀ seq events_rows event_objects,
    event_rows nfc seq selected = (events_rows, event_objects) →
    Forall2 (λ row obj, EventRow.event_id row = obj.1.1) events_rows event_objects
    ∧ (λ obj, obj.1.2) <$> event_objects = selected.
Proof.
  induction selected as [|cand rest IH]; intros seq events_rows event_objects; simpl.
  - by intros [= <- <-].
  - destruct (event_rows nfc (seq + 1) rest) as [rows objects] eqn:Hrest.
    intros [= <- <-]. destruct (IH _ _ _ Hrest) as [Hall Hsel].
    split; [by constructor|]. rewrite fmap_cons. simpl. by rewrite Hsel.
Qed.

(** *** The validation *)

Lemma check_tracks_false tracks track_id edges :
  (track_id, edges) ∈ tracks →
  topological_ok (track_nodes edges) edges = Some false →
  ∃ failing, check_tracks tracks = Some (Err (DagViolation failing)).
Proof.
  induction tracks as [|[t0 e0] rest IH]; intros Hin Hfalse; [by apply elem_of_nil in Hin|].
  simpl. destruct (topological_ok (track_nodes e0) e0) as [ok|] eqn:Ht.
  - simpl. destruct ok; simpl; [|by eexists].
    apply elem_of_cons in Hin as [[= -> ->]|Hin]; [congruence|by apply IH].
  - destruct (topological_ok_spec (track_nodes e0) e0) as (visited & Heq & _). congruence.
Qed.

Lemma check_tracks_ok tracks :
  check_tracks tracks = Some (Ok ()) →
  ∀ track_id edges, (track_id, edges) ∈ tracks →
    topological_ok (track_nodes edges) edges = Some true.
Proof.
  induction tracks as [|[t0 e0] rest IH]; intros Hok track_id edges Hin;
    [by apply elem_of_nil in Hin|].
  simpl in Hok. destruct (topological_ok (track_nodes e0) e0) as [[]|] eqn:Ht; try done.
  simpl in Hok. apply elem_of_cons in Hin as [[= -> ->]|Hin]; [done|by eapply IH].
Qed.

Lemma validate_ok_tracks events_rows evidence_rows chronology_rows :
  validate events_rows evidence_rows chronology_rows = Some (Ok ()) →
  check_tracks (edges_by_track chronology_rows) = Some (Ok ()).
Proof.
  unfold validate. destruct (check_evidence _ _ _); [|done].
  case_decide; [done|]. by destruct (check_event_fields _).
Qed.

Lemma validate_dag_violation events_rows evidence_rows chronology_rows track_id edges :
  (track_id, edges) ∈ edges_by_track chronology_rows →
  topological_ok (track_nodes edges) edges = Some false →
  ∃ e, validate events_rows evidence_rows chronology_rows = Some (Err e).
Proof.
  intros Hin Hfalse. unfold validate.
  destruct (check_evidence _ _ _); [|by eexists].
  case_decide; [by eexists|]. destruct (check_event_fields _); [|by eexists].
  destruct (check_tracks_false _ _ _ Hin Hfalse) as [failing ->]. by eexists.
Qed.

(** What [main] has computed when it returns rows. *)
Lemma main_ok_inv nfc fuel canonical_map by_book build :
  main nfc fuel canonical_map by_book = Some (Ok build) →
  ∃ candidates selected event_objects direct parallel,
    build_candidate_events nfc by_book = Some candidates
    ∧ select_candidates fuel canonical_map candidates = Some selected
    ∧ event_rows nfc 1 selected = (Build.events_rows build, event_objects)
    ∧ direct_rows event_objects 1 = Some direct
    ∧ Build.evidence_rows build = direct ++ parallel
    ∧ validate (Build.events_rows build) (Build.evidence_rows build)
        (Build.chronology_rows build) = Some (Ok ()).
Proof.
  unfold main.
  destruct (build_candidate_events nfc by_book) as [candidates|] eqn:Hc; [|done]. simpl.
  destruct (select_candidates fuel canonical_map candidates) as [selected|] eqn:Hs;
    [|done]. simpl.
  destruct (event_rows nfc 1 selected) as [events_rows event_objects] eqn:Hev.
  destruct (direct_rows event_objects 1) as [direct|] eqn:Hd; [|done]. simpl.
  destruct (parallel_rows_of _ _) as [parallel|]; [|done]. simpl.
  destruct (validate _ _ _) as [[[]|e]|] eqn:Hval; [|done..]. simpl.
  intros [= <-]. simpl. by exists candidates, selected, event_objects, direct, parallel.
Qed.

Lemma group_append_keeps {V} (grouped : list (pystr * list V)) key (v : V) k vs x :
  (k, vs) ∈ grouped → x ∈ vs →
  ∃ vs', (k, vs') ∈ group_append grouped key v ∧ x ∈ vs'.
Proof.
  induction grouped as [|[k0 vs0] rest IH]; simpl; [by intros ?%elem_of_nil|].
  intros [[= -> ->]|Hin]%elem_of_cons Hx.
  - case_decide as Hk.
    + exists (vs0 ++ [v]). split; [left|]. apply elem_of_app. by left.
    + exists vs0. split; [left|done].
  - case_decide as Hk.
    + exists vs. split; [by right|done].
    + destruct (IH Hin Hx) as (vs' & ? & ?). exists vs'. split; [by right|done].
Qed.

Lemma group_append_adds {V} (grouped : list (pystr * list V)) key (v : V) :
  ∃ vs, (key, vs) ∈ group_append grouped key v ∧ v ∈ vs.
Proof.
  induction grouped as [|[k0 vs0] rest IH]; simpl.
  - exists [v]. split; left.
  - case_decide as Hk.
    + subst k0. exists (vs0 ++ [v]). split; [left|]. apply elem_of_app. right. left.
    + destruct IH as (vs & ? & ?). exists vs. split; [by right|done].
Qed.

Lemma edges_by_track_row chronology_rows row :
  row ∈ chronology_rows →
  ∃ edges, (EdgeRow.track_id row, edges) ∈ edges_by_track chronology_rows
           ∧ (EdgeRow.from_event_id row, EdgeRow.to_event_id row) ∈ edges.
Proof.
  unfold edges_by_track.
  induction chronology_rows as [|r l IH] using rev_ind; [by intros ?%elem_of_nil|].
  rewrite foldl_app. simpl. intros [Hin| ->%list_elem_of_singleton]%elem_of_app.
  - destruct (IH Hin) as (edges & He & Hedge).
    by eapply group_append_keeps.
  - apply group_append_adds.
Qed.

Lemma filter_all {A} (P : A → Prop) `{!∀ x, Decision (P x)} (l : list A) :
  (∀ x, x ∈ l → P x) → filter P l = l.
Proof.
  induction l as [|x l IH]; intros Hall; [done|].
  rewrite filter_cons_True by (apply Hall; left).
  f_equal. apply IH. intros y Hy. apply Hall. by right.
Qed.

Lemma induced_edges_track_nodes edges :
  induced_edges (list_to_set (track_nodes edges)) edges = edges.
Proof.
  apply filter_all. intros e He. unfold track_nodes.
  split; apply elem_of_list_to_set, list_elem_of_bind; exists e;
    (split; [|done]); [left|right; left].
Qed.

(** *** The claims about the build *)

(** Two events that precede each other. *)
Definition cyclic_rows : list EdgeRow.t :=
  [ EdgeRow.mk (py "EDG000001") (py "EVT0001") (py "EVT0002") (py "before")
      (py "Genesis 1:1") (py "track_main");
    EdgeRow.mk (py "EDG000002") (py "EVT0002") (py "EVT0001") (py "before")
      (py "Genesis 2:1") (py "track_main") ].

(** C2. [topological_ok] always returns, and returns true exactly when the
    edges with both ends in the node set form a graph without a cycle: the
    other edges are ignored, and its answer is whether the traversal visited
    as many nodes as the node set has. The validation of [main] puts every
    chronology row under its track, and fails when [topological_ok] is false
    on a track; so when [main] returns rows, the edges of every track are
    acyclic. *)
Theorem topological_ok_guards_tracks :
  (∀ (nodes : list pystr) (edges : list (pystr * pystr)),
     (∃ ok, topological_ok nodes edges = Some ok
            ∧ (ok = true ↔ acyclic (induced_edges (list_to_set nodes) edges)))
     ∧ topological_ok nodes edges
       = topological_ok nodes (induced_edges (list_to_set nodes) edges)
     ∧ ∃ visited : Z,
         topological_ok nodes edges
         = Some (bool_decide (visited = Z.of_nat (size (list_to_set nodes : gset pystr)))))
  ∧ (∀ chronology_rows row,
       row ∈ chronology_rows →
       ∃ edges, (EdgeRow.track_id row, edges) ∈ edges_by_track chronology_rows
                ∧ (EdgeRow.from_event_id row, EdgeRow.to_event_id row) ∈ edges)
  ∧ (∀ events_rows evidence_rows chronology_rows track_id edges,
       (track_id, edges) ∈ edges_by_track chronology_rows →
       topological_ok (track_nodes edges) edges = Some false →
       ∃ e, validate events_rows evidence_rows chronology_rows = Some (Err e))
  ∧ (∀ nfc fuel canonical_map by_book build,
       main nfc fuel canonical_map by_book = Some (Ok build) →
       ∀ track_id edges,
         (track_id, edges) ∈ edges_by_track (Build.chronology_rows build) →
         topological_ok (track_nodes edges) edges = Some true ∧ acyclic edges).
Proof.
  split; [|split; [|split]].
  - intros nodes edges. destruct (topological_ok_iff_acyclic nodes edges) as [H1 H2].
    split; [done|]. split; [done|].
    destruct (topological_ok_spec nodes edges) as (visited & Hv & _). eauto.
  - apply edges_by_track_row.
  - apply validate_dag_violation.
  - intros nfc fuel canonical_map by_book build Hmain track_id edges Hin.
    apply main_ok_inv in Hmain as (_ & _ & _ & _ & _ & _ & _ & _ & _ & _ & Hval).
    apply validate_ok_tracks in Hval.
    pose proof (check_tracks_ok _ Hval _ _ Hin) as Htrue. split; [done|].
    destruct (topological_ok_iff_acyclic (track_nodes edges) edges)
      as [(ok & Hok & Hiff) _].
    rewrite induced_edges_track_nodes in Hiff. apply Hiff. congruence.
Qed.

Lemma topological_ok_guards_tracks_witness :
  ∃ e, validate [] [] cyclic_rows = Some (Err e).
Proof.
  destruct topological_ok_guards_tracks as (_ & _ & Hfail & _).
  apply (Hfail [] [] cyclic_rows (py "track_main")
           [ (py "EVT0001", py "EVT0002"); (py "EVT0002", py "EVT0001") ]).
  - vm_compute. left.
  - vm_compute. reflexivity.
Defined.

Example cyclic_rows_rejected :
  validate [] [] cyclic_rows = Some (Err (DagViolation (py "track_main"))).
Proof. vm_compute. reflexivity. Qed.

Definition parallel_only_rows : list EvidenceRow.t :=
  [ EvidenceRow.mk (py "EVD0000001") (py "EVT0001") (py " Parallel ") (py "Mark 1:1")
      (py "The beginning") (py "KRV") (py "true") (py "parallel_from:EVT0002") ].

(** C7 (amended). [normalize_evidence] raises an error whenever some event
    id of the events table has no evidence row other than rows whose tier,
    stripped and lowercased, is ["parallel"]. And when the extraction build
    returns its rows (the books of [by_book] being distinct), every event
    row has an evidence row of tier ["direct"] with its event id. *)
Theorem every_event_needs_direct_evidence :
  (∀ (rows : list EvidenceRow.t) (event_ids : gset pystr) (event_id : pystr),
     event_id ∈ event_ids →
     (∀ row, row ∈ rows → strip (EvidenceRow.event_id row) = event_id →
        lower (strip (EvidenceRow.evidence_tier row)) = py "parallel") →
     is_err (normalize_evidence rows event_ids))
  ∧ (∀ nfc fuel canonical_map by_book build,
       NoDup by_book.*1 →
       main nfc fuel canonical_map by_book = Some (Ok build) →
       ∀ event, event ∈ Build.events_rows build →
         ∃ row, row ∈ Build.evidence_rows build
                ∧ EvidenceRow.event_id row = EventRow.event_id event
                ∧ EvidenceRow.evidence_tier row = py "direct").
Proof.
  split.
  - intros rows event_ids event_id Hin Hpar.
    apply (normalize_evidence_missing_direct rows event_ids event_id Hin).
    unfold other_rows, rows_of_event.
    destruct (filter _ (filter _ rows)) as [|row l] eqn:Hf; [done|]. exfalso.
    assert (row ∈ filter (λ row, row_tier row ≠ py "parallel")
                    (filter (λ row, strip (EvidenceRow.event_id row) = event_id) rows))
      as Hrow by (rewrite Hf; left).
    apply list_elem_of_filter in Hrow as [Htier Hrow].
    apply list_elem_of_filter in Hrow as [Hid Hrow].
    by apply Htier, Hpar.
  - intros nfc fuel canonical_map by_book build Hnd Hmain event Hevent.
    apply main_ok_inv in Hmain
      as (candidates & selected & event_objects & direct & parallel
          & Hcand & Hsel & Hev & Hdirect & Hrows & _).
    apply event_rows_spec in Hev as [Hids Hobjs].
    apply list_elem_of_lookup in Hevent as [i Hi].
    destruct (Forall2_lookup_l _ _ _ _ _ Hids Hi) as ([[eid cand] lane] & Hobj & Hid).
    simpl in Hid.
    assert (cand ∈ candidates) as Hc.
    { apply (select_candidates_subset _ _ _ _ Hsel). rewrite <- Hobjs.
      apply list_elem_of_fmap. exists (eid, cand, lane).
      split; [done|]. by eapply list_elem_of_lookup_2. }
    assert (CandidateEvent.verse_slice cand ≠ []) as Hslice.
    { unfold build_candidate_events in Hcand.
      destruct (all_book_candidates_spec nfc by_book Hnd) as (cands & Hall & Hprops & _).
      rewrite Hall in Hcand. simpl in Hcand. injection Hcand as <-.
      apply elem_of_stable_sort in Hc. by destruct (Hprops cand Hc) as (_ & _ & ?). }
    destruct (direct_rows_spec _ _ _ Hdirect eid cand lane) as (row & Hrow & Hrid & Htier);
      [by eapply list_elem_of_lookup_2|done|].
    exists row. rewrite Hrows. split; [apply elem_of_app; by left|]. by rewrite Hid.
Qed.

Lemma every_event_needs_direct_evidence_witness :
  is_err (normalize_evidence parallel_only_rows {[ py "EVT0001" ]}).
Proof.
  apply (proj1 every_event_needs_direct_evidence parallel_only_rows
           {[ py "EVT0001" ]} (py "EVT0001")).
  - apply elem_of_singleton. reflexivity.
  - intros row ->%list_elem_of_singleton _. vm_compute. reflexivity.
Defined.

(** The scenario book through the whole build: two events, five direct
    rows each. *)
Example main_scenario :
  ∃ build,
    main (λ s, s) 2 {[ py "창세기" := 1 ]} scenario_book = Some (Ok build)
    ∧ EventRow.event_id <$> Build.events_rows build = [ py "EVT0001"; py "EVT0002" ]
    ∧ length (Build.evidence_rows build) = 10%nat.
Proof. eexists. split; [vm_compute; reflexivity|]. split; reflexivity. Qed.

(** ** Numerals *)

Definition is_digit (c : N) : Prop := (48 ≤ c ≤ 57)%N.

Definition digits_value (s : pystr) : Z :=
  foldl (λ a c, 10 * a + Z.of_N (c - 48)) 0 s.

Lemma digit_val_digit c : is_digit c → digit_val c = Some (Z.of_N (c - 48)).
Proof.
  intros [H1 H2]. unfold digit_val.
  by rewrite (proj2 (N.leb_le _ _) H1), (proj2 (N.leb_le _ _) H2).
Qed.

Lemma parse_digits_value s :
  Forall is_digit s → ∀ acc after_digit,
    s ≠ [] ∨ after_digit = true →
    parse_digits acc after_digit s
    = Some (foldl (λ a c, 10 * a + Z.of_N (c - 48)) acc s).
Proof.
  induction 1 as [|c r Hc Hr IH]; intros acc b Hb; simpl.
  - destruct Hb as [?| ->]; done.
  - assert ((c =? 95)%N = false) as -> by (apply N.eqb_neq; destruct Hc; lia).
    rewrite (digit_val_digit c Hc). apply IH. by right.
Qed.

Lemma lstrip_digits s : Forall is_digit s → lstrip s = s.
Proof.
  destruct 1 as [|c r [H1 H2] _]; [done|]. simpl.
  assert (is_space c = false) as ->; [|done].
  destruct c as [|p]; [lia|].
  repeat (destruct p as [p|p|]; try (exfalso; lia)); reflexivity.
Qed.

Lemma strip_digits s : Forall is_digit s → strip s = s.
Proof.
  intros Hs. unfold strip, rstrip. rewrite (lstrip_digits s Hs).
  rewrite lstrip_digits by by apply Forall_reverse.
  apply reverse_involutive.
Qed.

Lemma py_int_digits s :
  Forall is_digit s → s ≠ [] → py_int s = Some (digits_value s).
Proof.
  intros Hs Hne. unfold py_int. rewrite (strip_digits s Hs).
  destruct s as [|c r]; [done|].
  pose proof (parse_digits_value (c :: r) Hs 0 false (or_introl Hne)) as Hp.
  apply Forall_cons_1 in Hs as [[H1 H2] _].
  destruct c as [|p]; [done|].
  repeat (destruct p as [p|p|]; try done; try (exfalso; lia)).
Qed.

Lemma to_digits_spec fuel : ∀ n acc,
  0 ≤ n → (Z.to_nat n < fuel)%nat →
  ∃ ds, to_digits fuel n acc = ds ++ acc ∧ Forall is_digit ds ∧ ds ≠ []
        ∧ digits_value ds = n.
Proof.
  induction fuel as [|f IH]; intros n acc Hn Hf; [lia|]. simpl.
  assert (is_digit (48 + Z.to_N (n mod 10))) as Hd.
  { pose proof (Z.mod_pos_bound n 10). unfold is_digit. lia. }
  assert (Z.of_N (48 + Z.to_N (n mod 10) - 48) = n mod 10) as Hv.
  { pose proof (Z.mod_pos_bound n 10). lia. }
  destruct (n / 10 =? 0) eqn:Hq.
  - apply Z.eqb_eq in Hq. exists [(48 + Z.to_N (n mod 10))%N].
    split; [done|]. split; [by constructor|]. split; [done|].
    unfold digits_value. simpl. rewrite Hv.
    pose proof (Z.div_mod n 10). lia.
  - apply Z.eqb_neq in Hq.
    assert (0 ≤ n / 10 < n) as Hlt.
    { split; [apply Z.div_pos; lia|]. apply Z.div_lt; [|lia].
      destruct (decide (n = 0)) as [->|]; [done|lia]. }
    destruct (IH (n / 10) ((48 + Z.to_N (n mod 10))%N :: acc)) as (ds & -> & Hds & _ & Hval);
      [lia|lia|].
    exists (ds ++ [(48 + Z.to_N (n mod 10))%N]).
    split; [by rewrite <- app_assoc|].
    split; [apply Forall_app; split; [done|by constructor]|].
    split; [by destruct ds|].
    unfold digits_value in *. rewrite foldl_app. simpl. rewrite Hval, Hv.
    pose proof (Z.div_mod n 10). lia.
Qed.

Lemma digits_value_zeros k ds :
  digits_value (replicate k 48%N ++ ds) = digits_value ds.
Proof.
  unfold digits_value. rewrite foldl_app. f_equal.
  induction k as [|k IH]; [done|].
  rewrite replicate_S_end, foldl_app. simpl. rewrite IH. done.
Qed.

Lemma py_int_zero_padded w n : 0 ≤ n → py_int (zero_padded w n) = Some n.
Proof.
  intros Hn. unfold zero_padded, decimal.
  destruct (to_digits_spec (S (Z.to_nat n)) n [] Hn) as (ds & -> & Hds & Hne & Hval); [lia|].
  rewrite app_nil_r. rewrite py_int_digits.
  - by rewrite digits_value_zeros, Hval.
  - apply Forall_app. split; [|done]. apply Forall_replicate. unfold is_digit. lia.
  - destruct ds; [done|]. by destruct (w - _)%nat.
Qed.

(** ** Sortedness of the stable sort *)

Section stable_sort_sorted.
Context {A : Type} (lt : A → A → bool).

(** [x] may stand before [y]. *)
Definition may_precede (x y : A) : Prop := lt y x = false.

Hypothesis lt_asym : ∀ x y, lt x y = true → lt y x = false.
Hypothesis precede_trans : ∀ x y z,
  may_precede x y → may_precede y z → may_precede x z.

Lemma insert_sorted_sorted x l :
  StronglySorted may_precede l → StronglySorted may_precede (insert_sorted lt x l).
Proof.
  induction 1 as [|y r Hr IH Hy]; simpl; [repeat constructor|].
  destruct (lt y x) eqn:Hyx.
  - constructor; [done|].
    rewrite (insert_sorted_perm lt x r). constructor; [|done].
    by apply lt_asym.
  - constructor; [by constructor|].
    constructor; [done|].
    eapply Forall_impl; [exact Hy|]. intros z Hz.
    by apply (precede_trans x y z).
Qed.

Lemma stable_sort_sorted l : StronglySorted may_precede (stable_sort lt l).
Proof.
  induction l as [|x l IH]; simpl; [constructor|].
  by apply insert_sorted_sorted.
Qed.
End stable_sort_sorted.


(** ** Scores *)



(** ** The matches kept for a target *)


Section best_facts.
Context {V : Type}.
Implicit Types (best : list (pystr * V)) (book : pystr) (v : V).





End best_facts.







Lemma StronglySorted_weaken {A} (R S : A → A → Prop) (l : list A) :
  (∀ x y, R x y → S x y) → StronglySorted R l → StronglySorted S l.
Proof.
  intros HRS. induction 1 as [|x l Hl IH Hx]; constructor; [done|].
  eapply Forall_impl; [exact Hx|]. intros y. apply HRS.
Qed.




(** ** The rows a run adds *)

Definition has_number (row : EvidenceRow.t) : Prop :=
  is_Some (Enrich.evidence_number row).

(** The direct rows of an event, in the order of the table. *)
Definition direct_of (event_id : pystr) (evidence : list EvidenceRow.t)
  : list EvidenceRow.t :=
  filter (λ row, EvidenceRow.evidence_tier row = py "direct"
                 ∧ EvidenceRow.event_id row = event_id) evidence.

Lemma scan_evidence_spec evidence : ∀ max_id by_event max_id' by_event',
  Enrich.scan_evidence evidence max_id by_event = Ok (max_id', by_event') →
  (∀ event_id, default [] (by_event' !! event_id)
               = default [] (by_event !! event_id) ++ direct_of event_id evidence)
  ∧ Forall has_number evidence
  ∧ max_id ≤ max_id'
  ∧ ∀ row n, row ∈ evidence → Enrich.evidence_number row = Some n → n ≤ max_id'.
Proof.
  induction evidence as [|row rest IH]; intros m ebe m' ebe'; simpl.
  - intros [= <- <-]. split; [intros; by rewrite app_nil_r|].
    split; [constructor|]. split; [lia|]. by intros ?? ?%elem_of_nil.
  - destruct (Enrich.evidence_number row) as [n|] eqn:Hn; [|done].
    intros Hscan. apply IH in Hscan as (Hlook & Hall & Hle & Hmax).
    split; [|split; [|split]].
    + intros event_id. rewrite Hlook. unfold direct_of.
      case_decide as Htier.
      * destruct (decide (EvidenceRow.event_id row = event_id)) as [<-|Hne].
        -- rewrite lookup_insert_eq. simpl.
           rewrite filter_cons_True by done. by rewrite <- app_assoc.
        -- rewrite lookup_insert_ne by done.
           rewrite filter_cons_False by (by intros [_ ?]). done.
      * rewrite filter_cons_False by (by intros [? _]). done.
    + constructor; [|done]. unfold has_number. by rewrite Hn.
    + lia.
    + intros r k [->|Hr]%elem_of_cons Hk; [|by eapply Hmax].
      assert (k = n) as -> by congruence. lia.
Qed.

Lemma scan_evidence_total evidence : ∀ max_id by_event,
  Forall has_number evidence →
  ∃ max_id' by_event', Enrich.scan_evidence evidence max_id by_event
                       = Ok (max_id', by_event').
Proof.
  induction evidence as [|row rest IH]; intros m ebe Hall; simpl; [by eauto|].
  apply Forall_cons_1 in Hall as [[n Hn] Hall]. rewrite Hn. by apply IH.
Qed.


Lemma parallel_not_direct : py "parallel" ≠ py "direct".
Proof. vm_compute. discriminate. Qed.

(** The rows copied from [src_rows] when the counter stands at [max_id]. *)
Fixpoint copied (max_id : Z) (target : EventRow.t) (note : pystr)
    (src_rows : list EvidenceRow.t) : list EvidenceRow.t :=
  match src_rows with
  | [] => []
  | src :: rest =>
      Enrich.parallel_row (max_id + 1) target src note
      :: copied (max_id + 1) target note rest
  end.

Lemma copy_rows_spec target note src_rows : ∀ max_id additions,
  Enrich.copy_rows target note (max_id, additions) src_rows
  = (max_id + Z.of_nat (length src_rows),
     additions ++ copied max_id target note src_rows).
Proof.
  unfold Enrich.copy_rows.
  induction src_rows as [|src rest IH]; intros m adds; simpl.
  - by rewrite Z.add_0_r, app_nil_r.
  - rewrite IH. f_equal; [lia|]. by rewrite <- app_assoc.
Qed.

Lemma length_copied max_id target note src_rows :
  length (copied max_id target note src_rows) = length src_rows.
Proof.
  revert max_id. induction src_rows as [|src rest IH]; intros m; simpl; [done|].
  by rewrite IH.
Qed.

Lemma elem_of_copied max_id target note src_rows row :
  row ∈ copied max_id target note src_rows →
  ∃ n src, max_id < n ∧ src ∈ src_rows
           ∧ row = Enrich.parallel_row n target src note.
Proof.
  revert max_id. induction src_rows as [|src rest IH]; intros m; simpl.
  - by intros ?%elem_of_nil.
  - intros [->|Hin]%elem_of_cons.
    + exists (m + 1), src. split; [lia|]. split; [left|done].
    + destruct (IH _ Hin) as (n & src' & ? & ? & ->).
      exists n, src'. split; [lia|]. split; [by right|done].
Qed.


Section additions.
Variable fmt_score : Q → pystr.
Variable existing : gset (pystr * pystr).
Variable evidence_by_event : gmap pystr (list EvidenceRow.t).

(** The rows one match gives when the counter stands at [max_id]. *)
Definition match_rows (target : EventRow.t) (max_id : Z) (m : Q * EventRow.t)
  : list EvidenceRow.t :=
  let note := Enrich.note_of fmt_score (snd m) (fst m) in
  if decide ((EventRow.event_id target, note) ∈ existing) then []
  else copied max_id target note
         (take 8 (default [] (evidence_by_event !! EventRow.event_id (snd m)))).

Lemma add_match_spec target max_id additions m :
  Enrich.add_match fmt_score existing evidence_by_event target (max_id, additions) m
  = (max_id + Z.of_nat (length (match_rows target max_id m)),
     additions ++ match_rows target max_id m).
Proof.
  destruct m as [s source]. unfold Enrich.add_match, match_rows. simpl.
  case_decide; [by rewrite Z.add_0_r, app_nil_r|].
  by rewrite copy_rows_spec, length_copied.
Qed.

(** [rows] is what the match [p] gives at some state of the counter, not
    below [start]. *)
Definition group_of (start : Z) (p : EventRow.t * (Q * EventRow.t))
    (rows : list EvidenceRow.t) : Prop :=
  ∃ max_id, start ≤ max_id ∧ rows = match_rows (fst p) max_id (snd p).

Lemma group_of_weaken start start' p rows :
  start' ≤ start → group_of start p rows → group_of start' p rows.
Proof. intros Hle (n & Hn & ->). exists n. split; [lia|done]. Qed.

Lemma fold_matches_spec target matches : ∀ max_id additions,
  ∃ max_id' groups,
    foldl (Enrich.add_match fmt_score existing evidence_by_event target)
      (max_id, additions) matches
    = (max_id', additions ++ concat groups)
    ∧ max_id ≤ max_id'
    ∧ Forall2 (group_of max_id) ((λ m, (target, m)) <$> matches) groups.
Proof.
  induction matches as [|m rest IH]; intros max_id adds; simpl.
  - exists max_id, []. split; [by rewrite app_nil_r|]. split; [lia|constructor].
  - rewrite add_match_spec.
    destruct (IH (max_id + Z.of_nat (length (match_rows target max_id m)))
                (adds ++ match_rows target max_id m))
      as (m' & groups & -> & Hle & Hg).
    exists m', (match_rows target max_id m :: groups). split.
    + simpl. by rewrite <- app_assoc.
    + split; [lia|]. constructor; [exists max_id; split; [lia|done]|].
      eapply Forall2_impl; [exact Hg|]. intros p rows.
      apply group_of_weaken. lia.
Qed.

Variable gospel_events : list EventRow.t.

(** The targets with their kept matches, in the order of the two loops. *)
Definition pairs (targets : list EventRow.t)
  : list (EventRow.t * (Q * EventRow.t)) :=
  targets ≫= λ target,
    (λ m, (target, m)) <$> Enrich.kept_matches gospel_events target.

Lemma fold_targets_spec targets : ∀ max_id additions,
  ∃ max_id' groups,
    foldl (Enrich.add_target fmt_score existing evidence_by_event gospel_events)
      (max_id, additions) targets
    = (max_id', additions ++ concat groups)
    ∧ max_id ≤ max_id'
    ∧ Forall2 (group_of max_id) (pairs targets) groups.
Proof.
  induction targets as [|target rest IH]; intros max_id adds; simpl.
  - exists max_id, []. split; [by rewrite app_nil_r|]. split; [lia|constructor].
  - unfold Enrich.add_target at 2.
    destruct (fold_matches_spec target
                (Enrich.kept_matches gospel_events target) max_id adds)
      as (m1 & g1 & -> & Hle1 & Hg1).
    destruct (IH m1 (adds ++ concat g1)) as (m2 & g2 & -> & Hle2 & Hg2).
    exists m2, (g1 ++ g2). split; [by rewrite concat_app, app_assoc|].
    split; [lia|].
    change (pairs (target :: rest))
        with (((λ m, (target, m)) <$> Enrich.kept_matches gospel_events target)
              ++ pairs rest).
      apply Forall2_app; [done|].
      eapply Forall2_impl; [exact Hg2|]. intros p rows.
      apply group_of_weaken. lia.
Qed.
End additions.

Lemma keyed_rows_spec rows keyed :
  Enrich.keyed_rows rows = Ok keyed →
  keyed.*2 = rows
  ∧ Forall (λ kr, Enrich.evidence_number (snd kr) = Some (fst kr)) keyed.
Proof.
  revert keyed. induction rows as [|row rest IH]; intros keyed; simpl.
  - intros [= <-]. split; [done|constructor].
  - destruct (Enrich.evidence_number row) as [n|] eqn:Hn; [|done].
    destruct (Enrich.keyed_rows rest) as [k|e]; [|done].
    intros [= <-]. destruct (IH k eq_refl) as [Hk Hall].
    split; [rewrite fmap_cons; by rewrite Hk|]. by constructor.
Qed.

Lemma keyed_rows_total rows :
  Forall has_number rows → ∃ keyed, Enrich.keyed_rows rows = Ok keyed.
Proof.
  induction 1 as [|row rest [n Hn] _ [k IH]]; simpl; [by eauto|].
  rewrite Hn, IH. by eauto.
Qed.

Lemma sort_evidence_spec rows sorted :
  Enrich.sort_evidence rows = Ok sorted →
  sorted ≡ₚ rows ∧ Forall has_number rows.
Proof.
  unfold Enrich.sort_evidence.
  destruct (Enrich.keyed_rows rows) as [keyed|e] eqn:Hk; [|done].
  intros [= <-]. apply keyed_rows_spec in Hk as [<- Hall]. split.
  - apply fmap_Permutation, stable_sort_perm.
  - apply Forall_fmap. eapply Forall_impl; [exact Hall|].
    intros [n row] Hn. simpl in *. unfold has_number. by rewrite Hn.
Qed.

Lemma parallel_row_has_number n target src note :
  0 ≤ n → has_number (Enrich.parallel_row n target src note).
Proof.
  intros Hn. unfold has_number, Enrich.evidence_number, Enrich.parallel_row.
  cbn [EvidenceRow.evidence_id].
  replace (drop 3 (py "EVD" ++ zero_padded 7 n)) with (zero_padded 7 n)
    by reflexivity.
  rewrite py_int_zero_padded by done. by eexists.
Qed.

(** What a run that returns has done. *)
Lemma main_inv fmt_score events evidence out :
  Enrich.main fmt_score events evidence = Ok out →
  ∃ max_id by_event groups,
    Enrich.scan_evidence evidence 0 ∅ = Ok (max_id, by_event)
    ∧ Enrich.additions out = concat groups
    ∧ Forall2 (group_of fmt_score (Enrich.existing_parallel_keys evidence) by_event
                 max_id)
        (pairs (Enrich.gospel_events_of events) (Enrich.gospel_events_of events)) groups
    ∧ Enrich.evidence_rows out ≡ₚ evidence ++ Enrich.additions out
    ∧ (Enrich.additions out = [] → Enrich.evidence_rows out = evidence)
    ∧ Forall has_number (Enrich.evidence_rows out).
Proof.
  unfold Enrich.main.
  destruct (Enrich.scan_evidence evidence 0 ∅) as [[max_id by_event]|e] eqn:Hscan; [|done].
  destruct (fold_targets_spec fmt_score (Enrich.existing_parallel_keys evidence)
              by_event (Enrich.gospel_events_of events) (Enrich.gospel_events_of events) max_id [])
    as (m' & groups & -> & _ & Hgroups).
  simpl. apply scan_evidence_spec in Hscan as Hspec.
  destruct Hspec as (_ & Hnum & _ & _).
  destruct (concat groups) as [|row rest] eqn:Hadds.
  - intros [= <-]. exists max_id, by_event, groups. simpl.
    rewrite Hadds. repeat split; try done. by rewrite app_nil_r.
  - destruct (Enrich.sort_evidence _) as [sorted|e] eqn:Hsort; [|done].
    intros [= <-]. exists max_id, by_event, groups. simpl.
    apply sort_evidence_spec in Hsort as [Hperm Hall].
    rewrite Hadds. repeat split; try done.
    by rewrite Hperm.
Qed.

(** ** The claims about the matcher *)



Lemma Forall2_elem_l {A B} (P : A → B → Prop) l k x :
  Forall2 P l k → x ∈ l → ∃ y, y ∈ k ∧ P x y.
Proof.
  induction 1 as [|a b l k Hab _ IH]; [by intros ?%elem_of_nil|].
  intros [->|Hx]%elem_of_cons.
  - exists b. split; [left|done].
  - destruct (IH Hx) as (y & ? & ?). exists y. split; [by right|done].
Qed.

Lemma Forall2_elem_r {A B} (P : A → B → Prop) l k y :
  Forall2 P l k → y ∈ k → ∃ x, x ∈ l ∧ P x y.
Proof.
  induction 1 as [|a b l k Hab _ IH]; [by intros ?%elem_of_nil|].
  intros [->|Hy]%elem_of_cons.
  - exists a. split; [left|done].
  - destruct (IH Hy) as (x & ? & ?). exists x. split; [by right|done].
Qed.



Lemma elem_of_concat_group {A} (groups : list (list A)) x :
  x ∈ concat groups → ∃ g, x ∈ g ∧ g ∈ groups.
Proof.
  induction groups as [|h t IH]; simpl; [by intros ?%elem_of_nil|].
  intros [Hx|Hx]%elem_of_app.
  - exists h. split; [done|left].
  - destruct (IH Hx) as (g & ? & ?). exists g. split; [done|by right].
Qed.

(** Every row of a group is a copy of one of the first eight direct rows
    of the source of the match, numbered past the numbers of the table. *)
Lemma group_rows fmt_score evidence max_id by_event existing target s source rows row :
  Enrich.scan_evidence evidence 0 ∅ = Ok (max_id, by_event) →
  group_of fmt_score existing by_event max_id (target, (s, source)) rows →
  row ∈ rows →
  (EventRow.event_id target, Enrich.note_of fmt_score source s) ∉ existing
  ∧ ∃ n src,
      max_id < n
      ∧ src ∈ take 8 (direct_of (EventRow.event_id source) evidence)
      ∧ row = Enrich.parallel_row n target src (Enrich.note_of fmt_score source s).
Proof.
  intros Hscan (n & Hn & ->) Hrow. unfold match_rows in Hrow. simpl in Hrow.
  apply scan_evidence_spec in Hscan as (Hlook & _ & Hle & _).
  case_decide as Hkey; [by apply elem_of_nil in Hrow|].
  rewrite Hlook, lookup_empty in Hrow. simpl in Hrow.
  apply elem_of_copied in Hrow as (k & src & Hk & Hsrc & ->).
  split; [done|]. exists k, src. split; [lia|done].
Qed.



Lemma direct_of_perm event_id l k : l ≡ₚ k → direct_of event_id l ≡ₚ direct_of event_id k.
Proof. intros H. unfold direct_of. by rewrite H. Qed.



(** Two accounts of one event, and an unrelated one. *)
Definition feeding_events : list EventRow.t :=
  [ EventRow.mk (py "EVT0001") (py "NT") (py "마태복음") (py "오천 명을 먹이시다")
      (py "") (py "gospel") (py "1") (py "track_main") (py "high");
    EventRow.mk (py "EVT0002") (py "NT") (py "마가복음") (py "오천 명을 먹이시다!")
      (py "") (py "gospel") (py "2") (py "track_main") (py "high");
    EventRow.mk (py "EVT0003") (py "NT") (py "누가복음") (py "세례 요한의 설교")
      (py "") (py "gospel") (py "3") (py "track_main") (py "high");
    EventRow.mk (py "EVT0004") (py "OT") (py "창세기") (py "오천 명을 먹이시다")
      (py "") (py "primeval") (py "4") (py "track_main") (py "high") ].

Definition direct_row (n : Z) (event_id reference : pystr) : EvidenceRow.t :=
  EvidenceRow.mk (py "EVD" ++ zero_padded 7 n) event_id (py "direct") reference
    (py "본문") (py "KRV") (py "false") (py "").

Definition feeding_evidence : list EvidenceRow.t :=
  [ direct_row 1 (py "EVT0001") (py "마태복음 14:13");
    direct_row 2 (py "EVT0002") (py "마가복음 6:30");
    direct_row 3 (py "EVT0003") (py "누가복음 3:1");
    direct_row 4 (py "EVT0004") (py "창세기 1:1") ].

Definition feeding_additions : list EvidenceRow.t :=
  [ EvidenceRow.mk (py "EVD0000005") (py "EVT0001") (py "parallel")
      (py "마가복음 6:30") (py "본문") (py "KRV") (py "true")
      (py "parallel_from:EVT0002;score=1.00");
    EvidenceRow.mk (py "EVD0000006") (py "EVT0002") (py "parallel")
      (py "마태복음 14:13") (py "본문") (py "KRV") (py "true")
      (py "parallel_from:EVT0001;score=1.00") ].

Example feeding_run :
  Enrich.main Enrich.two_decimals feeding_events feeding_evidence
  = Ok (Enrich.mk_run (feeding_evidence ++ feeding_additions) feeding_additions).
Proof. vm_compute. reflexivity. Qed.







(** ** More about the matcher *)

Lemma Qred_one (n : Z) : 0 < n → Qred (true_div n n) = 1%Q.
Proof.
  intros Hn. change 1%Q with (Qred 1). apply Qred_complete.
  unfold true_div, Qeq. simpl. rewrite Z2Pos.id by lia. lia.
Qed.

Lemma true_div_bounds (a b : Z) : 0 ≤ a ≤ b → 0 < b → (0 <= true_div a b <= 1)%Q.
Proof.
  intros Hab Hb. unfold true_div, Qle. simpl. rewrite Z2Pos.id by lia. lia.
Qed.

Lemma true_div_zero (a b : Z) : 0 < b → (true_div a b == 0)%Q ↔ a = 0.
Proof. intros Hb. unfold true_div, Qeq. simpl. lia. Qed.

Lemma true_div_one (a b : Z) : 0 < b → (true_div a b == 1)%Q ↔ a = b.
Proof. intros Hb. unfold true_div, Qeq. simpl. rewrite Z2Pos.id by lia. lia. Qed.

Lemma gset_inter_comm (X Y : gset pystr) : X ∩ Y = Y ∩ X.
Proof. set_solver. Qed.

Lemma gset_union_comm (X Y : gset pystr) : X ∪ Y = Y ∪ X.
Proof. set_solver. Qed.

Lemma gset_inter_idemp (X : gset pystr) : X ∩ X = X.
Proof. set_solver. Qed.

Lemma gset_union_idemp (X : gset pystr) : X ∪ X = X.
Proof. set_solver. Qed.

Lemma gset_union_size_zero (X Y : gset pystr) : size (X ∪ Y) = 0%nat → X = ∅.
Proof. intros H%size_empty_inv. set_solver. Qed.

Lemma gset_size_zero (X : gset pystr) : size X = 0%nat ↔ X = ∅.
Proof.
  split; [intros H%size_empty_inv; set_solver|intros ->; apply size_empty].
Qed.

Lemma gset_inter_union_eq (X Y : gset pystr) :
  size (X ∩ Y) = size (X ∪ Y) → X = Y.
Proof.
  intros Hsize.
  pose proof (set_subseteq_size_equiv (X ∩ Y) (X ∪ Y)) as Heq.
  set_solver by lia.
Qed.

(** X1. The score of two titles is symmetric and lies between 0 and 1; it is 0
    exactly when the titles share no token, and 1 exactly when they have the
    same tokens, and at least one. *)
Theorem score_is_jaccard (a b : pystr) :
  Enrich.score a b = Enrich.score b a
  ∧ (0 <= Enrich.score a b <= 1)%Q
  ∧ ((Enrich.score a b == 0)%Q ↔ Enrich.tokens a ∩ Enrich.tokens b = ∅)
  ∧ (Enrich.score a b = 1%Q
     ↔ Enrich.tokens a = Enrich.tokens b ∧ Enrich.tokens a ≠ ∅).
Proof.
  unfold Enrich.score.
  set (ta := Enrich.tokens a). set (tb := Enrich.tokens b).
  assert (size (ta ∩ tb) ≤ size (ta ∪ tb))%nat as Hsub
    by (apply subseteq_size; set_solver).
  split; [|split; [|split]].
  - rewrite (gset_inter_comm tb ta), (gset_union_comm tb ta).
    destruct (decide (ta = ∅ ∨ tb = ∅)), (decide (tb = ∅ ∨ ta = ∅)); tauto || done.
  - destruct (decide (ta = ∅ ∨ tb = ∅)); [done|].
    case_decide; [done|]. rewrite Qred_correct. apply true_div_bounds; lia.
  - destruct (decide (ta = ∅ ∨ tb = ∅)) as [Hempty|Hne].
    { split; [|done]. intros _. destruct Hempty as [-> | ->]; set_solver. }
    case_decide as Hu.
    { exfalso. apply Hne. left. apply (gset_union_size_zero ta tb). lia. }
    rewrite Qred_correct, true_div_zero by lia. rewrite <- gset_size_zero. lia.
  - destruct (decide (ta = ∅ ∨ tb = ∅)) as [Hempty|Hne].
    { split; [done|]. intros [Heq Hn]. destruct Hempty; congruence. }
    case_decide as Hu.
    { exfalso. apply Hne. left. apply (gset_union_size_zero ta tb). lia. }
    split.
    + intros Hone. split; [|tauto].
      assert (Qred (true_div (Z.of_nat (size (ta ∩ tb))) (Z.of_nat (size (ta ∪ tb))))
              == 1)%Q as Hq by (by rewrite Hone).
      rewrite Qred_correct, true_div_one in Hq by lia.
      apply gset_inter_union_eq. lia.
    + intros [Heq _]. rewrite <- Heq.
      rewrite (gset_inter_idemp ta), (gset_union_idemp ta). apply Qred_one.
      rewrite <- Heq, (gset_union_idemp ta) in Hu. lia.
Qed.

Lemma kept_char_space : Enrich.kept_char 32 = true.
Proof. reflexivity. Qed.

Lemma sub_runs_chars in_run title :
  Forall (λ c, Enrich.kept_char c = true ∧ (c ∈ title ∨ c = 32%N))
    (Enrich.sub_runs in_run title).
Proof.
  revert in_run. induction title as [|c rest IH]; intros in_run; simpl; [constructor|].
  assert (∀ b, Forall (λ c0, Enrich.kept_char c0 = true ∧ (c0 ∈ c :: rest ∨ c0 = 32%N))
                 (Enrich.sub_runs b rest)) as Hrest.
  { intros b. eapply Forall_impl; [apply (IH b)|].
    intros x [Hk [Hx|Hx]]; (split; [done|]); [left; by right|by right]. }
  destruct (Enrich.kept_char c) eqn:Hc.
  - constructor; [|apply Hrest]. split; [done|left; left].
  - destruct in_run; [apply Hrest|].
    constructor; [|apply Hrest]. split; [reflexivity|by right].
Qed.

Lemma split_loop_words s : ∀ word,
  Forall (λ c, is_space c = false) word →
  Forall (λ t, t ≠ [] ∧ Forall (λ c, is_space c = false ∧ (c ∈ word ∨ c ∈ s)) t)
    (Enrich.split_loop word s).
Proof.
  induction s as [|c rest IH]; intros word Hword; simpl.
  - destruct word as [|w ws]; constructor; [|constructor].
    split; [done|]. apply Forall_forall. intros x Hx. split; [|by left].
    by eapply (proj1 (Forall_forall _ _) Hword).
  - assert (∀ w', (∀ x, x ∈ w' → x ∈ word ∨ x ∈ c :: rest) →
              Forall (λ c0, is_space c0 = false) w' →
              Forall (λ t, t ≠ [] ∧ Forall (λ c0, is_space c0 = false
                                              ∧ (c0 ∈ word ∨ c0 ∈ c :: rest)) t)
                (Enrich.split_loop w' rest)) as Hrest.
    { intros w' Hsub Hw'. eapply Forall_impl; [apply (IH w' Hw')|].
      intros t [Hne Ht]. split; [done|].
      eapply Forall_impl; [exact Ht|]. intros x [Hx [Hin|Hin]]; (split; [done|]).
      - by apply Hsub.
      - right. by right. }
    destruct (is_space c) eqn:Hc.
    + destruct word as [|w ws].
      * apply Hrest; [by intros ? ?%elem_of_nil|constructor].
      * constructor; [|apply Hrest; [by intros ? ?%elem_of_nil|constructor]].
        split; [done|]. apply Forall_forall. intros x Hx. split; [|by left].
        by eapply (proj1 (Forall_forall _ _) Hword).
    + apply Hrest.
      * intros x [Hx| ->%list_elem_of_singleton]%elem_of_app; [by left|right; left].
      * apply Forall_app. split; [done|by constructor].
Qed.

(** X2. A token is a run of at least two characters of the title, each a
    Hangul syllable, an ASCII letter or a digit, and is not a stop word. *)
Theorem tokens_are_words (title t : pystr) :
  t ∈ Enrich.tokens title →
  (2 ≤ length t)%nat
  ∧ t ∉ Enrich.STOPWORDS
  ∧ Forall (λ c, c ∈ title
                 ∧ (44032 ≤ c ≤ 55203 ∨ 65 ≤ c ≤ 90 ∨ 97 ≤ c ≤ 122 ∨ 48 ≤ c ≤ 57)%N)
      t.
Proof.
  unfold Enrich.tokens. rewrite elem_of_list_to_set.
  intros [[Hlen Hstop] Hin]%list_elem_of_filter. split; [done|]. split; [done|].
  pose proof (split_loop_words (Enrich.sub_runs false title) [] (Forall_nil_2 _)) as Hw.
  rewrite Forall_forall in Hw. destruct (Hw t Hin) as [_ Ht].
  eapply Forall_impl; [exact Ht|]. intros c [Hsp [[]%elem_of_nil|Hc]].
  pose proof (sub_runs_chars false title) as Hs. rewrite Forall_forall in Hs.
  destruct (Hs c Hc) as [Hk [Hc'| ->]]; [|done]. split; [done|].
  unfold Enrich.kept_char in Hk.
  assert (c ≠ 32%N) as Hne by (by intros ->).
  apply orb_true_iff in Hk as [Hk|Hk]; [|by apply N.eqb_eq in Hk].
  repeat (apply orb_true_iff in Hk as [Hk|Hk]);
    apply andb_true_iff in Hk as [H1%N.leb_le H2%N.leb_le]; lia.
Qed.

Lemma tokens_are_words_witness :
  (2 ≤ length (py "오천"))%nat
  ∧ py "오천" ∉ Enrich.STOPWORDS
  ∧ Forall (λ c, c ∈ py "오천 명을 먹이시다!"
                 ∧ (44032 ≤ c ≤ 55203 ∨ 65 ≤ c ≤ 90 ∨ 97 ≤ c ≤ 122 ∨ 48 ≤ c ≤ 57)%N)
      (py "오천").
Proof.
  apply (tokens_are_words (py "오천 명을 먹이시다!") (py "오천")).
  vm_compute. apply (bool_decide_unpack _). vm_compute. exact I.
Defined.

(** ** The ids and the order of the rows a run writes *)

Definition evidence_id_of (n : Z) : pystr := py "EVD" ++ zero_padded 7 n.

Lemma evidence_number_id_of n row :
  0 ≤ n → EvidenceRow.evidence_id row = evidence_id_of n →
  Enrich.evidence_number row = Some n.
Proof.
  intros Hn Hid. unfold Enrich.evidence_number. rewrite Hid. unfold evidence_id_of.
  replace (drop 3 (py "EVD" ++ zero_padded 7 n)) with (zero_padded 7 n) by reflexivity.
  by apply py_int_zero_padded.
Qed.


Lemma scan_evidence_max evidence : ∀ max_id by_event max_id' by_event',
  Enrich.scan_evidence evidence max_id by_event = Ok (max_id', by_event') →
  max_id' = max_id
  ∨ ∃ row, row ∈ evidence ∧ Enrich.evidence_number row = Some max_id'.
Proof.
  induction evidence as [|row rest IH]; intros m ebe m' ebe'; simpl.
  - intros [= <- <-]. by left.
  - destruct (Enrich.evidence_number row) as [n|] eqn:Hn; [|done].
    intros [Heq|(r & Hr & Hnum)]%IH.
    + destruct (Z.max_spec m n) as [[_ Hmax]|[_ Hmax]]; rewrite Hmax in Heq.
      * right. exists row. split; [left|]. by rewrite Heq.
      * by left.
    + right. exists r. split; [by right|done].
Qed.

Lemma copied_ids max_id target note src_rows :
  EvidenceRow.evidence_id <$> copied max_id target note src_rows
  = evidence_id_of <$> seqZ (max_id + 1) (Z.of_nat (length src_rows)).
Proof.
  revert max_id. induction src_rows as [|src rest IH]; intros m; [done|].
  cbn [copied length]. rewrite fmap_cons, IH.
  rewrite (seqZ_cons (m + 1)) by lia. rewrite fmap_cons.
  f_equal. f_equal. f_equal; lia.
Qed.

(** The state of the two loops, when the counter stood at [start] before
    them: the counter has moved by the number of rows added, and the rows
    carry the numbers from [start + 1] on. *)
Definition numbered (start : Z) (st : Z * list EvidenceRow.t) : Prop :=
  fst st = start + Z.of_nat (length (snd st))
  ∧ EvidenceRow.evidence_id <$> snd st
    = evidence_id_of <$> seqZ (start + 1) (Z.of_nat (length (snd st))).

Lemma numbered_add_match fmt_score existing by_event target start st m :
  numbered start st →
  numbered start (Enrich.add_match fmt_score existing by_event target st m).
Proof.
  destruct st as [n adds]. intros [Hn Hids]. simpl in Hn, Hids.
  rewrite add_match_spec.
  set (new := match_rows fmt_score existing by_event target n m).
  assert (EvidenceRow.evidence_id <$> new
          = evidence_id_of <$> seqZ (n + 1) (Z.of_nat (length new))) as Hnew.
  { subst new. unfold match_rows. case_decide; [done|].
    rewrite length_copied. apply copied_ids. }
  split; simpl.
  - rewrite length_app. lia.
  - rewrite fmap_app, Hids, Hnew, length_app, Nat2Z.inj_add.
    rewrite seqZ_app by lia. rewrite fmap_app. do 3 f_equal. lia.
Qed.

Lemma numbered_fold_matches fmt_score existing by_event target start matches : ∀ st,
  numbered start st →
  numbered start (foldl (Enrich.add_match fmt_score existing by_event target) st matches).
Proof.
  induction matches as [|m rest IH]; intros st Hst; simpl; [done|].
  apply IH. by apply numbered_add_match.
Qed.

Lemma numbered_fold_targets fmt_score existing by_event gospel_events start targets :
  ∀ st,
    numbered start st →
    numbered start
      (foldl (Enrich.add_target fmt_score existing by_event gospel_events) st targets).
Proof.
  induction targets as [|t rest IH]; intros st Hst; simpl; [done|].
  apply IH. unfold Enrich.add_target. by apply numbered_fold_matches.
Qed.

Lemma evidence_id_of_inj n m : 0 ≤ n → 0 ≤ m → evidence_id_of n = evidence_id_of m → n = m.
Proof.
  intros Hn Hm Heq.
  pose (row := EvidenceRow.mk (evidence_id_of n) [] [] [] [] [] [] []).
  pose proof (evidence_number_id_of n row Hn eq_refl) as H1.
  pose proof (evidence_number_id_of m row Hm Heq) as H2.
  congruence.
Qed.

(** A run that gets past the first loop returns: the numbers of the rows it
    adds are read back by [int]. *)
Lemma main_additions fmt_score events evidence max_id by_event :
  Enrich.scan_evidence evidence 0 ∅ = Ok (max_id, by_event) →
  ∃ out,
    Enrich.main fmt_score events evidence = Ok out
    ∧ EvidenceRow.evidence_id <$> Enrich.additions out
      = evidence_id_of <$> seqZ (max_id + 1) (Z.of_nat (length (Enrich.additions out))).
Proof.
  intros Hscan. unfold Enrich.main. rewrite Hscan.
  pose proof (numbered_fold_targets fmt_score (Enrich.existing_parallel_keys evidence)
                by_event (Enrich.gospel_events_of events) max_id
                (Enrich.gospel_events_of events) (max_id, [])) as Hnum.
  destruct (foldl _ (max_id, []) _) as [m' adds]. simpl.
  destruct Hnum as [_ Hids]; [split; simpl; [lia|done]|]. simpl in Hids.
  destruct adds as [|row rest] eqn:Hadds; [by eexists|]. rewrite <- Hadds in *.
  apply scan_evidence_spec in Hscan as (_ & Hold & Hle & _).
  destruct (keyed_rows_total (evidence ++ adds)) as [keyed Hkeyed].
  { apply Forall_app. split; [done|]. apply Forall_forall. intros r Hr.
    apply list_elem_of_lookup in Hr as [i Hi].
    assert ((EvidenceRow.evidence_id <$> adds) !! i = Some (EvidenceRow.evidence_id r)) as Hid
      by (by rewrite list_lookup_fmap, Hi).
    rewrite Hids, list_lookup_fmap in Hid.
    destruct (seqZ (max_id + 1) (Z.of_nat (length adds)) !! i) as [k|] eqn:Hk; [|done].
    apply lookup_seqZ in Hk as [-> _]. injection Hid as Hid.
    exists (max_id + 1 + Z.of_nat i). apply evidence_number_id_of; [lia|done]. }
  unfold Enrich.sort_evidence. rewrite Hkeyed. by eexists.
Qed.


(** X4. The rows a run adds take the evidence ids that follow the largest
    number of the table (or 0), one after the other; so their ids are distinct
    and differ from every id of the table. *)
Theorem additions_take_next_ids fmt_score events evidence out :
  Enrich.main fmt_score events evidence = Ok out →
  ∃ max_id,
    0 ≤ max_id
    ∧ (∀ row n, row ∈ evidence → Enrich.evidence_number row = Some n → n ≤ max_id)
    ∧ (max_id = 0
       ∨ ∃ row, row ∈ evidence ∧ Enrich.evidence_number row = Some max_id)
    ∧ EvidenceRow.evidence_id <$> Enrich.additions out
      = (λ n, py "EVD" ++ zero_padded 7 n)
          <$> seqZ (max_id + 1) (Z.of_nat (length (Enrich.additions out)))
    ∧ NoDup (EvidenceRow.evidence_id <$> Enrich.additions out)
    ∧ ∀ new old, new ∈ Enrich.additions out → old ∈ evidence →
        EvidenceRow.evidence_id new ≠ EvidenceRow.evidence_id old.
Proof.
  intros Hmain.
  destruct (main_inv _ _ _ _ Hmain) as (max_id & by_event & _ & Hscan & _).
  destruct (main_additions fmt_score events _ _ _ Hscan) as (out' & Hmain' & Hids).
  assert (out' = out) as -> by congruence.
  pose proof (scan_evidence_max _ _ _ _ _ Hscan) as Hmax.
  apply scan_evidence_spec in Hscan as (_ & Hold & Hle & Hbound).
  exists max_id. split; [done|]. split; [done|]. split; [done|]. split; [done|].
  assert (∀ new, new ∈ Enrich.additions out →
            ∃ n, max_id < n ∧ Enrich.evidence_number new = Some n) as Hnew.
  { intros new Hin. apply list_elem_of_lookup in Hin as [i Hi].
    assert ((EvidenceRow.evidence_id <$> Enrich.additions out) !! i
            = Some (EvidenceRow.evidence_id new)) as Hid
      by (by rewrite list_lookup_fmap, Hi).
    rewrite Hids, list_lookup_fmap in Hid.
    destruct (seqZ (max_id + 1) _ !! i) as [k|] eqn:Hk; [|done].
    apply lookup_seqZ in Hk as [-> _]. injection Hid as Hid.
    exists (max_id + 1 + Z.of_nat i). split; [lia|].
    apply evidence_number_id_of; [lia|done]. }
  split.
  - rewrite Hids. apply NoDup_fmap_2_strong; [|apply NoDup_seqZ].
    intros x y [Hx _]%elem_of_seqZ [Hy _]%elem_of_seqZ.
    apply evidence_id_of_inj; lia.
  - intros new old Hin Hold_in Heq.
    destruct (Hnew new Hin) as (n & Hn & Hnum).
    unfold Enrich.evidence_number in *. rewrite Heq in Hnum.
    specialize (Hbound old n Hold_in Hnum). lia.
Qed.

Lemma additions_take_next_ids_witness :
  ∃ max_id,
    0 ≤ max_id
    ∧ EvidenceRow.evidence_id <$> feeding_additions
      = (λ n, py "EVD" ++ zero_padded 7 n) <$> seqZ (max_id + 1) 2.
Proof.
  destruct (additions_take_next_ids Enrich.two_decimals feeding_events feeding_evidence
              (Enrich.mk_run (feeding_evidence ++ feeding_additions) feeding_additions)
              ltac:(vm_compute; reflexivity))
    as (max_id & Hpos & _ & _ & Hids & _).
  exists max_id. split; [exact Hpos|exact Hids].
Defined.

(** ** The table a run leaves *)

Lemma StronglySorted_fmap_fst {A} (l : list (Z * A)) :
  StronglySorted (λ x y, fst x ≤ fst y) l → StronglySorted Z.le (fst <$> l).
Proof.
  induction 1 as [|x l Hl IH Hx]; [constructor|].
  rewrite fmap_cons. constructor; [done|].
  apply Forall_fmap. eapply Forall_impl; [exact Hx|]. done.
Qed.

Lemma sorted_by_number (keyed : list (Z * EvidenceRow.t)) :
  StronglySorted (λ x y, fst x ≤ fst y) (stable_sort (λ a b, fst a <? fst b) keyed).
Proof.
  eapply StronglySorted_weaken;
    [|apply (stable_sort_sorted (λ a b : Z * EvidenceRow.t, fst a <? fst b))].
  - intros x y Hxy. unfold may_precede in Hxy. lia.
  - intros x y. lia.
  - intros x y z. unfold may_precede. lia.
Qed.

Lemma sort_evidence_sorted rows sorted :
  Enrich.sort_evidence rows = Ok sorted →
  ∃ numbers,
    Forall2 (λ row n, Enrich.evidence_number row = Some n) sorted numbers
    ∧ StronglySorted Z.le numbers.
Proof.
  unfold Enrich.sort_evidence.
  destruct (Enrich.keyed_rows rows) as [keyed|e] eqn:Hk; [|done].
  intros [= <-]. apply keyed_rows_spec in Hk as [_ Hall].
  set (l := stable_sort (λ a b, fst a <? fst b) keyed).
  exists (fst <$> l). split.
  - apply Forall2_fmap, Forall_Forall2_diag.
    assert (l ≡ₚ keyed) as Hperm by apply stable_sort_perm.
    by rewrite Hperm.
  - apply StronglySorted_fmap_fst, sorted_by_number.
Qed.

(** X5. A run only appends: the table it leaves holds the rows it was given
    and the rows it adds, each once. When it adds nothing the table is as it
    was given; when it adds rows the table is in the order of the evidence
    numbers. *)
Theorem run_only_appends fmt_score events evidence out :
  Enrich.main fmt_score events evidence = Ok out →
  Enrich.evidence_rows out ≡ₚ evidence ++ Enrich.additions out
  ∧ (Enrich.additions out = [] → Enrich.evidence_rows out = evidence)
  ∧ (Enrich.additions out ≠ [] →
     ∃ numbers,
       Forall2 (λ row n, Enrich.evidence_number row = Some n)
         (Enrich.evidence_rows out) numbers
       ∧ StronglySorted Z.le numbers).
Proof.
  intros Hmain.
  destruct (main_inv _ _ _ _ Hmain) as (_ & _ & _ & _ & _ & _ & Hperm & Hsame & _).
  split; [done|]. split; [done|].
  revert Hmain. unfold Enrich.main.
  destruct (Enrich.scan_evidence evidence 0 ∅) as [[max_id by_event]|e]; [|done].
  destruct (foldl _ _ _) as [m adds]. simpl.
  destruct adds as [|row rest]; [by intros [= <-]|].
  destruct (Enrich.sort_evidence _) as [sorted|e] eqn:Hsort; [|done].
  intros [= <-] _. simpl. by eapply sort_evidence_sorted.
Qed.

Lemma run_only_appends_witness :
  Enrich.evidence_rows
    (Enrich.mk_run (feeding_evidence ++ feeding_additions) feeding_additions)
  ≡ₚ feeding_evidence ++ feeding_additions.
Proof.
  apply (run_only_appends Enrich.two_decimals feeding_events feeding_evidence
           (Enrich.mk_run (feeding_evidence ++ feeding_additions) feeding_additions)
           ltac:(vm_compute; reflexivity)).
Defined.

Lemma copied_Forall2 max_id target note src_rows :
  Forall2 (λ src row, ∃ n, row = Enrich.parallel_row n target src note)
    src_rows (copied max_id target note src_rows).
Proof.
  revert max_id. induction src_rows as [|src rest IH]; intros m; simpl; [constructor|].
  constructor; [by eexists|apply IH].
Qed.

(** X6. For each target and kept match, in the order of the two loops, a run
    adds nothing when the pair of the target id and the note is already
    among the parallel rows of the table, and otherwise one copy of each of
    the first eight direct rows of the source event, in the order of the
    table. *)
Theorem run_copies_first_eight fmt_score events evidence out :
  Enrich.main fmt_score events evidence = Ok out →
  let gospel_events := Enrich.gospel_events_of events in
  ∃ groups,
    Enrich.additions out = concat groups
    ∧ Forall2
        (λ p rows,
           let '(target, (s, source)) := p in
           let note := Enrich.note_of fmt_score source s in
           if decide ((EventRow.event_id target, note)
                        ∈ Enrich.existing_parallel_keys evidence)
           then rows = []
           else
             Forall2
               (λ src row, ∃ n, row = Enrich.parallel_row n target src note)
               (take 8
                  (filter (λ row, EvidenceRow.evidence_tier row = py "direct"
                                  ∧ EvidenceRow.event_id row = EventRow.event_id source)
                     evidence))
               rows)
        (gospel_events ≫= λ target,
           (λ m, (target, m)) <$> Enrich.kept_matches gospel_events target)
        groups.
Proof.
  intros Hmain gospel_events.
  destruct (main_inv _ _ _ _ Hmain)
    as (max_id & by_event & groups & Hscan & Hadds & Hgroups & _).
  exists groups. split; [done|].
  eapply Forall2_impl; [exact Hgroups|].
  intros [target [s source]] rows (n & _ & ->). unfold match_rows. simpl.
  case_decide; [done|].
  apply scan_evidence_spec in Hscan as (Hlook & _).
  rewrite Hlook, lookup_empty. simpl. apply copied_Forall2.
Qed.

Lemma run_copies_first_eight_witness :
  ∃ groups, feeding_additions = concat groups ∧ length groups = 2%nat.
Proof.
  destruct (run_copies_first_eight Enrich.two_decimals feeding_events feeding_evidence
              (Enrich.mk_run (feeding_evidence ++ feeding_additions) feeding_additions)
              ltac:(vm_compute; reflexivity))
    as (groups & Hadds & Hgroups).
  exists groups. split; [exact Hadds|].
  apply Forall2_length in Hgroups. rewrite <- Hgroups. vm_compute. reflexivity.
Defined.



(** * More about the normalizer of [scripts/build_web_data.py] *)

(** ** [normalize_evidence]: the count of the evidence *)

Definition total_size (m : gmap pystr Bucket.t) : Z :=
  foldr Z.add 0 (bucket_size ∘ snd <$> map_to_list m).

Lemma total_size_insert (m : gmap pystr Bucket.t) k b b' :
  m !! k = Some b →
  total_size (<[k := b']> m) = total_size m - bucket_size b + bucket_size b'.
Proof.
  intros Hk. unfold total_size. fold (sumZ (bucket_size ∘ snd <$> map_to_list m)).
  fold (sumZ (bucket_size ∘ snd <$> map_to_list (<[k := b']> m))).
  rewrite (sumZ_perm (bucket_size ∘ snd <$> map_to_list (<[k := b']> m))
             (bucket_size ∘ snd <$> ((k, b') :: map_to_list (delete k m)))).
  - rewrite (sumZ_perm (bucket_size ∘ snd <$> map_to_list m)
               (bucket_size ∘ snd <$> ((k, b) :: map_to_list (delete k m)))).
    + unfold sumZ. simpl. lia.
    + apply fmap_Permutation. symmetry. by apply map_to_list_delete.
  - apply fmap_Permutation. rewrite <- (insert_delete_eq m k b').
    apply map_to_list_insert, lookup_delete_eq.
Qed.

Lemma total_size_empty_buckets (ids : gset pystr) :
  total_size (gset_to_gmap empty_bucket ids) = 0.
Proof.
  unfold total_size.
  assert (Forall (λ kv, snd kv = empty_bucket)
            (map_to_list (gset_to_gmap empty_bucket ids))) as Hall.
  { apply Forall_forall. intros [k b] Hin%elem_of_map_to_list.
    by apply lookup_gset_to_gmap_Some in Hin as [_ <-]. }
  revert Hall. generalize (map_to_list (gset_to_gmap empty_bucket ids)).
  intros l Hall. induction Hall as [|[k b] l Hb _ IH]; [done|].
  rewrite fmap_cons. cbn [foldr]. rewrite IH. simpl in Hb. by subst b.
Qed.

Lemma normalize_evidence_loop_count rows : ∀ m ts m' ts',
  normalize_evidence_loop rows m ts = Ok (m', ts') →
  total_size m' = total_size m + Z.of_nat (length rows).
Proof.
  induction rows as [|row rest IH]; intros m ts m' ts'; simpl.
  - intros [= <- <-]. lia.
  - destruct (m !! strip (EvidenceRow.event_id row)) as [b|] eqn:Hb; [|done].
    intros Hloop%IH. rewrite Hloop, (total_size_insert _ _ b) by done.
    case_decide; unfold bucket_size; simpl; rewrite length_app; simpl; lia.
Qed.

Lemma normalize_evidence_total_is_length rows ids m tr tot :
  normalize_evidence rows ids = Ok (m, tr, tot) → tot = Z.of_nat (length rows).
Proof.
  unfold normalize_evidence.
  destruct (normalize_evidence_loop _ _ _) as [[m' ts]|e] eqn:Hloop; [|done].
  apply normalize_evidence_loop_count in Hloop.
  rewrite total_size_empty_buckets in Hloop.
  destruct (elements ts) as [|t [|t' l]]; [done| |done].
  destruct (missing_direct m'); [|done].
  intros [= <- <- <-]. exact Hloop.
Qed.

Lemma normalize_evidence_dom rows ids m tr tot :
  normalize_evidence rows ids = Ok (m, tr, tot) → dom m = ids.
Proof.
  intros (_ & _ & Hm & _)%normalize_evidence_ok_inv.
  apply set_eq. intros eid. rewrite elem_of_dom, Hm.
  case_decide; [split; [done|by eexists]|split; [by intros [? ?]|done]].
Qed.

(** X7. [normalize_evidence] succeeds exactly when every row names a known
    event, the rows carry one translation (so there is a row), and every
    known event has a row whose tier is not parallel. It then returns a
    bucket for every known event and no other, the one translation, and the
    number of rows as the total. *)
Theorem normalize_evidence_succeeds_iff
    (rows : list EvidenceRow.t) (event_ids : gset pystr) :
  (is_ok (normalize_evidence rows event_ids)
   ↔ Forall (λ row, strip (EvidenceRow.event_id row) ∈ event_ids) rows
     ∧ size (list_to_set (strip ∘ EvidenceRow.translation <$> rows) : gset pystr) = 1%nat
     ∧ ∀ event_id, event_id ∈ event_ids →
         ∃ row, row ∈ rows ∧ strip (EvidenceRow.event_id row) = event_id
                ∧ lower (strip (EvidenceRow.evidence_tier row)) ≠ py "parallel")
  ∧ ∀ out translation total,
      normalize_evidence rows event_ids = Ok (out, translation, total) →
      dom out = event_ids
      ∧ (∀ row, row ∈ rows → strip (EvidenceRow.translation row) = translation)
      ∧ total = Z.of_nat (length rows).
Proof.
  split.
  - split.
    + intros [[[m tr] tot] Hok].
      apply normalize_evidence_ok_inv in Hok as (Hall & Htr & _ & Hdirect).
      split; [done|]. split.
      * fold (translations rows). rewrite Htr. apply size_singleton.
      * intros eid Hin. specialize (Hdirect eid Hin).
        destruct (other_rows eid rows) as [|row l] eqn:Ho; [done|].
        assert (row ∈ other_rows eid rows) as Hrow by (rewrite Ho; left).
        apply list_elem_of_filter in Hrow as [Ht Hrow].
        apply list_elem_of_filter in Hrow as [Hid Hrow]. by exists row.
    + intros (Hall & Hsize & Hdirect). apply normalize_evidence_total; [done..|].
      intros eid Hin Hnil. destruct (Hdirect eid Hin) as (row & Hrow & Hid & Ht).
      assert (row ∈ other_rows eid rows) as Hin'.
      { apply list_elem_of_filter. split; [done|]. by apply list_elem_of_filter. }
      rewrite Hnil in Hin'. by apply elem_of_nil in Hin'.
  - intros out tr tot Hok.
    apply normalize_evidence_ok_inv in Hok as Hinv.
    destruct Hinv as (Hall & Htr & Hm & _). split; [|split].
    + by eapply normalize_evidence_dom.
    + intros row Hrow.
      assert (strip (EvidenceRow.translation row) ∈ translations rows) as Hin.
      { apply elem_of_list_to_set, list_elem_of_fmap. by exists row. }
      rewrite Htr in Hin. by apply elem_of_singleton in Hin.
    + by eapply normalize_evidence_total_is_length.
Qed.

(** ** [normalize_events]: the order of the events *)

(** The event that [normalize_events] makes of a row. *)
Definition event_from_row (row : EventRow.t) (ev : Event.t) : Prop :=
  py_int (EventRow.sequence_index row) = Some (Event.sequence_index ev)
  ∧ Event.event_id ev = strip (EventRow.event_id row)
  ∧ Event.lane_tag ev = strip (EventRow.lane_tag row)
  ∧ Event.book ev = strip (EventRow.book row)
  ∧ Event.event_title ev = strip (EventRow.event_title row)
  ∧ Event.event_summary ev = strip (EventRow.event_summary row)
  ∧ Event.certainty_level ev = normalize_certainty (EventRow.certainty_level row).

Lemma normalize_events_loop_inv rows : ∀ seen events out,
  normalize_events_loop rows seen events = Ok out →
  NoDup (strip ∘ EventRow.event_id <$> rows)
  ∧ (∀ row, row ∈ rows → strip (EventRow.event_id row) ∉ seen)
  ∧ ∃ evs, out = events ++ evs ∧ Forall2 event_from_row rows evs.
Proof.
  induction rows as [|row rest IH]; intros seen events out; simpl.
  - intros [= <-]. split; [constructor|]. split; [by intros ? ?%elem_of_nil|].
    exists []. by rewrite app_nil_r.
  - case_decide as Hseen; [done|].
    destruct (py_int (EventRow.sequence_index row)) as [seq|] eqn:Hseq; [|done].
    intros (Hnd & Hfresh & evs & -> & Hevs)%IH. split; [|split].
    + constructor; [|done].
      intros (row' & Heq & Hin)%list_elem_of_fmap.
      apply (Hfresh row' Hin). simpl in Heq. rewrite <- Heq. set_solver.
    + intros r [->|Hr]%elem_of_cons; [done|].
      intros Hin. apply (Hfresh r Hr). set_solver.
    + eexists (_ :: evs). rewrite <- app_assoc. split; [done|].
      constructor; [|done]. by repeat split.
Qed.



Lemma normalize_events_ok_spec rows events :
  normalize_events rows = Ok events →
  NoDup (strip ∘ EventRow.event_id <$> rows)
  ∧ ∃ in_order, Forall2 event_from_row rows in_order ∧ events ≡ₚ in_order.
Proof.
  unfold normalize_events.
  destruct (normalize_events_loop rows ∅ []) as [out|e] eqn:Hloop; [|done].
  apply normalize_events_loop_inv in Hloop as (Hnd & _ & evs & -> & Hevs).
  intros [= <-]. split; [done|]. exists evs. split; [done|apply stable_sort_perm].
Qed.


(** ** [normalize_edges]: the edges of a track *)

(** X9. The payload has a track for every stripped track id of the CSV and no
    other, and the edges of a track are the rows of the track, one for one,
    in the order of the CSV: nothing is merged, dropped or reordered. *)
Theorem normalize_edges_keeps_rows
    (rows : list EdgeRow.t) (event_ids : gset pystr) (out : gmap pystr (list Edge.t)) :
  normalize_edges rows event_ids = Ok out →
  ∀ track,
    out !! track
    = match filter (λ row, strip (EdgeRow.track_id row) = track) rows with
      | [] => None
      | track_rows =>
          Some ((λ row, {| Edge.from_event_id := strip (EdgeRow.from_event_id row);
                           Edge.to_event_id := strip (EdgeRow.to_event_id row);
                           Edge.relation_type := py "before" |}) <$> track_rows)
      end.
Proof.
  unfold normalize_edges.
  assert (∀ rs (m m' : gmap pystr (list Edge.t)),
            normalize_edges_loop rs event_ids m = Ok m' →
            (∀ track es, m !! track = Some es → es ≠ []) →
            ∀ track,
              m' !! track
              = match m !! track, rows_of_track track rs with
                | None, [] => None
                | _, track_rows =>
                    Some (default [] (m !! track) ++ (edge_of_row <$> track_rows))
                end) as Hgen.
  { induction rs as [|row rest IH]; intros m m' Hloop Hne track; simpl in Hloop.
    - injection Hloop as <-. unfold rows_of_track. rewrite filter_nil.
      destruct (m !! track) as [es|] eqn:Hm; [|done]. simpl. by rewrite app_nil_r.
    - case_decide; [done|].
      assert (∀ r : pystr, (if decide (r ≠ py "before") then py "before" else r)
                            = py "before") as Hrel
        by (intros r; destruct (decide (r ≠ py "before")) as [|Hn];
            [reflexivity|by apply dec_stable in Hn]).
      rewrite Hrel in Hloop.
      rewrite (IH _ _ Hloop).
      + unfold rows_of_track. rewrite filter_cons.
        destruct (decide (strip (EdgeRow.track_id row) = track)) as [<-|Hother].
        * rewrite lookup_insert_eq. simpl. rewrite <- app_assoc. simpl.
          rewrite lookup_total_alt.
          by destruct (m !! strip (EdgeRow.track_id row)),
               (filter _ rest); simpl.
        * by rewrite lookup_insert_ne.
      + intros t es. destruct (decide (strip (EdgeRow.track_id row) = t)) as [<-|Hother].
        * rewrite lookup_insert_eq. intros [= <-]. by destruct (m !!! _).
        * rewrite lookup_insert_ne by done. apply Hne. }
  intros Hloop track. rewrite (Hgen rows ∅ out Hloop) by (intros ??; by rewrite lookup_empty).
  rewrite lookup_empty. unfold rows_of_track. by destruct (filter _ rows).
Qed.

Lemma normalize_edges_keeps_rows_witness :
  ∃ out, normalize_edges sample_edge_rows sample_event_ids = Ok out
         ∧ length (default [] (out !! py "track_main")) = 2%nat.
Proof.
  destruct (normalize_edges sample_edge_rows sample_event_ids) as [out|e] eqn:Hout;
    [|vm_compute in Hout; discriminate Hout].
  exists out. split; [reflexivity|].
  rewrite (normalize_edges_keeps_rows sample_edge_rows sample_event_ids out Hout).
  vm_compute. reflexivity.
Defined.

(** ** Lanes *)

Lemma lane_for_known book_name chapter :
  lane_for book_name chapter ∈ Lane.id <$> LANE_DEFS.
Proof.
  unfold lane_for.
  repeat case_decide; apply (bool_decide_unpack _); vm_compute; exact I.
Qed.

Lemma LANE_DEFS_sorted : StronglySorted (λ a b, Lane.order a < Lane.order b) LANE_DEFS.
Proof.
  unfold LANE_DEFS. repeat (constructor; [|repeat constructor; simpl; lia]).
  constructor.
Qed.

Lemma StronglySorted_filter {A} (R : A → A → Prop) (P : A → Prop)
    `{!∀ x, Decision (P x)} (l : list A) :
  StronglySorted R l → StronglySorted R (filter P l).
Proof.
  induction 1 as [|x l Hl IH Hx]; [constructor|].
  rewrite filter_cons. case_decide; [|done].
  constructor; [done|]. apply Forall_forall. intros y Hy%list_elem_of_filter.
  rewrite Forall_forall in Hx. apply Hx, Hy.
Qed.

(** X10. [normalize_lanes] lists the lanes of [LANE_DEFS] that some event
    carries, and no other, in the order of their numbers. A lane that
    [lane_for] gives is one of [LANE_DEFS], so it is listed as soon as an
    event carries it. *)
Theorem normalize_lanes_lists_used_lanes {A} (lane_tag : A → pystr) (events : list A) :
  (∀ lane, lane ∈ normalize_lanes lane_tag events
           ↔ lane ∈ LANE_DEFS ∧ ∃ e, e ∈ events ∧ lane_tag e = Lane.id lane)
  ∧ StronglySorted (λ a b, Lane.order a < Lane.order b)
      (normalize_lanes lane_tag events)
  ∧ ∀ e book_name chapter,
      e ∈ events → lane_tag e = lane_for book_name chapter →
      ∃ lane, lane ∈ normalize_lanes lane_tag events ∧ Lane.id lane = lane_tag e.
Proof.
  assert (∀ lane, lane ∈ normalize_lanes lane_tag events
                  ↔ lane ∈ LANE_DEFS ∧ ∃ e, e ∈ events ∧ lane_tag e = Lane.id lane)
    as Hin.
  { intros lane. unfold normalize_lanes. rewrite list_elem_of_filter.
    rewrite elem_of_list_to_set, list_elem_of_fmap. split.
    - intros [(e & Heq & He) Hl]. split; [done|]. by exists e.
    - intros [Hl (e & He & Heq)]. split; [|done]. by exists e. }
  split; [exact Hin|]. split.
  - unfold normalize_lanes. apply StronglySorted_filter, LANE_DEFS_sorted.
  - intros e book_name chapter He Hlane.
    pose proof (lane_for_known book_name chapter) as Hknown.
    apply list_elem_of_fmap in Hknown as (lane & Hid & Hl).
    exists lane. split; [|congruence]. apply Hin. split; [done|].
    exists e. split; [done|congruence].
Qed.

(** X11. The lane that the extraction gives to the events of Jonah,
    ["prophetic_mission"], is not one of [LANE_DEFS]: the payload lists no
    lane for them. Every other narrative book gets a lane of [LANE_DEFS],
    and none gets ["other"]. *)
Theorem jonah_lane_is_not_listed :
  (∀ book_name chapter,
     book_name ∈ NARRATIVE_BOOKS →
     lane_tag book_name chapter ≠ py "other"
     ∧ (lane_tag book_name chapter ∈ Lane.id <$> LANE_DEFS ↔ book_name ≠ py "요나"))
  ∧ ∀ chapter, lane_tag (py "요나") chapter = py "prophetic_mission"
  ∧ ∀ {A} (tag : A → pystr) (events : list A) lane,
      lane ∈ normalize_lanes tag events → Lane.id lane ≠ py "prophetic_mission".
Proof.
  split.
  - intros book_name chapter Hbook.
    unfold NARRATIVE_BOOKS in Hbook. apply elem_of_list_to_set in Hbook.
    repeat (apply elem_of_cons in Hbook as [->|Hbook]);
      try (by apply elem_of_nil in Hbook);
      try (split; [vm_compute; discriminate|];
           split; [intros _; vm_compute; discriminate
                  |intros _; apply (bool_decide_unpack _); vm_compute; exact I]).
    + unfold lane_tag. rewrite decide_True by done.
      case_decide; (split; [vm_compute; discriminate|]);
        (split; [intros _; vm_compute; discriminate
                |intros _; apply (bool_decide_unpack _); vm_compute; exact I]).
    + split; [vm_compute; discriminate|]. split; [|done].
      intros Hin. exfalso. revert Hin. apply (bool_decide_unpack _).
      vm_compute. exact I.
  - intros chapter. split; [vm_compute; reflexivity|].
    intros A tag events lane [_ Hl]%list_elem_of_filter.
    unfold LANE_DEFS in Hl.
    repeat (apply elem_of_cons in Hl as [->|Hl]); try (by apply elem_of_nil in Hl);
      vm_compute; discriminate.
Qed.

(** ** [truncate] *)

Lemma length_ellipsis : length (py "…") = 1%nat.
Proof. reflexivity. Qed.

Lemma truncate_length (text : pystr) (max_len : Z) :
  1 ≤ max_len → Z.of_nat (length (truncate text max_len)) ≤ max_len.
Proof.
  intros Hmax. unfold truncate. case_decide; [done|].
  unfold prefix_to. rewrite decide_True by lia.
  rewrite length_app, length_take, length_ellipsis. lia.
Qed.

(** ** The research payload *)

Lemma normalize_certainty_in_set raw : normalize_certainty raw ∈ CERTAINTY_SET.
Proof.
  unfold normalize_certainty. case_decide as H; [|done].
  apply (bool_decide_unpack _). vm_compute. exact I.
Qed.

(** X13. A payload that [build_from_research] returns is consistent: it counts
    the rows of the events and evidence tables, has an evidence bucket for
    every event and for nothing else, each with direct evidence, and its
    edges join events of the payload; every certainty level is one of the
    four recognized values. *)
Theorem research_payload_is_consistent
    (events_rows : list EventRow.t) (evidence_rows : list EvidenceRow.t)
    (edges_rows : list EdgeRow.t) (payload : Payload.t) :
  build_from_research events_rows evidence_rows edges_rows = Ok payload →
  let event_ids : gset pystr :=
    list_to_set (Event.event_id <$> Payload.events payload) in
  Payload.totalEvents payload = Z.of_nat (length events_rows)
  ∧ Payload.totalEvidence payload = Z.of_nat (length evidence_rows)
  ∧ dom (Payload.evidenceByEvent payload) = event_ids
  ∧ (∀ event_id bucket,
       Payload.evidenceByEvent payload !! event_id = Some bucket →
       Bucket.direct bucket ≠ [])
  ∧ (∀ track edges edge,
       Payload.edgesByTrack payload !! track = Some edges → edge ∈ edges →
       Edge.from_event_id edge ∈ event_ids ∧ Edge.to_event_id edge ∈ event_ids)
  ∧ (∀ ev, ev ∈ Payload.events payload → Event.certainty_level ev ∈ CERTAINTY_SET)
  ∧ NoDup (Event.event_id <$> Payload.events payload).
Proof.
  unfold build_from_research.
  destruct (normalize_events events_rows) as [events|e] eqn:Hev; [|done].
  destruct (normalize_evidence evidence_rows _) as [[[ebe tr] tot]|e] eqn:Hevd; [|done].
  destruct (normalize_edges edges_rows _) as [edges|e] eqn:Hedg; [|done].
  intros [= <-]. simpl.
  destruct (normalize_events_ok_spec _ _ Hev) as (Hnd & in_order & Hrows & Hperm).
  split; [|split; [|split; [|split; [|split; [|split]]]]].
  - rewrite Hperm. f_equal. symmetry. by eapply Forall2_length.
  - by eapply normalize_evidence_total_is_length.
  - by eapply normalize_evidence_dom.
  - intros eid bucket Hb.
    apply normalize_evidence_ok_inv in Hevd as (_ & _ & Hm & Hdirect).
    rewrite Hm in Hb. case_decide as Hin; [|done]. injection Hb as <-.
    simpl. intros Hnil%fmap_nil_inv. by apply (Hdirect eid Hin).
  - intros track es edge Hes Hedge.
    pose proof (normalize_edges_loop_spec edges_rows
                  (list_to_set (Event.event_id <$> events)) ∅) as Hspec.
    unfold normalize_edges in Hedg. rewrite Hedg in Hspec.
    destruct Hspec as [Hknown Hout].
    apply lookup_total_correct in Hes. rewrite Hout, lookup_total_empty in Hes.
    subst es. simpl in Hedge.
    apply list_elem_of_fmap in Hedge as (row & -> & Hrow). simpl.
    apply list_elem_of_filter in Hrow as [_ Hrow].
    rewrite Forall_forall in Hknown. apply (Hknown row Hrow).
  - intros ev Hin. rewrite Hperm in Hin.
    destruct (Forall2_elem_r _ _ _ _ Hrows Hin) as (row & _ & Hrow).
    destruct Hrow as (_ & _ & _ & _ & _ & _ & ->). apply normalize_certainty_in_set.
  - rewrite Hperm.
    assert (Event.event_id <$> in_order = strip ∘ EventRow.event_id <$> events_rows) as ->;
      [|done].
    clear Hperm Hnd Hev. induction Hrows as [|row ev rows evs (_ & Hid & _) _ IH]; [done|].
    rewrite !fmap_cons, IH. simpl. by rewrite Hid.
Qed.

Definition sample_evidence_rows : list EvidenceRow.t :=
  [ EvidenceRow.mk (py "EVD0000001") (py "EVT0001") (py "direct") (py "Genesis 1:1")
      (py "In the beginning") (py "KRV") (py "false") (py "");
    EvidenceRow.mk (py "EVD0000002") (py "EVT0002") (py "direct") (py "Genesis 7:1")
      (py "Come into the ark") (py "KRV") (py "false") (py "") ].

Definition sample_chain_rows : list EdgeRow.t :=
  [ EdgeRow.mk (py "EDG000001") (py "EVT0001") (py "EVT0002") (py "before")
      (py "Genesis 1:1") (py "track_main") ].

Lemma research_payload_is_consistent_witness :
  ∃ payload,
    build_from_research sample_event_rows sample_evidence_rows sample_chain_rows
    = Ok payload
    ∧ Payload.totalEvents payload = 2
    ∧ Payload.totalEvidence payload = 2
    ∧ NoDup (Event.event_id <$> Payload.events payload).
Proof.
  eexists. split; [vm_compute; reflexivity|].
  pose proof (research_payload_is_consistent sample_event_rows sample_evidence_rows
                sample_chain_rows _ ltac:(vm_compute; reflexivity)) as Hfacts.
  cbv zeta in Hfacts. destruct Hfacts as (Hevents & Hevidence & _ & _ & _ & _ & Hnd).
  split; [exact Hevents|]. split; [exact Hevidence|exact Hnd].
Defined.

(** X12. The extraction and the chapter timeline name the lane of a narrative
    book alike, but for Daniel and Jonah: the extraction puts Daniel with
    the exile and the return, and Jonah on a lane of its own, where the
    chapter timeline puts both with the prophets. *)
Theorem lanes_agree_but_for_two_books (book_name : pystr) (chapter : Z) :
  book_name ∈ NARRATIVE_BOOKS →
  (lane_tag book_name chapter = lane_for book_name chapter
   ↔ book_name ≠ py "다니엘" ∧ book_name ≠ py "요나")
  ∧ lane_for (py "다니엘") chapter = py "prophetic_books"
  ∧ lane_tag (py "다니엘") chapter = py "exile_return"
  ∧ lane_for (py "요나") chapter = py "prophetic_books".
Proof.
  intros Hbook. split; [|split; [|split]; vm_compute; reflexivity].
  unfold NARRATIVE_BOOKS in Hbook. apply elem_of_list_to_set in Hbook.
  repeat (apply elem_of_cons in Hbook as [->|Hbook]);
    try (by apply elem_of_nil in Hbook);
    try (split; [intros _; split; vm_compute; discriminate|intros _; vm_compute; reflexivity]).
  - split; [intros Heq; vm_compute in Heq; discriminate Heq|].
    intros [Hne _]. exfalso. exact (Hne eq_refl).
  - split; [intros Heq; vm_compute in Heq; discriminate Heq|].
    intros [_ Hne]. exfalso. exact (Hne eq_refl).
Qed.

Lemma lanes_agree_but_for_two_books_witness :
  lane_tag (py "창세기") 12 = lane_for (py "창세기") 12
  ↔ py "창세기" ≠ py "다니엘" ∧ py "창세기" ≠ py "요나".
Proof.
  apply (lanes_agree_but_for_two_books (py "창세기") 12).
  apply (bool_decide_unpack _). vm_compute. exact I.
Defined.

(** ** The normalizer on the sample tables *)

Lemma normalize_evidence_succeeds_iff_witness :
  is_ok (normalize_evidence sample_evidence_rows {[ py "EVT0001"; py "EVT0002" ]}).
Proof.
  apply (proj1 (normalize_evidence_succeeds_iff sample_evidence_rows
                  {[ py "EVT0001"; py "EVT0002" ]})).
  split; [|split].
  - repeat constructor; apply (bool_decide_unpack _); vm_compute; exact I.
  - vm_compute. reflexivity.
  - intros event_id [->%elem_of_singleton| ->%elem_of_singleton]%elem_of_union.
    + exists (EvidenceRow.mk (py "EVD0000001") (py "EVT0001") (py "direct")
                (py "Genesis 1:1") (py "In the beginning") (py "KRV") (py "false") (py "")).
      split; [left|]. split; [vm_compute; reflexivity|vm_compute; discriminate].
    + exists (EvidenceRow.mk (py "EVD0000002") (py "EVT0002") (py "direct")
                (py "Genesis 7:1") (py "Come into the ark") (py "KRV") (py "false") (py "")).
      split; [right; left|]. split; [vm_compute; reflexivity|vm_compute; discriminate].
Defined.


Lemma normalize_lanes_lists_used_lanes_witness :
  ∃ lane, lane ∈ normalize_lanes EventRow.lane_tag sample_event_rows
          ∧ Lane.id lane = py "primeval_history".
Proof.
  destruct (proj2 (proj2 (normalize_lanes_lists_used_lanes EventRow.lane_tag
                            sample_event_rows))
              (EventRow.mk (py "EVT0002") (py "OT") (py "Genesis") (py "Flood") (py "rain")
                 (py "primeval_history") (py "2") (py "track_main") (py "certain"))
              (py "창세기") 1) as (lane & Hlane & Hid).
  - left.
  - vm_compute. reflexivity.
  - exists lane. split; [exact Hlane|exact Hid].
Defined.

Lemma jonah_lane_is_not_listed_witness :
  lane_tag (py "요나") 1 ≠ py "other"
  ∧ (lane_tag (py "요나") 1 ∈ Lane.id <$> LANE_DEFS ↔ py "요나" ≠ py "요나").
Proof.
  apply (proj1 jonah_lane_is_not_listed (py "요나") 1).
  apply (bool_decide_unpack _). vm_compute. exact I.
Defined.

(** * More about the extraction build *)

(** ** Ids *)

Lemma digit_not_space c : is_digit c → is_space c = false.
Proof.
  intros [H1 H2]. destruct c as [|p]; [lia|].
  repeat (destruct p as [p|p|]; try (exfalso; lia)); reflexivity.
Qed.

Lemma lstrip_nonspace s : Forall (λ c, is_space c = false) s → lstrip s = s.
Proof. destruct 1 as [|c r Hc _]; [done|]. simpl. by rewrite Hc. Qed.

Lemma strip_nonspace s : Forall (λ c, is_space c = false) s → strip s = s.
Proof.
  intros Hs. unfold strip, rstrip. rewrite (lstrip_nonspace s Hs).
  rewrite lstrip_nonspace by by apply Forall_reverse.
  apply reverse_involutive.
Qed.

Lemma zero_padded_digits w n :
  0 ≤ n → Forall is_digit (zero_padded w n) ∧ zero_padded w n ≠ [].
Proof.
  intros Hn. unfold zero_padded, decimal.
  destruct (to_digits_spec (S (Z.to_nat n)) n [] Hn) as (ds & -> & Hds & Hne & _); [lia|].
  rewrite app_nil_r. split.
  - apply Forall_app. split; [|done]. apply Forall_replicate. unfold is_digit. lia.
  - destruct ds; [done|]. by destruct (w - _)%nat.
Qed.

Lemma py_int_str_of_int n : 0 ≤ n → py_int (str_of_int n) = Some n.
Proof.
  intros Hn. unfold str_of_int. assert (n <? 0 = false) as -> by lia.
  unfold decimal.
  destruct (to_digits_spec (S (Z.to_nat n)) n [] Hn) as (ds & -> & Hds & Hne & Hval); [lia|].
  rewrite app_nil_r. by rewrite py_int_digits, Hval.
Qed.

Lemma str_of_int_nonempty n : str_of_int n ≠ [].
Proof.
  unfold str_of_int. destruct (n <? 0) eqn:E; [done|]. unfold decimal.
  destruct (to_digits_spec (S (Z.to_nat n)) n []) as (ds & -> & _ & Hne & _); [lia|lia|].
  by rewrite app_nil_r.
Qed.

Definition event_id_of (n : Z) : pystr := py "EVT" ++ zero_padded 4 n.

Lemma event_id_of_nonspace n : 0 ≤ n → Forall (λ c, is_space c = false) (event_id_of n).
Proof.
  intros Hn. unfold event_id_of. apply Forall_app. split.
  - repeat constructor.
  - destruct (zero_padded_digits 4 n Hn) as [Hd _].
    eapply Forall_impl; [exact Hd|]. apply digit_not_space.
Qed.

Lemma event_id_of_inj n m : 0 ≤ n → 0 ≤ m → event_id_of n = event_id_of m → n = m.
Proof.
  intros Hn Hm Heq. unfold event_id_of in Heq. apply app_inv_head in Heq.
  pose proof (py_int_zero_padded 4 n Hn) as H1.
  pose proof (py_int_zero_padded 4 m Hm) as H2. congruence.
Qed.

(** ** The events table *)

(** The row that [main] writes for a candidate that comes at [seq]. *)
Definition event_row_of (nfc : pystr → pystr) (seq : Z) (cand : CandidateEvent.t)
  : EventRow.t :=
  {| EventRow.event_id := event_id_of seq;
     EventRow.testament := CandidateEvent.testament cand;
     EventRow.book := CandidateEvent.book_name cand;
     EventRow.event_title := CandidateEvent.title cand;
     EventRow.event_summary :=
       summarize nfc (if decide (CandidateEvent.first_text cand = [])
                      then CandidateEvent.title cand
                      else CandidateEvent.first_text cand);
     EventRow.lane_tag :=
       lane_tag (CandidateEvent.book_name cand) (CandidateEvent.start_chapter cand);
     EventRow.sequence_index := str_of_int seq;
     EventRow.track_id := py "track_main";
     EventRow.certainty_level := certainty_level (CandidateEvent.title cand) |}.

Definition event_object_of (seq : Z) (cand : CandidateEvent.t)
  : pystr * CandidateEvent.t * pystr :=
  (event_id_of seq, cand,
   lane_tag (CandidateEvent.book_name cand) (CandidateEvent.start_chapter cand)).

Lemma event_rows_closed nfc selected : ∀ seq,
  event_rows nfc seq selected
  = (imap (λ i, event_row_of nfc (seq + Z.of_nat i)) selected,
     imap (λ i, event_object_of (seq + Z.of_nat i)) selected).
Proof.
  induction selected as [|cand rest IH]; intros seq; [done|].
  cbn [event_rows]. rewrite (IH (seq + 1)). cbn [imap].
  unfold event_row_of at 2, event_object_of at 2. rewrite Z.add_0_r.
  f_equal; f_equal; try done; apply imap_ext; intros i c _; simpl;
    unfold event_row_of, event_object_of;
    replace (seq + 1 + Z.of_nat i) with (seq + Z.of_nat (S i)) by lia; done.
Qed.

Lemma certainty_level_in_set title : certainty_level title ∈ CERTAINTY_SET.
Proof.
  unfold certainty_level.
  destruct (list_find _ AMBIGUOUS_KEYWORDS) as [[i [k level]]|] eqn:Hfind.
  - apply list_find_Some in Hfind as (Hi & _ & _).
    apply list_elem_of_lookup_2 in Hi. unfold AMBIGUOUS_KEYWORDS in Hi.
    repeat (apply elem_of_cons in Hi as [[= _ ->]|Hi]);
      try (by apply elem_of_nil in Hi);
      apply (bool_decide_unpack _); vm_compute; exact I.
  - apply (bool_decide_unpack _). vm_compute. exact I.
Qed.

Lemma lane_tag_nonempty book_name chapter : lane_tag book_name chapter ≠ [].
Proof. unfold lane_tag. repeat case_decide; vm_compute; discriminate. Qed.

Lemma summarize_length nfc text : (length (summarize nfc text) ≤ 88)%nat.
Proof.
  unfold summarize. case_decide; [lia|].
  rewrite length_app, length_take, length_ellipsis. lia.
Qed.

(** ** The evidence table *)

(** The rows carry the evidence ids from [start] on, and belong to events
    of [ids]; all have the translation of the build. *)
Definition rows_from (start : Z) (ids : list pystr) (rows : list EvidenceRow.t) : Prop :=
  EvidenceRow.evidence_id <$> rows
  = evidence_id_of <$> seqZ start (Z.of_nat (length rows))
  ∧ Forall (λ row, EvidenceRow.event_id row ∈ ids
                   ∧ EvidenceRow.translation row = TRANSLATION) rows.

Lemma rows_from_nil start ids : rows_from start ids [].
Proof. split; [done|constructor]. Qed.

Lemma rows_from_app start ids a b :
  rows_from start ids a → rows_from (start + Z.of_nat (length a)) ids b →
  rows_from start ids (a ++ b).
Proof.
  intros [Ha Ha'] [Hb Hb']. split; [|by apply Forall_app].
  rewrite fmap_app, Ha, Hb, length_app, Nat2Z.inj_add.
  rewrite seqZ_app by lia. by rewrite fmap_app.
Qed.

Lemma slice_rows_from event_id tier is_parallel note ids verses :
  event_id ∈ ids →
  ∀ idx start rows,
    slice_rows event_id tier is_parallel note idx verses start = Some rows →
    rows_from start ids rows.
Proof.
  intros Hid. induction verses as [|verse rest IH]; intros idx start rows; simpl.
  - intros [= <-]. apply rows_from_nil.
  - destruct (evidence_text idx verse) as [text|]; [|done]. simpl.
    destruct (slice_rows _ _ _ _ _ rest _) as [more|] eqn:Hmore; [|done].
    intros [= <-]. destruct (IH _ _ _ Hmore) as [Hids Hall]. split.
    + cbn [length]. rewrite (seqZ_cons start) by lia. rewrite !fmap_cons, Hids.
      simpl. do 3 f_equal; lia.
    + constructor; [done|done].
Qed.

Lemma direct_rows_from event_objects : ∀ ids start rows,
  (∀ obj, obj ∈ event_objects → obj.1.1 ∈ ids) →
  direct_rows event_objects start = Some rows →
  rows_from start ids rows.
Proof.
  induction event_objects as [|[[event_id cand] lane] rest IH];
    intros ids start rows Hids; simpl.
  - intros [= <-]. apply rows_from_nil.
  - destruct (slice_rows _ _ _ _ _ _ _) as [here|] eqn:Hhere; [|done]. simpl.
    destruct (direct_rows rest _) as [there|] eqn:Hthere; [|done].
    intros [= <-]. apply rows_from_app.
    + eapply slice_rows_from; [|exact Hhere]. apply (Hids (event_id, cand, lane)). left.
    + eapply IH; [|exact Hthere]. intros obj Hobj. apply Hids. by right.
Qed.

Lemma target_rows_from target_event_id ids sources :
  target_event_id ∈ ids →
  ∀ start rows,
    target_rows target_event_id sources start = Some rows → rows_from start ids rows.
Proof.
  intros Hid. induction sources as [|[source_event_id source_cand] rest IH];
    intros start rows; simpl.
  - intros [= <-]. apply rows_from_nil.
  - case_decide; [apply IH|].
    destruct (slice_rows _ _ _ _ _ _ _) as [here|] eqn:Hhere; [|done]. simpl.
    destruct (target_rows _ rest _) as [there|] eqn:Hthere; [|done].
    intros [= <-]. apply rows_from_app; [by eapply slice_rows_from|by apply IH].
Qed.

Lemma members_rows_from ids targets members :
  (∀ m, m ∈ targets → m.1 ∈ ids) →
  ∀ start rows,
    members_rows targets members start = Some rows → rows_from start ids rows.
Proof.
  induction targets as [|[target_event_id target_cand] rest IH];
    intros Hids start rows; simpl.
  - intros [= <-]. apply rows_from_nil.
  - destruct (target_rows _ _ _) as [here|] eqn:Hhere; [|done]. simpl.
    destruct (members_rows rest _ _) as [there|] eqn:Hthere; [|done].
    intros [= <-]. apply rows_from_app.
    + eapply target_rows_from; [|exact Hhere].
      apply (Hids (target_event_id, target_cand)). left.
    + eapply IH; [|exact Hthere]. intros m Hm. apply Hids. by right.
Qed.

Lemma parallel_rows_from ids groups :
  (∀ key members m, (key, members) ∈ groups → m ∈ members → m.1 ∈ ids) →
  ∀ start rows,
    parallel_rows_of groups start = Some rows → rows_from start ids rows.
Proof.
  induction groups as [|[key members] rest IH]; intros Hids start rows; simpl.
  - intros [= <-]. apply rows_from_nil.
  - assert (∀ key' members' m, (key', members') ∈ rest → m ∈ members' → m.1 ∈ ids)
      as Hrest by (intros k ms m Hin; apply (Hids k ms m); by right).
    case_decide; [by apply (IH Hrest)|].
    destruct (members_rows _ _ _) as [here|] eqn:Hhere; [|done]. simpl.
    destruct (parallel_rows_of rest _) as [there|] eqn:Hthere; [|done].
    intros [= <-]. apply rows_from_app.
    + eapply members_rows_from; [|exact Hhere]. intros m Hm.
      apply (Hids key members m); [left|done].
    + by apply (IH Hrest).
Qed.

Lemma gospel_groups_members nfc event_objects key members m :
  (key, members) ∈ gospel_groups nfc event_objects → m ∈ members →
  ∃ lane, (m.1, m.2, lane) ∈ event_objects.
Proof.
  unfold gospel_groups.
  assert (∀ l groups,
            (∀ k ms x, (k, ms) ∈ groups → x ∈ ms → ∃ lane, (x.1, x.2, lane) ∈ event_objects) →
            (∀ obj, obj ∈ l → obj ∈ event_objects) →
            ∀ k ms x,
              (k, ms) ∈ foldl
                (λ groups obj,
                   let '(event_id, cand, _) := obj in
                   if decide (CandidateEvent.book_name cand ∈ GOSPEL_BOOKS) then
                     let key := normalize_heading_key nfc (CandidateEvent.title cand) in
                     if decide (key ≠ []) then group_append groups key (event_id, cand)
                     else groups
                   else groups) groups l →
              x ∈ ms → ∃ lane, (x.1, x.2, lane) ∈ event_objects) as Hgen.
  { induction l as [|[[eid cand] lane] rest IH]; intros groups Hg Hl k ms x; simpl.
    - apply Hg.
    - apply IH; [|intros obj Hobj; apply Hl; by right].
      repeat case_decide; try apply Hg.
      intros k' ms' x' Hin Hx.
      destruct (group_append_elem _ _ _ _ _ _ Hin Hx) as [->|(vs & Hvs & Hxvs)].
      + exists lane. apply Hl. left.
      + by eapply Hg. }
  intros Hin Hm. eapply (Hgen event_objects []); [|done|exact Hin|exact Hm].
  by intros ??? ?%elem_of_nil.
Qed.

(** ** The chronology rows *)

(** The edges of a chain over [ids]. *)
Definition chain_edges (ids : list pystr) : list (pystr * pystr) :=
  zip ids (tail ids).

Lemma chain_rows_spec track_id nodes : ∀ edge_id,
  (λ row, (EdgeRow.from_event_id row, EdgeRow.to_event_id row))
    <$> chain_rows track_id nodes edge_id
  = chain_edges nodes.*1
  ∧ Forall (λ row, EdgeRow.track_id row = track_id
                   ∧ EdgeRow.relation_type row = py "before")
      (chain_rows track_id nodes edge_id).
Proof.
  induction nodes as [|[frm basis] rest IH]; intros edge_id; [by split|].
  destruct rest as [|[to basis'] rest']; [by split|].
  destruct (IH (edge_id + 1)) as [Hedges Hall].
  cbn [chain_rows]. split.
  - rewrite fmap_cons. cbn [chain_rows] in Hedges. rewrite Hedges. done.
  - constructor; [done|exact Hall].
Qed.

Lemma elem_of_chain_edges ids a b :
  (a, b) ∈ chain_edges ids → a ∈ ids ∧ b ∈ tail ids.
Proof.
  unfold chain_edges. intros Hin. split.
  - by eapply elem_of_zip_l.
  - by eapply elem_of_zip_r.
Qed.

Lemma elem_of_tail {A} (l : list A) x : x ∈ tail l → x ∈ l.
Proof. destruct l; [done|]. simpl. by right. Qed.

Lemma chain_edges_acyclic ids : NoDup ids → acyclic (chain_edges ids).
Proof.
  induction ids as [|x rest IH]; intros Hnd.
  - intros y Hcyc. inversion Hcyc as [?? H|??? H]; by apply elem_of_nil in H.
  - apply NoDup_cons in Hnd as [Hfresh Hnd]. specialize (IH Hnd).
    assert (∀ a b, (a, b) ∈ chain_edges (x :: rest) →
              b ∈ rest ∧ (a ≠ x → (a, b) ∈ chain_edges rest)) as Hstep.
    { intros a b Hin. destruct rest as [|y rest']; [by apply elem_of_nil in Hin|].
      change (chain_edges (x :: y :: rest')) with ((x, y) :: chain_edges (y :: rest')) in Hin.
      apply elem_of_cons in Hin as [[= -> ->]|Hin].
      - split; [left|done].
      - split; [|done]. apply elem_of_chain_edges in Hin as [_ Hb]. by right. }
    assert (∀ a b, tc (λ a b, (a, b) ∈ chain_edges (x :: rest)) a b →
              b ≠ x ∧ (a ≠ x → tc (λ a b, (a, b) ∈ chain_edges rest) a b)) as Hpath.
    { intros a b Hab. induction Hab as [a b Hab|a c b Hac Hcb [Hb IHcb]].
      - destruct (Hstep a b Hab) as [Hb Hin].
        split; [by intros ->|]. intros Ha. apply tc_once. by apply Hin.
      - split; [done|]. intros Ha. destruct (Hstep a c Hac) as [Hc Hin].
        eapply tc_l; [by apply Hin|]. apply IHcb. by intros ->. }
    intros y Hcyc. destruct (Hpath y y Hcyc) as [Hy Hrest].
    by apply (IH y), Hrest.
Qed.

(** ** Grouping *)

Lemma filter_none {A} (P : A → Prop) `{!∀ x, Decision (P x)} (l : list A) :
  (∀ x, x ∈ l → ¬ P x) → filter P l = [].
Proof.
  induction l as [|x l IH]; intros Hnone; [done|].
  rewrite filter_cons_False by (apply Hnone; left).
  apply IH. intros y Hy. apply Hnone. by right.
Qed.

Section grouping.
Context {X V : Type} (key : X → pystr) (val : X → V).

Lemma group_append_keys (grouped : list (pystr * list V)) k v :
  (group_append grouped k v).*1
  = if decide (k ∈ grouped.*1) then grouped.*1 else grouped.*1 ++ [k].
Proof.
  induction grouped as [|[k' vs] rest IH]; [done|].
  cbn [group_append]. rewrite (fmap_cons fst (k', vs) rest). cbn [fst].
  destruct (decide (k' = k)) as [->|Hne].
  - rewrite fmap_cons. rewrite decide_True by left. done.
  - rewrite fmap_cons, IH. cbn [fst].
    destruct (decide (k ∈ rest.*1)) as [Hin|Hout].
    + rewrite decide_True by by right. done.
    + rewrite decide_False; [done|]. intros [->|?]%elem_of_cons; done.
Qed.

Lemma group_append_NoDup (grouped : list (pystr * list V)) k v :
  NoDup grouped.*1 → NoDup (group_append grouped k v).*1.
Proof.
  intros Hnd. rewrite group_append_keys. case_decide as Hin; [done|].
  apply NoDup_app. split; [done|]. split; [|apply NoDup_singleton].
  intros x Hx ->%list_elem_of_singleton. done.
Qed.

Lemma group_append_inv (grouped : list (pystr * list V)) k v k' vs' :
  NoDup grouped.*1 →
  (k', vs') ∈ group_append grouped k v →
  (k' ≠ k ∧ (k', vs') ∈ grouped)
  ∨ (k' = k ∧ ∃ vs0, vs' = vs0 ++ [v]
                     ∧ ((k, vs0) ∈ grouped ∨ (k ∉ grouped.*1 ∧ vs0 = []))).
Proof.
  induction grouped as [|[k0 vs0] rest IH]; simpl; intros Hnd.
  - intros [= -> ->]%list_elem_of_singleton. right. split; [done|].
    exists []. split; [done|]. right. split; [by intros ?%elem_of_nil|done].
  - apply NoDup_cons in Hnd as [Hfresh Hnd]. case_decide as Hk.
    + subst k0. intros [[= -> ->]|Hin]%elem_of_cons.
      * right. split; [done|]. exists vs0. split; [done|]. left. left.
      * left. split; [|by right]. intros ->. apply Hfresh.
        apply list_elem_of_fmap. by exists (k, vs').
    + intros [[= -> ->]|Hin]%elem_of_cons.
      * left. split; [done|]. left.
      * destruct (IH Hnd Hin) as [[Hne Hrest]|(-> & vs1 & -> & Hcase)].
        -- left. split; [done|]. by right.
        -- right. split; [done|]. exists vs1. split; [done|].
           destruct Hcase as [Hin'|[Hout ->]]; [left; by right|].
           right. split; [|done]. intros [->|?]%elem_of_cons; done.
Qed.

(** The groups of a list, as the loop that fills a [defaultdict(list)]
    leaves them: the values of every key, in order. *)
Lemma group_fold_spec (l : list X) :
  let groups := foldl (λ g x, group_append g (key x) (val x)) [] l in
  NoDup groups.*1
  ∧ (∀ x, x ∈ l → key x ∈ groups.*1)
  ∧ ∀ k vs, (k, vs) ∈ groups → vs = val <$> filter (λ x, key x = k) l.
Proof.
  assert (∀ rest seen groups,
            NoDup groups.*1 →
            (∀ x, x ∈ seen → key x ∈ groups.*1) →
            (∀ k vs, (k, vs) ∈ groups → vs = val <$> filter (λ x, key x = k) seen) →
            let groups' := foldl (λ g x, group_append g (key x) (val x)) groups rest in
            NoDup groups'.*1
            ∧ (∀ x, x ∈ seen ++ rest → key x ∈ groups'.*1)
            ∧ ∀ k vs, (k, vs) ∈ groups' →
                vs = val <$> filter (λ x, key x = k) (seen ++ rest)) as Hgen.
  { induction rest as [|x rest IH]; intros seen groups Hnd Hkeys Hvals; simpl.
    - rewrite app_nil_r. done.
    - rewrite (assoc_L (++) seen [x] rest : seen ++ x :: rest = (seen ++ [x]) ++ rest).
      apply IH.
      + by apply group_append_NoDup.
      + intros y Hy. rewrite group_append_keys.
        apply elem_of_app in Hy as [Hy| ->%list_elem_of_singleton].
        * case_decide; [by apply Hkeys|]. apply elem_of_app. left. by apply Hkeys.
        * case_decide; [done|]. apply elem_of_app. right. by apply list_elem_of_singleton.
      + intros k vs Hin. rewrite filter_app, fmap_app.
        destruct (group_append_inv _ _ _ _ _ Hnd Hin)
          as [[Hne Hold]|(-> & vs0 & -> & Hcase)].
        * rewrite filter_cons_False by done. rewrite filter_nil, fmap_nil, app_nil_r.
          by apply Hvals.
        * rewrite filter_cons_True by done. rewrite filter_nil. simpl. f_equal.
          destruct Hcase as [Hold|[Hout ->]]; [by apply Hvals|].
          rewrite filter_none; [done|]. intros y Hy Heq. apply Hout.
          rewrite <- Heq. by apply Hkeys. }
  intros groups. apply (Hgen l [] []).
  - constructor.
  - by intros ? ?%elem_of_nil.
  - by intros ?? ?%elem_of_nil.
Qed.
End grouping.

(** ** The validation of the build *)

Lemma check_evidence_spec ids rows : ∀ counts,
  match check_evidence ids rows counts with
  | Ok counts' =>
      Forall (λ row, EvidenceRow.event_id row ∈ ids
                     ∧ EvidenceRow.verse_text_kr row ≠ []
                     ∧ EvidenceRow.translation row = TRANSLATION) rows
      ∧ ∀ eid, counts' !!! eid
               = counts !!! eid
                 + Z.of_nat (length (filter (λ row, EvidenceRow.event_id row = eid) rows))
  | Err e =>
      ∃ row, row ∈ rows
             ∧ ((EvidenceRow.event_id row ∉ ids
                 ∧ e = UnknownEvidenceEvent (EvidenceRow.event_id row))
                ∨ (EvidenceRow.verse_text_kr row = []
                   ∧ e = MissingVerseText (EvidenceRow.evidence_id row))
                ∨ (EvidenceRow.translation row ≠ TRANSLATION
                   ∧ e = TranslationViolation (EvidenceRow.evidence_id row)))
  end.
Proof.
  induction rows as [|row rest IH]; intros counts; simpl.
  - split; [constructor|]. intros eid. lia.
  - case_decide as Hid; [exists row; split; [left|left; by split]|].
    case_decide as Htext; [exists row; split; [left|right; left; by split]|].
    case_decide as Htr; [exists row; split; [left|right; right; by split]|].
    specialize (IH (<[EvidenceRow.event_id row :=
                       counts !!! EvidenceRow.event_id row + 1]> counts)).
    destruct (check_evidence ids rest _) as [counts'|e].
    + destruct IH as [Hall Hcount]. split.
      * constructor; [|done].
        split; [first [done|by apply dec_stable]|]. split; [done|].
        first [done|by apply dec_stable].
      * intros eid. rewrite Hcount, filter_cons.
        destruct (decide (EvidenceRow.event_id row = eid)) as [<-|Hne].
        -- rewrite lookup_total_insert_eq. simpl. lia.
        -- rewrite lookup_total_insert_ne by done. lia.
    + destruct IH as (r & Hr & Hcase). exists r. split; [by right|done].
Qed.

Lemma check_event_fields_err rows e :
  check_event_fields rows = Err e →
  ∃ row, row ∈ rows
         ∧ (EventRow.lane_tag row = [] ∨ EventRow.sequence_index row = []).
Proof.
  induction rows as [|row rest IH]; simpl; [done|].
  case_decide as Hf.
  - intros _. exists row. split; [left|done].
  - intros (r & Hr & ?)%IH. exists r. split; [by right|done].
Qed.

Lemma check_tracks_all_ok tracks :
  (∀ t es, (t, es) ∈ tracks → topological_ok (track_nodes es) es = Some true) →
  check_tracks tracks = Some (Ok ()).
Proof.
  induction tracks as [|[t es] rest IH]; intros Hall; simpl; [done|].
  rewrite (Hall t es) by left. simpl. apply IH.
  intros t' es' Hin. apply (Hall t' es'). by right.
Qed.

Lemma check_tracks_err tracks e :
  check_tracks tracks = Some (Err e) →
  ∃ t es, (t, es) ∈ tracks ∧ topological_ok (track_nodes es) es = Some false.
Proof.
  induction tracks as [|[t es] rest IH]; simpl; [done|].
  destruct (topological_ok (track_nodes es) es) as [[]|] eqn:Hok; simpl; [|..|done].
  - intros (t' & es' & Hin & ?)%IH. exists t', es'. split; [by right|done].
  - intros _. exists t, es. split; [left|done].
Qed.

Lemma acyclic_topological_ok es :
  acyclic es → topological_ok (track_nodes es) es = Some true.
Proof.
  intros Hac.
  destruct (topological_ok_iff_acyclic (track_nodes es) es) as [(ok & -> & Hiff) _].
  rewrite induced_edges_track_nodes in Hiff. f_equal. by apply Hiff.
Qed.

Lemma elem_of_dict_keys l x : x ∈ dict_keys l → x ∈ l.
Proof.
  unfold dict_keys. rewrite elem_of_reverse, elem_of_remove_dups, elem_of_reverse. done.
Qed.

(** The ways in which the validation fails. *)
Lemma validate_err events_rows evidence_rows chronology_rows e :
  validate events_rows evidence_rows chronology_rows = Some (Err e) →
  (∃ row, row ∈ evidence_rows
          ∧ EvidenceRow.event_id row ∉ EventRow.event_id <$> events_rows)
  ∨ (∃ row, row ∈ evidence_rows ∧ EvidenceRow.verse_text_kr row = []
            ∧ e = MissingVerseText (EvidenceRow.evidence_id row))
  ∨ (∃ row, row ∈ evidence_rows ∧ EvidenceRow.translation row ≠ TRANSLATION)
  ∨ (∃ event, event ∈ events_rows
              ∧ ∀ row, row ∈ evidence_rows →
                  EvidenceRow.event_id row ≠ EventRow.event_id event)
  ∨ (∃ event, event ∈ events_rows
              ∧ (EventRow.lane_tag event = [] ∨ EventRow.sequence_index event = []))
  ∨ (∃ t es, (t, es) ∈ edges_by_track chronology_rows
             ∧ topological_ok (track_nodes es) es = Some false).
Proof.
  unfold validate.
  pose proof (check_evidence_spec (list_to_set (EventRow.event_id <$> events_rows))
                evidence_rows ∅) as Hspec.
  destruct (check_evidence _ evidence_rows ∅) as [counts|e0].
  - destruct Hspec as [_ Hcount].
    case_decide as Hmiss.
    + intros _. right. right. right. left.
      destruct (filter _ (dict_keys _)) as [|eid l] eqn:Hf; [done|].
      assert (eid ∈ filter (λ eid, counts !!! eid = 0)
                      (dict_keys (EventRow.event_id <$> events_rows))) as Hin
        by (rewrite Hf; left).
      apply list_elem_of_filter in Hin as [Hzero Hin].
      apply elem_of_dict_keys, list_elem_of_fmap in Hin as (event & -> & Hevent).
      exists event. split; [done|]. intros row Hrow Heq.
      rewrite Hcount, lookup_total_empty in Hzero.
      assert (row ∈ filter (λ r, EvidenceRow.event_id r = EventRow.event_id event)
                      evidence_rows) as Hrow' by (by apply list_elem_of_filter).
      destruct (filter _ evidence_rows); [by apply elem_of_nil in Hrow'|].
      simpl in Hzero. change (inhabitant : Z) with 0 in Hzero. lia.
    + destruct (check_event_fields events_rows) as [|e1] eqn:Hfields.
      * intros (t & es & ? & ?)%check_tracks_err. do 5 right. by exists t, es.
      * intros _. do 4 right. left. by apply check_event_fields_err in Hfields.
  - destruct Hspec as (row & Hrow & [[Hid ->]|[[Htext ->]|[Htr ->]]]); intros [= <-].
    + left. exists row. split; [done|]. by rewrite elem_of_list_to_set in Hid.
    + right. left. by exists row.
    + right. right. left. by exists row.
Qed.

(** ** What [main] writes *)

Definition build_events (nfc : pystr → pystr) (selected : list CandidateEvent.t)
  : list EventRow.t :=
  imap (λ i, event_row_of nfc (1 + Z.of_nat i)) selected.

Definition build_objects (selected : list CandidateEvent.t)
  : list (pystr * CandidateEvent.t * pystr) :=
  imap (λ i, event_object_of (1 + Z.of_nat i)) selected.

Lemma main_inv_full nfc fuel canonical_map by_book r :
  main nfc fuel canonical_map by_book = Some r →
  ∃ candidates selected direct parallel checked,
    build_candidate_events nfc by_book = Some candidates
    ∧ select_candidates fuel canonical_map candidates = Some selected
    ∧ direct_rows (build_objects selected) 1 = Some direct
    ∧ parallel_rows_of (gospel_groups nfc (build_objects selected))
        (1 + Z.of_nat (length direct)) = Some parallel
    ∧ validate (build_events nfc selected) (direct ++ parallel)
        (chronology_rows_of (build_objects selected)) = Some checked
    ∧ r = match checked with
          | Err e => Err e
          | Ok _ =>
              Ok {| Build.events_rows := build_events nfc selected;
                    Build.evidence_rows := direct ++ parallel;
                    Build.chronology_rows := chronology_rows_of (build_objects selected);
                    Build.track_rows := track_rows_of (build_objects selected) |}
          end.
Proof.
  unfold main.
  destruct (build_candidate_events nfc by_book) as [candidates|] eqn:Hc; [|done]. simpl.
  destruct (select_candidates fuel canonical_map candidates) as [selected|] eqn:Hs;
    [|done]. simpl.
  rewrite event_rows_closed. fold (build_events nfc selected) (build_objects selected).
  destruct (direct_rows _ 1) as [direct|] eqn:Hd; [|done]. simpl.
  destruct (parallel_rows_of _ _) as [parallel|] eqn:Hp; [|done]. simpl.
  destruct (validate _ _ _) as [checked|] eqn:Hval; [|done]. simpl.
  intros Hr. exists candidates, selected, direct, parallel, checked.
  do 5 (split; [done|]). destruct checked; by injection Hr as <-.
Qed.

Lemma build_object_ids selected :
  (λ obj, obj.1.1) <$> build_objects selected
  = event_id_of <$> seqZ 1 (Z.of_nat (length selected)).
Proof.
  unfold build_objects.
  assert (∀ start, (λ obj, obj.1.1)
                     <$> imap (λ i, event_object_of (start + Z.of_nat i)) selected
                   = event_id_of <$> seqZ start (Z.of_nat (length selected))) as Hgen.
  { induction selected as [|cand rest IH]; intros start; [done|].
    cbn [imap length]. rewrite (seqZ_cons start) by lia.
    rewrite !fmap_cons. simpl. rewrite Z.add_0_r. f_equal.
    replace (Z.pred (Z.of_nat (S (length rest)))) with (Z.of_nat (length rest)) by lia.
    rewrite <- (IH (Z.succ start)).
    f_equal. apply imap_ext. intros i c _. simpl. unfold event_object_of.
    do 3 f_equal. lia. }
  apply Hgen.
Qed.

Lemma build_event_ids nfc selected :
  EventRow.event_id <$> build_events nfc selected
  = (λ obj, obj.1.1) <$> build_objects selected.
Proof.
  unfold build_events, build_objects. rewrite !fmap_imap.
  by apply imap_ext.
Qed.

Lemma event_ids_NoDup n : NoDup (event_id_of <$> seqZ 1 n).
Proof.
  apply NoDup_fmap_2_strong; [|apply NoDup_seqZ].
  intros x y [Hx _]%elem_of_seqZ [Hy _]%elem_of_seqZ. apply event_id_of_inj; lia.
Qed.

Lemma elem_of_build_objects selected obj :
  obj ∈ build_objects selected →
  obj.1.2 ∈ selected ∧ obj.1.1 ∈ (λ obj, obj.1.1) <$> build_objects selected.
Proof.
  intros Hin. split; [|apply list_elem_of_fmap; by exists obj].
  unfold build_objects in Hin. apply list_elem_of_lookup in Hin as [i Hi].
  rewrite list_lookup_imap in Hi.
  destruct (selected !! i) as [cand|] eqn:Hc; [|done]. injection Hi as <-. simpl.
  by eapply list_elem_of_lookup_2.
Qed.

(** Every candidate spans at least one verse, and is of a narrative
    book. *)
Lemma all_book_candidates_slices nfc by_book : ∀ cands,
  all_book_candidates nfc by_book = Some cands →
  ∀ c, c ∈ cands →
    CandidateEvent.verse_slice c ≠ [] ∧ CandidateEvent.book_name c ∈ NARRATIVE_BOOKS.
Proof.
  induction by_book as [|[book0 verses0] rest IH]; intros cands; simpl.
  - intros [= <-] c Hc. by apply elem_of_nil in Hc.
  - destruct (decide (book0 ∉ NARRATIVE_BOOKS)) as [Hskip|Hnarr]; [apply IH|].
    apply dec_stable in Hnarr.
    destruct (book_candidates_spec nfc book0 verses0 _ 0 verses0 eq_refl eq_refl)
      as (here & -> & _ & Hhere & _). simpl.
    destruct (all_book_candidates nfc rest) as [there|]; [|done]. simpl.
    intros Heq c Hc. injection Heq as <-. apply elem_of_app in Hc as [Hc|Hc].
    + destruct (Hhere c Hc) as [-> Hslice]. split; assumption.
    + exact (IH there eq_refl c Hc).
Qed.

Lemma selected_slices nfc fuel canonical_map by_book candidates selected :
  build_candidate_events nfc by_book = Some candidates →
  select_candidates fuel canonical_map candidates = Some selected →
  ∀ c, c ∈ selected →
    CandidateEvent.verse_slice c ≠ [] ∧ CandidateEvent.book_name c ∈ NARRATIVE_BOOKS.
Proof.
  unfold build_candidate_events.
  destruct (all_book_candidates nfc by_book) as [cands|] eqn:Hall; [|done]. simpl.
  intros Heq Hsel c Hc. injection Heq as <-.
  eapply all_book_candidates_slices; [exact Hall|].
  eapply elem_of_stable_sort. eapply select_candidates_subset; [exact Hsel|exact Hc].
Qed.

(** *** The tracks of the chronology are chains *)

Lemma lanes_related_NoDup lanes event_objects :
  NoDup ((λ obj, obj.1.1) <$> event_objects) →
  NoDup (lanes_related lanes event_objects).
Proof.
  intros Hnd. unfold lanes_related. eapply sublist_NoDup; [exact Hnd|].
  apply fmap_sublist, sublist_filter.
Qed.

Lemma elem_of_lanes_related lanes event_objects id :
  id ∈ lanes_related lanes event_objects → id ∈ (λ obj, obj.1.1) <$> event_objects.
Proof.
  unfold lanes_related. intros (obj & -> & Hin)%list_elem_of_fmap.
  apply list_elem_of_filter in Hin as [_ Hin]. apply list_elem_of_fmap. by exists obj.
Qed.

Definition edge_ends (row : EdgeRow.t) : pystr * pystr :=
  (EdgeRow.from_event_id row, EdgeRow.to_event_id row).

Lemma chain_rows_track track_id nodes edge_id t :
  filter (λ row, EdgeRow.track_id row = t) (chain_rows track_id nodes edge_id)
  = if decide (track_id = t) then chain_rows track_id nodes edge_id else [].
Proof.
  destruct (chain_rows_spec track_id nodes edge_id) as [_ Hall].
  case_decide as Ht.
  - apply filter_all. intros row Hrow. rewrite Forall_forall in Hall.
    destruct (Hall row Hrow) as [-> _]. exact Ht.
  - apply filter_none. intros row Hrow. rewrite Forall_forall in Hall.
    destruct (Hall row Hrow) as [-> _]. exact Ht.
Qed.

Lemma chain_rows_ends track_id nodes edge_id :
  edge_ends <$> chain_rows track_id nodes edge_id = chain_edges nodes.*1.
Proof. by destruct (chain_rows_spec track_id nodes edge_id) as [<- _]. Qed.

(** The edges of every track of [chronology_rows_of] are the chain of a
    list of distinct event ids. *)
Lemma chronology_tracks_chains event_objects t es :
  NoDup ((λ obj, obj.1.1) <$> event_objects) →
  (t, es) ∈ edges_by_track (chronology_rows_of event_objects) →
  ∃ ids, es = chain_edges ids ∧ NoDup ids
         ∧ ∀ id, id ∈ ids → id ∈ (λ obj, obj.1.1) <$> event_objects.
Proof.
  intros Hnd Hin.
  destruct (group_fold_spec EdgeRow.track_id edge_ends (chronology_rows_of event_objects))
    as (_ & _ & Hgroups).
  apply Hgroups in Hin. clear Hgroups. subst es.
  unfold chronology_rows_of, add_track_edges.
  rewrite !filter_app, !chain_rows_track, !fmap_app.
  set (exodus := lanes_related _ event_objects).
  set (gospel := lanes_related [py "life_of_jesus"; py "early_church"] event_objects).
  assert (NoDup exodus) as Hex by by apply lanes_related_NoDup.
  assert (NoDup gospel) as Hgo by by apply lanes_related_NoDup.
  assert (∀ ids : list pystr, ((λ id, (id, py "성경 본문 흐름")) <$> ids).*1 = ids) as Hfst.
  { intros ids. rewrite <- list_fmap_compose. apply list_fmap_id. }
  assert (((λ obj, (obj.1.1, CandidateEvent.start_ref obj.1.2)) <$> event_objects).*1
          = (λ obj, obj.1.1) <$> event_objects) as Hmain.
  { by rewrite <- list_fmap_compose. }
  destruct (decide (py "track_main" = t)) as [<-|Hn1].
  - rewrite !decide_False by (intros Heq; vm_compute in Heq; discriminate Heq).
    rewrite !fmap_nil, !app_nil_r, chain_rows_ends, Hmain.
    eexists. split; [reflexivity|]. split; [exact Hnd|]. by intros.
  - destruct (decide (py "track_exodus_early" = t)) as [<-|Hn2].
    + rewrite !decide_False by (intros Heq; vm_compute in Heq; discriminate Heq).
      rewrite !fmap_nil, !app_nil_r, chain_rows_ends, Hfst. simpl.
      exists exodus. split; [reflexivity|]. split; [exact Hex|].
      intros id. apply elem_of_lanes_related.
    + destruct (decide (py "track_exodus_late" = t)) as [<-|Hn3].
      * rewrite !decide_False by (intros Heq; vm_compute in Heq; discriminate Heq).
        rewrite !fmap_nil, !app_nil_r, chain_rows_ends, Hfst. simpl.
        exists exodus. split; [reflexivity|]. split; [exact Hex|].
        intros id. apply elem_of_lanes_related.
      * destruct (decide (py "track_gospel_harmony" = t)) as [<-|Hn4].
        -- rewrite chain_rows_ends, Hfst. simpl.
           exists gospel. split; [reflexivity|]. split; [exact Hgo|].
           intros id. apply elem_of_lanes_related.
        -- exists []. split; [reflexivity|]. split; [constructor|].
           by intros id ?%elem_of_nil.
Qed.

(** *** The evidence table of a build *)

Lemma build_objects_ids_in selected obj :
  obj ∈ build_objects selected →
  obj.1.1 ∈ event_id_of <$> seqZ 1 (Z.of_nat (length selected)).
Proof.
  intros Hin. rewrite <- build_object_ids. by apply elem_of_build_objects.
Qed.

Lemma build_evidence_from nfc selected direct parallel :
  direct_rows (build_objects selected) 1 = Some direct →
  parallel_rows_of (gospel_groups nfc (build_objects selected))
    (1 + Z.of_nat (length direct)) = Some parallel →
  rows_from 1 (event_id_of <$> seqZ 1 (Z.of_nat (length selected))) (direct ++ parallel).
Proof.
  intros Hd Hp. apply rows_from_app.
  - eapply direct_rows_from; [|exact Hd]. apply build_objects_ids_in.
  - eapply parallel_rows_from; [|exact Hp].
    intros key members m Hgroup Hm.
    destruct (gospel_groups_members _ _ _ _ _ Hgroup Hm) as [lane Hobj].
    exact (build_objects_ids_in _ _ Hobj).
Qed.

Lemma rows_from_elem start ids rows row :
  rows_from start ids rows → row ∈ rows →
  (∃ n, start ≤ n < start + Z.of_nat (length rows)
        ∧ EvidenceRow.evidence_id row = evidence_id_of n)
  ∧ EvidenceRow.event_id row ∈ ids
  ∧ EvidenceRow.translation row = TRANSLATION.
Proof.
  intros [Hids Hall] Hrow. rewrite Forall_forall in Hall.
  split; [|exact (Hall row Hrow)].
  assert (EvidenceRow.evidence_id row ∈ EvidenceRow.evidence_id <$> rows) as Hin.
  { apply list_elem_of_fmap. by exists row. }
  rewrite Hids in Hin. apply list_elem_of_fmap in Hin as (n & Hn & Hseq).
  apply elem_of_seqZ in Hseq. by exists n.
Qed.

Lemma build_events_elem nfc selected event :
  event ∈ build_events nfc selected →
  ∃ i cand, selected !! i = Some cand
            ∧ event = event_row_of nfc (1 + Z.of_nat i) cand
            ∧ event_object_of (1 + Z.of_nat i) cand ∈ build_objects selected.
Proof.
  intros (i & cand & -> & Hi)%elem_of_lookup_imap. exists i, cand.
  split; [exact Hi|]. split; [reflexivity|].
  unfold build_objects.
  exact (elem_of_lookup_imap_2 (λ i, event_object_of (1 + Z.of_nat i)) selected cand i Hi).
Qed.

(** The validation can fail in one way only. *)
Lemma build_validate_err nfc fuel canonical_map by_book candidates selected
    direct parallel e :
  build_candidate_events nfc by_book = Some candidates →
  select_candidates fuel canonical_map candidates = Some selected →
  direct_rows (build_objects selected) 1 = Some direct →
  parallel_rows_of (gospel_groups nfc (build_objects selected))
    (1 + Z.of_nat (length direct)) = Some parallel →
  validate (build_events nfc selected) (direct ++ parallel)
    (chronology_rows_of (build_objects selected)) = Some (Err e) →
  ∃ n, 1 ≤ n ≤ Z.of_nat (length (direct ++ parallel))
       ∧ e = MissingVerseText (evidence_id_of n).
Proof.
  intros Hc Hs Hd Hp Hval.
  pose proof (build_evidence_from nfc selected direct parallel Hd Hp) as Hfrom.
  apply validate_err in Hval
    as [(row & Hrow & Hunknown)|[(row & Hrow & Htext & ->)|[(row & Hrow & Htr)|
        [(event & Hevent & Hnone)|[(event & Hevent & Hfield)|(t & es & Hin & Hfalse)]]]]].
  - exfalso. apply Hunknown. rewrite build_event_ids, build_object_ids.
    by destruct (rows_from_elem _ _ _ _ Hfrom Hrow) as (_ & ? & _).
  - destruct (rows_from_elem _ _ _ _ Hfrom Hrow) as ((n & Hn & ->) & _).
    exists n. split; [lia|reflexivity].
  - exfalso. apply Htr. by destruct (rows_from_elem _ _ _ _ Hfrom Hrow) as (_ & _ & ?).
  - exfalso. apply build_events_elem in Hevent as (i & cand & Hi & -> & Hobj).
    destruct (selected_slices _ _ _ _ _ _ Hc Hs cand) as [Hslice _];
      [by eapply list_elem_of_lookup_2|].
    destruct (direct_rows_spec _ _ _ Hd _ _ _ Hobj Hslice) as (row & Hrow & Hid & _).
    apply (Hnone row); [apply elem_of_app; by left|exact Hid].
  - exfalso. apply build_events_elem in Hevent as (i & cand & Hi & -> & Hobj).
    destruct Hfield as [Hlane|Hseq]; simpl in Hlane || simpl in Hseq.
    + by apply lane_tag_nonempty in Hlane.
    + by apply str_of_int_nonempty in Hseq.
  - exfalso.
    destruct (chronology_tracks_chains (build_objects selected) t es) as (ids & -> & Hnd & _);
      [rewrite build_object_ids; apply event_ids_NoDup|exact Hin|].
    rewrite acyclic_topological_ok in Hfalse by by apply chain_edges_acyclic.
    discriminate Hfalse.
Qed.

(** A book whose only verse is a bare heading. *)
Definition bare_heading_book : list (pystr * list Verse.t) :=
  [ (py "창세기", [ scenario_verse 1 (py "<Creation>") ]) ].

(** X18. Once the events are selected, the only integrity check that can stop
    [main] is the one on empty verse texts: it raises no other error, and
    the error names an evidence row by its id, [EVD] and the number of the
    row. The event ids of the evidence rows are always known, the
    translation is always the one of the build, no event lacks evidence
    or a field, and every track is acyclic. *)
Theorem main_fails_only_on_empty_text
    (nfc : pystr → pystr) (fuel : nat) (canonical_map : gmap pystr Z)
    (by_book : list (pystr * list Verse.t)) (e : build_error) :
  main nfc fuel canonical_map by_book = Some (Err e) →
  ∃ n, 1 ≤ n ∧ e = MissingVerseText (py "EVD" ++ zero_padded 7 n).
Proof.
  intros Hmain.
  apply main_inv_full in Hmain
    as (candidates & selected & direct & parallel & checked & Hc & Hs & Hd & Hp & Hval & Hr).
  destruct checked as [[]|e']; [discriminate Hr|]. injection Hr as ->.
  destruct (build_validate_err _ _ _ _ _ _ _ _ _ Hc Hs Hd Hp Hval) as (n & Hn & ->).
  exists n. split; [lia|reflexivity].
Qed.

Lemma main_fails_only_on_empty_text_witness :
  main (λ s, s) 2 {[ py "창세기" := 1 ]} bare_heading_book
  = Some (Err (MissingVerseText (py "EVD0000001")))
  ∧ ∃ n, 1 ≤ n
         ∧ MissingVerseText (py "EVD0000001")
           = MissingVerseText (py "EVD" ++ zero_padded 7 n).
Proof.
  split; [vm_compute; reflexivity|].
  apply (main_fails_only_on_empty_text (λ s, s) 2 {[ py "창세기" := 1 ]} bare_heading_book).
  vm_compute. reflexivity.
Defined.

(** *** The rows of a build that passed the validation *)

Lemma main_ok_rows nfc fuel canonical_map by_book build :
  main nfc fuel canonical_map by_book = Some (Ok build) →
  ∃ candidates selected direct parallel,
    build_candidate_events nfc by_book = Some candidates
    ∧ select_candidates fuel canonical_map candidates = Some selected
    ∧ direct_rows (build_objects selected) 1 = Some direct
    ∧ parallel_rows_of (gospel_groups nfc (build_objects selected))
        (1 + Z.of_nat (length direct)) = Some parallel
    ∧ validate (build_events nfc selected) (direct ++ parallel)
        (chronology_rows_of (build_objects selected)) = Some (Ok ())
    ∧ build = {| Build.events_rows := build_events nfc selected;
                 Build.evidence_rows := direct ++ parallel;
                 Build.chronology_rows := chronology_rows_of (build_objects selected);
                 Build.track_rows := track_rows_of (build_objects selected) |}.
Proof.
  intros Hmain.
  apply main_inv_full in Hmain
    as (candidates & selected & direct & parallel & checked & Hc & Hs & Hd & Hp & Hval & Hr).
  destruct checked as [[]|e']; [|discriminate Hr]. injection Hr as ->.
  by exists candidates, selected, direct, parallel.
Qed.

Lemma validate_ok_evidence events_rows evidence_rows chronology_rows :
  validate events_rows evidence_rows chronology_rows = Some (Ok ()) →
  Forall (λ row, EvidenceRow.verse_text_kr row ≠ []) evidence_rows.
Proof.
  unfold validate.
  pose proof (check_evidence_spec (list_to_set (EventRow.event_id <$> events_rows))
                evidence_rows ∅) as Hspec.
  destruct (check_evidence _ evidence_rows ∅) as [counts|e]; [|done].
  intros _. destruct Hspec as [Hall _].
  eapply Forall_impl; [exact Hall|]. by intros row (_ & ? & _).
Qed.

(** Two gospels that tell one event under the same heading. *)
Definition gospel_verse (book_name : pystr) (order n : Z) (text : pystr) : Verse.t :=
  {| Verse.testament := py "NT"; Verse.canonical_order := order;
     Verse.book_name := book_name; Verse.book_abbr := book_name;
     Verse.chapter := 3; Verse.verse := n; Verse.text := text |}.

Definition two_gospels : list (pystr * list Verse.t) :=
  [ (py "마태복음",
     [ gospel_verse (py "마태복음") 40 1 (py "<세례> In those days");
       gospel_verse (py "마태복음") 40 2 (py "Repent") ]);
    (py "마가복음",
     [ gospel_verse (py "마가복음") 41 1 (py "<세례> John came");
       gospel_verse (py "마가복음") 41 2 (py "And all went out") ]) ].

Definition two_gospels_order : gmap pystr Z :=
  {[ py "마태복음" := 40; py "마가복음" := 41 ]}.

(** X19. The events table that [main] writes: the event ids are [EVT] and the
    position of the row, counted from one and written with four digits at
    least, so they are distinct; the sequence index is that position in
    decimal; every row is on the main track, belongs to a narrative book,
    has a lane, a certainty level of [CERTAINTY_SET], and a summary of at
    most 88 characters. *)
Theorem build_events_are_numbered
    (nfc : pystr → pystr) (fuel : nat) (canonical_map : gmap pystr Z)
    (by_book : list (pystr * list Verse.t)) (build : Build.t) :
  main nfc fuel canonical_map by_book = Some (Ok build) →
  let events := Build.events_rows build in
  EventRow.event_id <$> events
  = (λ n, py "EVT" ++ zero_padded 4 n) <$> seqZ 1 (Z.of_nat (length events))
  ∧ NoDup (EventRow.event_id <$> events)
  ∧ ∀ i row, events !! i = Some row →
      EventRow.sequence_index row = str_of_int (1 + Z.of_nat i)
      ∧ py_int (EventRow.sequence_index row) = Some (1 + Z.of_nat i)
      ∧ EventRow.track_id row = py "track_main"
      ∧ EventRow.book row ∈ NARRATIVE_BOOKS
      ∧ EventRow.lane_tag row ≠ []
      ∧ EventRow.certainty_level row ∈ CERTAINTY_SET
      ∧ (length (EventRow.event_summary row) ≤ 88)%nat.
Proof.
  intros Hmain.
  apply main_ok_rows in Hmain
    as (candidates & selected & direct & parallel & Hc & Hs & Hd & Hp & Hval & ->).
  simpl.
  assert (EventRow.event_id <$> build_events nfc selected
          = event_id_of <$> seqZ 1 (Z.of_nat (length (build_events nfc selected)))) as Hids.
  { rewrite build_event_ids, build_object_ids. unfold build_events.
    by rewrite length_imap. }
  split; [exact Hids|]. split; [rewrite Hids; apply event_ids_NoDup|].
  intros i row Hi. unfold build_events in Hi.
  apply list_lookup_imap_Some in Hi as (cand & Hcand & ->). simpl.
  split; [reflexivity|]. split; [apply py_int_str_of_int; lia|].
  split; [reflexivity|]. split.
  { eapply selected_slices; [exact Hc|exact Hs|]. by eapply list_elem_of_lookup_2. }
  split; [apply lane_tag_nonempty|].
  split; [apply certainty_level_in_set|apply summarize_length].
Qed.

Lemma build_events_are_numbered_witness :
  ∃ build,
    main (λ s, s) 2 two_gospels_order two_gospels = Some (Ok build)
    ∧ EventRow.event_id <$> Build.events_rows build
      = (λ n, py "EVT" ++ zero_padded 4 n)
          <$> seqZ 1 (Z.of_nat (length (Build.events_rows build)))
    ∧ length (Build.events_rows build) = 2%nat.
Proof.
  eexists. split; [vm_compute; reflexivity|]. split; [|reflexivity].
  apply (build_events_are_numbered (λ s, s) 2 two_gospels_order two_gospels).
  vm_compute. reflexivity.
Defined.

(** *** Direct rows and parallel rows *)

Definition direct_shape (row : EvidenceRow.t) : Prop :=
  EvidenceRow.evidence_tier row = py "direct"
  ∧ EvidenceRow.is_parallel row = py "false"
  ∧ EvidenceRow.note row = [].

Definition parallel_shape (ids : list pystr) (row : EvidenceRow.t) : Prop :=
  EvidenceRow.evidence_tier row = py "parallel"
  ∧ EvidenceRow.is_parallel row = py "true"
  ∧ ∃ source, source ∈ ids ∧ source ≠ EvidenceRow.event_id row
              ∧ EvidenceRow.note row = py "parallel_from:" ++ source.

Lemma direct_rows_shape event_objects : ∀ start rows,
  direct_rows event_objects start = Some rows → Forall direct_shape rows.
Proof.
  induction event_objects as [|[[eid cand] lane] rest IH]; intros start rows; simpl.
  - intros [= <-]. constructor.
  - destruct (slice_rows eid _ _ _ _ _ _) as [here|] eqn:Hhere; [|done]. simpl.
    destruct (direct_rows rest _) as [there|] eqn:Hthere; [|done]. simpl.
    intros [= <-]. apply Forall_app. split; [|by eapply IH].
    apply slice_rows_spec in Hhere as [_ Hall].
    eapply Forall_impl; [exact Hall|]. by intros row (_ & ? & ? & ?).
Qed.

Lemma target_rows_shape ids target_event_id sources :
  (∀ m, m ∈ sources → m.1 ∈ ids) →
  ∀ start rows,
    target_rows target_event_id sources start = Some rows →
    Forall (parallel_shape ids) rows.
Proof.
  induction sources as [|[sid scand] rest IH]; intros Hids start rows; simpl.
  - intros [= <-]. constructor.
  - assert (∀ m, m ∈ rest → m.1 ∈ ids) as Hrest by (intros m Hm; apply Hids; by right).
    case_decide as Hsame; [by apply IH|].
    destruct (slice_rows _ _ _ _ _ _ _) as [here|] eqn:Hhere; [|done]. simpl.
    destruct (target_rows _ rest _) as [there|] eqn:Hthere; [|done]. simpl.
    intros [= <-]. apply Forall_app. split; [|by eapply IH].
    apply slice_rows_spec in Hhere as [_ Hall].
    eapply Forall_impl; [exact Hall|]. intros row (Hid & Htier & Hpar & Hnote).
    split; [exact Htier|]. split; [exact Hpar|]. exists sid.
    split; [apply (Hids (sid, scand)); left|]. split; [by rewrite Hid|exact Hnote].
Qed.

Lemma members_rows_shape ids targets members :
  (∀ m, m ∈ members → m.1 ∈ ids) →
  ∀ start rows,
    members_rows targets members start = Some rows → Forall (parallel_shape ids) rows.
Proof.
  intros Hids. induction targets as [|[tid tcand] rest IH]; intros start rows; simpl.
  - intros [= <-]. constructor.
  - destruct (target_rows tid members start) as [here|] eqn:Hhere; [|done]. simpl.
    destruct (members_rows rest members _) as [there|] eqn:Hthere; [|done]. simpl.
    intros [= <-]. apply Forall_app. split; [|by eapply IH].
    by eapply target_rows_shape.
Qed.

Lemma parallel_rows_shape ids groups :
  (∀ key members m, (key, members) ∈ groups → m ∈ members → m.1 ∈ ids) →
  ∀ start rows,
    parallel_rows_of groups start = Some rows → Forall (parallel_shape ids) rows.
Proof.
  induction groups as [|[key members] rest IH]; intros Hids start rows; simpl.
  - intros [= <-]. constructor.
  - assert (∀ key members m, (key, members) ∈ rest → m ∈ members → m.1 ∈ ids) as Hrest.
    { intros k ms m Hk Hm. eapply Hids; [by right|exact Hm]. }
    case_decide; [by apply IH|].
    destruct (members_rows members members start) as [here|] eqn:Hhere; [|done]. simpl.
    destruct (parallel_rows_of rest _) as [there|] eqn:Hthere; [|done]. simpl.
    intros [= <-]. apply Forall_app. split; [|by eapply IH].
    eapply members_rows_shape; [|exact Hhere].
    intros m Hm. eapply Hids; [by left|exact Hm].
Qed.

(** X20. The evidence table that [main] writes: the evidence ids are [EVD] and
    the position of the row, counted from one and written with seven
    digits at least; every row belongs to an event of the events table,
    carries the translation of the build and a text that is not empty. The
    direct rows come first, with an empty note; the parallel rows follow,
    and the note of each names another event of the table as its
    source. *)
Theorem build_evidence_is_numbered
    (nfc : pystr → pystr) (fuel : nat) (canonical_map : gmap pystr Z)
    (by_book : list (pystr * list Verse.t)) (build : Build.t) :
  main nfc fuel canonical_map by_book = Some (Ok build) →
  let evidence := Build.evidence_rows build in
  let event_ids := EventRow.event_id <$> Build.events_rows build in
  EvidenceRow.evidence_id <$> evidence
  = (λ n, py "EVD" ++ zero_padded 7 n) <$> seqZ 1 (Z.of_nat (length evidence))
  ∧ Forall (λ row, EvidenceRow.event_id row ∈ event_ids
                   ∧ EvidenceRow.translation row = TRANSLATION
                   ∧ EvidenceRow.verse_text_kr row ≠ []) evidence
  ∧ ∃ direct parallel,
      evidence = direct ++ parallel
      ∧ Forall (λ row, EvidenceRow.evidence_tier row = py "direct"
                       ∧ EvidenceRow.is_parallel row = py "false"
                       ∧ EvidenceRow.note row = []) direct
      ∧ Forall (λ row, EvidenceRow.evidence_tier row = py "parallel"
                       ∧ EvidenceRow.is_parallel row = py "true"
                       ∧ ∃ source, source ∈ event_ids
                                   ∧ source ≠ EvidenceRow.event_id row
                                   ∧ EvidenceRow.note row = py "parallel_from:" ++ source)
          parallel.
Proof.
  intros Hmain.
  apply main_ok_rows in Hmain
    as (candidates & selected & direct & parallel & Hc & Hs & Hd & Hp & Hval & ->).
  simpl.
  pose proof (build_evidence_from nfc selected direct parallel Hd Hp) as Hfrom.
  rewrite build_event_ids, build_object_ids.
  split; [exact (proj1 Hfrom)|]. split.
  - apply validate_ok_evidence in Hval. destruct Hfrom as [_ Hall].
    rewrite Forall_forall in Hall, Hval. apply Forall_forall. intros row Hrow.
    destruct (Hall row Hrow) as [? ?]. split; [assumption|]. split; [assumption|].
    exact (Hval row Hrow).
  - exists direct, parallel. split; [reflexivity|].
    split; [exact (direct_rows_shape _ _ _ Hd)|].
    eapply parallel_rows_shape; [|exact Hp].
    intros key members m Hgroup Hm.
    destruct (gospel_groups_members _ _ _ _ _ Hgroup Hm) as [lane Hobj].
    exact (build_objects_ids_in _ _ Hobj).
Qed.

Lemma build_evidence_is_numbered_witness :
  ∃ build,
    main (λ s, s) 2 two_gospels_order two_gospels = Some (Ok build)
    ∧ length (Build.evidence_rows build) = 8%nat
    ∧ EvidenceRow.evidence_id <$> Build.evidence_rows build
      = (λ n, py "EVD" ++ zero_padded 7 n)
          <$> seqZ 1 (Z.of_nat (length (Build.evidence_rows build))).
Proof.
  eexists. split; [vm_compute; reflexivity|]. split; [reflexivity|].
  apply (build_evidence_is_numbered (λ s, s) 2 two_gospels_order two_gospels).
  vm_compute. reflexivity.
Defined.

(** ** From the extraction build to the timeline payload *)

Lemma stable_sort_sorted_id {A} (lt : A → A → bool) (l : list A) :
  StronglySorted (λ a b, lt b a = false) l → stable_sort lt l = l.
Proof.
  induction 1 as [|x l Hsorted IH Hall]; [done|].
  cbn [stable_sort foldr]. fold (stable_sort lt l). rewrite IH.
  destruct l as [|y r]; [done|]. simpl.
  apply Forall_cons in Hall as [-> _]. done.
Qed.

Lemma sequence_sorted (events : list Event.t) : ∀ start,
  Event.sequence_index <$> events = seqZ start (Z.of_nat (length events)) →
  StronglySorted (λ a b, (Event.sequence_index b <? Event.sequence_index a) = false)
    events.
Proof.
  induction events as [|e r IH]; intros start Hseq; [constructor|].
  cbn [length] in Hseq. rewrite (seqZ_cons start) in Hseq by lia.
  rewrite fmap_cons in Hseq. injection Hseq as He Hr.
  replace (Z.pred (Z.of_nat (S (length r)))) with (Z.of_nat (length r)) in Hr by lia.
  constructor; [by eapply IH|].
  apply Forall_forall. intros b Hb.
  assert (Event.sequence_index b ∈ Event.sequence_index <$> r) as Hin.
  { apply list_elem_of_fmap. by exists b. }
  rewrite Hr in Hin. apply elem_of_seqZ in Hin. apply Z.ltb_ge. lia.
Qed.

Lemma events_of_build nfc selected : ∀ start evs,
  0 ≤ start →
  Forall2 event_from_row
    (imap (λ i, event_row_of nfc (start + Z.of_nat i)) selected) evs →
  Event.sequence_index <$> evs = seqZ start (Z.of_nat (length evs))
  ∧ Event.event_id <$> evs = event_id_of <$> seqZ start (Z.of_nat (length evs)).
Proof.
  induction selected as [|cand rest IH]; intros start evs Hstart Hall.
  - apply Forall2_nil_inv_l in Hall as ->. done.
  - cbn [imap] in Hall. apply Forall2_cons_inv_l in Hall as (ev & evs' & Hev & Hall & ->).
    assert (Forall2 event_from_row
              (imap (λ i, event_row_of nfc (Z.succ start + Z.of_nat i)) rest) evs') as Hall'.
    { erewrite imap_ext; [exact Hall|]. intros i c _. simpl. f_equal. lia. }
    destruct (IH (Z.succ start) evs' ltac:(lia) Hall') as [Hseq Hids].
    destruct Hev as (Hint & Hid & _). simpl in Hint, Hid.
    rewrite Z.add_0_r in Hint, Hid.
    rewrite py_int_str_of_int in Hint by lia. injection Hint as Hint.
    rewrite strip_nonspace in Hid by (apply event_id_of_nonspace; lia).
    cbn [length]. rewrite (seqZ_cons start) by lia. rewrite !fmap_cons.
    replace (Z.pred (Z.of_nat (S (length evs')))) with (Z.of_nat (length evs')) by lia.
    rewrite Hseq, Hids, <- Hint, Hid. done.
Qed.

(** [normalize_events] takes the events table of a build as it is, in its
    order. *)
Lemma normalize_build_events nfc selected :
  ∃ events,
    normalize_events (build_events nfc selected) = Ok events
    ∧ Forall2 event_from_row (build_events nfc selected) events
    ∧ Event.event_id <$> events = event_id_of <$> seqZ 1 (Z.of_nat (length selected)).
Proof.
  unfold normalize_events.
  destruct (normalize_events_loop_ok (build_events nfc selected) ∅ [])
    as (evs & Hloop & _).
  - rewrite list_fmap_compose, build_event_ids, build_object_ids.
    replace (strip <$> (event_id_of <$> seqZ 1 (Z.of_nat (length selected))))
      with (event_id_of <$> seqZ 1 (Z.of_nat (length selected)));
      [apply event_ids_NoDup|].
    rewrite <- list_fmap_compose. apply list_fmap_ext. intros i n Hn. simpl.
    apply lookup_seqZ in Hn as [-> _].
    symmetry. apply strip_nonspace, event_id_of_nonspace. lia.
  - intros row _ Hin. by apply elem_of_empty in Hin.
  - apply Forall_forall. intros row Hrow. unfold build_events in Hrow.
    apply elem_of_lookup_imap in Hrow as (i & cand & -> & _). simpl.
    rewrite py_int_str_of_int by lia. by eexists.
  - rewrite Hloop. simpl in *.
    destruct (normalize_events_loop_inv _ _ _ _ Hloop) as (_ & _ & evs' & Heq & Hall).
    simpl in Heq. subst evs'.
    destruct (events_of_build nfc selected 1 evs ltac:(lia) Hall) as [Hseq Hids].
    rewrite stable_sort_sorted_id by by eapply sequence_sorted.
    exists evs. split; [done|]. split; [exact Hall|].
    rewrite Hids. do 3 f_equal. apply Forall2_length in Hall.
    unfold build_events in Hall. rewrite length_imap in Hall. by rewrite Hall.
Qed.

Lemma chain_rows_ends_in track_id nodes edge_id row :
  row ∈ chain_rows track_id nodes edge_id →
  EdgeRow.from_event_id row ∈ nodes.*1 ∧ EdgeRow.to_event_id row ∈ nodes.*1.
Proof.
  intros Hrow.
  assert (edge_ends row ∈ edge_ends <$> chain_rows track_id nodes edge_id) as Hin.
  { apply list_elem_of_fmap. by exists row. }
  rewrite chain_rows_ends in Hin. apply elem_of_chain_edges in Hin as [Ha Hb].
  split; [exact Ha|by apply elem_of_tail].
Qed.

Lemma chronology_rows_ends event_objects row :
  row ∈ chronology_rows_of event_objects →
  EdgeRow.from_event_id row ∈ (λ obj, obj.1.1) <$> event_objects
  ∧ EdgeRow.to_event_id row ∈ (λ obj, obj.1.1) <$> event_objects.
Proof.
  unfold chronology_rows_of, add_track_edges.
  assert (∀ ids : list pystr, ((λ id, (id, py "성경 본문 흐름")) <$> ids).*1 = ids) as Hfst.
  { intros ids. rewrite <- list_fmap_compose. apply list_fmap_id. }
  rewrite !elem_of_app.
  intros [Hrow|[Hrow|[Hrow|Hrow]]]; apply chain_rows_ends_in in Hrow as [Ha Hb].
  - rewrite <- list_fmap_compose in Ha, Hb. by split.
  - rewrite Hfst in Ha, Hb. split; by eapply elem_of_lanes_related.
  - rewrite Hfst in Ha, Hb. split; by eapply elem_of_lanes_related.
  - rewrite Hfst in Ha, Hb. split; by eapply elem_of_lanes_related.
Qed.

Lemma event_ids_strip n id :
  id ∈ event_id_of <$> seqZ 1 n → strip id = id.
Proof.
  intros (k & -> & Hk%elem_of_seqZ)%list_elem_of_fmap.
  apply strip_nonspace, event_id_of_nonspace. lia.
Qed.

Lemma list_to_set_all_equal (x : pystr) (l : list pystr) :
  l ≠ [] → Forall (λ y, y = x) l → (list_to_set l : gset pystr) = {[ x ]}.
Proof.
  intros Hne Hall. apply set_eq. intros y.
  rewrite elem_of_list_to_set, elem_of_singleton. rewrite Forall_forall in Hall. split.
  - apply Hall.
  - intros ->. destruct l as [|z l]; [done|].
    rewrite (Hall z) by left. left.
Qed.

Lemma strip_TRANSLATION : strip TRANSLATION = TRANSLATION.
Proof. vm_compute. reflexivity. Qed.

Lemma direct_row_tier row :
  EvidenceRow.evidence_tier row = py "direct" → row_tier row ≠ py "parallel".
Proof. unfold row_tier. intros ->. vm_compute. discriminate. Qed.

(** What the timeline normalizer makes of the events and the chronology of
    a build, with any evidence table that keeps to the events and the
    translation of the build and has a direct row for every event. *)
Lemma research_accepts nfc selected evidence :
  selected ≠ [] →
  Forall (λ row, EvidenceRow.event_id row
                   ∈ event_id_of <$> seqZ 1 (Z.of_nat (length selected))
                 ∧ EvidenceRow.translation row = TRANSLATION) evidence →
  (∀ id, id ∈ event_id_of <$> seqZ 1 (Z.of_nat (length selected)) →
     ∃ row, row ∈ evidence ∧ EvidenceRow.event_id row = id
            ∧ EvidenceRow.evidence_tier row = py "direct") →
  ∃ payload,
    build_from_research (build_events nfc selected) evidence
      (chronology_rows_of (build_objects selected)) = Ok payload
    ∧ Forall2 event_from_row (build_events nfc selected) (Payload.events payload)
    ∧ Payload.translation payload = TRANSLATION
    ∧ Payload.totalEvents payload = Z.of_nat (length selected)
    ∧ Payload.totalEvidence payload = Z.of_nat (length evidence).
Proof.
  intros Hne Hall Hdirect. unfold build_from_research.
  destruct (normalize_build_events nfc selected) as (events & -> & Hevents & Hids).
  rewrite Hids. set (ids := event_id_of <$> seqZ 1 (Z.of_nat (length selected))) in *.
  rewrite Forall_forall in Hall.
  assert (evidence ≠ []) as Hrows.
  { destruct selected as [|c l]; [done|].
    destruct (Hdirect (event_id_of 1)) as (row & Hrow & _).
    - apply list_elem_of_fmap. exists 1. split; [done|]. apply elem_of_seqZ.
      cbn [length]. lia.
    - intros ->. by apply elem_of_nil in Hrow. }
  assert (translations evidence = {[ TRANSLATION ]}) as Htr.
  { unfold translations. apply list_to_set_all_equal.
    - by destruct evidence.
    - apply Forall_forall. intros t (row & -> & Hrow)%list_elem_of_fmap. simpl.
      destruct (Hall row Hrow) as [_ ->]. apply strip_TRANSLATION. }
  destruct (normalize_evidence_total evidence (list_to_set ids)) as [[[m tr] tot] Hev].
  - apply Forall_forall. intros row Hrow. destruct (Hall row Hrow) as [Hid _].
    rewrite (event_ids_strip _ _ Hid). by apply elem_of_list_to_set.
  - rewrite Htr. apply size_singleton.
  - intros eid Heid%elem_of_list_to_set.
    destruct (Hdirect eid Heid) as (row & Hrow & Hid & Htier).
    intros Hnone.
    assert (row ∈ other_rows eid evidence) as Hin; [|rewrite Hnone in Hin; by apply elem_of_nil in Hin].
    unfold other_rows, rows_of_event.
    apply list_elem_of_filter. split; [by apply direct_row_tier|].
    apply list_elem_of_filter. split; [|exact Hrow].
    rewrite Hid. by eapply event_ids_strip.
  - rewrite Hev.
    pose proof (normalize_evidence_total_is_length _ _ _ _ _ Hev) as ->.
    apply normalize_evidence_ok_inv in Hev as (_ & Htr' & _).
    rewrite Htr in Htr'.
    assert (tr = TRANSLATION) as ->.
    { symmetry. apply (elem_of_singleton (C:=gset pystr)). rewrite <- Htr'.
      by apply elem_of_singleton. }
    unfold normalize_edges.
    pose proof (normalize_edges_loop_spec (chronology_rows_of (build_objects selected))
                  (list_to_set ids) ∅) as Hedges.
    destruct (normalize_edges_loop _ _ ∅) as [edges|e].
    + eexists. split; [reflexivity|]. simpl. split; [exact Hevents|].
      split; [reflexivity|]. split; [|reflexivity].
      apply Forall2_length in Hevents. unfold build_events in Hevents.
      rewrite length_imap in Hevents. by rewrite Hevents.
    + exfalso. destruct Hedges as (row & Hrow & Hunknown & _). apply Hunknown.
      apply chronology_rows_ends in Hrow as [Ha Hb].
      rewrite build_object_ids in Ha, Hb. fold ids in Ha, Hb.
      split; rewrite !elem_of_list_to_set.
      * by rewrite (event_ids_strip _ _ Ha).
      * by rewrite (event_ids_strip _ _ Hb).
Qed.

Lemma normalize_certainty_level title :
  normalize_certainty (certainty_level title) = certainty_level title.
Proof.
  pose proof (certainty_level_in_set title) as Hin.
  unfold CERTAINTY_SET in Hin. rewrite !elem_of_union, !elem_of_singleton in Hin.
  destruct Hin as [[[->| ->]| ->]| ->]; vm_compute; reflexivity.
Qed.

Lemma build_direct_cover nfc fuel canonical_map by_book candidates selected direct id :
  build_candidate_events nfc by_book = Some candidates →
  select_candidates fuel canonical_map candidates = Some selected →
  direct_rows (build_objects selected) 1 = Some direct →
  id ∈ event_id_of <$> seqZ 1 (Z.of_nat (length selected)) →
  ∃ row, row ∈ direct ∧ EvidenceRow.event_id row = id
         ∧ EvidenceRow.evidence_tier row = py "direct".
Proof.
  intros Hc Hs Hd Hid. rewrite <- build_object_ids in Hid.
  apply list_elem_of_fmap in Hid as ([[eid cand] lane] & -> & Hobj). simpl.
  destruct (elem_of_build_objects _ _ Hobj) as [Hcand _]. simpl in Hcand.
  destruct (selected_slices _ _ _ _ _ _ Hc Hs cand Hcand) as [Hslice _].
  exact (direct_rows_spec _ _ _ Hd _ _ _ Hobj Hslice).
Qed.

Definition two_gospels_payload_events : list Event.t :=
  [ Event.mk (py "EVT0001") (py "life_of_jesus") 1 (py "마태복음") (py "세례")
      (py "In those days") (py "high");
    Event.mk (py "EVT0002") (py "life_of_jesus") 2 (py "마가복음") (py "세례")
      (py "John came") (py "high") ].

(** X23. The timeline normalizer accepts the three tables of an extraction
    build as they are, provided the build has an event: no id is unknown or
    taken twice, every sequence index is a number, the translation is the
    one of the build, and every event has direct evidence. The payload
    counts every row, lists the events in the order of the table, each
    with the id, the position and the certainty level of its row. A build
    without events is refused, for want of a translation. *)
Theorem build_is_accepted
    (nfc : pystr → pystr) (fuel : nat) (canonical_map : gmap pystr Z)
    (by_book : list (pystr * list Verse.t)) (build : Build.t) :
  main nfc fuel canonical_map by_book = Some (Ok build) →
  (Build.events_rows build = [] →
   build_from_research (Build.events_rows build) (Build.evidence_rows build)
     (Build.chronology_rows build) = Err (TranslationNotSingle []))
  ∧ (Build.events_rows build ≠ [] →
     ∃ payload,
       build_from_research (Build.events_rows build) (Build.evidence_rows build)
         (Build.chronology_rows build) = Ok payload
       ∧ Payload.translation payload = TRANSLATION
       ∧ Payload.totalEvents payload = Z.of_nat (length (Build.events_rows build))
       ∧ Payload.totalEvidence payload = Z.of_nat (length (Build.evidence_rows build))
       ∧ length (Payload.events payload) = length (Build.events_rows build)
       ∧ ∀ i row ev,
           Build.events_rows build !! i = Some row →
           Payload.events payload !! i = Some ev →
           Event.event_id ev = EventRow.event_id row
           ∧ Event.sequence_index ev = 1 + Z.of_nat i
           ∧ Event.certainty_level ev = EventRow.certainty_level row).
Proof.
  intros Hmain.
  apply main_ok_rows in Hmain
    as (candidates & selected & direct & parallel & Hc & Hs & Hd & Hp & Hval & ->).
  simpl. split.
  - intros Hnil. destruct selected as [|c l]; [|discriminate Hnil].
    simpl in Hd. injection Hd as <-. simpl in Hp. injection Hp as <-.
    vm_compute. reflexivity.
  - intros Hne.
    assert (selected ≠ []) as Hsel by (intros ->; by apply Hne).
    destruct (build_evidence_from nfc selected direct parallel Hd Hp) as [_ Hall].
    destruct (research_accepts nfc selected (direct ++ parallel) Hsel Hall)
      as (payload & Hpay & Hevents & Htr & Hcount & Htotal).
    { intros id Hid.
      destruct (build_direct_cover _ _ _ _ _ _ _ _ Hc Hs Hd Hid) as (row & Hrow & ?).
      exists row. split; [apply elem_of_app; by left|done]. }
    exists payload. split; [exact Hpay|]. split; [exact Htr|].
    split; [unfold build_events; by rewrite length_imap|]. split; [exact Htotal|].
    split; [symmetry; by eapply Forall2_length|].
    intros i row ev Hrow Hev.
    destruct (Forall2_lookup_l _ _ _ _ _ Hevents Hrow) as (ev' & Hev' & Hfrom).
    rewrite Hev in Hev'. injection Hev' as <-.
    unfold build_events in Hrow.
    apply list_lookup_imap_Some in Hrow as (cand & _ & ->).
    destruct Hfrom as (Hint & Hid & _ & _ & _ & _ & Hlevel). simpl in Hint, Hid, Hlevel.
    rewrite py_int_str_of_int in Hint by lia. injection Hint as <-.
    rewrite strip_nonspace in Hid by (apply event_id_of_nonspace; lia).
    rewrite normalize_certainty_level in Hlevel. by simpl.
Qed.

Lemma build_is_accepted_witness :
  ∃ build,
    main (λ s, s) 2 two_gospels_order two_gospels = Some (Ok build)
    ∧ ∃ payload,
        build_from_research (Build.events_rows build) (Build.evidence_rows build)
          (Build.chronology_rows build) = Ok payload
        ∧ Payload.translation payload = TRANSLATION
        ∧ Payload.totalEvents payload = Z.of_nat (length (Build.events_rows build))
        ∧ Payload.totalEvidence payload = Z.of_nat (length (Build.evidence_rows build)).
Proof.
  eexists. split; [vm_compute; reflexivity|].
  destruct (proj2 (build_is_accepted (λ s, s) 2 two_gospels_order two_gospels _
                     ltac:(vm_compute; reflexivity)))
    as (payload & Hpay & Htr & Hcount & Htotal & _).
  - intros Hnil. discriminate Hnil.
  - exists payload. split; [exact Hpay|]. split; [exact Htr|].
    split; [exact Hcount|exact Htotal].
Defined.

Example two_gospels_payload :
  ∃ build payload,
    main (λ s, s) 2 two_gospels_order two_gospels = Some (Ok build)
    ∧ build_from_research (Build.events_rows build) (Build.evidence_rows build)
        (Build.chronology_rows build) = Ok payload
    ∧ Payload.totalEvents payload = 2
    ∧ Payload.totalEvidence payload = 8
    ∧ Payload.events payload = two_gospels_payload_events.
Proof.
  eexists. eexists. split; [vm_compute; reflexivity|].
  split; [vm_compute; reflexivity|]. split; [reflexivity|]. split; reflexivity.
Qed.

(** *** With the parallel rows of the matcher in between *)

Lemma pairs_target gospel_events targets p :
  p ∈ pairs gospel_events targets → p.1 ∈ targets.
Proof.
  unfold pairs. intros (target & Hp & Htarget)%list_elem_of_bind.
  apply list_elem_of_fmap in Hp as (m & -> & _). exact Htarget.
Qed.

Lemma rows_from_numbers start ids rows :
  0 ≤ start → rows_from start ids rows → Forall has_number rows.
Proof.
  intros Hstart Hfrom. apply Forall_forall. intros row Hrow.
  destruct (rows_from_elem _ _ _ _ Hfrom Hrow) as ((n & Hn & Hid) & _).
  exists n. apply evidence_number_id_of; [lia|exact Hid].
Qed.

(** The rows that the matcher adds to an evidence table all of whose rows
    have the translation [tr]: each belongs to a gospel event of the events
    table and has that translation. *)
Lemma additions_keep_table fmt_score events evidence out tr row :
  Enrich.main fmt_score events evidence = Ok out →
  Forall (λ src, EvidenceRow.translation src = tr) evidence →
  row ∈ Enrich.additions out →
  EvidenceRow.event_id row ∈ EventRow.event_id <$> events
  ∧ EvidenceRow.translation row = tr
  ∧ EvidenceRow.evidence_tier row = py "parallel".
Proof.
  intros Hmain Hall Hrow.
  apply main_inv in Hmain as (max_id & by_event & groups & Hscan & Hadd & Hgroups & _).
  rewrite Hadd in Hrow. apply elem_of_concat_group in Hrow as (g & Hrow & Hg).
  destruct (Forall2_elem_r _ _ _ _ Hgroups Hg) as ([target [s source]] & Hp & Hgroup).
  apply pairs_target in Hp. simpl in Hp.
  destruct (group_rows _ _ _ _ _ _ _ _ _ _ Hscan Hgroup Hrow)
    as (_ & n & src & _ & Hsrc & ->).
  simpl. split; [|split; [|reflexivity]].
  - apply list_elem_of_fmap. exists target. split; [reflexivity|].
    unfold Enrich.gospel_events_of in Hp. by apply list_elem_of_filter in Hp as [_ ?].
  - apply elem_of_take in Hsrc as (i & Hsrc & _).
    apply list_elem_of_lookup_2 in Hsrc. unfold direct_of in Hsrc.
    apply list_elem_of_filter in Hsrc as [_ Hsrc].
    rewrite Forall_forall in Hall. by apply Hall.
Qed.

(** X25. The whole pipeline: the matcher takes the tables of an extraction
    build without an error, whatever the build, and the timeline
    normalizer accepts the events, the chronology and the evidence table
    that the matcher leaves, provided the build has an event. The payload
    counts the evidence rows of the build and the rows that the matcher
    added. *)
Theorem enriched_build_is_accepted
    (nfc : pystr → pystr) (fuel : nat) (canonical_map : gmap pystr Z)
    (by_book : list (pystr * list Verse.t)) (build : Build.t)
    (fmt_score : Q → pystr) :
  main nfc fuel canonical_map by_book = Some (Ok build) →
  ∃ enriched,
    Enrich.main fmt_score (Build.events_rows build) (Build.evidence_rows build)
    = Ok enriched
    ∧ (Build.events_rows build ≠ [] →
       ∃ payload,
         build_from_research (Build.events_rows build) (Enrich.evidence_rows enriched)
           (Build.chronology_rows build) = Ok payload
         ∧ Payload.translation payload = TRANSLATION
         ∧ Payload.totalEvents payload = Z.of_nat (length (Build.events_rows build))
         ∧ Payload.totalEvidence payload
           = Z.of_nat (length (Build.evidence_rows build))
             + Z.of_nat (length (Enrich.additions enriched))).
Proof.
  intros Hmain.
  apply main_ok_rows in Hmain
    as (candidates & selected & direct & parallel & Hc & Hs & Hd & Hp & Hval & ->).
  simpl.
  pose proof (build_evidence_from nfc selected direct parallel Hd Hp) as Hfrom.
  destruct (scan_evidence_total (direct ++ parallel) 0 ∅) as (max_id & by_event & Hscan);
    [by eapply rows_from_numbers; [|exact Hfrom]|].
  destruct (main_additions fmt_score (build_events nfc selected) _ _ _ Hscan)
    as (enriched & Hrun & _).
  exists enriched. split; [exact Hrun|]. intros Hne.
  assert (selected ≠ []) as Hsel by (intros ->; by apply Hne).
  destruct Hfrom as [_ Hall].
  pose proof Hrun as Hinv.
  apply main_inv in Hinv as (_ & _ & _ & _ & _ & _ & Hperm & _).
  destruct (research_accepts nfc selected (Enrich.evidence_rows enriched) Hsel)
    as (payload & Hpay & _ & Htr & Hcount & Htotal).
  - apply Forall_forall. intros row Hrow. rewrite Hperm in Hrow.
    apply elem_of_app in Hrow as [Hrow|Hrow].
    + rewrite Forall_forall in Hall. exact (Hall row Hrow).
    + destruct (additions_keep_table fmt_score _ _ _ TRANSLATION row Hrun) as (Hid & ? & _).
      * eapply Forall_impl; [exact Hall|]. by intros src [_ ?].
      * exact Hrow.
      * rewrite build_event_ids, build_object_ids in Hid. by split.
  - intros id Hid.
    destruct (build_direct_cover _ _ _ _ _ _ _ _ Hc Hs Hd Hid) as (row & Hrow & ?).
    exists row. split; [|done]. rewrite Hperm, !elem_of_app. by left; left.
  - exists payload. split; [exact Hpay|]. split; [exact Htr|].
    split; [unfold build_events; by rewrite length_imap|].
    rewrite Htotal, Hperm, (length_app (direct ++ parallel)). lia.
Qed.

Lemma enriched_build_is_accepted_witness :
  ∃ build,
    main (λ s, s) 2 two_gospels_order two_gospels = Some (Ok build)
    ∧ ∃ enriched,
        Enrich.main Enrich.two_decimals (Build.events_rows build)
          (Build.evidence_rows build) = Ok enriched.
Proof.
  eexists. split; [vm_compute; reflexivity|].
  destruct (enriched_build_is_accepted (λ s, s) 2 two_gospels_order two_gospels _
              Enrich.two_decimals ltac:(vm_compute; reflexivity))
    as (enriched & Hrun & _).
  exists enriched. exact Hrun.
Defined.

Example two_gospels_enriched :
  ∃ build enriched payload,
    main (λ s, s) 2 two_gospels_order two_gospels = Some (Ok build)
    ∧ Enrich.main Enrich.two_decimals (Build.events_rows build)
        (Build.evidence_rows build) = Ok enriched
    ∧ length (Enrich.additions enriched) = 4%nat
    ∧ build_from_research (Build.events_rows build) (Enrich.evidence_rows enriched)
        (Build.chronology_rows build) = Ok payload
    ∧ Payload.totalEvidence payload = 12.
Proof.
  eexists. eexists. eexists. split; [vm_compute; reflexivity|].
  split; [vm_compute; reflexivity|]. split; [reflexivity|].
  split; [vm_compute; reflexivity|]. reflexivity.
Qed.

(** ** The chapter timeline ([build_from_all_verses]) *)

Definition chapter_id_of (n : Z) : pystr := py "CHP" ++ zero_padded 4 n.

Lemma chapter_id_of_inj n m :
  0 ≤ n → 0 ≤ m → chapter_id_of n = chapter_id_of m → n = m.
Proof.
  intros Hn Hm Heq. unfold chapter_id_of in Heq. apply app_inv_head in Heq.
  pose proof (py_int_zero_padded 4 n Hn) as H1.
  pose proof (py_int_zero_padded 4 m Hm) as H2. congruence.
Qed.

Definition chapter_edge (p : pystr * pystr) : ChapterEdge.t :=
  {| ChapterEdge.from_chapter_id := p.1;
     ChapterEdge.to_chapter_id := p.2;
     ChapterEdge.relation_type := py "before" |}.

Lemma chain_edges_snoc ids x :
  chain_edges (ids ++ [x])
  = chain_edges ids ++ match last ids with Some l => [(l, x)] | None => [] end.
Proof.
  induction ids as [|a ids IH]; [done|].
  destruct ids as [|b r]; [done|].
  change (chain_edges ((a :: b :: r) ++ [x]))
    with ((a, b) :: chain_edges ((b :: r) ++ [x])).
  rewrite IH. done.
Qed.

Lemma seqZ_snoc start n : 0 ≤ n → seqZ start (n + 1) = seqZ start n ++ [start + n].
Proof. intros Hn. rewrite seqZ_app by lia. done. Qed.

(** What the timeline holds of one chapter. *)
Definition chapter_ok (by_chapter : gmap pystr (list VerseEntry.t)) (ch : Chapter.t)
  : Prop :=
  ∃ verses first,
    by_chapter !! Chapter.chapter_id ch = Some verses
    ∧ head verses = Some first
    ∧ Chapter.verse_count ch = Z.of_nat (length verses)
    ∧ Chapter.event_summary ch = truncate (VerseEntry.verse_text_kr first) 120
    ∧ Chapter.lane_tag ch = lane_for (Chapter.book ch) (Chapter.chapter ch)
    ∧ Chapter.event_title ch
      = Chapter.book ch ++ py " " ++ str_of_int (Chapter.chapter ch) ++ py "장"
    ∧ Chapter.certainty_level ch = py "high".

(** What [flush_chapter] keeps; [flushed] counts the verses of the
    chapters made so far. *)
Definition timeline_inv (st : Timeline.t) (flushed : Z) : Prop :=
  let chapters := Timeline.chapters st in
  let n := Z.of_nat (length chapters) in
  Timeline.seq st = n
  ∧ Chapter.chapter_id <$> chapters = chapter_id_of <$> seqZ 1 n
  ∧ Chapter.sequence_index <$> chapters = seqZ 1 n
  ∧ Timeline.prev_chapter_id st = last (Chapter.chapter_id <$> chapters)
  ∧ Timeline.edges st
    = chapter_edge <$> chain_edges (Chapter.chapter_id <$> chapters)
  ∧ dom (Timeline.verses_by_chapter st)
    = list_to_set (Chapter.chapter_id <$> chapters)
  ∧ Forall (chapter_ok (Timeline.verses_by_chapter st)) chapters
  ∧ sumZ (Chapter.verse_count <$> chapters) = flushed.

Lemma timeline_inv_init : timeline_inv (Timeline.mk 0 None [] ∅ []) 0.
Proof.
  unfold timeline_inv. simpl. rewrite dom_empty_L. repeat split; done.
Qed.

Lemma flush_chapter_inv st flushed book_name chapter verses :
  timeline_inv st flushed →
  timeline_inv (flush_chapter st book_name chapter verses)
    (flushed + Z.of_nat (length verses)).
Proof.
  intros (Hseq & Hids & Hidx & Hprev & Hedges & Hdom & Hall & Hsum).
  destruct verses as [|first verses]; [simpl; by rewrite Z.add_0_r|].
  unfold flush_chapter, timeline_inv. cbn [Timeline.seq Timeline.chapters
    Timeline.prev_chapter_id Timeline.edges Timeline.verses_by_chapter].
  set (n := Z.of_nat (length (Timeline.chapters st))) in *.
  assert (Z.of_nat (length (Timeline.chapters st ++ [
            {| Chapter.chapter_id := py "CHP" ++ zero_padded 4 (Timeline.seq st + 1);
               Chapter.lane_tag := lane_for book_name chapter;
               Chapter.sequence_index := Timeline.seq st + 1;
               Chapter.book := book_name;
               Chapter.chapter := chapter;
               Chapter.event_title :=
                 book_name ++ py " " ++ str_of_int chapter ++ py "장";
               Chapter.event_summary := truncate (VerseEntry.verse_text_kr first) 120;
               Chapter.verse_count := Z.of_nat (length (first :: verses));
               Chapter.certainty_level := py "high" |}])) = n + 1) as ->.
  { rewrite length_app. simpl. lia. }
  rewrite !fmap_app, seqZ_snoc, !fmap_app by lia. simpl.
  rewrite Hseq. fold (chapter_id_of (n + 1)).
  replace (1 + n) with (n + 1) by lia.
  split; [done|]. split; [by rewrite Hids|]. split; [by rewrite Hidx|].
  split; [by rewrite last_snoc|]. split.
  { rewrite chain_edges_snoc, fmap_app, <- Hedges, Hprev.
    destruct (last (Chapter.chapter_id <$> Timeline.chapters st));
      [done|by rewrite app_nil_r]. }
  split.
  { rewrite dom_insert_L, list_to_set_app_L, Hdom. simpl.
    rewrite (right_id_L ∅ (∪)). apply (comm_L (∪)). }
  split.
  - apply Forall_app. split.
    + apply Forall_forall. intros ch Hch.
      rewrite Forall_forall in Hall.
      destruct (Hall ch Hch) as (vs & f & Hlook & Hrest).
      exists vs, f. split; [|exact Hrest].
      rewrite lookup_insert_ne; [exact Hlook|].
      assert (Chapter.chapter_id ch ∈ Chapter.chapter_id <$> Timeline.chapters st) as Hin.
      { apply list_elem_of_fmap. by exists ch. }
      rewrite Hids in Hin. apply list_elem_of_fmap in Hin as (k & -> & Hk).
      apply elem_of_seqZ in Hk. intros Heq%chapter_id_of_inj; lia.
    + constructor; [|constructor]. exists (first :: verses), first. simpl.
      rewrite lookup_insert_eq. done.
  - rewrite sumZ_app, Hsum. simpl. lia.
Qed.

Lemma file_lines_inv book_name lines : ∀ st current verses total,
  timeline_inv st (total - Z.of_nat (length verses)) →
  (current = None → verses = []) →
  ∃ st' current' verses',
    file_lines book_name lines st current verses total
    = Some (st', current', verses', total + Z.of_nat (length lines))
    ∧ timeline_inv st' (total + Z.of_nat (length lines) - Z.of_nat (length verses'))
    ∧ (current' = None → verses' = []).
Proof.
  induction lines as [|[[chapter verse] text] rest IH]; intros st current verses total Hinv Hcur.
  - exists st, current, verses. simpl. rewrite Z.add_0_r. done.
  - cbn [file_lines].
    destruct (clean_heading_prefix_total text) as [cleaned ->]. cbn [mbind option_bind].
    set (entry := VerseEntry.mk verse _ _).
    assert (∃ st1 verses1,
              match current with
              | None => (st, verses)
              | Some cur =>
                  if decide (chapter ≠ cur)
                  then (flush_chapter st book_name cur verses, [])
                  else (st, verses)
              end = (st1, verses1)
              ∧ timeline_inv st1 (total - Z.of_nat (length verses1))) as (st1 & verses1 & -> & Hinv1).
    { destruct current as [cur|]; [|by exists st, verses].
      case_decide; [|by exists st, verses].
      eexists _, _. split; [reflexivity|]. simpl. rewrite Z.sub_0_r.
      replace total with (total - Z.of_nat (length verses) + Z.of_nat (length verses))
        at 1 by lia.
      by apply flush_chapter_inv. }
    destruct (IH st1 (Some chapter) (verses1 ++ [entry]) (total + 1))
      as (st' & current' & verses' & Hrun & Hinv' & Hcur').
    + rewrite length_app. simpl.
      replace (total + 1 - Z.of_nat (length verses1 + 1))
        with (total - Z.of_nat (length verses1)) by lia.
      exact Hinv1.
    + intros [=].
    + exists st', current', verses'. rewrite Hrun. cbn [length].
      replace (total + 1 + Z.of_nat (length rest))
        with (total + Z.of_nat (S (length rest))) in * by lia.
      done.
Qed.

(** The number of verse lines of the files. *)
Definition verse_lines (files : list (Z * Z * pystr * list (Z * Z * pystr))) : Z :=
  sumZ ((λ file, Z.of_nat (length file.2)) <$> files).

Lemma all_files_inv files : ∀ st total,
  timeline_inv st total →
  ∃ st', all_files files st total = Some (st', total + verse_lines files)
         ∧ timeline_inv st' (total + verse_lines files).
Proof.
  induction files as [|[[[mark order] book_name] lines] rest IH]; intros st total Hinv.
  - exists st. unfold verse_lines. simpl. rewrite Z.add_0_r. done.
  - cbn [all_files].
    destruct (file_lines_inv book_name lines st None [] total)
      as (st1 & current1 & verses1 & -> & Hinv1 & Hcur1);
      [simpl; by rewrite Z.sub_0_r|done|].
    cbn [mbind option_bind].
    set (st2 := match current1 with
                | Some cur => flush_chapter st1 book_name cur verses1
                | None => st1
                end).
    assert (timeline_inv st2 (total + Z.of_nat (length lines))) as Hinv2.
    { subst st2. destruct current1 as [cur|].
      - replace (total + Z.of_nat (length lines))
          with (total + Z.of_nat (length lines) - Z.of_nat (length verses1)
                + Z.of_nat (length verses1)) by lia.
        by apply flush_chapter_inv.
      - rewrite (Hcur1 eq_refl) in Hinv1. simpl in Hinv1.
        by rewrite Z.sub_0_r in Hinv1. }
    destruct (IH st2 _ Hinv2) as (st' & -> & Hinv').
    exists st'. unfold verse_lines. rewrite fmap_cons. cbn [sumZ foldr].
    fold (sumZ ((λ file, Z.of_nat (length file.2)) <$> rest)).
    fold (verse_lines rest). simpl.
    replace (total + (Z.of_nat (length lines) + verse_lines rest))
      with (total + Z.of_nat (length lines) + verse_lines rest) by lia.
    done.
Qed.

Lemma chapter_ids_NoDup n : NoDup (chapter_id_of <$> seqZ 1 n).
Proof.
  apply NoDup_fmap_2_strong; [|apply NoDup_seqZ].
  intros x y [Hx _]%elem_of_seqZ [Hy _]%elem_of_seqZ. apply chapter_id_of_inj; lia.
Qed.

Lemma lanes_cover_chapters {A} (tag : A → pystr) (items : list A) item :
  item ∈ items → tag item ∈ Lane.id <$> LANE_DEFS →
  ∃ lane, lane ∈ normalize_lanes tag items ∧ Lane.id lane = tag item.
Proof.
  intros Hitem (lane & Hid & Hlane)%list_elem_of_fmap.
  exists lane. split; [|done]. unfold normalize_lanes.
  apply list_elem_of_filter. split; [|exact Hlane].
  rewrite <- Hid. apply elem_of_list_to_set, list_elem_of_fmap. by exists item.
Qed.

(** Sixty-six files of three verse lines each, in two chapters. *)
Definition sixty_six_files : list (Z * Z * pystr * list (Z * Z * pystr)) :=
  (λ order, (1, order, py "창세기",
             [ (1, 1, py "<Creation> In the beginning"); (1, 2, py "two");
               (2, 1, py "three") ]))
    <$> seqZ 1 66.

(** X14. [build_from_all_verses] always returns: with fewer than 66 files it
    raises the error that counts them, and otherwise it builds a payload
    in which the chapters are numbered from one, with the ids [CHP] and
    the number in four digits at least, all distinct; the edges of the one
    track join every chapter to the next, in order; the verse count of the
    payload is the number of verse lines of the files and the sum of the
    verse counts of the chapters; every chapter has its verses under its
    id, at least one, a summary of at most 120 characters made of the
    first, and a lane that the payload lists. *)
Theorem chapter_timeline_is_a_chain
    (files : list (Z * Z * pystr * list (Z * Z * pystr))) :
  if decide (length files < 66)%nat
  then build_from_all_verses files = Some (Err (TooFewBooks (length files)))
  else
    ∃ payload,
      build_from_all_verses files = Some (Ok payload)
      ∧ let chapters := ChapterPayload.chapters payload in
        let ids := Chapter.chapter_id <$> chapters in
        let n := Z.of_nat (length chapters) in
        ChapterPayload.totalChapters payload = n
        ∧ ChapterPayload.totalVerses payload = verse_lines files
        ∧ sumZ (Chapter.verse_count <$> chapters) = verse_lines files
        ∧ ids = (λ k, py "CHP" ++ zero_padded 4 k) <$> seqZ 1 n
        ∧ NoDup ids
        ∧ Chapter.sequence_index <$> chapters = seqZ 1 n
        ∧ ChapterPayload.edgesByTrack payload
          = [ (py "track_main",
               (λ p, ChapterEdge.mk p.1 p.2 (py "before")) <$> zip ids (tail ids)) ]
        ∧ dom (ChapterPayload.versesByChapter payload) = list_to_set ids
        ∧ ∀ ch, ch ∈ chapters →
            ∃ verses first,
              ChapterPayload.versesByChapter payload !! Chapter.chapter_id ch
              = Some verses
              ∧ head verses = Some first
              ∧ Chapter.verse_count ch = Z.of_nat (length verses)
              ∧ Chapter.event_summary ch
                = truncate (VerseEntry.verse_text_kr first) 120
              ∧ (length (Chapter.event_summary ch) ≤ 120)%nat
              ∧ Chapter.lane_tag ch = lane_for (Chapter.book ch) (Chapter.chapter ch)
              ∧ ∃ lane, lane ∈ ChapterPayload.lanes payload
                        ∧ Lane.id lane = Chapter.lane_tag ch.
Proof.
  unfold build_from_all_verses.
  set (before := λ a b : Z * Z * pystr * list (Z * Z * pystr),
         (a.1.1.1 <? b.1.1.1) || ((a.1.1.1 =? b.1.1.1) && (a.1.1.2 <? b.1.1.2))).
  rewrite (stable_sort_length before files).
  case_decide as Hfew; [reflexivity|].
  destruct (all_files_inv (stable_sort before files) _ 0 timeline_inv_init)
    as (st & -> & Hinv).
  cbn [mbind option_bind]. eexists. split; [reflexivity|].
  cbn [ChapterPayload.chapters ChapterPayload.totalChapters ChapterPayload.totalVerses
       ChapterPayload.edgesByTrack ChapterPayload.versesByChapter ChapterPayload.lanes].
  assert (verse_lines (stable_sort before files) = verse_lines files) as Hlines.
  { unfold verse_lines. apply sumZ_perm, fmap_Permutation, stable_sort_perm. }
  rewrite Hlines in *. rewrite Z.add_0_l in *.
  destruct Hinv as (Hseq & Hids & Hidx & Hprev & Hedges & Hdom & Hall & Hsum).
  split; [reflexivity|]. split; [reflexivity|]. split; [exact Hsum|].
  split; [exact Hids|]. split; [rewrite Hids; apply chapter_ids_NoDup|].
  split; [exact Hidx|]. split; [by rewrite Hedges|]. split; [exact Hdom|].
  intros ch Hch. rewrite Forall_forall in Hall.
  destruct (Hall ch Hch) as (verses & first & Hlook & Hhead & Hcount & Hsummary & Hlane & _).
  exists verses, first. split; [exact Hlook|]. split; [exact Hhead|].
  split; [exact Hcount|]. split; [exact Hsummary|]. split.
  { rewrite Hsummary.
    pose proof (truncate_length (VerseEntry.verse_text_kr first) 120 ltac:(lia)). lia. }
  split; [exact Hlane|].
  apply lanes_cover_chapters; [exact Hch|]. rewrite Hlane. apply lane_for_known.
Qed.

Lemma chapter_timeline_is_a_chain_witness :
  ∃ payload,
    build_from_all_verses sixty_six_files = Some (Ok payload)
    ∧ ChapterPayload.totalVerses payload = verse_lines sixty_six_files
    ∧ verse_lines sixty_six_files = 198.
Proof.
  pose proof (chapter_timeline_is_a_chain sixty_six_files) as Hchain.
  rewrite decide_False in Hchain by (vm_compute; lia).
  destruct Hchain as (payload & Hrun & _ & Hverses & _).
  exists payload. split; [exact Hrun|]. split; [exact Hverses|].
  vm_compute. reflexivity.
Defined.

Example sixty_six_files_payload :
  match build_from_all_verses sixty_six_files with
  | Some (Ok payload) =>
      ChapterPayload.totalChapters payload = 132
      ∧ ChapterPayload.totalVerses payload = 198
      ∧ Chapter.event_summary <$> take 2 (ChapterPayload.chapters payload)
        = [ py "In the beginning"; py "three" ]
  | _ => False
  end.
Proof. vm_compute. repeat split. Qed.

(** ** When the candidates are few *)

Lemma quotas_of_few (group_counts : list (pystr * Z)) (target : Z) :
  NoDup group_counts.*1 →
  (∀ book cnt, (book, cnt) ∈ group_counts → 1 ≤ cnt) →
  sum_counts group_counts ≤ target →
  proportional_quotas group_counts target = Some (list_to_map group_counts).
Proof.
  intros Hnd Hcnt Hfew.
  pose proof (sum_counts_ge_length group_counts Hcnt) as Hlen.
  unfold proportional_quotas.
  destruct (decide (sum_counts group_counts = 0)) as [Hzero|Hpos].
  { assert (group_counts = []) as -> by (destruct group_counts; [done|simpl in Hlen; lia]).
    done. }
  cbv zeta.
  set (q0 := list_to_map
               ((λ kv, (kv.1, Z.max 1 (int_part (target * kv.2) (sum_counts group_counts))))
                  <$> group_counts) : gmap pystr Z).
  assert ((λ kv : pystr * Z, (kv.1, Z.min (q0 !!! kv.1) kv.2)) <$> group_counts
          = group_counts) as ->.
  { transitivity (id <$> group_counts); [|apply list_fmap_id].
    apply list_fmap_ext. intros i [b c] Hi. simpl. f_equal.
    apply list_elem_of_lookup_2 in Hi.
    unfold q0. rewrite (lookup_total_list_to_map_fmap _ _ b c Hnd Hi). simpl.
    pose proof (Hcnt b c Hi) as Hc.
    assert (c ≤ int_part (target * c) (sum_counts group_counts)); [|lia].
    unfold int_part. rewrite Z.quot_div_nonneg by nia.
    apply Z.div_le_lower_bound; nia. }
  assert (sum_values (list_to_map group_counts) = sum_counts group_counts) as ->.
  { rewrite (sum_values_sum_over group_counts.*1) by (done || by rewrite dom_list_to_map_L).
    by apply sum_over_list_to_map. }
  destruct (decide (sum_counts group_counts < target)) as [Hlt|Hge].
  - rewrite (filter_none _ group_counts.*1) by (intros b _; lia).
    cbn [stable_sort foldr]. unfold loop_fuel. cbn [expand_loop].
    rewrite decide_False by (by intros [_ ?]). cbn [mbind option_bind].
    rewrite decide_False by lia. done.
  - cbn [mbind option_bind]. rewrite decide_False by lia. done.
Qed.

(** The groups that [main] makes of the candidates: distinct keys, no
    empty group, and every candidate in one group. *)
Lemma group_append_parts {V} (grouped : list (pystr * list V)) key (v : V) :
  Forall (λ kv, kv.2 ≠ []) grouped →
  Forall (λ kv, kv.2 ≠ []) (group_append grouped key v)
  ∧ concat (group_append grouped key v).*2 ≡ₚ concat grouped.*2 ++ [v].
Proof.
  induction grouped as [|[k vs] rest IH]; intros Hall.
  - split; [by repeat constructor|done].
  - apply Forall_cons in Hall as [Hvs Hall]. destruct (IH Hall) as [IH1 IH2].
    cbn [group_append]. case_decide as Hk.
    + split.
      * constructor; [|exact Hall]. simpl. by destruct vs.
      * rewrite !fmap_cons. cbn [snd concat]. rewrite <- !app_assoc.
        apply Permutation_app_head, Permutation_app_comm.
    + split; [by constructor|].
      rewrite !fmap_cons. cbn [snd concat]. by rewrite IH2, app_assoc.
Qed.

Lemma group_by_book_parts candidates :
  NoDup (group_by_book candidates).*1
  ∧ Forall (λ kv, kv.2 ≠ []) (group_by_book candidates)
  ∧ concat (group_by_book candidates).*2 ≡ₚ candidates.
Proof.
  split.
  { by destruct (group_fold_spec CandidateEvent.book_name id candidates) as (? & _). }
  unfold group_by_book.
  induction candidates as [|x l IH] using rev_ind; [by split|].
  rewrite foldl_app. simpl. destruct IH as [IH1 IH2].
  destruct (group_append_parts _ (CandidateEvent.book_name x) x IH1) as [H1 H2].
  split; [exact H1|]. by rewrite H2, IH2.
Qed.

Lemma concat_perm {A} (l k : list (list A)) : l ≡ₚ k → concat l ≡ₚ concat k.
Proof.
  induction 1 as [|x l k _ IH|x y l|l k m _ IH1 _ IH2]; simpl.
  - done.
  - by rewrite IH.
  - rewrite !app_assoc. apply Permutation_app_tail, Permutation_app_comm.
  - by rewrite IH1.
Qed.

Lemma select_books_all (fuel : nat) (grouped : list (pystr * list CandidateEvent.t))
    (quotas : gmap pystr Z) (books : list pystr) :
  (∀ book, book ∈ books →
     quotas !! book
     = Some (Z.of_nat (length (default [] (list_to_map (M:=gmap pystr _) grouped !! book))))) →
  select_books fuel grouped quotas books
  = Some (concat ((λ book, default [] (list_to_map (M:=gmap pystr _) grouped !! book))
                    <$> books)).
Proof.
  induction books as [|book rest IH]; intros Hq; [done|].
  cbn [select_books]. rewrite (Hq book) by left. simpl.
  unfold pick_evenly at 1. rewrite decide_True by lia. cbn [mbind option_bind].
  rewrite IH by (intros b Hb; apply Hq; by right). done.
Qed.

(** X17. With no more candidates than [TARGET_EVENTS], the quota of every
    book is the number of its candidates, and the selection keeps every
    candidate: what [main] numbers as events is the list of candidates,
    sorted again. The fill loop of [pick_evenly] is not entered, so the
    selection returns whatever the fuel. *)
Theorem few_candidates_are_all_selected
    (fuel : nat) (canonical_map : gmap pystr Z) (candidates : list CandidateEvent.t) :
  Z.of_nat (length candidates) ≤ TARGET_EVENTS →
  let group_counts :=
    (λ kv, (kv.1, Z.of_nat (length kv.2))) <$> group_by_book candidates in
  proportional_quotas group_counts TARGET_EVENTS = Some (list_to_map group_counts)
  ∧ ∃ selected,
      select_candidates fuel canonical_map candidates = Some selected
      ∧ selected ≡ₚ candidates.
Proof.
  intros Hfew group_counts.
  destruct (group_by_book_parts candidates) as (Hnd & Hparts & Hperm).
  assert (group_counts.*1 = (group_by_book candidates).*1) as Hkeys.
  { unfold group_counts. by rewrite <- list_fmap_compose. }
  assert (sum_counts group_counts = Z.of_nat (length candidates)) as Hsum.
  { rewrite <- Hperm. unfold sum_counts, group_counts. rewrite <- list_fmap_compose.
    clear. induction (group_by_book candidates) as [|[k vs] rest IH]; [done|].
    rewrite !fmap_cons. cbn [snd concat sumZ foldr]. rewrite length_app.
    unfold sumZ in IH. simpl in *. lia. }
  assert (proportional_quotas group_counts TARGET_EVENTS
          = Some (list_to_map group_counts)) as Hquotas.
  { apply quotas_of_few; [by rewrite Hkeys| |lia].
    intros book cnt ([k vs] & [= -> ->] & Hin)%list_elem_of_fmap. simpl.
    rewrite Forall_forall in Hparts. specialize (Hparts _ Hin). simpl in Hparts.
    destruct vs; [done|]. simpl. lia. }
  split; [exact Hquotas|].
  unfold select_candidates. fold group_counts. rewrite Hquotas. cbn [mbind option_bind].
  set (books := stable_sort _ _).
  assert (books ≡ₚ (group_by_book candidates).*1) as Hbooks by apply stable_sort_perm.
  rewrite select_books_all.
  - cbn [mbind option_bind]. eexists. split; [reflexivity|].
    rewrite stable_sort_perm. etransitivity; [|exact Hperm].
    etransitivity; [apply concat_perm, fmap_Permutation, Hbooks|].
    assert (∀ a b : list CandidateEvent.t, a = b → a ≡ₚ b) as Heq by (by intros ?? ->).
    apply Heq. f_equal. rewrite <- list_fmap_compose.
    apply list_fmap_ext. intros i [k vs] Hi. simpl.
    apply list_elem_of_lookup_2 in Hi.
    by rewrite (elem_of_list_to_map_1 _ _ _ Hnd Hi).
  - intros book Hbook. rewrite Hbooks in Hbook.
    apply list_elem_of_fmap in Hbook as ([k vs] & -> & Hin). simpl.
    rewrite (elem_of_list_to_map_1 _ _ _ Hnd Hin). simpl.
    apply elem_of_list_to_map_1; [by rewrite Hkeys|].
    apply list_elem_of_fmap. by exists (k, vs).
Qed.

Lemma few_candidates_are_all_selected_witness :
  ∃ selected,
    select_candidates 0 ∅ ten_candidates = Some selected
    ∧ selected ≡ₚ ten_candidates.
Proof.
  apply (few_candidates_are_all_selected 0 ∅ ten_candidates).
  vm_compute. discriminate.
Defined.

(** ** The parallel pass of the extraction build *)

Definition gospel_key (nfc : pystr → pystr) (obj : pystr * CandidateEvent.t * pystr)
  : pystr :=
  normalize_heading_key nfc (CandidateEvent.title obj.1.2).

Definition gospel_member (obj : pystr * CandidateEvent.t * pystr)
  : pystr * CandidateEvent.t :=
  (obj.1.1, obj.1.2).

Definition in_gospel_groups (nfc : pystr → pystr)
    (obj : pystr * CandidateEvent.t * pystr) : Prop :=
  CandidateEvent.book_name obj.1.2 ∈ GOSPEL_BOOKS ∧ gospel_key nfc obj ≠ [].

#[global] Instance in_gospel_groups_dec nfc obj : Decision (in_gospel_groups nfc obj).
Proof. unfold in_gospel_groups. apply _. Defined.

(** [gospel_groups] groups the gospel events that have a heading key. *)
Lemma gospel_groups_filter nfc event_objects :
  gospel_groups nfc event_objects
  = foldl (λ groups obj, group_append groups (gospel_key nfc obj) (gospel_member obj))
      [] (filter (in_gospel_groups nfc) event_objects).
Proof.
  unfold gospel_groups. generalize (@nil (pystr * list (pystr * CandidateEvent.t))).
  induction event_objects as [|[[eid cand] lane] rest IH]; intros groups; [done|].
  cbn [foldl]. rewrite IH.
  destruct (decide (in_gospel_groups nfc (eid, cand, lane))) as [[Hbook Hkey]|Hno].
  - rewrite filter_cons_True by by split. cbn [foldl].
    unfold gospel_key in Hkey. simpl in Hbook, Hkey.
    by rewrite decide_True, decide_True.
  - rewrite filter_cons_False by done.
    case_decide as Hbook; [|done]. case_decide as Hkey; [|done].
    exfalso. apply Hno. by split.
Qed.

Lemma gospel_group_of nfc event_objects obj :
  obj ∈ event_objects → in_gospel_groups nfc obj →
  ∃ members,
    (gospel_key nfc obj, members) ∈ gospel_groups nfc event_objects
    ∧ ∀ other, other ∈ event_objects → in_gospel_groups nfc other →
        gospel_key nfc other = gospel_key nfc obj → gospel_member other ∈ members.
Proof.
  intros Hobj Hin. rewrite gospel_groups_filter.
  destruct (group_fold_spec (gospel_key nfc) gospel_member
              (filter (in_gospel_groups nfc) event_objects)) as (_ & Hkeys & Hgroups).
  assert (gospel_key nfc obj ∈ (foldl
            (λ groups obj, group_append groups (gospel_key nfc obj) (gospel_member obj))
            [] (filter (in_gospel_groups nfc) event_objects)).*1) as Hk0.
  { apply Hkeys. by apply list_elem_of_filter. }
  apply list_elem_of_fmap in Hk0 as ([k members] & Hk & Hmem).
  simpl in Hk. subst k. exists members. split; [exact Hmem|].
  intros other Hother Hino Hsame. rewrite (Hgroups _ _ Hmem).
  apply list_elem_of_fmap. exists other. split; [done|].
  apply list_elem_of_filter. split; [exact Hsame|]. by apply list_elem_of_filter.
Qed.

Lemma two_books_in_group (members : list (pystr * CandidateEvent.t)) a b :
  a ∈ members → b ∈ members →
  CandidateEvent.book_name a.2 ≠ CandidateEvent.book_name b.2 →
  ¬ (size (list_to_set ((λ m, CandidateEvent.book_name m.2) <$> members) : gset pystr)
     < 2)%nat.
Proof.
  intros Ha Hb Hne Hsize.
  set (books := list_to_set _ : gset pystr) in *.
  assert ({[ CandidateEvent.book_name a.2; CandidateEvent.book_name b.2 ]} ⊆ books) as Hsub.
  { intros x [->%elem_of_singleton| ->%elem_of_singleton]%elem_of_union;
      apply elem_of_list_to_set, list_elem_of_fmap; by eexists. }
  apply subseteq_size in Hsub.
  rewrite size_union in Hsub by (apply disjoint_singleton_l; by rewrite elem_of_singleton).
  rewrite !size_singleton in Hsub. lia.
Qed.

(** *** Which rows the pass writes *)

Definition same_verse (a b : EvidenceRow.t) : Prop :=
  EvidenceRow.reference a = EvidenceRow.reference b
  ∧ EvidenceRow.verse_text_kr a = EvidenceRow.verse_text_kr b.

Lemma slice_rows_same e1 t1 p1 n1 e2 t2 p2 n2 verses : ∀ idx s1 s2 r1 r2,
  slice_rows e1 t1 p1 n1 idx verses s1 = Some r1 →
  slice_rows e2 t2 p2 n2 idx verses s2 = Some r2 →
  Forall2 same_verse r1 r2.
Proof.
  induction verses as [|verse rest IH]; intros idx s1 s2 r1 r2; simpl.
  - intros [= <-] [= <-]. constructor.
  - destruct (evidence_text idx verse) as [text|]; [|done]. simpl.
    destruct (slice_rows e1 _ _ _ _ rest _) as [m1|] eqn:H1; [|done].
    destruct (slice_rows e2 _ _ _ _ rest _) as [m2|] eqn:H2; [|done].
    simpl. intros [= <-] [= <-]. constructor; [by split|by eapply IH].
Qed.

Lemma direct_rows_elem event_objects : ∀ start rows d,
  direct_rows event_objects start = Some rows → d ∈ rows →
  ∃ eid cand lane s slice_,
    (eid, cand, lane) ∈ event_objects
    ∧ slice_rows eid (py "direct") (py "false") (py "") 0
        (CandidateEvent.verse_slice cand) s = Some slice_
    ∧ d ∈ slice_.
Proof.
  induction event_objects as [|[[eid cand] lane] rest IH]; intros start rows d; simpl.
  - intros [= <-] Hd. by apply elem_of_nil in Hd.
  - destruct (slice_rows eid _ _ _ _ _ _) as [here|] eqn:Hhere; [|done]. simpl.
    destruct (direct_rows rest _) as [there|] eqn:Hthere; [|done]. simpl.
    intros [= <-] [Hd|Hd]%elem_of_app.
    + exists eid, cand, lane, start, here. split; [left|done].
    + destruct (IH _ _ _ Hthere Hd) as (e & c & l & s & sl & Hin & Hrest).
      exists e, c, l, s, sl. split; [by right|exact Hrest].
Qed.

Lemma target_rows_cover target_event_id sources : ∀ start rows sid scand,
  target_rows target_event_id sources start = Some rows →
  (sid, scand) ∈ sources → sid ≠ target_event_id →
  ∃ s slice_,
    slice_rows target_event_id (py "parallel") (py "true") (py "parallel_from:" ++ sid) 0
      (CandidateEvent.verse_slice scand) s = Some slice_
    ∧ ∀ row, row ∈ slice_ → row ∈ rows.
Proof.
  induction sources as [|[sid0 sc0] rest IH]; intros start rows sid scand; simpl.
  - intros _ Hin. by apply elem_of_nil in Hin.
  - case_decide as Hsame.
    + intros Hrows [[= -> ->]|Hin]%elem_of_cons Hne; [done|]. by eapply IH.
    + destruct (slice_rows _ _ _ _ _ _ _) as [here|] eqn:Hhere; [|done]. simpl.
      destruct (target_rows _ rest _) as [there|] eqn:Hthere; [|done]. simpl.
      intros [= <-] [[= -> ->]|Hin]%elem_of_cons Hne.
      * exists start, here. split; [exact Hhere|]. intros row Hrow.
        apply elem_of_app. by left.
      * destruct (IH _ _ _ _ Hthere Hin Hne) as (s & sl & Hsl & Hsub).
        exists s, sl. split; [exact Hsl|]. intros row Hrow.
        apply elem_of_app. right. by apply Hsub.
Qed.

Lemma members_rows_cover targets members : ∀ start rows tid tcand,
  members_rows targets members start = Some rows →
  (tid, tcand) ∈ targets →
  ∃ s rows', target_rows tid members s = Some rows' ∧ ∀ row, row ∈ rows' → row ∈ rows.
Proof.
  induction targets as [|[tid0 tc0] rest IH]; intros start rows tid tcand; simpl.
  - intros _ Hin. by apply elem_of_nil in Hin.
  - destruct (target_rows tid0 members start) as [here|] eqn:Hhere; [|done]. simpl.
    destruct (members_rows rest members _) as [there|] eqn:Hthere; [|done]. simpl.
    intros [= <-] [[= -> ->]|Hin]%elem_of_cons.
    + exists start, here. split; [exact Hhere|]. intros row Hrow.
      apply elem_of_app. by left.
    + destruct (IH _ _ _ _ Hthere Hin) as (s & r' & Hr' & Hsub).
      exists s, r'. split; [exact Hr'|]. intros row Hrow.
      apply elem_of_app. right. by apply Hsub.
Qed.

Lemma parallel_rows_cover groups : ∀ start rows key members,
  parallel_rows_of groups start = Some rows →
  (key, members) ∈ groups →
  ¬ (size (list_to_set ((λ m, CandidateEvent.book_name m.2) <$> members) : gset pystr)
     < 2)%nat →
  ∃ s rows', members_rows members members s = Some rows'
             ∧ ∀ row, row ∈ rows' → row ∈ rows.
Proof.
  induction groups as [|[k0 ms0] rest IH]; intros start rows key members; simpl.
  - intros _ Hin. by apply elem_of_nil in Hin.
  - case_decide as Hsize.
    + intros Hrows [[= -> ->]|Hin]%elem_of_cons Hbig; [done|]. by eapply IH.
    + destruct (members_rows ms0 ms0 start) as [here|] eqn:Hhere; [|done]. simpl.
      destruct (parallel_rows_of rest _) as [there|] eqn:Hthere; [|done]. simpl.
      intros [= <-] [[= -> ->]|Hin]%elem_of_cons Hbig.
      * exists start, here. split; [exact Hhere|]. intros row Hrow.
        apply elem_of_app. by left.
      * destruct (IH _ _ _ _ Hthere Hin Hbig) as (s & r' & Hr' & Hsub).
        exists s, r'. split; [exact Hr'|]. intros row Hrow.
        apply elem_of_app. right. by apply Hsub.
Qed.

Lemma NoDup_fmap_eq {A B} (f : A → B) (l : list A) x y :
  NoDup (f <$> l) → x ∈ l → y ∈ l → f x = f y → x = y.
Proof.
  induction l as [|a l IH]; [by intros _ ?%elem_of_nil|].
  rewrite fmap_cons. intros [Hfresh Hnd]%NoDup_cons Hx Hy Heq.
  apply elem_of_cons in Hx as [->|Hx]; apply elem_of_cons in Hy as [->|Hy].
  - done.
  - exfalso. apply Hfresh. rewrite Heq. apply list_elem_of_fmap. by exists y.
  - exfalso. apply Hfresh. rewrite <- Heq. apply list_elem_of_fmap. by exists x.
  - by apply IH.
Qed.

(** X21. Two events of different gospels whose headings have the same key, a
    key that is not empty, are parallels of each other: for every direct
    row of the one, the evidence table has a parallel row of the other
    with the same reference and the same text, whose note names the one as
    its source. *)
Theorem parallel_rows_copy_the_other_gospel
    (nfc : pystr → pystr) (fuel : nat) (canonical_map : gmap pystr Z)
    (by_book : list (pystr * list Verse.t)) (build : Build.t)
    (target source : EventRow.t) (d : EvidenceRow.t) :
  main nfc fuel canonical_map by_book = Some (Ok build) →
  target ∈ Build.events_rows build →
  source ∈ Build.events_rows build →
  EventRow.book target ∈ GOSPEL_BOOKS →
  EventRow.book source ∈ GOSPEL_BOOKS →
  EventRow.book target ≠ EventRow.book source →
  normalize_heading_key nfc (EventRow.event_title target)
  = normalize_heading_key nfc (EventRow.event_title source) →
  normalize_heading_key nfc (EventRow.event_title target) ≠ [] →
  d ∈ Build.evidence_rows build →
  EvidenceRow.evidence_tier d = py "direct" →
  EvidenceRow.event_id d = EventRow.event_id source →
  ∃ p, p ∈ Build.evidence_rows build
       ∧ EvidenceRow.event_id p = EventRow.event_id target
       ∧ EvidenceRow.evidence_tier p = py "parallel"
       ∧ EvidenceRow.is_parallel p = py "true"
       ∧ EvidenceRow.note p = py "parallel_from:" ++ EventRow.event_id source
       ∧ EvidenceRow.reference p = EvidenceRow.reference d
       ∧ EvidenceRow.verse_text_kr p = EvidenceRow.verse_text_kr d.
Proof.
  intros Hmain Htarget Hsource Htbook Hsbook Hbooks Hsame Hkey Hd Htier Hdid.
  apply main_ok_rows in Hmain
    as (candidates & selected & direct & parallel & Hc & Hs & Hdirect & Hp & Hval & ->).
  simpl in *.
  apply build_events_elem in Htarget as (i & ct & Hi & -> & HT).
  apply build_events_elem in Hsource as (j & cs & Hj & -> & HS).
  simpl in *. set (objs := build_objects selected) in *.
  assert (NoDup ((λ obj, obj.1.1) <$> objs)) as Hnd.
  { unfold objs. rewrite build_object_ids. apply event_ids_NoDup. }
  assert (event_id_of (1 + Z.of_nat j) ≠ event_id_of (1 + Z.of_nat i)) as Hids.
  { intros Heq%event_id_of_inj; [|lia..].
    assert (j = i) as -> by lia. rewrite Hi in Hj. injection Hj as ->. done. }
  (* the group of the two events *)
  destruct (gospel_group_of nfc objs (event_object_of (1 + Z.of_nat i) ct) HT)
    as (members & Hgroup & Hmembers); [by split|].
  assert (gospel_member (event_object_of (1 + Z.of_nat i) ct) ∈ members) as HTm.
  { apply Hmembers; [exact HT|by split|done]. }
  assert (gospel_member (event_object_of (1 + Z.of_nat j) cs) ∈ members) as HSm.
  { apply Hmembers; [exact HS| |by symmetry].
    split; [exact Hsbook|]. unfold gospel_key. simpl. by rewrite <- Hsame. }
  unfold gospel_member, event_object_of in HTm, HSm. simpl in HTm, HSm.
  (* the rows of the pass for this pair *)
  destruct (parallel_rows_cover _ _ _ _ _ Hp Hgroup) as (s1 & r1 & Hr1 & Hsub1).
  { eapply (two_books_in_group members _ _ HTm HSm). exact Hbooks. }
  destruct (members_rows_cover _ _ _ _ _ _ Hr1 HTm) as (s2 & r2 & Hr2 & Hsub2).
  destruct (target_rows_cover _ _ _ _ _ _ Hr2 HSm Hids) as (s3 & r3 & Hr3 & Hsub3).
  (* the direct rows of the source *)
  assert (d ∈ direct) as Hdd.
  { apply elem_of_app in Hd as [Hd|Hd]; [exact Hd|]. exfalso.
    assert (Forall (parallel_shape ((λ obj, obj.1.1) <$> objs)) parallel) as Hshape.
    { eapply parallel_rows_shape; [|exact Hp].
      intros key ms m Hg Hm.
      destruct (gospel_groups_members _ _ _ _ _ Hg Hm) as [lane Hobj].
      apply list_elem_of_fmap. by exists (m.1, m.2, lane). }
    rewrite Forall_forall in Hshape. destruct (Hshape d Hd) as [Hpar _].
    rewrite Htier in Hpar. by apply parallel_not_direct. }
  destruct (direct_rows_elem _ _ _ _ Hdirect Hdd)
    as (eid & cand & lane & s4 & r4 & Hobj & Hr4 & Hdr4).
  pose proof (slice_rows_spec _ _ _ _ _ _ _ _ Hr4) as [_ Hall4].
  rewrite Forall_forall in Hall4. destruct (Hall4 d Hdr4) as (Heid & _).
  assert ((eid, cand, lane) = event_object_of (1 + Z.of_nat j) cs) as Hobjs.
  { apply (NoDup_fmap_eq (λ obj, obj.1.1) objs); [exact Hnd|exact Hobj|exact HS|].
    simpl. by rewrite <- Heid, Hdid. }
  injection Hobjs as -> -> _.
  destruct (Forall2_elem_l _ _ _ _ (slice_rows_same _ _ _ _ _ _ _ _ _ _ _ _ _ _ Hr4 Hr3) Hdr4)
    as (p & Hp3 & Href & Htext).
  pose proof (slice_rows_spec _ _ _ _ _ _ _ _ Hr3) as [_ Hall3].
  rewrite Forall_forall in Hall3. destruct (Hall3 p Hp3) as (Hpid & Hptier & Hppar & Hpnote).
  exists p. split; [apply elem_of_app; right; by apply Hsub1, Hsub2, Hsub3|].
  split; [exact Hpid|]. split; [exact Hptier|]. split; [exact Hppar|].
  split; [exact Hpnote|]. split; [by symmetry|by symmetry].
Qed.

Lemma parallel_rows_copy_the_other_gospel_witness :
  ∃ build target source d,
    main (λ s, s) 2 two_gospels_order two_gospels = Some (Ok build)
    ∧ Build.events_rows build = [target; source]
    ∧ Build.evidence_rows build !! 2%nat = Some d
    ∧ ∃ p, p ∈ Build.evidence_rows build
           ∧ EvidenceRow.event_id p = EventRow.event_id target
           ∧ EvidenceRow.evidence_tier p = py "parallel"
           ∧ EvidenceRow.is_parallel p = py "true"
           ∧ EvidenceRow.note p = py "parallel_from:" ++ EventRow.event_id source
           ∧ EvidenceRow.reference p = EvidenceRow.reference d
           ∧ EvidenceRow.verse_text_kr p = EvidenceRow.verse_text_kr d.
Proof.
  do 4 eexists. split; [vm_compute; reflexivity|].
  split; [reflexivity|]. split; [reflexivity|].
  eapply (parallel_rows_copy_the_other_gospel (λ s, s) 2 two_gospels_order two_gospels).
  - vm_compute. reflexivity.
  - apply (list_elem_of_lookup_2 _ 0%nat). reflexivity.
  - apply (list_elem_of_lookup_2 _ 1%nat). reflexivity.
  - apply (bool_decide_unpack _). vm_compute. exact I.
  - apply (bool_decide_unpack _). vm_compute. exact I.
  - intros Heq. vm_compute in Heq. discriminate Heq.
  - vm_compute. reflexivity.
  - vm_compute. discriminate.
  - apply (list_elem_of_lookup_2 _ 2%nat). reflexivity.
  - vm_compute. reflexivity.
  - vm_compute. reflexivity.
Defined.

(** ** The chronology of the extraction build *)

Definition edge_id_of (n : Z) : pystr := py "EDG" ++ zero_padded 6 n.

Lemma chain_rows_ids track_id nodes : ∀ edge_id,
  EdgeRow.edge_id <$> chain_rows track_id nodes edge_id
  = edge_id_of <$> seqZ edge_id (Z.of_nat (length (chain_rows track_id nodes edge_id))).
Proof.
  induction nodes as [|[frm basis] rest IH]; intros edge_id; [done|].
  destruct rest as [|[to basis'] rest']; [done|].
  cbn [chain_rows length]. cbn [chain_rows] in IH.
  rewrite (seqZ_cons edge_id) by lia. rewrite !fmap_cons, (IH (edge_id + 1)).
  do 3 f_equal; lia.
Qed.

Lemma seqZ_sorted n : ∀ start, StronglySorted (λ x y, start ≤ x < y) (seqZ start n).
Proof.
  induction (Z.to_nat n) as [|k IH] eqn:Hk in n |- *; intros start.
  - rewrite seqZ_nil by lia. constructor.
  - rewrite (seqZ_cons start) by lia. constructor.
    + eapply StronglySorted_weaken; [|apply (IH (Z.pred n)); lia].
      simpl. intros x y. lia.
    + apply Forall_forall. intros y Hy%elem_of_seqZ. lia.
Qed.

Lemma StronglySorted_fmap_inv {A B} (f : A → B) (R : B → B → Prop) (l : list A) :
  StronglySorted R (f <$> l) → StronglySorted (λ x y, R (f x) (f y)) l.
Proof.
  induction l as [|x l IH]; [constructor|].
  rewrite fmap_cons. intros [Hsorted Hall]%StronglySorted_inv.
  constructor; [by apply IH|].
  apply Forall_forall. intros y Hy. rewrite Forall_forall in Hall.
  apply Hall, list_elem_of_fmap. by exists y.
Qed.

(** The event [a] comes before the event [b] in the events table. *)
Definition comes_before (a b : pystr) : Prop :=
  ∃ i j, 1 ≤ i < j ∧ a = event_id_of i ∧ b = event_id_of j.

Lemma event_ids_in_order n : StronglySorted comes_before (event_id_of <$> seqZ 1 n).
Proof.
  eapply StronglySorted_fmap; [|apply (seqZ_sorted n 1)].
  intros x y Hxy. by exists x, y.
Qed.

Lemma lanes_related_in_order lanes event_objects :
  StronglySorted comes_before ((λ obj, obj.1.1) <$> event_objects) →
  StronglySorted comes_before (lanes_related lanes event_objects).
Proof.
  intros Hsorted%StronglySorted_fmap_inv. unfold lanes_related.
  eapply StronglySorted_fmap; [|by apply StronglySorted_filter]. done.
Qed.

Lemma chain_edges_in_order (R : pystr → pystr → Prop) ids a b :
  StronglySorted R ids → (a, b) ∈ chain_edges ids → R a b.
Proof.
  induction 1 as [|x l Hsorted IH Hall]; [by intros ?%elem_of_nil|].
  destruct l as [|y r]; [by intros ?%elem_of_nil|].
  change (chain_edges (x :: y :: r)) with ((x, y) :: chain_edges (y :: r)).
  intros [[= -> ->]|Hin]%elem_of_cons; [|by apply IH].
  by apply Forall_cons in Hall as [? _].
Qed.

Lemma chain_rows_in_order track_id nodes edge_id row :
  StronglySorted comes_before nodes.*1 →
  row ∈ chain_rows track_id nodes edge_id →
  comes_before (EdgeRow.from_event_id row) (EdgeRow.to_event_id row)
  ∧ EdgeRow.relation_type row = py "before"
  ∧ EdgeRow.track_id row = track_id.
Proof.
  intros Hsorted Hrow. split.
  - apply (chain_edges_in_order comes_before nodes.*1); [exact Hsorted|].
    rewrite <- (chain_rows_ends track_id nodes edge_id).
    apply list_elem_of_fmap. by exists row.
  - destruct (chain_rows_spec track_id nodes edge_id) as [_ Hall].
    rewrite Forall_forall in Hall. destruct (Hall row Hrow) as [? ?]. by split.
Qed.

Definition edges_from (start : Z) (rows : list EdgeRow.t) : Prop :=
  EdgeRow.edge_id <$> rows = edge_id_of <$> seqZ start (Z.of_nat (length rows)).

Lemma edges_from_app start a b :
  edges_from start a → edges_from (start + Z.of_nat (length a)) b →
  edges_from start (a ++ b).
Proof.
  unfold edges_from. intros Ha Hb.
  rewrite fmap_app, Ha, Hb, length_app, Nat2Z.inj_add.
  rewrite seqZ_app by lia. by rewrite fmap_app.
Qed.

Lemma chronology_rows_numbered event_objects :
  edges_from 1 (chronology_rows_of event_objects).
Proof.
  unfold chronology_rows_of, add_track_edges.
  repeat apply edges_from_app; unfold edges_from.
  - apply chain_rows_ids.
  - apply chain_rows_ids.
  - rewrite chain_rows_ids. f_equal. f_equal. lia.
  - rewrite chain_rows_ids. f_equal. f_equal. lia.
Qed.

Lemma chronology_rows_forward event_objects row :
  StronglySorted comes_before ((λ obj, obj.1.1) <$> event_objects) →
  row ∈ chronology_rows_of event_objects →
  comes_before (EdgeRow.from_event_id row) (EdgeRow.to_event_id row)
  ∧ EdgeRow.relation_type row = py "before"
  ∧ EdgeRow.track_id row
    ∈ [ py "track_main"; py "track_exodus_early"; py "track_exodus_late";
        py "track_gospel_harmony" ].
Proof.
  intros Hsorted. unfold chronology_rows_of, add_track_edges.
  assert (∀ ids : list pystr, ((λ id, (id, py "성경 본문 흐름")) <$> ids).*1 = ids) as Hfst.
  { intros ids. rewrite <- list_fmap_compose. apply list_fmap_id. }
  rewrite !elem_of_app.
  intros [Hrow|[Hrow|[Hrow|Hrow]]];
    apply chain_rows_in_order in Hrow as (Hfwd & Hrel & ->);
    try (split; [exact Hfwd|split; [exact Hrel|]]).
  - left.
  - by rewrite <- list_fmap_compose.
  - right; left.
  - rewrite Hfst. by apply lanes_related_in_order.
  - right; right; left.
  - rewrite Hfst. by apply lanes_related_in_order.
  - right; right; right; left.
  - rewrite Hfst. by apply lanes_related_in_order.
Qed.

Lemma chronology_main_track event_objects :
  edge_ends <$> filter (λ row, EdgeRow.track_id row = py "track_main")
                  (chronology_rows_of event_objects)
  = chain_edges ((λ obj, obj.1.1) <$> event_objects).
Proof.
  unfold chronology_rows_of, add_track_edges.
  rewrite !filter_app, !chain_rows_track.
  rewrite decide_True by done.
  rewrite !decide_False by (intros Heq; vm_compute in Heq; discriminate Heq).
  rewrite !app_nil_r, chain_rows_ends. by rewrite <- list_fmap_compose.
Qed.

(** X22. The chronology that [main] writes: the edge ids are [EDG] and the
    position of the row, counted from one and written with six digits at
    least; every edge is a ["before"] edge on one of the four tracks and
    runs from an event to an event that comes later in the events table;
    the edges of the main track join every event to the next. *)
Theorem build_chronology_runs_forward
    (nfc : pystr → pystr) (fuel : nat) (canonical_map : gmap pystr Z)
    (by_book : list (pystr * list Verse.t)) (build : Build.t) :
  main nfc fuel canonical_map by_book = Some (Ok build) →
  let rows := Build.chronology_rows build in
  let ids := EventRow.event_id <$> Build.events_rows build in
  EdgeRow.edge_id <$> rows
  = (λ n, py "EDG" ++ zero_padded 6 n) <$> seqZ 1 (Z.of_nat (length rows))
  ∧ (∀ row, row ∈ rows →
       EdgeRow.relation_type row = py "before"
       ∧ EdgeRow.track_id row
         ∈ [ py "track_main"; py "track_exodus_early"; py "track_exodus_late";
             py "track_gospel_harmony" ]
       ∧ ∃ i j, 1 ≤ i < j ∧ j ≤ Z.of_nat (length ids)
                ∧ EdgeRow.from_event_id row = py "EVT" ++ zero_padded 4 i
                ∧ EdgeRow.to_event_id row = py "EVT" ++ zero_padded 4 j)
  ∧ (λ row, (EdgeRow.from_event_id row, EdgeRow.to_event_id row))
      <$> filter (λ row, EdgeRow.track_id row = py "track_main") rows
    = zip ids (tail ids).
Proof.
  intros Hmain.
  apply main_ok_rows in Hmain
    as (candidates & selected & direct & parallel & Hc & Hs & Hd & Hp & Hval & ->).
  simpl. rewrite build_event_ids.
  split; [apply chronology_rows_numbered|]. split; [|apply chronology_main_track].
  intros row Hrow.
  destruct (chronology_rows_forward (build_objects selected) row) as (Hfwd & Hrel & Htrack);
    [rewrite build_object_ids; apply event_ids_in_order|exact Hrow|].
  split; [exact Hrel|]. split; [exact Htrack|].
  destruct Hfwd as (i & j & Hij & Hfrom & Hto). exists i, j.
  split; [exact Hij|]. split; [|by split].
  apply chronology_rows_ends in Hrow as [_ Hin].
  rewrite length_fmap. rewrite build_object_ids in Hin.
  apply list_elem_of_fmap in Hin as (j' & Hj' & Hseq%elem_of_seqZ).
  rewrite Hto in Hj'. apply event_id_of_inj in Hj'; [|lia..].
  unfold build_objects. rewrite length_imap. lia.
Qed.

Lemma build_chronology_runs_forward_witness :
  ∃ build,
    main (λ s, s) 2 two_gospels_order two_gospels = Some (Ok build)
    ∧ EdgeRow.edge_id <$> Build.chronology_rows build
      = (λ n, py "EDG" ++ zero_padded 6 n)
          <$> seqZ 1 (Z.of_nat (length (Build.chronology_rows build)))
    ∧ length (Build.chronology_rows build) = 2%nat.
Proof.
  eexists. split; [vm_compute; reflexivity|]. split; [|reflexivity].
  apply (build_chronology_runs_forward (λ s, s) 2 two_gospels_order two_gospels).
  vm_compute. reflexivity.
Defined.

(** ** [load_verses] *)

Definition all_verses (files : list ParsedFile.t) : list Verse.t :=
  files ≫= file_verses.

Lemma file_verses_book file v :
  v ∈ file_verses file → Verse.book_name v = ParsedFile.book_name file.
Proof. by intros (line & -> & _)%list_elem_of_fmap. Qed.

Lemma load_file_groups by_book cmap tmap file :
  (load_file (by_book, cmap, tmap) file).1.1
  = foldl (λ g v, group_append g (Verse.book_name v) v) by_book (file_verses file).
Proof.
  unfold load_file. cbn [fst].
  pose proof (file_verses_book file) as Hbook.
  revert by_book. induction (file_verses file) as [|v vs IH]; intros by_book; [done|].
  cbn [foldl]. rewrite (Hbook v) by left.
  apply IH. intros w Hw. apply Hbook. by right.
Qed.

Lemma load_loop_groups files : ∀ by_book cmap tmap,
  (foldl load_file (by_book, cmap, tmap) files).1.1
  = foldl (λ g v, group_append g (Verse.book_name v) v) by_book (all_verses files).
Proof.
  induction files as [|file rest IH]; intros by_book cmap tmap; [done|].
  cbn [foldl]. unfold all_verses. rewrite bind_cons. fold (all_verses rest).
  rewrite foldl_app, <- (load_file_groups by_book cmap tmap file).
  destruct (load_file (by_book, cmap, tmap) file) as [[by_book' cmap'] tmap'].
  apply IH.
Qed.

Lemma load_loop_maps files book : ∀ by_book cmap tmap,
  (is_Some (cmap !! book) ∨ ∃ file, file ∈ files ∧ ParsedFile.book_name file = book) →
  is_Some ((foldl load_file (by_book, cmap, tmap) files).1.2 !! book).
Proof.
  induction files as [|file rest IH]; intros by_book cmap tmap Hbook.
  - destruct Hbook as [Hc|(f & Hf & _)]; [exact Hc|by apply elem_of_nil in Hf].
  - cbn [foldl]. unfold load_file at 2. apply IH.
    destruct (decide (ParsedFile.book_name file = book)) as [<-|Hne].
    + left. rewrite lookup_insert_eq. by eexists.
    + destruct Hbook as [Hc|(f & [->|Hf]%elem_of_cons & Hname)].
      * left. by rewrite lookup_insert_ne.
      * done.
      * right. by exists f.
Qed.

Lemma group_fold_nonempty {X} (key : X → pystr) (l : list X) :
  Forall (λ kv, kv.2 ≠ []) (foldl (λ g x, group_append g (key x) x) [] l).
Proof.
  induction l as [|x l IH] using rev_ind; [constructor|].
  rewrite foldl_app. simpl. by apply group_append_parts.
Qed.

(** [a] does not come after [b] by chapter and verse. *)
Definition verse_le (a b : Verse.t) : Prop :=
  Verse.chapter a < Verse.chapter b
  ∨ (Verse.chapter a = Verse.chapter b ∧ Verse.verse a ≤ Verse.verse b).

Lemma verse_before_false a b : verse_before b a = false ↔ verse_le a b.
Proof.
  unfold verse_before, verse_le.
  rewrite orb_false_iff, andb_false_iff, Z.ltb_ge, Z.eqb_neq, Z.ltb_ge. lia.
Qed.

Lemma verses_sorted (verses : list Verse.t) :
  StronglySorted verse_le (stable_sort verse_before verses).
Proof.
  eapply StronglySorted_weaken; [|apply (stable_sort_sorted verse_before)].
  - intros a b. apply verse_before_false.
  - intros a b Hab. apply verse_before_false.
    unfold verse_before in Hab. unfold verse_le. 
    apply orb_true_iff in Hab as [Hc%Z.ltb_lt|[Hc%Z.eqb_eq Hv%Z.ltb_lt]%andb_true_iff]; lia.
  - intros a b c. unfold may_precede. rewrite !verse_before_false.
    unfold verse_le. lia.
Qed.

(** X24. [load_verses] succeeds exactly when the lines of the files belong to
    66 books at least, and otherwise raises the error that counts the
    books read. It returns every book once; the verses of a book are the
    verses of the files of that name, and no other, sorted by chapter and
    verse; and the canonical order map has an entry for every book
    returned, so that the lookup of [main] never misses. *)
Theorem load_verses_groups_by_book (files : list ParsedFile.t) :
  let verses := all_verses files in
  let books : gset pystr := list_to_set (Verse.book_name <$> verses) in
  (is_ok (load_verses files) ↔ (66 ≤ size books)%nat)
  ∧ (∀ e, load_verses files = Err e → e = BooksMissing (size books))
  ∧ ∀ by_book canonical_order_map testament_map,
      load_verses files = Ok (by_book, canonical_order_map, testament_map) →
      NoDup by_book.*1
      ∧ list_to_set by_book.*1 = books
      ∧ ∀ book book_verses,
          (book, book_verses) ∈ by_book →
          book_verses ≠ []
          ∧ book_verses ≡ₚ filter (λ v, Verse.book_name v = book) verses
          ∧ StronglySorted verse_le book_verses
          ∧ is_Some (canonical_order_map !! book).
Proof.
  intros verses books. unfold load_verses.
  pose proof (load_loop_groups files [] ∅ ∅) as Hgroups.
  pose proof (λ book, load_loop_maps files book [] ∅ ∅) as Hmaps.
  destruct (foldl load_file ([], ∅, ∅) files) as [[groups cmap] tmap].
  cbn [fst snd] in Hgroups, Hmaps. fold verses in Hgroups.
  destruct (group_fold_spec Verse.book_name id verses) as (Hnd & Hkeys & Hfilter).
  pose proof (group_fold_nonempty Verse.book_name verses) as Hne.
  cbv zeta in Hnd, Hkeys, Hfilter. rewrite <- Hgroups in Hne.
  assert (groups = foldl (λ g x, group_append g (Verse.book_name x) (id x)) [] verses)
    as Hg by exact Hgroups.
  rewrite <- Hg in Hnd, Hkeys, Hfilter. clear Hgroups Hg.
  assert (∀ book vs, (book, vs) ∈ groups →
            vs = filter (λ v, Verse.book_name v = book) verses ∧ vs ≠ []) as Hgroup.
  { intros book vs Hin. split.
    - rewrite (Hfilter _ _ Hin). apply list_fmap_id.
    - rewrite Forall_forall in Hne. exact (Hne _ Hin). }
  assert ((list_to_set groups.*1 : gset pystr) = books) as Hbooks.
  { apply set_eq. intros book. unfold books.
    rewrite !elem_of_list_to_set. split.
    - intros ([k vs] & -> & Hin)%list_elem_of_fmap. simpl.
      destruct (Hgroup _ _ Hin) as [Hvs Hnon].
      destruct vs as [|v vs]; [done|].
      assert (v ∈ filter (λ v, Verse.book_name v = k) verses) as Hv
        by (rewrite <- Hvs; left).
      apply list_elem_of_filter in Hv as [<- Hv].
      apply list_elem_of_fmap. by exists v.
    - intros (v & -> & Hv)%list_elem_of_fmap. by apply Hkeys. }
  assert (size books = length groups) as Hsize.
  { rewrite <- Hbooks, size_list_to_set by exact Hnd. apply length_fmap. }
  rewrite Hsize. split; [|split].
  - case_decide as Hfew; split.
    + intros [? ?]. done.
    + lia.
    + lia.
    + intros _. unfold is_ok. by eexists.
  - intros e. case_decide; [|done]. by intros [= <-].
  - intros by_book cmap' tmap'. case_decide; [done|]. intros [= <- <- <-].
    assert (((λ kv : pystr * list Verse.t, (kv.1, stable_sort verse_before kv.2))
               <$> groups).*1 = groups.*1) as Hfst.
    { by rewrite <- list_fmap_compose. }
    rewrite Hfst. split; [exact Hnd|]. split; [exact Hbooks|].
    intros book vs ([k vs0] & [= -> ->] & Hin)%list_elem_of_fmap. simpl.
    destruct (Hgroup _ _ Hin) as [Hvs Hnon].
    split; [|split; [|split]].
    + intros Hnil. apply Hnon.
      apply (f_equal length) in Hnil. rewrite stable_sort_length in Hnil.
      by destruct vs0.
    + by rewrite stable_sort_perm, <- Hvs.
    + apply verses_sorted.
    + apply Hmaps. right.
      destruct vs0 as [|v vs0]; [done|].
      assert (v ∈ verses) as Hv.
      { assert (v ∈ filter (λ v, Verse.book_name v = k) verses) as Hv
          by (rewrite <- Hvs; left).
        by apply list_elem_of_filter in Hv as [_ ?]. }
      assert (Verse.book_name v = k) as Hk.
      { assert (v ∈ filter (λ v, Verse.book_name v = k) verses) as Hv'
          by (rewrite <- Hvs; left).
        by apply list_elem_of_filter in Hv' as [? _]. }
      unfold verses, all_verses in Hv.
      apply list_elem_of_bind in Hv as (file & Hvf & Hfile).
      exists file. split; [exact Hfile|]. rewrite <- Hk. symmetry.
      by apply file_verses_book.
Qed.

(** Sixty-six files of two lines each, the second chapter first. *)
Definition sixty_six_books : list ParsedFile.t :=
  (λ order,
     ParsedFile.mk (py "1") order (py "book" ++ str_of_int order)
       [ ParsedLine.mk (py "b") 2 1 (py "second"); ParsedLine.mk (py "b") 1 1 (py "first") ])
    <$> seqZ 1 66.

Lemma load_verses_groups_by_book_witness :
  is_ok (load_verses sixty_six_books).
Proof.
  apply (proj1 (load_verses_groups_by_book sixty_six_books)).
  vm_compute. lia.
Defined.

Example sixty_six_books_loaded :
  match load_verses sixty_six_books with
  | Ok (by_book, canonical_order_map, _) =>
      length by_book = 66%nat
      ∧ (Verse.text <$> default [] (snd <$> head by_book)) = [ py "first"; py "second" ]
      ∧ canonical_order_map !! py "book66" = Some 66
  | Err _ => False
  end.
Proof. vm_compute. repeat split. Qed.
